(** * clean-vue3: the reactive layer and the virtual-tree reconciler

    A shallow embedding of the three core files of the repository:
    - [vdom/index.js]: [h], [render], [mount], [patch], [patchProps],
      [patchChildren], [hasKeyedChildren], [patchUnkeyedChildren],
      [patchKeyedChildren], [findAnchor];
    - [reactivity/index.js]: [track], [trigger], [reactive], [effect];
    - [component.js]: [createApp], [renderComponent].

    JavaScript objects that the code mutates are threaded explicitly.  The
    host document is a heap of nodes together with the list of backend
    calls made so far; a function that assigns the [el] slot of a
    descriptor returns the descriptor so bound.  [activeEffect] and
    [targetMap] are fields of the state of the reactive layer.

    What the embedding takes for granted:
    - descriptors are built by [h], so their children are an array; a child
      is a string or a descriptor; the old tree and the new tree share no
      object and no descriptor occurs twice in a tree;
    - a property value is [undefined], [null], a boolean, an integer, a
      string or a function known by identity, so that [===] is equality;
      the functions that every object inherits from [Object.prototype]
      are among them; a string is a sequence of characters below U+0100;
    - a property bag is an object literal: its prototype is
      [Object.prototype], whose properties are not enumerable;
    - the files are ES modules, hence strict code;
    - the document behaves as a DOM does: [createElement] and
      [setAttribute] throw an InvalidCharacterError when the name they
      are given is not a name of XML, [addEventListener] and
      [removeEventListener] throw a TypeError when their callback is
      neither an object nor [null] or [undefined] and do nothing for
      [null] and [undefined]; [appendChild] and [insertBefore] first
      unlink the node they are given, [insertBefore] and [removeChild]
      throw when their reference node is not a child of the parent;
      ancestor cycles are not checked for, and attribute names are kept
      as they are given. *)

From Stdlib Require Import ZArith Ascii String.
From stdpp Require Import base option list gmap strings.

Open Scope string_scope.
Open Scope list_scope.

(** ** JavaScript values stored in attributes and reactive fields *)

Module Js.

(** Property values.  Functions (event handlers) compare by identity,
    numbers are integers.  [VBuiltin name] is what [Object.prototype]
    holds under [name]. *)
Inductive value :=
| VUndef
| VNull
| VBool (b : bool)
| VNum (z : Z)
| VStr (s : string)
| VFun (id : nat)
| VBuiltin (name : string).

#[global] Instance value_eq_dec : EqDecision value.
Proof. solve_decision. Defined.

Definition value_code (v : value)
  : unit + (unit + (bool + (Z + (string + (nat + string))))) :=
  match v with
  | VUndef => inl tt
  | VNull => inr (inl tt)
  | VBool b => inr (inr (inl b))
  | VNum z => inr (inr (inr (inl z)))
  | VStr s => inr (inr (inr (inr (inl s))))
  | VFun n => inr (inr (inr (inr (inr (inl n)))))
  | VBuiltin s => inr (inr (inr (inr (inr (inr s)))))
  end.

Definition value_decode (c : unit + (unit + (bool + (Z + (string + (nat + string))))))
  : value :=
  match c with
  | inl _ => VUndef
  | inr (inl _) => VNull
  | inr (inr (inl b)) => VBool b
  | inr (inr (inr (inl z))) => VNum z
  | inr (inr (inr (inr (inl s)))) => VStr s
  | inr (inr (inr (inr (inr (inl n))))) => VFun n
  | inr (inr (inr (inr (inr (inr s))))) => VBuiltin s
  end.

#[global] Instance value_countable : Countable value.
Proof.
  apply (inj_countable' value_code value_decode).
  intros v. destruct v; reflexivity.
Defined.

(** [if (v)] *)
Definition truthy (v : value) : bool :=
  match v with
  | VUndef | VNull => false
  | VBool b => b
  | VNum z => negb (Z.eqb z 0)
  | VStr s => negb (String.eqb s "")
  | VFun _ | VBuiltin _ => true
  end.

(** [a === b] *)
Definition strict_eq (a b : value) : bool := bool_decide (a = b).

(** A plain object used as a property bag, in enumeration order. *)
Definition object := list (string * value).

(** The own property [k] of [o], [undefined] when there is none. *)
Fixpoint own (o : object) (k : string) : value :=
  match o with
  | [] => VUndef
  | (k', v) :: o' => if String.eqb k' k then v else own o' k
  end.

(** [Object.hasOwn(o, k)] *)
Fixpoint has_own (k : string) (o : object) : bool :=
  match o with
  | [] => false
  | (k', _) :: o' => if String.eqb k' k then true else has_own k o'
  end.

(** The names of the properties of [Object.prototype]. *)
Definition inherited (k : string) : bool :=
  bool_decide (k ∈ ["constructor"; "hasOwnProperty"; "isPrototypeOf";
                    "propertyIsEnumerable"; "toLocaleString"; "toString"; "valueOf";
                    "__defineGetter__"; "__defineSetter__"; "__lookupGetter__";
                    "__lookupSetter__"; "__proto__"]).

(** [o[k]]: the own property, or else what [Object.prototype] holds
    under that name, or else [undefined]. *)
Definition js_get (o : object) (k : string) : value :=
  if has_own k o then own o k
  else if inherited k then VBuiltin k
  else VUndef.

(** [k in o]: own or inherited. *)
Definition js_in (k : string) (o : object) : bool :=
  has_own k o || inherited k.

(** The keys visited by [for (const k in o)]. *)
Definition js_keys (o : object) : list string := map fst o.

(** [k.startsWith('on')] *)
Definition startsWith_on (k : string) : bool := String.prefix "on" k.

(** The lower case of a character below U+0100: the letters A to Z and
    the accented capitals U+00C0 to U+00DE, the sign U+00D7 apart. *)
Definition lower_ascii (c : ascii) : ascii :=
  let n := nat_of_ascii c in
  if ((65 <=? n) && (n <=? 90) || (192 <=? n) && (n <=? 214)
      || (216 <=? n) && (n <=? 222))%nat
  then ascii_of_nat (n + 32) else c.

(** [s.toLowerCase()] *)
Fixpoint toLowerCase (s : string) : string :=
  match s with
  | EmptyString => EmptyString
  | String c s' => String (lower_ascii c) (toLowerCase s')
  end.

(** [s.slice(2)] *)
Definition slice2 (s : string) : string :=
  match s with
  | String _ (String _ r) => r
  | _ => EmptyString
  end.

(** [key.slice(2).toLowerCase()]: [onClick] names the event [click]. *)
Definition eventName (key : string) : string := toLowerCase (slice2 key).

End Js.

Export Js.

(** ** The node backend: a document heap with a log of backend calls *)

Module Dom.

Inductive payload :=
| Elem (tag : string) (attrs : object) (listeners : list (string * value))
| TextNode (text : string).

Record dnode := DNode { n_payload : payload; n_kids : list nat }.

(** The backend calls made on the document; a call that throws is not
    recorded. *)
Inductive op :=
| OpCreateElement (id : nat) (tag : string)
| OpCreateText (id : nat) (text : string)
| OpSetAttribute (el : nat) (k : string) (v : value)
| OpRemoveAttribute (el : nat) (k : string)
| OpAddListener (el : nat) (ev : string) (handler : value)
| OpRemoveListener (el : nat) (ev : string) (handler : value)
| OpAppendChild (parent child : nat)
| OpInsertBefore (parent child anchor : nat)
| OpRemoveChild (parent child : nat)
| OpSetText (node : nat) (text : string).

#[global] Instance op_eq_dec : EqDecision op.
Proof. solve_decision. Defined.

(** A node handle is its index in [heap]; nodes are never freed. *)
Record dom := Dom { heap : list dnode; log : list op }.

Inductive error := TypeError | NotFoundError | InvalidCharacterError.

Inductive res (A : Type) :=
| Ok (a : A)
| Err (e : error).
Arguments Ok {A} a.
Arguments Err {A} e.

(** Computations over the document that may throw. *)
Definition M (A : Type) : Type := dom -> res A * dom.

Definition ret {A} (a : A) : M A := fun st => (Ok a, st).
Definition throw {A} (e : error) : M A := fun st => (Err e, st).
Definition bind {A B} (m : M A) (f : A -> M B) : M B :=
  fun st =>
    match m st with
    | (Ok a, st') => f a st'
    | (Err e, st') => (Err e, st')
    end.

Notation "'let*' x ':=' m 'in' k" := (bind m (fun x => k))
  (at level 10, x pattern, m at level 100, k at level 200).
Notation "m ';;' k" := (bind m (fun _ => k))
  (at level 100, k at level 200, right associativity).

Definition kids (st : dom) (q : nat) : list nat :=
  match heap st !! q with
  | Some nd => n_kids nd
  | None => []
  end.

Definition emit (o : op) : M unit :=
  fun st => (Ok tt, Dom (heap st) (log st ++ [o])).

Definition update_heap (f : list dnode -> list dnode) : M unit :=
  fun st => (Ok tt, Dom (f (heap st)) (log st)).

Definition set_kids (f : list nat -> list nat) (nd : dnode) : dnode :=
  DNode (n_payload nd) (f (n_kids nd)).

Definition set_payload (f : payload -> payload) (nd : dnode) : dnode :=
  DNode (f (n_payload nd)) (n_kids nd).

(** Unlink [c] from whatever child list holds it. *)
Definition detach (c : nat) (h : list dnode) : list dnode :=
  map (set_kids (filter (fun x => x <> c))) h.

(** Put [c] in front of the first occurrence of [a]. *)
Fixpoint insert_before (c a : nat) (l : list nat) : list nat :=
  match l with
  | [] => []
  | x :: l' => if decide (x = a) then c :: x :: l' else x :: insert_before c a l'
  end.

(** Object-valued property update: replace in place or add at the end. *)
Fixpoint obj_set (k : string) (v : value) (o : object) : object :=
  match o with
  | [] => [(k, v)]
  | (k', v') :: o' => if String.eqb k' k then (k, v) :: o' else (k', v') :: obj_set k v o'
  end.

Definition obj_del (k : string) (o : object) : object :=
  filter (fun kv => fst kv <> k) o.

(** [a.nextSibling] inside the child list [l]. *)
Fixpoint next_in (e : nat) (l : list nat) : option nat :=
  match l with
  | [] => None
  | x :: l' => if decide (x = e) then head l' else next_in e l'
  end.

(** [e.parentNode]: the node whose child list holds [e]. *)
Definition parent_of (st : dom) (e : nat) : option nat :=
  fst <$> list_find (fun nd => e ∈ n_kids nd) (heap st).

(** The first character of a name of XML, among the characters below
    U+0100: a letter, [:] or [_]. *)
Definition name_start (c : ascii) : bool :=
  let n := nat_of_ascii c in
  ((n =? 58) || ((65 <=? n) && (n <=? 90)) || (n =? 95) || ((97 <=? n) && (n <=? 122))
   || ((192 <=? n) && (n <=? 214)) || ((216 <=? n) && (n <=? 246)) || (248 <=? n))%nat.

(** The other characters of a name: also [-], [.], a digit and U+00B7. *)
Definition name_char (c : ascii) : bool :=
  let n := nat_of_ascii c in
  (name_start c || (n =? 45) || (n =? 46) || ((48 <=? n) && (n <=? 57)) || (n =? 183))%nat.

Fixpoint name_chars (s : string) : bool :=
  match s with
  | EmptyString => true
  | String c r => name_char c && name_chars r
  end.

(** The names [createElement] and [setAttribute] accept. *)
Definition valid_name (s : string) : bool :=
  match s with
  | EmptyString => false
  | String c r => name_start c && name_chars r
  end.

(** How the callback of [addEventListener] and [removeEventListener] is
    read: an object is a listener, [null] and [undefined] stand for no
    listener, any other value is refused. *)
Definition is_object (v : value) : bool :=
  match v with
  | VFun _ | VBuiltin _ => true
  | _ => false
  end.

Definition nullish (v : value) : bool :=
  match v with
  | VUndef | VNull => true
  | _ => false
  end.

(** [document.createElement(tag)] *)
Definition createElement (tag : string) : M nat :=
  fun st =>
    if valid_name tag then
      let id := length (heap st) in
      (Ok id, Dom (heap st ++ [DNode (Elem tag [] []) []])
                  (log st ++ [OpCreateElement id tag]))
    else (Err InvalidCharacterError, st).

(** [document.createTextNode(text)] *)
Definition createTextNode (text : string) : M nat :=
  fun st =>
    let id := length (heap st) in
    (Ok id, Dom (heap st ++ [DNode (TextNode text) []])
                (log st ++ [OpCreateText id text])).

(** Dereferencing a handle that may be [null]. *)
Definition deref (e : option nat) : M nat :=
  match e with
  | Some n => ret n
  | None => throw TypeError
  end.

Definition on_elem (f : string -> object -> list (string * value) -> payload)
    (p : payload) : payload :=
  match p with
  | Elem tag attrs ls => f tag attrs ls
  | TextNode s => TextNode s
  end.

(** [el.setAttribute(k, v)] *)
Definition setAttribute (el : nat) (k : string) (v : value) : M unit :=
  if valid_name k then
    update_heap (alter (set_payload (on_elem (fun t a l => Elem t (obj_set k v a) l))) el);;
    emit (OpSetAttribute el k v)
  else throw InvalidCharacterError.

(** [el.removeAttribute(k)] *)
Definition removeAttribute (el : nat) (k : string) : M unit :=
  update_heap (alter (set_payload (on_elem (fun t a l => Elem t (obj_del k a) l))) el);;
  emit (OpRemoveAttribute el k).

(** [el.addEventListener(ev, handler)]: an identical registration is kept once. *)
Definition addEventListener (el : nat) (ev : string) (handler : value) : M unit :=
  if is_object handler then
    update_heap (alter (set_payload (on_elem (fun t a l =>
      Elem t a (if bool_decide ((ev, handler) ∈ l) then l else l ++ [(ev, handler)])))) el);;
    emit (OpAddListener el ev handler)
  else if nullish handler then emit (OpAddListener el ev handler)
  else throw TypeError.

(** [el.removeEventListener(ev, handler)] *)
Definition removeEventListener (el : nat) (ev : string) (handler : value) : M unit :=
  if is_object handler then
    update_heap (alter (set_payload (on_elem (fun t a l =>
      Elem t a (filter (fun p => p <> (ev, handler)) l)))) el);;
    emit (OpRemoveListener el ev handler)
  else if nullish handler then emit (OpRemoveListener el ev handler)
  else throw TypeError.

(** [parent.appendChild(c)]: [c] leaves its former place first. *)
Definition appendChild (parent c : nat) : M unit :=
  update_heap (fun h => alter (set_kids (fun l => l ++ [c])) parent (detach c h));;
  emit (OpAppendChild parent c).

(** [parent.insertBefore(c, a)] with a non-null anchor [a]. *)
Definition insertBefore (parent c a : nat) : M unit :=
  fun st =>
    if bool_decide (a ∈ kids st parent) then
      if decide (c = a) then emit (OpInsertBefore parent c a) st
      else (update_heap (fun h => alter (set_kids (insert_before c a)) parent (detach c h));;
            emit (OpInsertBefore parent c a)) st
    else (Err NotFoundError, st).

(** [parent.removeChild(c)] *)
Definition removeChild (parent c : nat) : M unit :=
  fun st =>
    if bool_decide (c ∈ kids st parent) then
      (update_heap (alter (set_kids (filter (fun x => x <> c))) parent);;
       emit (OpRemoveChild parent c)) st
    else (Err NotFoundError, st).

(** [n.textContent = text]: a text node takes the text; an element drops
    its children and, for a non-empty text, receives one text child. *)
Definition setTextContent (n : nat) (text : string) : M unit :=
  fun st =>
    match heap st !! n with
    | Some (DNode (TextNode _) _) =>
        (Ok tt, Dom (alter (set_payload (fun _ => TextNode text)) n (heap st))
                    (log st ++ [OpSetText n text]))
    | Some (DNode (Elem _ _ _) _) =>
        let h1 := alter (set_kids (fun _ => [])) n (heap st) in
        if String.eqb text "" then (Ok tt, Dom h1 (log st ++ [OpSetText n text]))
        else
          let id := length h1 in
          (Ok tt, Dom (alter (set_kids (fun _ => [id])) n (h1 ++ [DNode (TextNode text) []]))
                      (log st ++ [OpSetText n text]))
    | None => (Err TypeError, st)
    end.

(** [e.parentNode] and [e.nextSibling] *)
Definition parentNode (e : nat) : M (option nat) :=
  fun st => (Ok (parent_of st e), st).

Definition nextSibling (e : nat) : M (option nat) :=
  fun st =>
    (Ok (match parent_of st e with
         | Some p => next_in e (kids st p)
         | None => None
         end), st).

(** [container.childNodes[i]] *)
Definition childNode (container i : nat) : M (option nat) :=
  fun st => (Ok (kids st container !! i), st).

Definition empty_dom : dom := Dom [] [].

End Dom.

Export Dom.

(** ** vdom/index.js *)

Module VDom.

(** A descriptor as [h] builds it; a child is a string or a descriptor.
    The [el] slot is [None] while it holds [null]. *)
Inductive vnode :=
| VNode (tag : string) (props : object) (children : list child)
        (key : value) (el : option nat)
with child :=
| CText (s : string)
| CNode (v : vnode).

Definition tag (v : vnode) : string := let 'VNode t _ _ _ _ := v in t.
Definition props (v : vnode) : object := let 'VNode _ p _ _ _ := v in p.
Definition children (v : vnode) : list child := let 'VNode _ _ c _ _ := v in c.
Definition key (v : vnode) : value := let 'VNode _ _ _ k _ := v in k.
Definition el (v : vnode) : option nat := let 'VNode _ _ _ _ e := v in e.

(** The third argument of [h]: an array, a single value, or [null]
    (which every later use reads as no children). *)
Inductive hchildren :=
| HArray (cs : list child)
| HSingle (c : child)
| HNull.

Definition h (tag : string) (props : object) (children : hchildren) : vnode :=
  VNode tag props
        (match children with
         | HArray cs => cs
         | HSingle c => [c]
         | HNull => []
         end)
        (js_get props "key")
        None.

Fixpoint forEach {A} (f : A -> M unit) (l : list A) : M unit :=
  match l with
  | [] => ret tt
  | x :: l' => f x;; forEach f l'
  end.

(** Body of the property loop of [mount]. *)
Definition mountProp (el : nat) (props : object) (key : string) : M unit :=
  if startsWith_on key
  then addEventListener el (eventName key) (js_get props key)
  else setAttribute el key (js_get props key).

(** Body of [vnode.children.forEach] in [mount]; [mount] is the recursive call. *)
Definition mountChildren (mount : vnode -> option nat -> M vnode) (el : nat)
  : list child -> M (list child) :=
  fix go (cs : list child) : M (list child) :=
    match cs with
    | [] => ret []
    | CText s :: cs' =>
        let* t := createTextNode s in
        appendChild el t;;
        let* r := go cs' in
        ret (CText s :: r)
    | CNode c :: cs' =>
        let* c' := mount c (Some el) in
        let* r := go cs' in
        ret (CNode c' :: r)
    end.

Fixpoint mount (node : vnode) (container : option nat) {struct node} : M vnode :=
  match node with
  | VNode tag props children key _ =>
      let* el := createElement tag in
      forEach (mountProp el props) (js_keys props);;
      let* children' := mountChildren mount el children in
      let* c := deref container in
      appendChild c el;;
      ret (VNode tag props children' key (Some el))
  end.

(** [mount] handed a string: [vnode.tag] is [undefined], an element of
    that name is created, and the assignment [vnode.el = el] throws in
    module (strict) code. *)
Definition mountString : M child :=
  createElement "undefined";; throw TypeError.

(** [mount(child, container)] as the children algorithms call it. *)
Definition mountChild (c : child) (container : option nat) : M child :=
  match c with
  | CText _ => mountString
  | CNode v => let* v' := mount v container in ret (CNode v')
  end.

(** First loop of [patchProps]. *)
Definition patchNewProp (el : option nat) (oldProps newProps : object) (key : string)
  : M unit :=
  let oldValue := js_get oldProps key in
  let newValue := js_get newProps key in
  if strict_eq oldValue newValue then ret tt
  else if startsWith_on key then
    (if truthy oldValue
     then let* e := deref el in removeEventListener e (eventName key) oldValue
     else ret tt);;
    let* e := deref el in
    addEventListener e (eventName key) newValue
  else
    let* e := deref el in
    setAttribute e key newValue.

(** Second loop of [patchProps]. *)
Definition patchOldProp (el : option nat) (oldProps newProps : object) (key : string)
  : M unit :=
  if js_in key newProps then ret tt
  else if startsWith_on key then
    let* e := deref el in
    removeEventListener e (eventName key) (js_get oldProps key)
  else
    let* e := deref el in
    removeAttribute e key.

Definition patchProps (el : option nat) (oldProps newProps : object) : M unit :=
  forEach (patchNewProp el oldProps newProps) (js_keys newProps);;
  forEach (patchOldProp el oldProps newProps) (js_keys oldProps).

Definition is_keyed (c : child) : bool :=
  match c with
  | CText _ => false
  | CNode v => negb (strict_eq (key v) VUndef)
  end.

Definition hasKeyedChildren (children : list child) : bool := existsb is_keyed children.

(** The live node of an old child in the index algorithm: by position
    for a string, by [el] for a descriptor. *)
Definition oldElOf (container : option nat) (i : nat) (oldChild : child)
  : M (option nat) :=
  match oldChild with
  | CText _ => let* c := deref container in childNode c i
  | CNode ov => ret (el ov)
  end.

(** Body of the first loop of [patchUnkeyedChildren]. *)
Definition unkeyedVisit (patch : vnode -> vnode -> M vnode) (container : option nat)
    (i : nat) (oldChild newChild : child) : M child :=
  match oldChild, newChild with
  | CText a, CText b =>
      if String.eqb a b then ret newChild
      else
        let* c := deref container in
        let* t := childNode c i in
        let* textNode := deref t in
        setTextContent textNode b;;
        ret newChild
  | CNode ov, CNode nv =>
      let* nv' := patch ov nv in
      ret (CNode nv')
  | _, _ =>
      let* oldEl := oldElOf container i oldChild in
      let* c := deref container in
      let* e := deref oldEl in
      removeChild c e;;
      mountChild newChild container
  end.

Definition unkeyedCommon (patch : vnode -> vnode -> M vnode) (container : option nat)
  : list child -> list child -> nat -> M (list child) :=
  fix go (olds news : list child) (i : nat) : M (list child) :=
    match olds, news with
    | o :: olds', n :: news' =>
        let* n' := unkeyedVisit patch container i o n in
        let* r := go olds' news' (S i) in
        ret (n' :: r)
    | _, _ => ret []
    end.

Fixpoint mountAll (cs : list child) (container : option nat) : M (list child) :=
  match cs with
  | [] => ret []
  | c :: cs' =>
      let* c' := mountChild c container in
      let* r := mountAll cs' container in
      ret (c' :: r)
  end.

(** Body of the third loop of [patchUnkeyedChildren]. *)
Definition removeOld (container : option nat) (oldChildren : list child) (i : nat)
  : M unit :=
  match oldChildren !! i with
  | Some oldChild =>
      let* oldEl := oldElOf container i oldChild in
      let* c := deref container in
      let* e := deref oldEl in
      removeChild c e
  | None => ret tt
  end.

Definition patchUnkeyedChildren (patch : vnode -> vnode -> M vnode)
    (oldChildren newChildren : list child) (container : option nat)
  : M (list child) :=
  let oldLength := length oldChildren in
  let newLength := length newChildren in
  let commonLength := oldLength `min` newLength in
  let* common := unkeyedCommon patch container oldChildren newChildren 0 in
  let* added := mountAll (drop commonLength newChildren) container in
  forEach (removeOld container oldChildren)
          (rev (seq commonLength (oldLength - commonLength)));;
  ret (common ++ added).

(** Step 1 of [patchKeyedChildren]: [keyToNewIndexMap]. *)
Fixpoint keyToNewIndexMap (newChildren : list child) (i : nat) (m : gmap value nat)
  : gmap value nat :=
  match newChildren with
  | [] => m
  | c :: r =>
      keyToNewIndexMap r (S i)
        (match c with
         | CNode v => if strict_eq (key v) VUndef then m else <[key v := i]> m
         | CText _ => m
         end)
  end.

(** The bookkeeping of [patchKeyedChildren]; [ks_new] carries the new
    children with the [el] slots assigned so far. *)
Record keyed := Keyed {
  oldIndexToNewIndexMap : gmap nat nat;
  newIndices : gset nat;
  ks_new : list child
}.

(** Body of the loop of step 2. *)
Definition keyedVisit (patch : vnode -> vnode -> M vnode) (container : option nat)
    (k2n : gmap value nat) (oldIndex : nat) (oldChild : child) (ks : keyed)
  : M keyed :=
  match oldChild with
  | CText _ => ret ks
  | CNode ov =>
      if strict_eq (key ov) VUndef then ret ks
      else
        match k2n !! key ov with
        | Some newIndex =>
            match ks_new ks !! newIndex with
            | Some (CNode nv) =>
                let* nv' := patch ov nv in
                ret (Keyed (<[oldIndex := newIndex]> (oldIndexToNewIndexMap ks))
                           ({[newIndex]} ∪ newIndices ks)
                           (<[newIndex := CNode nv']> (ks_new ks)))
            | _ => throw TypeError
            end
        | None =>
            let* c := deref container in
            let* e := deref (el ov) in
            removeChild c e;;
            ret ks
        end
  end.

Definition keyedMatch (patch : vnode -> vnode -> M vnode) (container : option nat)
    (k2n : gmap value nat) : list child -> nat -> keyed -> M keyed :=
  fix go (olds : list child) (oldIndex : nat) (ks : keyed) : M keyed :=
    match olds with
    | [] => ret ks
    | o :: olds' =>
        let* ks' := keyedVisit patch container k2n oldIndex o ks in
        go olds' (S oldIndex) ks'
    end.

Fixpoint findAnchorFrom (cs : list child) (i : nat) (newIndices : gset nat)
  : option nat :=
  match cs with
  | [] => None
  | c :: r =>
      if bool_decide (i ∈ newIndices) then
        match c with
        | CNode v =>
            match el v with
            | Some e => Some e
            | None => findAnchorFrom r (S i) newIndices
            end
        | CText _ => findAnchorFrom r (S i) newIndices
        end
      else findAnchorFrom r (S i) newIndices
  end.

Definition findAnchor (targetIndex : nat) (newChildren : list child)
    (newIndices : gset nat) : option nat :=
  findAnchorFrom (drop (S targetIndex) newChildren) (S targetIndex) newIndices.

(** Step 3: [idx] lists the old indices from the last to the first. *)
Fixpoint keyedMove (container : option nat) (oldChildren : list child) (ks : keyed)
    (idx : list nat) (lastMovedIndex : Z) : M unit :=
  match idx with
  | [] => ret tt
  | oldIndex :: idx' =>
      match oldIndexToNewIndexMap ks !! oldIndex, oldChildren !! oldIndex with
      | Some newIndex, Some (CNode ov) =>
          if (Z.of_nat newIndex >? lastMovedIndex)%Z
          then keyedMove container oldChildren ks idx' (Z.of_nat newIndex)
          else
            (match findAnchor newIndex (ks_new ks) (newIndices ks) with
             | Some anchor =>
                 let* c := deref container in
                 let* e := deref (el ov) in
                 insertBefore c e anchor
             | None =>
                 let* c := deref container in
                 let* e := deref (el ov) in
                 appendChild c e
             end);;
            keyedMove container oldChildren ks idx' lastMovedIndex
      | Some _, _ => throw TypeError
      | None, _ => keyedMove container oldChildren ks idx' lastMovedIndex
      end
  end.

(** Step 4: [idx] lists the new indices from the first to the last. *)
Fixpoint keyedInsert (container : option nat) (indices : gset nat)
    (news : list child) (idx : list nat) : M (list child) :=
  match idx with
  | [] => ret news
  | newIndex :: idx' =>
      if bool_decide (newIndex ∈ indices)
      then keyedInsert container indices news idx'
      else
        match news !! newIndex with
        | Some newChild =>
            let anchor := findAnchor newIndex news indices in
            let* c' := mountChild newChild container in
            (match anchor with
             | Some a =>
                 let* c := deref container in
                 let* e := deref (match c' with CNode v => el v | CText _ => None end) in
                 insertBefore c e a
             | None => ret tt
             end);;
            keyedInsert container indices (<[newIndex := c']> news) idx'
        | None => keyedInsert container indices news idx'
        end
  end.

Definition patchKeyedChildren (patch : vnode -> vnode -> M vnode)
    (oldChildren newChildren : list child) (container : option nat)
  : M (list child) :=
  let k2n := keyToNewIndexMap newChildren 0 ∅ in
  let* ks := keyedMatch patch container k2n oldChildren 0 (Keyed ∅ ∅ newChildren) in
  keyedMove container oldChildren ks (rev (seq 0 (length oldChildren))) (-1);;
  keyedInsert container (newIndices ks) (ks_new ks) (seq 0 (length newChildren)).

(** [patchChildren] for descriptors built by [h], whose children are arrays. *)
Definition patchChildren (patch : vnode -> vnode -> M vnode)
    (oldChildren newChildren : list child) (container : option nat)
  : M (list child) :=
  if hasKeyedChildren newChildren
  then patchKeyedChildren patch oldChildren newChildren container
  else patchUnkeyedChildren patch oldChildren newChildren container.

(** The branch of [patch] taken when the tags differ. *)
Definition replaceNode (oldEl : option nat) (newVnode : vnode) : M vnode :=
  let* oe := deref oldEl in
  let* parent := parentNode oe in
  let* next := nextSibling oe in
  let* p := deref parent in
  removeChild p oe;;
  let* nv := mount newVnode (Some p) in
  let* ne := deref (el nv) in
  (match next with
   | Some s => insertBefore p ne s
   | None => appendChild p ne
   end);;
  ret nv.

(** [patch(oldVnode, newVnode)]; the result is [newVnode] with the [el]
    slots it was given. *)
Fixpoint patch (oldVnode newVnode : vnode) {struct oldVnode} : M vnode :=
  match oldVnode with
  | VNode otag oprops ochildren _ oel =>
      if negb (String.eqb otag (tag newVnode)) then replaceNode oel newVnode
      else
        patchProps oel oprops (props newVnode);;
        let* cs := patchChildren patch ochildren (children newVnode) oel in
        ret (VNode (tag newVnode) (props newVnode) cs (key newVnode) oel)
  end.

(** [render(vnode, container)]; [prev] is [container._vnode]. *)
Definition render (prev : option vnode) (node : vnode) (container : nat) : M vnode :=
  match prev with
  | Some old => patch old node
  | None => mount node (Some container)
  end.

End VDom.

Export VDom.

(** ** reactivity/index.js *)

Module Reactivity.

(** The body [fn] of a task, as the runtime sees it: the reads and
    writes it performs on reactive proxies ([Get], [Put]), accesses to
    the underlying target that go round the proxy ([RawGet], [RawPut]),
    and how it ends.  Targets are known by identity. *)
Inductive prog :=
| Ret
| Throw
| Get (target : nat) (key : string) (k : value -> prog)
| Put (target : nat) (key : string) (v : value) (k : prog)
| RawGet (target : nat) (key : string) (k : value -> prog)
| RawPut (target : nat) (key : string) (v : value) (k : prog).

(** What an observer of the runtime can see happen. *)
Inductive event :=
| EvRun (effect : nat)
| EvGet (active : option nat) (target : nat) (key : string)
| EvSet (target : nat) (key : string) (v : value).

(** Module state: [activeEffect], [targetMap] (a [Set] is a
    duplicate-free list in insertion order), the targets themselves, and
    the wrappers [effectFn] created so far, each known by its index and
    holding its [fn]. *)
Record rt := Rt {
  activeEffect : option nat;
  targetMap : gmap nat (gmap string (list nat));
  objects : gmap nat (gmap string value);
  effects : list prog;
  trace : list event
}.

Definition with_active (a : option nat) (st : rt) : rt :=
  Rt a (targetMap st) (objects st) (effects st) (trace st).
Definition with_targetMap (m : gmap nat (gmap string (list nat))) (st : rt) : rt :=
  Rt (activeEffect st) m (objects st) (effects st) (trace st).
Definition with_objects (o : gmap nat (gmap string value)) (st : rt) : rt :=
  Rt (activeEffect st) (targetMap st) o (effects st) (trace st).
Definition with_effects (l : list prog) (st : rt) : rt :=
  Rt (activeEffect st) (targetMap st) (objects st) l (trace st).
Definition record (e : event) (st : rt) : rt :=
  Rt (activeEffect st) (targetMap st) (objects st) (effects st) (trace st ++ [e]).

(** How a call ends.  [Exhausted] is the model's own: the budget of
    nested calls and loop steps given to the run was used up. *)
Inductive outcome := Returned | Threw | Exhausted.

(** [deps.add(e)] *)
Definition set_add (e : nat) (deps : list nat) : list nat :=
  if bool_decide (e ∈ deps) then deps else deps ++ [e].

(** [Reflect.get(target, key)] and [Reflect.set(target, key, v)] *)
Definition reflect_get (target : nat) (key : string) (st : rt) : value :=
  match objects st !! target with
  | Some o => default VUndef (o !! key)
  | None => VUndef
  end.

Definition reflect_set (target : nat) (key : string) (v : value) (st : rt) : rt :=
  with_objects (<[target := <[key := v]> (default ∅ (objects st !! target))]> (objects st)) st.

Definition track (target : nat) (key : string) (st : rt) : rt :=
  match activeEffect st with
  | None => st
  | Some e =>
      let depsMap := default ∅ (targetMap st !! target) in
      let deps := default [] (depsMap !! key) in
      with_targetMap (<[target := <[key := set_add e deps]> depsMap]> (targetMap st)) st
  end.

(** The dependency set of a field as [trigger] finds it. *)
Definition depsOf (st : rt) (target : nat) (key : string) : option (list nat) :=
  match targetMap st !! target with
  | None => None
  | Some depsMap => depsMap !! key
  end.

(** [deps.forEach(effect => effect())] from position [i] on: the set is
    read again at every step, so a task added meanwhile is visited. *)
Fixpoint forEachDep (run : nat -> rt -> outcome * rt) (gas : nat)
    (target : nat) (key : string) (i : nat) (st : rt) : outcome * rt :=
  match depsOf st target key with
  | None => (Returned, st)
  | Some deps =>
      match deps !! i with
      | None => (Returned, st)
      | Some e =>
          match gas with
          | 0 => (Exhausted, st)
          | S gas' =>
              match run e st with
              | (Returned, st') => forEachDep run gas' target key (S i) st'
              | (o, st') => (o, st')
              end
          end
      end
  end.

Definition trigger (run : nat -> rt -> outcome * rt) (gas : nat)
    (target : nat) (key : string) (st : rt) : outcome * rt :=
  match targetMap st !! target with
  | None => (Returned, st)
  | Some depsMap =>
      match depsMap !! key with
      | None => (Returned, st)
      | Some _ => forEachDep run gas target key 0 st
      end
  end.

(** The [get] and [set] traps of the proxy made by [reactive(target)]. *)
Definition proxy_get (target : nat) (key : string) (st : rt) : value * rt :=
  let st1 := track target key (record (EvGet (activeEffect st) target key) st) in
  (reflect_get target key st1, st1).

Definition proxy_set (run : nat -> rt -> outcome * rt) (gas : nat)
    (target : nat) (key : string) (v : value) (st : rt) : outcome * rt :=
  let st1 := reflect_set target key v (record (EvSet target key v) st) in
  trigger run gas target key st1.

(** Running a task body; [run] invokes a wrapper met in a dependency set. *)
Fixpoint exec (run : nat -> rt -> outcome * rt) (gas : nat) (p : prog) (st : rt)
  : outcome * rt :=
  match p with
  | Ret => (Returned, st)
  | Throw => (Threw, st)
  | Get target key k =>
      let '(v, st1) := proxy_get target key st in
      exec run gas (k v) st1
  | Put target key v k =>
      match proxy_set run gas target key v st with
      | (Returned, st1) => exec run gas k st1
      | (o, st1) => (o, st1)
      end
  | RawGet target key k => exec run gas (k (reflect_get target key st)) st
  | RawPut target key v k => exec run gas k (reflect_set target key v st)
  end.

(** The wrapper [effectFn] of the task [id]; the [finally] clause runs
    however the body ends. *)
Fixpoint effectFn (fuel : nat) (id : nat) (st : rt) : outcome * rt :=
  match fuel with
  | 0 => (Exhausted, st)
  | S fuel' =>
      match effects st !! id with
      | None => (Threw, st)
      | Some fn =>
          let prevEffect := activeEffect st in
          let st1 := with_active (Some id) (record (EvRun id) st) in
          let '(o, st2) := exec (effectFn fuel') fuel' fn st1 in
          (o, with_active prevEffect st2)
      end
  end.

(** [effect(fn)]: the new wrapper is run once at once. *)
Definition effect (fuel : nat) (fn : prog) (st : rt) : outcome * rt :=
  effectFn fuel (length (effects st)) (with_effects (effects st ++ [fn]) st).

(** A write through the proxy from outside any task. *)
Definition write (fuel : nat) (target : nat) (key : string) (v : value) (st : rt)
  : outcome * rt :=
  proxy_set (effectFn fuel) fuel target key v st.

Definition init : rt := Rt None ∅ ∅ [] [].

(** Bookkeeping on the trace. *)
Definition is_run (id : nat) (e : event) : bool :=
  match e with
  | EvRun id' => bool_decide (id' = id)
  | _ => false
  end.

Definition count_runs (id : nat) (tr : list event) : nat :=
  length (filter (fun e => is_run id e = true) tr).

(** The fields a task read, through a proxy, in its most recent execution. *)
Definition last_run_reads (id : nat) (tr : list event) : list (nat * string) :=
  fold_left (fun acc e =>
               match e with
               | EvRun id' => if bool_decide (id' = id) then [] else acc
               | EvGet (Some a) t k => if bool_decide (a = id) then acc ++ [(t, k)] else acc
               | _ => acc
               end) tr [].

(** A body that only reads. *)
Inductive reader : prog -> Prop :=
| reader_Ret : reader Ret
| reader_Get t k f : (forall v, reader (f v)) -> reader (Get t k f)
| reader_RawGet t k f : (forall v, reader (f v)) -> reader (RawGet t k f).

End Reactivity.

(** ** component.js *)

Module Component.

(** A render function as [renderComponent] runs it: it reads fields of the
    state it is handed and returns a descriptor. *)
Inductive view :=
| Yield (v : vnode)
| Read (key : string) (k : value -> view).

(** What [setup()] evaluates to: a new object holding [fields], or a value
    that is not an object. *)
Inductive setup_result :=
| SetupObject (fields : gmap string value)
| SetupOther.

(** A component is a render function, or an object that may have a
    [render] and a [setup] property. *)
Inductive component :=
| FunctionComponent (render : view)
| ObjectComponent (render : option view) (setup : option setup_result).

(** [instance.state]: the proxy made by [reactive], or a plain object. *)
Inductive state_ref :=
| Proxy (target : nat)
| Plain (target : nat).

Record instance := Instance {
  i_render : view;
  i_setup : setup_result;
  i_state : state_ref
}.

(** The variables closed over by [update]: [instance], [container] and
    [currentVnode]. *)
Record app := App {
  a_instance : instance;
  a_container : nat;
  currentVnode : option vnode
}.

(** The page: the state of the reactive module, the document, the apps
    created so far (the wrapper [effectFn] of the [i]-th one is known as
    [i]; they are the only tasks of the page) and the [_vnode] property
    of the containers. *)
Record world := World {
  w_rt : Reactivity.rt;
  w_dom : dom;
  w_apps : list app;
  w_vnode : gmap nat vnode
}.

Definition with_rt (r : Reactivity.rt) (w : world) : world :=
  World r (w_dom w) (w_apps w) (w_vnode w).
Definition with_dom (d : dom) (w : world) : world :=
  World (w_rt w) d (w_apps w) (w_vnode w).
Definition with_apps (l : list app) (w : world) : world :=
  World (w_rt w) (w_dom w) l (w_vnode w).
Definition with_vnode (m : gmap nat vnode) (w : world) : world :=
  World (w_rt w) (w_dom w) (w_apps w) m.

(** [currentVnode = newVnode] in the closure of app [id]. *)
Definition set_current (id : nat) (v : vnode) (w : world) : world :=
  with_apps (alter (fun a => App (a_instance a) (a_container a) (Some v)) id (w_apps w)) w.

(** The identity of an object created now: none of the objects known to
    the reactive module. *)
Definition fresh_target (st : Reactivity.rt) : nat :=
  S (max_list (elements (base.dom (Reactivity.objects st) ∪ base.dom (Reactivity.targetMap st)))).

(** [instance.render(instance.state)] *)
Fixpoint run_view (state : state_ref) (r : view) (st : Reactivity.rt)
  : vnode * Reactivity.rt :=
  match r with
  | Yield v => (v, st)
  | Read key k =>
      match state with
      | Proxy target =>
          let '(x, st1) := Reactivity.proxy_get target key st in
          run_view state (k x) st1
      | Plain target =>
          run_view state (k (Reactivity.reflect_get target key st)) st
      end
  end.

Definition renderComponent (inst : instance) (st : Reactivity.rt)
  : vnode * Reactivity.rt :=
  run_view (i_state inst) (i_render inst) st.

(** [update] in the closure of app [id]. *)
Definition update (id : nat) (w : world) : res unit * world :=
  match w_apps w !! id with
  | None => (Err TypeError, w)
  | Some a =>
      let '(newVnode, rt1) := renderComponent (a_instance a) (w_rt w) in
      let w1 := with_rt rt1 w in
      match currentVnode a with
      | Some cur =>
          match patch cur newVnode (w_dom w1) with
          | (Ok nv, d) => (Ok tt, set_current id nv (with_dom d w1))
          | (Err e, d) => (Err e, with_dom d w1)
          end
      | None =>
          match render (w_vnode w1 !! a_container a) newVnode (a_container a) (w_dom w1) with
          | (Ok nv, d) =>
              (Ok tt, set_current id nv
                        (with_vnode (<[a_container a := nv]> (w_vnode w1)) (with_dom d w1)))
          | (Err e, d) => (Err e, with_dom d w1)
          end
      end
  end.

(** The wrapper that [effect] builds around [update]. *)
Definition effectFn (id : nat) (w : world) : res unit * world :=
  let prevEffect := Reactivity.activeEffect (w_rt w) in
  let w1 := with_rt (Reactivity.with_active (Some id)
                       (Reactivity.record (Reactivity.EvRun id) (w_rt w))) w in
  let '(r, w2) := update id w1 in
  (r, with_rt (Reactivity.with_active prevEffect (w_rt w2)) w2).

Definition default_render : view :=
  Yield (h "div" [] (HSingle (CText "No render function"))).

(** The [render] and [setup] of the instance that [createApp] builds. *)
Definition instance_render (component : component) : view :=
  match component with
  | FunctionComponent r => r
  | ObjectComponent r _ => default default_render r
  end.

Definition instance_setup (component : component) : setup_result :=
  match component with
  | FunctionComponent _ => SetupObject ∅
  | ObjectComponent _ s => default (SetupObject ∅) s
  end.

Definition createApp (component : component) (container : nat) (w : world)
  : res instance * world :=
  let render := instance_render component in
  let setup := instance_setup component in
  let target := fresh_target (w_rt w) in
  let '(state, fields) :=
    match setup with
    | SetupObject fields => (Proxy target, fields)
    | SetupOther => (Plain target, ∅)
    end in
  let inst := Instance render setup state in
  let rt1 := Reactivity.with_objects (<[target := fields]> (Reactivity.objects (w_rt w)))
               (w_rt w) in
  let w1 := World rt1 (w_dom w) (w_apps w ++ [App inst container None]) (w_vnode w) in
  match effectFn (length (w_apps w)) w1 with
  | (Ok _, w2) => (Ok inst, w2)
  | (Err e, w2) => (Err e, w2)
  end.

(** How a write to the state ends.  [OutOfGas] is the model's own: the
    budget of loop steps was used up. *)
Inductive ending := Finished | Failed (e : error) | OutOfGas.

(** [deps.forEach(effect => effect())] over the apps registered on a field. *)
Fixpoint forEachDep (gas : nat) (target : nat) (key : string) (i : nat) (w : world)
  : ending * world :=
  match Reactivity.depsOf (w_rt w) target key with
  | None => (Finished, w)
  | Some deps =>
      match deps !! i with
      | None => (Finished, w)
      | Some e =>
          match gas with
          | 0 => (OutOfGas, w)
          | S gas' =>
              match effectFn e w with
              | (Ok _, w') => forEachDep gas' target key (S i) w'
              | (Err er, w') => (Failed er, w')
              end
          end
      end
  end.

Definition trigger (gas : nat) (target : nat) (key : string) (w : world) : ending * world :=
  match Reactivity.targetMap (w_rt w) !! target with
  | None => (Finished, w)
  | Some depsMap =>
      match depsMap !! key with
      | None => (Finished, w)
      | Some _ => forEachDep gas target key 0 w
      end
  end.

(** [state.key = v], as an event handler does it, outside any task. *)
Definition set_state (gas : nat) (inst : instance) (key : string) (v : value) (w : world)
  : ending * world :=
  match i_state inst with
  | Proxy target =>
      trigger gas target key
        (with_rt (Reactivity.reflect_set target key v
                    (Reactivity.record (Reactivity.EvSet target key v) (w_rt w))) w)
  | Plain target =>
      (Finished, with_rt (Reactivity.reflect_set target key v (w_rt w)) w)
  end.

End Component.

(** ** Notions used to state the properties of the reconciler *)

Module VDomSpec.

Definition child_all (P : vnode -> Prop) (c : child) : Prop :=
  match c with
  | CText _ => True
  | CNode v => P v
  end.

(** Induction on a descriptor with the property available for every
    descriptor among its children. *)
Fixpoint vnode_nested_ind (P : vnode -> Prop)
    (step : forall t p cs k e, Forall (child_all P) cs -> P (VNode t p cs k e))
    (v : vnode) {struct v} : P v :=
  match v with
  | VNode t p cs k e =>
      step t p cs k e
        ((fix go (cs : list child) : Forall (child_all P) cs :=
            match cs with
            | [] => List.Forall_nil _
            | c :: r =>
                @List.Forall_cons _ _ c r
                  (match c return child_all P c with
                   | CText _ => I
                   | CNode v' => vnode_nested_ind P step v'
                   end)
                  (go r)
            end) cs)
  end.

(** A descriptor with every [el] slot emptied: two descriptors are
    structural copies of each other when they agree once stripped. *)
Fixpoint strip (v : vnode) : vnode :=
  match v with
  | VNode t p cs k _ =>
      VNode t p (map (fun c => match c with
                               | CText s => CText s
                               | CNode v' => CNode (strip v')
                               end) cs) k None
  end.

Definition strip_child (c : child) : child :=
  match c with
  | CText s => CText s
  | CNode v => CNode (strip v)
  end.

(** No child list of the tree holds a keyed child: [patchChildren] takes
    the index algorithm at every level. *)
Fixpoint unkeyed (v : vnode) : bool :=
  match v with
  | VNode _ _ cs _ _ =>
      negb (hasKeyedChildren cs)
      && forallb (fun c => match c with
                           | CText _ => true
                           | CNode v' => unkeyed v'
                           end) cs
  end.

(** The backend accepts every call [mount] makes for these properties:
    the value under an [on...] name is a function, [null] or [undefined],
    and every other name is one [setAttribute] accepts. *)
Definition accepted (props : object) : bool :=
  forallb (fun k => if startsWith_on k
                    then is_object (js_get props k) || nullish (js_get props k)
                    else valid_name k)
          (js_keys props).

(** The backend accepts the tag and the properties of every descriptor of
    the tree. *)
Fixpoint renderable (v : vnode) : bool :=
  match v with
  | VNode t p cs _ _ =>
      valid_name t && accepted p
      && forallb (fun c => match c with
                           | CText _ => true
                           | CNode v' => renderable v'
                           end) cs
  end.

(** No property is named like a property of [Object.prototype]. *)
Definition plain_keys (props : object) : bool :=
  forallb (fun k => negb (inherited k)) (js_keys props).

Fixpoint plain (v : vnode) : bool :=
  match v with
  | VNode _ p cs _ _ =>
      plain_keys p
      && forallb (fun c => match c with
                           | CText _ => true
                           | CNode v' => plain v'
                           end) cs
  end.

(** An ordinary tree: the backend accepts it and no property is named
    like a property of [Object.prototype]. *)
Definition ordinary (v : vnode) : bool := renderable v && plain v.

(** Child lists hold handles of existing nodes only. *)
Definition wf (st : dom) : Prop :=
  forall q x, x ∈ kids st q -> x < length (heap st).

Definition wf_check (st : dom) : bool :=
  forallb (fun nd => forallb (fun x => Nat.ltb x (length (heap st))) (n_kids nd)) (heap st).

(** The call made by the property loop of [mount] for one key. *)
Definition mountPropOp (e : nat) (props : object) (k : string) : op :=
  if startsWith_on k then OpAddListener e (eventName k) (js_get props k)
  else OpSetAttribute e k (js_get props k).

(** The backend calls [mount] makes for a descriptor, under container [c]
    in a document of [n] nodes, paired with the number of nodes of the
    document afterwards: the element is created, its properties are
    applied in the order of the keys, its children are materialized under
    it in order, a string by [createTextNode] and [appendChild], and the
    element is appended to the container. *)
Fixpoint mountOps (v : vnode) (c n : nat) {struct v} : list op * nat :=
  match v with
  | VNode t p cs _ _ =>
      let r := (fix go (cs : list child) (m : nat) {struct cs} : list op * nat :=
                  match cs with
                  | [] => ([], m)
                  | CText s :: cs' =>
                      let r' := go cs' (S m) in
                      (OpCreateText m s :: OpAppendChild n m :: fst r', snd r')
                  | CNode v' :: cs' =>
                      let r1 := mountOps v' n m in
                      let r2 := go cs' (snd r1) in
                      (fst r1 ++ fst r2, snd r2)
                  end) cs (S n) in
      (OpCreateElement n t :: map (mountPropOp n p) (js_keys p)
         ++ fst r ++ [OpAppendChild c n], snd r)
  end.

Fixpoint mountChildrenOps (n : nat) (cs : list child) (m : nat) : list op * nat :=
  match cs with
  | [] => ([], m)
  | CText s :: cs' =>
      let r' := mountChildrenOps n cs' (S m) in
      (OpCreateText m s :: OpAppendChild n m :: fst r', snd r')
  | CNode v' :: cs' =>
      let r1 := mountOps v' n m in
      let r2 := mountChildrenOps n cs' (snd r1) in
      (fst r1 ++ fst r2, snd r2)
  end.

Definition keeps_tag (f : string -> object -> list (string * value) -> payload) : Prop :=
  forall t a l, exists a' l', f t a l = Elem t a' l'.

(** Attribute and listener updates leave every child list as it is and
    keep the tag of the element they act on. *)
Definition same_shape_at (e : nat) (hp hp' : list dnode) : Prop :=
  length hp' = length hp /\
  (forall q, q <> e -> hp' !! q = hp !! q) /\
  (forall q, n_kids <$> hp' !! q = n_kids <$> hp !! q) /\
  (forall t a ls ks, hp !! e = Some (DNode (Elem t a ls) ks) ->
     exists a' ls', hp' !! e = Some (DNode (Elem t a' ls') ks)).

(** The nodes from [n] on hold only nodes created after [n]. *)
Definition above (n : nat) (s : dom) : Prop :=
  forall q x, n <= q -> x ∈ kids s q -> n < x.

(** What [mount] leaves behind, seen from the state [st] it started in:
    the new node [n] has the given tag, the container gained [n] as its
    last child, every other node of [st] is as it was, and the nodes
    created hold only nodes created after [n]. *)
Definition mounted (st : dom) (c : nat) (tg : string) (st' : dom) : Prop :=
  let n := length (heap st) in
  wf st' /\ n < length (heap st') /\
  (forall q, q < n -> q <> c -> heap st' !! q = heap st !! q) /\
  heap st' !! c = set_kids (fun l => l ++ [n]) <$> heap st !! c /\
  (exists a ls ks, heap st' !! n = Some (DNode (Elem tg a ls) ks)) /\
  above n st'.

(** What mounting children under the new node [n] leaves behind. *)
Definition children_mounted (n : nat) (s s' : dom) : Prop :=
  wf s' /\ length (heap s) <= length (heap s') /\
  (forall q, q < length (heap s) -> q <> n -> heap s' !! q = heap s !! q) /\
  (n_payload <$> heap s' !! n = n_payload <$> heap s !! n) /\
  above n s'.

(** The statement proved of [mount] by induction on the descriptor. *)
Definition mount_spec (v : vnode) : Prop :=
  renderable v = true ->
  forall c st, exists v' st' l,
    mount v (Some c) st = (Ok v', st') /\
    el v' = Some (length (heap st)) /\
    log st' = log st ++ OpCreateElement (length (heap st)) (tag v)
                     :: map (mountPropOp (length (heap st)) (props v)) (js_keys (props v)) ++ l /\
    (wf st -> c < length (heap st) -> mounted st c (tag v) st').

(** The calls made by the two loop bodies of [patchProps] for one key. *)
Definition newPropOps (e : nat) (oldProps newProps : object) (k : string) : list op :=
  if strict_eq (js_get oldProps k) (js_get newProps k) then []
  else if startsWith_on k then
    (if truthy (js_get oldProps k)
     then [OpRemoveListener e (eventName k) (js_get oldProps k)] else [])
    ++ [OpAddListener e (eventName k) (js_get newProps k)]
  else [OpSetAttribute e k (js_get newProps k)].

Definition oldPropOps (e : nat) (oldProps newProps : object) (k : string) : list op :=
  if js_in k newProps then []
  else if startsWith_on k then [OpRemoveListener e (eventName k) (js_get oldProps k)]
  else [OpRemoveAttribute e k].

Definition child_els_with (vnode_els : vnode -> list nat) (c : child) : list nat :=
  match c with
  | CText _ => []
  | CNode v => vnode_els v
  end.

(** The live nodes bound anywhere in a descriptor. *)
Fixpoint vnode_els (v : vnode) : list nat :=
  match v with
  | VNode _ _ cs _ e => option_list e ++ flat_map (child_els_with vnode_els) cs
  end.

Definition child_els : child -> list nat := child_els_with vnode_els.





(** The descriptor returned by [mount] is the one it was given, bound,
    at every level, to nodes created by the call. *)
Definition binds_fresh (v : vnode) : Prop :=
  forall c st v' st',
    mount v c st = (Ok v', st') ->
    strip v' = strip v /\
    (forall x, x ∈ vnode_els v' -> length (heap st) <= x) /\
    length (heap st) < length (heap st').

(** The notions below state what the document looks like. *)

(** The plain attributes of an element agree with a set of properties. *)
Definition attrs_match (attrs props : object) : Prop :=
  forall k, startsWith_on k = false -> own attrs k = own props k.

(** What the two loops of [patchProps] do to the attributes for one key. *)
Definition newPropAttrs (oldProps newProps : object) (a : object) (k : string) : object :=
  if strict_eq (js_get oldProps k) (js_get newProps k) then a
  else if startsWith_on k then a
  else obj_set k (js_get newProps k) a.

Definition oldPropAttrs (newProps : object) (a : object) (k : string) : object :=
  if js_in k newProps then a
  else if startsWith_on k then a
  else obj_del k a.

(** The live tree under the node bound to [v] is the tree [v] describes:
    the element has the tag and the plain attributes of [v], and its child
    list holds, in order, a text node for every string and the node bound
    to every descriptor, each of which mirrors its descriptor in turn. *)
Fixpoint mirrors (st : dom) (v : vnode) {struct v} : Prop :=
  match v with
  | VNode t p cs _ oe =>
      exists e a ls ks,
        oe = Some e /\
        heap st !! e = Some (DNode (Elem t a ls) ks) /\
        attrs_match a p /\
        (fix go (ks : list nat) (cs : list child) {struct cs} : Prop :=
           match cs, ks with
           | [], [] => True
           | CText s :: cs', x :: ks' =>
               heap st !! x = Some (DNode (TextNode s) []) /\ go ks' cs'
           | CNode v' :: cs', x :: ks' =>
               (el v' = Some x /\ mirrors st v') /\ go ks' cs'
           | _, _ => False
           end) ks cs
  end.

Definition mirrors_child (st : dom) (x : nat) (c : child) : Prop :=
  match c with
  | CText s => heap st !! x = Some (DNode (TextNode s) [])
  | CNode v => el v = Some x /\ mirrors st v
  end.

Definition mountPropAttrs (props : object) (a : object) (k : string) : object :=
  if startsWith_on k then a else obj_set k (js_get props k) a.

Definition mount_mirrors (v : vnode) : Prop :=
  forall c st v' st',
    wf st -> c < length (heap st) ->
    mount v (Some c) st = (Ok v', st') -> mirrors st' v'.

(** A descriptor child is bound to the node at its position; a string
    child is found by position anyway. *)
Definition bound_at (x : nat) (c : child) : Prop :=
  match c with
  | CText _ => True
  | CNode v => el v = Some x
  end.

Definition holds_text (st : dom) (x : nat) (s : string) : Prop :=
  heap st !! x = Some (DNode (TextNode s) []).

(** The calls that rewrite the texts that differ. *)
Fixpoint textOps (ks : list nat) (olds news : list string) : list op :=
  match ks, olds, news with
  | x :: ks', a :: olds', b :: news' =>
      (if String.eqb a b then [] else [OpSetText x b]) ++ textOps ks' olds' news'
  | _, _, _ => []
  end.

(** Two descriptors of the same structure: the same tag, as many
    children, a string facing a string and a descriptor facing a
    descriptor of the same structure. *)
Fixpoint same_shape (old new : vnode) {struct old} : bool :=
  match old with
  | VNode t _ cs _ _ =>
      String.eqb t (tag new)
      && (fix go (cs ns : list child) {struct cs} : bool :=
            match cs, ns with
            | [], [] => true
            | CText _ :: cs', CText _ :: ns' => go cs' ns'
            | CNode o :: cs', CNode n :: ns' => same_shape o n && go cs' ns'
            | _, _ => false
            end) cs (children new)
  end.

Definition same_shape_child (o n : child) : Prop :=
  match o, n with
  | CText _, CText _ => True
  | CNode ov, CNode nv => same_shape ov nv = true
  | _, _ => False
  end.

(** The nodes of the live tree bound to a descriptor. *)
Fixpoint footprint (st : dom) (v : vnode) {struct v} : list nat :=
  match v with
  | VNode _ _ cs _ oe =>
      match oe with
      | None => []
      | Some e =>
          e :: (fix go (ks : list nat) (cs : list child) {struct cs} : list nat :=
                  match cs, ks with
                  | CText _ :: cs', x :: ks' => x :: go ks' cs'
                  | CNode v' :: cs', _ :: ks' => footprint st v' ++ go ks' cs'
                  | _, _ => []
                  end) (kids st e) cs
      end
  end.

Definition child_footprint (st : dom) (x : nat) (c : child) : list nat :=
  match c with
  | CText _ => [x]
  | CNode v => footprint st v
  end.

Fixpoint children_footprint (st : dom) (ks : list nat) (cs : list child) {struct cs}
  : list nat :=
  match cs, ks with
  | c :: cs', x :: ks' => child_footprint st x c ++ children_footprint st ks' cs'
  | _, _ => []
  end.

Definition unkeyed_child (c : child) : bool :=
  match c with
  | CText _ => true
  | CNode v => unkeyed v
  end.

(** What [patch] does to a live tree when only attribute values and texts
    differ. *)
Definition patch_in_place (old : vnode) : Prop :=
  forall new st,
    ordinary old = true -> ordinary new = true ->
    same_shape old new = true -> unkeyed new = true ->
    mirrors st old -> NoDup (footprint st old) ->
    exists new' st',
      patch old new st = (Ok new', st') /\
      strip new' = strip new /\
      el new' = el old /\
      mirrors st' new' /\
      (forall q, kids st' q = kids st q) /\
      length (heap st') = length (heap st) /\
      (forall q, q ∉ footprint st old -> heap st' !! q = heap st !! q) /\
      footprint st' new' = footprint st old.

(** A matched pair: the index of the old child, the index of the new
    child with the same key, and the node the old child is bound to. *)
Record match_ := Match { m_old : nat; m_new : nat; m_node : nat }.

(** Matched pairs listed in the order of the old children, whose new
    indices grow as well. *)
Definition increasing (ms : list match_) : Prop :=
  forall a b e1 e2, a < b -> ms !! a = Some e1 -> ms !! b = Some e2 ->
    m_old e1 < m_old e2 /\ m_new e1 < m_new e2.

(** The bookkeeping left by step 2 of [patchKeyedChildren], for the
    matched pairs [ms]. *)
Record matched (olds : list child) (ks : keyed) (ms : list match_) : Prop := {
  mt_inc : increasing ms;
  mt_o2n : forall i j, oldIndexToNewIndexMap ks !! i = Some j <->
                       exists x, Match i j x ∈ ms;
  mt_new : forall j, j ∈ newIndices ks <-> exists i x, Match i j x ∈ ms;
  mt_cur : forall i j x, Match i j x ∈ ms ->
             exists v, ks_new ks !! j = Some (CNode v) /\ el v = Some x;
  mt_olds : forall i j x, Match i j x ∈ ms ->
              exists ov, olds !! i = Some (CNode ov) /\ el ov = Some x
}.

(** A bound child under container [c]: the document mirrors it, on
    existing nodes other than [c]. *)
Definition good (c : nat) (st : dom) (v : vnode) : Prop :=
  mirrors st v /\ forall q, q ∈ footprint st v -> q <> c /\ q < length (heap st).

Definition good_child (c : nat) (st : dom) (x : nat) (ch : child) : Prop :=
  exists v, ch = CNode v /\ el v = Some x /\ good c st v.

(** The state of step 2 of [patchKeyedChildren] on the old children
    [ovs] and the new children [nvs] under [c], started in [st0], before
    old index [i]:
    [ms] lists the pairs found so far, [V] the nodes of the old children
    visited, [krest] the nodes of the old children to come. *)
Record matching (c : nat) (ovs nvs : list vnode) (st0 : dom)
    (i : nat) (V krest : list nat) (ks : keyed) (ms : list match_) (st : dom)
  : Prop := {
  mi_len : length (heap st) = length (heap st0);
  mi_kids_c : kids st c = map m_node ms ++ krest;
  mi_nd : NoDup (kids st c);
  mi_kids : forall q, q <> c -> kids st q = kids st0 q;
  mi_pay : n_payload <$> heap st !! c = n_payload <$> heap st0 !! c;
  mi_frame : forall q, q <> c -> q ∉ V -> heap st !! q = heap st0 !! q;
  mi_inc : increasing ms;
  mi_lt : forall e, e ∈ ms -> m_old e < i;
  mi_o2n : forall i' j,
    oldIndexToNewIndexMap ks !! i' = Some j <-> exists x, Match i' j x ∈ ms;
  mi_nI : forall j, j ∈ newIndices ks <-> exists i' x, Match i' j x ∈ ms;
  mi_pair : forall i' j x, Match i' j x ∈ ms ->
    exists ov nv v',
      ovs !! i' = Some ov /\ nvs !! j = Some nv /\ key ov = key nv /\ el ov = Some x /\
      ks_new ks !! j = Some (CNode v') /\ el v' = Some x /\
      mirrors st v' /\ forall q, q ∈ footprint st v' -> q ∈ V;
  mi_all : forall i' j ov nv, i' < i -> ovs !! i' = Some ov -> nvs !! j = Some nv ->
    key ov = key nv -> exists x, Match i' j x ∈ ms;
  mi_cur : forall j, j ∉ newIndices ks -> ks_new ks !! j = map CNode nvs !! j;
  mi_strip : map strip_child (ks_new ks) = map strip_child (map CNode nvs)
}.

Definition is_node (c : child) : bool :=
  match c with
  | CNode _ => true
  | CText _ => false
  end.

(** The new tree keeps the kinds of the old one: the same tag, a string
    facing a string and a descriptor facing a descriptor of the same kind,
    at every level; where the new list is longer it goes on with
    descriptors, where it is shorter the old children in excess may be
    anything. *)
Fixpoint fits (old new : vnode) {struct old} : bool :=
  match old with
  | VNode t _ cs _ _ =>
      String.eqb t (tag new)
      && (fix go (cs ns : list child) {struct cs} : bool :=
            match cs, ns with
            | [], _ => forallb is_node ns
            | _ :: _, [] => true
            | CText _ :: cs', CText _ :: ns' => go cs' ns'
            | CNode o :: cs', CNode n :: ns' => fits o n && go cs' ns'
            | _, _ => false
            end) cs (children new)
  end.

Inductive fits_children : list child -> list child -> Prop :=
| fits_added ns : forallb is_node ns = true -> fits_children [] ns
| fits_removed c cs : fits_children (c :: cs) []
| fits_text a b cs ns :
    fits_children cs ns -> fits_children (CText a :: cs) (CText b :: ns)
| fits_node o n cs ns :
    fits o n = true -> fits_children cs ns ->
    fits_children (CNode o :: cs) (CNode n :: ns).

(** What [patch] does to a live tree when the new tree keeps the kinds of
    the old one and has no keys. *)
Definition patch_fits (old : vnode) : Prop :=
  forall new st,
    ordinary old = true -> ordinary new = true ->
    fits old new = true -> unkeyed new = true ->
    wf st -> mirrors st old -> NoDup (footprint st old) ->
    exists new' st',
      patch old new st = (Ok new', st') /\
      strip new' = strip new /\
      el new' = el old /\
      mirrors st' new' /\
      wf st' /\
      length (heap st) <= length (heap st') /\
      (forall q, q < length (heap st) -> q ∉ footprint st old ->
         heap st' !! q = heap st !! q) /\
      (forall q, q ∈ footprint st' new' ->
         q ∈ footprint st old \/ length (heap st) <= q).

End VDomSpec.

Export VDomSpec.

(** ** Notions used to state the properties of the reactive layer *)

Module ReactivitySpec.

Import Reactivity.

(** Every member of every dependency set is still there, in its place. *)
Definition deps_kept (st st' : rt) : Prop :=
  forall target key d, depsOf st target key = Some d ->
    exists d', depsOf st' target key = Some (d ++ d').

(** Calls made from outside any task, one after the other. *)
Inductive call :=
| CallEffect (fn : prog)
| CallWrite (target : nat) (key : string) (v : value).

Definition run_call (fuel : nat) (c : call) (st : rt) : rt :=
  match c with
  | CallEffect fn => snd (effect fuel fn st)
  | CallWrite target key v => snd (write fuel target key v st)
  end.

Definition run_calls (fuel : nat) (cs : list call) (st : rt) : rt :=
  fold_left (fun s c => run_call fuel c s) cs st.

Definition reads_registered (st : rt) : Prop :=
  forall a target key, EvGet (Some a) target key ∈ trace st ->
    exists d, depsOf st target key = Some d /\ a ∈ d.

(** The tasks run, in the order of their runs. *)
Definition runs (tr : list event) : list nat :=
  omap (fun e => match e with EvRun id => Some id | _ => None end) tr.

End ReactivitySpec.

(** ** Notions used to state the properties of the component layer *)

Module ComponentSpec.

Import Reactivity.
Import Component.

(** The value of a field of an object holding [fields]. *)
Definition field (fields : gmap string value) (k : string) : value :=
  default VUndef (fields !! k).

(** The descriptor a render function returns on a state holding
    [fields], and the fields it reads on the way. *)
Fixpoint view_value (fields : gmap string value) (r : view) : vnode :=
  match r with
  | Yield v => v
  | Read key k => view_value fields (k (field fields key))
  end.

Fixpoint view_reads (fields : gmap string value) (r : view) : list string :=
  match r with
  | Yield _ => []
  | Read key k => key :: view_reads fields (k (field fields key))
  end.

(** The state of an app after its [setup] object received [key := v]. *)
Definition written (w : world) (s : nat) (key : string) (v : value)
  : gmap string value :=
  <[key := v]> (default ∅ (objects (w_rt w) !! s)).

End ComponentSpec.

(** ** Concrete documents and tasks used by the examples *)

Module Scenario.

(** A document holding one element, node 0, to mount under. *)
Definition page : dom := snd (createElement "body" empty_dom).

(** [render(old, body)] on the fresh page, then [patch(old, new)], with
    the log restarted in between so that it shows the calls of [patch]. *)
Definition mount_then_patch (old new : vnode) : res vnode * dom :=
  match mount old (Some 0) page with
  | (Ok old', st) => patch old' new (Dom (heap st) [])
  | (Err e, st) => (Err e, st)
  end.

(** The descriptor as bound by its first render on the page, and the
    document after that render. *)
Definition mounted_of (v : vnode) : vnode * dom :=
  match mount v (Some 0) page with
  | (Ok v', st) => (v', st)
  | (Err _, st) => (v, st)
  end.

Definition child_el (c : child) : option nat :=
  match c with
  | CNode v => el v
  | CText _ => None
  end.

Definition li (k : Z) (text : string) : child :=
  CNode (h "li" [("key", VNum k)] (HSingle (CText text))).

Definition ul (cs : list child) : vnode := h "ul" [] (HArray cs).

(** [A(key=1), B(key=2), C(key=3)] against [C, A, B]. *)
Definition abc : vnode := ul [li 1 "A"; li 2 "B"; li 3 "C"].
Definition cab : vnode := ul [li 3 "C"; li 1 "A"; li 2 "B"].

(** Two keyed items; a keyed item next to an unkeyed one. *)
Definition two_keyed : vnode := ul [li 1 "A"; li 2 "B"].
Definition keyed_and_plain : vnode :=
  ul [li 1 "A"; CNode (h "li" [] (HSingle (CText "B")))].

(** A tree without keys. *)
Definition plain_tree : vnode :=
  h "div" [("class", VStr "box"); ("onClick", VFun 7)]
    (HArray [CText "hello";
             CNode (h "p" [("id", VStr "x")] (HSingle (CText "world")));
             CNode (h "span" [] HNull)]).

(** Text children growing by one under the index algorithm. *)
Definition text_a : vnode := h "p" [] (HArray [CText "a"]).
Definition text_ab : vnode := h "p" [] (HArray [CText "a"; CText "b"]).

(** Structured children [X, Y, Z] against [X'] alone. *)
Definition xyz : vnode :=
  h "div" []
    (HArray [CNode (h "p" [("id", VStr "x")] (HSingle (CText "1")));
             CNode (h "p" [] (HSingle (CText "2")));
             CNode (h "p" [] (HSingle (CText "3")))]).
Definition x_alone : vnode :=
  h "div" [] (HArray [CNode (h "p" [("id", VStr "x2")] (HSingle (CText "one")))]).

(** [A(key=1), B(key=2)] against [B(key=2), D(key=4)]. *)
Definition bd_keyed : vnode := ul [li 2 "B"; li 4 "D"].



(** Three children, the second a [span] holding a text. *)
Definition row : vnode :=
  h "div" []
    (HArray [CNode (h "b" [] HNull);
             CNode (h "span" [] (HSingle (CText "x")));
             CNode (h "i" [] HNull)]).

(** A [div] with an attribute, a listener and a text. *)
Definition labelled_div : vnode :=
  h "div" [("title", VStr "t"); ("onClick", VFun 0)] (HSingle (CText "x")).

Definition nth_child (v : vnode) (i : nat) : vnode :=
  match children v !! i with
  | Some (CNode c) => c
  | _ => v
  end.

(** Attribute sets [{a:1, b:2}] and [{a:1, b:3, c:4}]. *)
Definition attrs_old : object := [("a", VNum 1); ("b", VNum 2)].
Definition attrs_new : object := [("a", VNum 1); ("b", VNum 3); ("c", VNum 4)].

(** A new set whose first name holds a space. *)
Definition attrs_spaced : object := [("my attr", VNum 3); ("b", VNum 3)].

Import Reactivity.

(** A task that reads [g] and [f] the first time it runs and only [f]
    afterwards; the flag lives on the target and is read round the proxy. *)
Definition once_g_then_f : prog :=
  RawGet 0 "first" (fun v =>
    if truthy v
    then RawPut 0 "first" (VBool false)
           (Get 0 "g" (fun _ => Get 0 "f" (fun _ => Ret)))
    else Get 0 "f" (fun _ => Ret)).

Definition stale_0 : rt := reflect_set 0 "first" (VBool true) init.
Definition stale_1 : rt := snd (effect 3 once_g_then_f stale_0).
Definition stale_2 : rt := snd (write 3 0 "f" (VNum 1) stale_1).
Definition stale_3 : rt := snd (write 3 0 "g" (VNum 2) stale_2).

(** A task that reads one field, registered on it. *)
Definition read_f : prog := Get 0 "f" (fun _ => Ret).
Definition one_reader : rt := snd (effect 1 read_f (reflect_set 0 "f" (VNum 5) init)).

(** A task that reads [f] and sets it to 0 unless it holds 0. *)
Definition write_back : prog :=
  Get 0 "f" (fun v => if strict_eq v (VNum 0) then Ret else Put 0 "f" (VNum 0) Ret).
Definition one_writer : rt := snd (effect 3 write_back init).

(** Two tasks, one reading [f], the other reading [g]. *)
Definition read_g : prog := Get 0 "g" (fun _ => Ret).
Definition two_readers : rt := snd (effect 1 read_g (snd (effect 1 read_f init))).

(** A task reading [f], and a task that reads [g] and writes [f]. *)
Definition g_writes_f : prog := Get 0 "g" (fun _ => Put 0 "f" (VNum 9) Ret).
Definition chain_1 : rt := snd (effect 3 read_f init).
Definition chain_2 : rt := snd (effect 3 g_writes_f chain_1).

(** A paragraph carrying the attributes [{a:1, b:2}]. *)
Definition attrs_p : vnode := h "p" attrs_old HNull.

(** Two strings under a paragraph. *)
Definition text_ac : vnode := h "p" [] (HArray [CText "a"; CText "c"]).

(** [plain_tree] with another class, another handler and other texts. *)
Definition plain_tree_2 : vnode :=
  h "div" [("class", VStr "card"); ("onClick", VFun 8)]
    (HArray [CText "bye";
             CNode (h "p" [("title", VStr "t")] (HSingle (CText "world")));
             CNode (h "span" [] HNull)]).

(** [A(key=1), X(key=4), c(key=3)]: against [abc], key 2 is gone, key 4
    is new, keys 1 and 3 are kept in their order. *)
Definition axc : vnode := ul [li 1 "A"; li 4 "X"; li 3 "c"].

(** The descriptors among the children. *)
Definition descriptors (cs : list child) : list vnode :=
  omap (fun c => match c with CNode v => Some v | CText _ => None end) cs.

(** [plain_tree] with the text of the paragraph gone, a child under the
    [span] and one more child at the end. *)
Definition plain_tree_3 : vnode :=
  h "div" [("class", VStr "card")]
    (HArray [CText "bye";
             CNode (h "p" [("id", VStr "x")] HNull);
             CNode (h "span" [] (HSingle (CNode (h "em" [] (HSingle (CText "new"))))));
             CNode (h "footer" [] (HSingle (CText "end")))]).

(** A task that counts up the field it reads. *)
Definition count_up : prog :=
  Get 0 "count" (fun v =>
    Put 0 "count" (match v with VNum z => VNum (z + 1) | _ => VNum 1 end) Ret).

(** Two tasks reading the same field [f]. *)
Definition two_on_f : rt := snd (effect 1 read_f (snd (effect 1 read_f init))).

Import Component.
Import ComponentSpec.

(** A page with an empty [body], node 0, and nothing else. *)
Definition start : world := World init page [] ∅.

(** The counter of main.js without its heading: the count and a button
    whose handler is known as function 1. *)
Definition counter_view : view :=
  Read "count" (fun n =>
    Yield (h "div" [("class", VStr "counter")]
             (HArray [CNode (h "div" [("class", VStr "counter-value")]
                               (HSingle (CText (match n with
                                                | VNum 0 => "0"
                                                | VNum 1 => "1"
                                                | _ => "many"
                                                end))));
                      CNode (h "button" [("onClick", VFun 1)] (HSingle (CText "+")))]))).

Definition counter : component :=
  ObjectComponent (Some counter_view) (Some (SetupObject {["count" := VNum 0]})).

(** The same view with a [setup] that returns a number. *)
Definition counter_without_state : component :=
  ObjectComponent (Some counter_view) (Some SetupOther).

(** The page after [createApp(counter, body)], the instance it returned and
    the tree it rendered. *)
Definition counter_world : world := snd (createApp counter 0 start).

Definition counter_instance : instance :=
  Instance counter_view (SetupObject {["count" := VNum 0]}) (Proxy 1).

Definition counter_tree : vnode :=
  match w_apps counter_world !! 0 with
  | Some a => default (h "div" [] HNull) (currentVnode a)
  | None => h "div" [] HNull
  end.

End Scenario.

(** * Properties of the reconciler *)

Module VDomFacts.

Import Scenario.

(** ** Keyed reordering *)

(** C1. On old children [A(key=1), B(key=2), C(key=3)] and new children
    [C, A, B], [patch] returns normally and performs a single
    [insertBefore] (no removal, no creation), but the live children of the
    list stay in the order A, B, C, whereas the new tree, whose children
    have been bound to the live nodes, lists them in the order C, A, B. *)
Theorem keyed_reorder_leaves_old_order :
  exists new' st a b c,
    mount_then_patch abc cab = (Ok new', st) /\
    map child_el (children new') = [Some c; Some a; Some b] /\
    kids st 1 = [a; b; c] /\
    kids st 1 <> [c; a; b] /\
    log st = [OpInsertBefore 1 a b].
Proof.
  eexists _, _, 2, 4, 6. vm_compute. repeat split; try reflexivity.
  intros H; discriminate H.
Qed.

(** ** Running computations *)

Lemma bind_Ok {A B} (m : M A) (f : A -> M B) st a st' :
  m st = (Ok a, st') -> bind m f st = f a st'.
Proof. intros H. unfold bind. rewrite H. reflexivity. Qed.

Lemma bind_Err {A B} (m : M A) (f : A -> M B) st e st' :
  m st = (Err e, st') -> bind m f st = (Err e, st').
Proof. intros H. unfold bind. rewrite H. reflexivity. Qed.

(** A loop whose body always succeeds and logs [g x]. *)
Lemma forEach_log {A} (f : A -> M unit) (g : A -> list op) (l : list A) :
  (forall x st, x ∈ l -> exists st', f x st = (Ok tt, st') /\ log st' = log st ++ g x) ->
  forall st, exists st', forEach f l st = (Ok tt, st') /\ log st' = log st ++ concat (map g l).
Proof.
  induction l as [|x l IH]; intros Hf st; simpl.
  - exists st. split; [reflexivity | now rewrite app_nil_r].
  - destruct (Hf x st ltac:(left)) as (st1 & E1 & L1).
    destruct (IH (fun y s Hy => Hf y s (list_elem_of_further _ _ _ Hy)) st1) as (st2 & E2 & L2).
    exists st2. split.
    + rewrite (bind_Ok _ _ _ _ _ E1). exact E2.
    + rewrite L2, L1, <- app_assoc. reflexivity.
Qed.

(** ** Own and inherited properties *)

Lemma has_own_keys k o : has_own k o = true <-> k ∈ js_keys o.
Proof.
  induction o as [|[k' v] o IH]; simpl.
  - split; [discriminate | intros H; inversion H].
  - destruct (String.eqb_spec k' k) as [->|Hne].
    + split; [intros _; left | reflexivity].
    + rewrite IH. split; [intros H; now right | intros H].
      inversion H; subst; [congruence | assumption].
Qed.

Lemma own_absent o k : has_own k o = false -> own o k = VUndef.
Proof.
  induction o as [|[k' v] o IH]; simpl; [reflexivity|].
  destruct (String.eqb k' k); [discriminate|exact IH].
Qed.

Lemma js_get_own o k : k ∈ js_keys o -> js_get o k = own o k.
Proof. intros H%has_own_keys. unfold js_get. now rewrite H. Qed.

Lemma js_get_plain o k : inherited k = false -> js_get o k = own o k.
Proof.
  intros H. unfold js_get. rewrite H.
  destruct (has_own k o) eqn:E; [reflexivity|]. now rewrite own_absent.
Qed.

Lemma js_in_keys k o : js_in k o = true <-> k ∈ js_keys o \/ inherited k = true.
Proof. unfold js_in. now rewrite orb_true_iff, has_own_keys. Qed.

Lemma js_in_own k o : k ∈ js_keys o -> js_in k o = true.
Proof. intros H. apply js_in_keys. now left. Qed.

(** No name of [Object.prototype] starts with [on]. *)
Lemma inherited_not_on k : inherited k = true -> startsWith_on k = false.
Proof.
  unfold inherited. intros H%bool_decide_eq_true.
  repeat (apply elem_of_cons in H as [->|H]; [reflexivity|]). inversion H.
Qed.

Lemma plain_keys_key p k : plain_keys p = true -> k ∈ js_keys p -> inherited k = false.
Proof.
  unfold plain_keys. rewrite forallb_forall. intros H Hk.
  apply list_elem_of_In in Hk. apply H in Hk. now apply negb_true_iff in Hk.
Qed.

(** ** What the backend accepts *)

Lemma accepted_key p k :
  accepted p = true -> k ∈ js_keys p ->
  if startsWith_on k then is_object (js_get p k) || nullish (js_get p k) = true
  else valid_name k = true.
Proof.
  unfold accepted. rewrite forallb_forall. intros H Hk.
  apply list_elem_of_In in Hk. apply H in Hk. destruct (startsWith_on k); exact Hk.
Qed.

(** The value read under an [on...] name in an accepted object is a
    function, [null] or [undefined], also when the object has no such
    property. *)
Lemma accepted_handler p k :
  accepted p = true -> startsWith_on k = true ->
  is_object (js_get p k) || nullish (js_get p k) = true.
Proof.
  intros Ha Hon. destruct (has_own k p) eqn:E.
  - apply has_own_keys in E. pose proof (accepted_key p k Ha E) as H. now rewrite Hon in H.
  - unfold js_get. rewrite E.
    destruct (inherited k) eqn:Ei; [|reflexivity].
    apply inherited_not_on in Ei. congruence.
Qed.

Lemma truthy_handler v :
  is_object v || nullish v = true -> truthy v = true -> is_object v = true.
Proof. destruct v; simpl; try discriminate; auto. Qed.

Lemma addEventListener_log e ev v st :
  is_object v || nullish v = true ->
  exists st', addEventListener e ev v st = (Ok tt, st') /\
              log st' = log st ++ [OpAddListener e ev v].
Proof.
  intros H. unfold addEventListener. destruct (is_object v); [eexists; split; reflexivity|].
  simpl in H. rewrite H. eexists; split; reflexivity.
Qed.

Lemma removeEventListener_log e ev v st :
  is_object v || nullish v = true ->
  exists st', removeEventListener e ev v st = (Ok tt, st') /\
              log st' = log st ++ [OpRemoveListener e ev v].
Proof.
  intros H. unfold removeEventListener. destruct (is_object v); [eexists; split; reflexivity|].
  simpl in H. rewrite H. eexists; split; reflexivity.
Qed.

Lemma setAttribute_log e k v st :
  valid_name k = true ->
  exists st', setAttribute e k v st = (Ok tt, st') /\
              log st' = log st ++ [OpSetAttribute e k v].
Proof. intros H. unfold setAttribute. rewrite H. eexists; split; reflexivity. Qed.

(** ** Attribute diff *)

Lemma patchNewProp_log e oldProps newProps k st :
  accepted oldProps = true -> accepted newProps = true -> k ∈ js_keys newProps ->
  exists st', patchNewProp (Some e) oldProps newProps k st = (Ok tt, st') /\
              log st' = log st ++ newPropOps e oldProps newProps k.
Proof.
  intros Ho Hn Hk. unfold patchNewProp, newPropOps.
  destruct (strict_eq _ _).
  - exists st. now rewrite app_nil_r.
  - pose proof (accepted_key newProps k Hn Hk) as Hnk.
    destruct (startsWith_on k) eqn:Hon.
    + pose proof (accepted_handler oldProps k Ho Hon) as Hok.
      destruct (addEventListener_log e (eventName k) (js_get newProps k)) with (st := st)
        as (s1 & E1 & L1); [exact Hnk|].
      destruct (truthy (js_get oldProps k)) eqn:Ht.
      * destruct (removeEventListener_log e (eventName k) (js_get oldProps k) st Hok)
          as (s0 & E0 & L0).
        destruct (addEventListener_log e (eventName k) (js_get newProps k) s0 Hnk)
          as (s2 & E2 & L2).
        exists s2. split.
        -- cbn [deref]. unfold bind at 1. unfold bind at 1. cbn [ret]. rewrite E0.
           unfold bind at 1. cbn [ret]. exact E2.
        -- rewrite L2, L0, <- app_assoc. reflexivity.
      * exists s1. split; [|exact L1].
        cbn [deref]. unfold bind at 1. cbn [ret]. unfold bind at 1. cbn [ret]. exact E1.
    + destruct (setAttribute_log e k (js_get newProps k) st Hnk) as (s1 & E1 & L1).
      exists s1. split; [|exact L1]. cbn [deref]. unfold bind at 1. cbn [ret]. exact E1.
Qed.

Lemma patchOldProp_log e oldProps newProps k st :
  accepted oldProps = true -> k ∈ js_keys oldProps ->
  exists st', patchOldProp (Some e) oldProps newProps k st = (Ok tt, st') /\
              log st' = log st ++ oldPropOps e oldProps newProps k.
Proof.
  intros Ho Hk. unfold patchOldProp, oldPropOps.
  destruct (js_in k newProps).
  - exists st. now rewrite app_nil_r.
  - destruct (startsWith_on k) eqn:Hon.
    + destruct (removeEventListener_log e (eventName k) (js_get oldProps k) st
                  (accepted_handler oldProps k Ho Hon)) as (s1 & E1 & L1).
      exists s1. split; [|exact L1]. cbn [deref]. unfold bind at 1. cbn [ret]. exact E1.
    + eexists; split; reflexivity.
Qed.

Lemma patchProps_log e oldProps newProps st :
  accepted oldProps = true -> accepted newProps = true ->
  exists st', patchProps (Some e) oldProps newProps st = (Ok tt, st') /\
    log st' = log st ++ concat (map (newPropOps e oldProps newProps) (js_keys newProps))
                     ++ concat (map (oldPropOps e oldProps newProps) (js_keys oldProps)).
Proof.
  intros Ho Hn. unfold patchProps.
  destruct (forEach_log _ (newPropOps e oldProps newProps) (js_keys newProps)
              (fun k s Hk => patchNewProp_log e oldProps newProps k s Ho Hn Hk) st)
    as (st1 & E1 & L1).
  destruct (forEach_log _ (oldPropOps e oldProps newProps) (js_keys oldProps)
              (fun k s Hk => patchOldProp_log e oldProps newProps k s Ho Hk) st1)
    as (st2 & E2 & L2).
  exists st2. split.
  - rewrite (bind_Ok _ _ _ _ _ E1). exact E2.
  - rewrite L2, L1, <- app_assoc. reflexivity.
Qed.

Lemma in_concat_map {A B} (g : A -> list B) (l : list A) (y : B) :
  y ∈ concat (map g l) <-> exists x, x ∈ l /\ y ∈ g x.
Proof.
  induction l as [|x l IH]; simpl.
  - split; [intros H; inversion H | intros (x & H & _); inversion H].
  - rewrite elem_of_app, IH. split.
    + intros [H | (x' & H1 & H2)]; [exists x; split; [left|assumption] | exists x'; split; [now right|assumption]].
    + intros (x' & H1 & H2). inversion H1; subst; [now left | right; eauto].
Qed.

Lemma newPropOps_changed e oldProps newProps k :
  js_get oldProps k <> js_get newProps k ->
  (if startsWith_on k
   then OpAddListener e (eventName k) (js_get newProps k)
   else OpSetAttribute e k (js_get newProps k)) ∈ newPropOps e oldProps newProps k.
Proof.
  intros Hne. unfold newPropOps, strict_eq.
  rewrite bool_decide_eq_false_2 by assumption.
  destruct (startsWith_on k); [apply elem_of_app; right|]; left.
Qed.

Lemma oldPropOps_gone e oldProps newProps k :
  k ∉ js_keys newProps ->
  inherited k = false ->
  (if startsWith_on k
   then OpRemoveListener e (eventName k) (js_get oldProps k)
   else OpRemoveAttribute e k) ∈ oldPropOps e oldProps newProps k.
Proof.
  intros Hnin Hi. unfold oldPropOps.
  destruct (js_in k newProps) eqn:E; [apply js_in_keys in E as [E|E]; congruence|].
  destruct (startsWith_on k); left.
Qed.

(** A plain attribute that did not change is named by no call of the diff. *)
Lemma unchanged_plain_untouched e oldProps newProps k o :
  js_in k newProps = true ->
  js_get oldProps k = js_get newProps k ->
  startsWith_on k = false ->
  o ∈ concat (map (newPropOps e oldProps newProps) (js_keys newProps))
      ++ concat (map (oldPropOps e oldProps newProps) (js_keys oldProps)) ->
  (forall v, o <> OpSetAttribute e k v) /\ o <> OpRemoveAttribute e k.
Proof.
  intros Hk Heq Hon Ho.
  apply elem_of_app in Ho as [Ho|Ho]; apply in_concat_map in Ho as (k' & Hk' & Ho).
  - unfold newPropOps, strict_eq in Ho.
    destruct (bool_decide_reflect (js_get oldProps k' = js_get newProps k')) as [|Hne];
      [inversion Ho|].
    destruct (startsWith_on k') eqn:Hon'.
    + apply elem_of_app in Ho as [Ho|Ho].
      * destruct (truthy _); [|inversion Ho].
        apply list_elem_of_singleton in Ho as ->. split; [intros v|]; discriminate.
      * apply list_elem_of_singleton in Ho as ->. split; [intros v|]; discriminate.
    + apply list_elem_of_singleton in Ho as ->.
      split; [intros v Hv|discriminate].
      injection Hv as ->. contradiction.
  - unfold oldPropOps in Ho.
    destruct (js_in k' newProps) eqn:Hin; [inversion Ho|].
    destruct (startsWith_on k') eqn:Hon'; apply list_elem_of_singleton in Ho as ->.
    + split; [intros v|]; discriminate.
    + split; [intros v; discriminate|]. intros Hv. injection Hv as ->. congruence.
Qed.

(** C5, as amended. When the backend accepts the two sets of properties
    (every name that is not an [on...] name is a name [setAttribute]
    accepts, the value under an [on...] name is a function, [null] or
    [undefined]), the attribute diff of [patchProps] on a live element [e]
    completes, and the backend calls [l] it makes, which are the calls of
    the first loop for the new names followed by those of the second loop
    for the old names, are such that: every attribute of the new set whose
    value differs from the value read in the old set under that name is
    applied, as a listener binding for an [on...] name and by
    [setAttribute] otherwise; every attribute of the old set that is
    absent from the new set, and whose name is not the name of a property
    every object inherits, is removed; and for an attribute whose value
    did not change both loop bodies return without any call or change of
    state, and, for a plain attribute, no call of [l] sets or removes
    it. *)
Theorem patchProps_minimal (e : nat) (oldProps newProps : object) (st : dom) :
  accepted oldProps = true ->
  accepted newProps = true ->
  exists st' l,
    patchProps (Some e) oldProps newProps st = (Ok tt, st') /\
    log st' = log st ++ l /\
    l = concat (map (newPropOps e oldProps newProps) (js_keys newProps))
        ++ concat (map (oldPropOps e oldProps newProps) (js_keys oldProps)) /\
    (forall k, k ∈ js_keys newProps ->
       js_get oldProps k <> js_get newProps k ->
       if startsWith_on k
       then OpAddListener e (eventName k) (js_get newProps k) ∈ l
       else OpSetAttribute e k (js_get newProps k) ∈ l) /\
    (forall k, k ∈ js_keys oldProps ->
       k ∉ js_keys newProps ->
       inherited k = false ->
       if startsWith_on k
       then OpRemoveListener e (eventName k) (js_get oldProps k) ∈ l
       else OpRemoveAttribute e k ∈ l) /\
    (forall k, k ∈ js_keys newProps ->
       js_get oldProps k = js_get newProps k ->
       (forall s, patchNewProp (Some e) oldProps newProps k s = (Ok tt, s)) /\
       (forall s, patchOldProp (Some e) oldProps newProps k s = (Ok tt, s)) /\
       (startsWith_on k = false ->
        forall o, o ∈ l -> (forall v, o <> OpSetAttribute e k v) /\ o <> OpRemoveAttribute e k)).
Proof.
  intros Hao Han.
  destruct (patchProps_log e oldProps newProps st Hao Han) as (st' & E & L).
  eexists st', _. split; [exact E|]. split; [exact L|]. split; [reflexivity|].
  split; [|split].
  - intros k Hk Hne.
    pose proof (newPropOps_changed e oldProps newProps k Hne) as Hop.
    destruct (startsWith_on k); apply elem_of_app; left; apply in_concat_map; eauto.
  - intros k Hk Hnin Hi.
    pose proof (oldPropOps_gone e oldProps newProps k Hnin Hi) as Hop.
    destruct (startsWith_on k); apply elem_of_app; right; apply in_concat_map; eauto.
  - intros k Hk Heq. apply js_in_own in Hk. split; [|split].
    + intros s. unfold patchNewProp, strict_eq.
      rewrite bool_decide_eq_true_2 by assumption. reflexivity.
    + intros s. unfold patchOldProp. rewrite Hk. reflexivity.
    + intros Hon o Ho. eapply unchanged_plain_untouched; eauto.
Qed.

(** Old attributes [{a:1, b:2}] against new [{a:1, b:3, c:4}]: [b] and
    [c] are set and [a] is not touched. *)
Lemma patchProps_minimal_example :
  log (snd (patchProps (Some 0) attrs_old attrs_new page))
    = log page ++ [OpSetAttribute 0 "b" (VNum 3); OpSetAttribute 0 "c" (VNum 4)] /\
  exists st' l,
    patchProps (Some 0) attrs_old attrs_new page = (Ok tt, st') /\
    log st' = log page ++ l /\
    OpSetAttribute 0 "b" (VNum 3) ∈ l /\
    OpSetAttribute 0 "c" (VNum 4) ∈ l /\
    (forall o, o ∈ l ->
       (forall v, o <> OpSetAttribute 0 "a" v) /\ o <> OpRemoveAttribute 0 "a").
Proof.
  split; [reflexivity|].
  destruct (patchProps_minimal 0 attrs_old attrs_new page eq_refl eq_refl)
    as (st' & l & E & L & _ & Hnew & _ & Hsame).
  exists st', l. split; [exact E|]. split; [exact L|].
  split; [|split].
  - apply (Hnew "b"); [right; left | discriminate].
  - apply (Hnew "c"); [right; right; left | discriminate].
  - apply (Hsame "a"); [left | reflexivity | reflexivity].
Defined.

(** The claim as it stands fails where the backend refuses a call: against
    old [{a:1, b:2}], the new attributes [{"my attr":3, b:3}] make
    [setAttribute] throw on the first name, and [b], whose value differs,
    is never set. *)
Lemma refused_name_stops_the_diff :
  "b" ∈ js_keys attrs_spaced /\
  js_get attrs_old "b" <> js_get attrs_spaced "b" /\
  patchProps (Some 0) attrs_old attrs_spaced page = (Err InvalidCharacterError, page).
Proof.
  split; [right; left|]. split; [discriminate|reflexivity].
Qed.

(** ** Reconciling a tree against a copy of itself *)

Lemma forEach_skip {A} (f : A -> M unit) (l : list A) st :
  (forall x, x ∈ l -> f x st = (Ok tt, st)) -> forEach f l st = (Ok tt, st).
Proof.
  induction l as [|x l IH]; intros H; simpl; [reflexivity|].
  rewrite (bind_Ok _ _ _ _ _ (H x ltac:(left))).
  apply IH. intros y Hy. apply H. now right.
Qed.

Lemma patchProps_same e p st : patchProps e p p st = (Ok tt, st).
Proof.
  unfold patchProps.
  rewrite (bind_Ok _ _ st tt st).
  - apply forEach_skip. intros k Hk. unfold patchOldProp.
    apply js_in_own in Hk. now rewrite Hk.
  - apply forEach_skip. intros k _. unfold patchNewProp, strict_eq.
    now rewrite bool_decide_eq_true_2.
Qed.

Lemma strip_eq t p cs k e :
  strip (VNode t p cs k e) = VNode t p (map strip_child cs) k None.
Proof. reflexivity. Qed.

Lemma is_keyed_strip c : is_keyed (strip_child c) = is_keyed c.
Proof. destruct c as [s|[t p cs k e]]; reflexivity. Qed.

Lemma hasKeyed_strip cs : hasKeyedChildren (map strip_child cs) = hasKeyedChildren cs.
Proof.
  unfold hasKeyedChildren. induction cs as [|c cs IH]; simpl; [reflexivity|].
  now rewrite is_keyed_strip, IH.
Qed.

Lemma unkeyedCommon_same (container : option nat) (olds : list child) :
  Forall (child_all (fun old => forall new st,
            unkeyed old = true -> strip old = strip new ->
            patch old new st = (Ok old, st))) olds ->
  forall news i st,
    forallb (fun c => match c with CText _ => true | CNode v' => unkeyed v' end) olds = true ->
    map strip_child olds = map strip_child news ->
    unkeyedCommon patch container olds news i st = (Ok olds, st).
Proof.
  induction 1 as [|o olds Ho _ IH]; intros news i st Hu Hs.
  - destruct news; [reflexivity | discriminate].
  - destruct news as [|n news]; [discriminate|].
    simpl in Hu. apply andb_true_iff in Hu as [Hu1 Hu2].
    simpl in Hs. injection Hs as Hs1 Hs2.
    simpl.
    assert (Hv : unkeyedVisit patch container i o n st = (Ok o, st)).
    { destruct o as [a|ov], n as [b|nv]; simpl in *; try discriminate.
      - injection Hs1 as ->. now rewrite String.eqb_refl.
      - injection Hs1 as Hs1. rewrite (bind_Ok _ _ _ _ _ (Ho nv st Hu1 Hs1)). reflexivity. }
    rewrite (bind_Ok _ _ _ _ _ Hv).
    rewrite (bind_Ok _ _ _ _ _ (IH news (S i) st Hu2 Hs2)). reflexivity.
Qed.

(** C2, as amended. For a descriptor tree none of whose child lists holds
    a keyed child, reconciling it against a structural copy (same kinds,
    attributes, children and keys; any [el] slots) returns normally, leaves
    the document and the log of backend calls exactly as they were, and
    binds the copy to the same live nodes. *)
Theorem patch_copy_no_mutation (old new : vnode) (st : dom) :
  unkeyed old = true ->
  strip old = strip new ->
  patch old new st = (Ok old, st).
Proof.
  revert new st. induction old as [t p cs k e IH] using vnode_nested_ind.
  intros [t' p' cs' k' e'] st Hu Hs.
  rewrite !strip_eq in Hs. injection Hs as <- <- Hcs <-.
  simpl in Hu. apply andb_true_iff in Hu as [Hk Hu].
  simpl. rewrite String.eqb_refl. simpl.
  rewrite (bind_Ok _ _ _ _ _ (patchProps_same e p st)).
  unfold patchChildren.
  rewrite <- (hasKeyed_strip cs'), <- Hcs, hasKeyed_strip.
  apply negb_true_iff in Hk. rewrite Hk.
  assert (Hlen : length cs' = length cs).
  { apply (f_equal length) in Hcs. now rewrite !length_map in Hcs. }
  assert (Hc : patchUnkeyedChildren patch cs cs' e st = (Ok cs, st)).
  { unfold patchUnkeyedChildren.
    rewrite (bind_Ok _ _ _ _ _ (unkeyedCommon_same e cs IH cs' 0 st Hu Hcs)).
    rewrite Hlen, Nat.min_id, Nat.sub_diag.
    rewrite drop_ge by lia. cbn.
    rewrite app_nil_r. reflexivity. }
  rewrite (bind_Ok _ _ _ _ _ Hc). reflexivity.
Qed.

Lemma patch_copy_no_mutation_witness :
  patch (fst (mounted_of plain_tree)) plain_tree (snd (mounted_of plain_tree))
    = (Ok (fst (mounted_of plain_tree)), snd (mounted_of plain_tree)).
Proof.
  apply patch_copy_no_mutation; vm_compute; reflexivity.
Defined.

(** Reconciling a list of two keyed items against its copy calls
    [insertBefore]; with a keyed and an unkeyed item the unkeyed one is
    materialized a second time and the list ends with three nodes. *)
Lemma copy_of_keyed_list_mutates :
  (strip (fst (mounted_of two_keyed)) = strip two_keyed /\
   exists new' st,
     patch (fst (mounted_of two_keyed)) two_keyed (snd (mounted_of two_keyed)) = (Ok new', st) /\
     log st = log (snd (mounted_of two_keyed)) ++ [OpInsertBefore 1 2 4]) /\
  (strip (fst (mounted_of keyed_and_plain)) = strip keyed_and_plain /\
   exists new' st,
     patch (fst (mounted_of keyed_and_plain)) keyed_and_plain (snd (mounted_of keyed_and_plain))
       = (Ok new', st) /\
     log st = log (snd (mounted_of keyed_and_plain))
                ++ [OpCreateElement 6 "li"; OpCreateText 7 "B";
                    OpAppendChild 6 7; OpAppendChild 1 6] /\
     kids (snd (mounted_of keyed_and_plain)) 1 = [2; 4] /\
     kids st 1 = [2; 4; 6]).
Proof.
  split; (split; [reflexivity|]); eexists _, _; vm_compute; repeat split; reflexivity.
Qed.

(** ** The index algorithm on text children *)

(** C7. Old children ["a"] against new children ["a"; "b"] under the
    index algorithm: the extra child is handed to [mount] as a string, an
    element named "undefined" is created, the call throws, and the parent
    keeps its single text node.  On structured children [X, Y, Z] against
    [X'] the algorithm does what is expected of it: [X] is patched in
    place, then the nodes of [Z] and of [Y] are removed, in that order. *)
Theorem unkeyed_text_append_throws :
  (exists st,
     mount_then_patch text_a text_ab = (Err TypeError, st) /\
     log st = [OpCreateElement 3 "undefined"] /\
     kids st 1 = [2] /\
     heap st !! 2 = Some (DNode (TextNode "a") [])) /\
  (map child_el (children (fst (mounted_of xyz))) = [Some 2; Some 4; Some 6] /\
   exists new' st,
     mount_then_patch xyz x_alone = (Ok new', st) /\
     map child_el (children new') = [Some 2] /\
     kids st 1 = [2] /\
     log st = [OpSetAttribute 2 "id" (VStr "x2"); OpSetText 3 "one";
               OpRemoveChild 1 6; OpRemoveChild 1 4]).
Proof.
  split.
  - eexists. vm_compute. repeat split; reflexivity.
  - split; [reflexivity|]. eexists _, _. vm_compute. repeat split; reflexivity.
Qed.

(** ** Materialization *)

Lemma kids_eq st q : kids st q = default [] (n_kids <$> heap st !! q).
Proof. unfold kids. destruct (heap st !! q); reflexivity. Qed.

Lemma lookup_detach c hp q :
  detach c hp !! q = set_kids (filter (fun x => x <> c)) <$> hp !! q.
Proof. unfold detach. apply list_lookup_fmap. Qed.

Lemma filter_id {A} (P : A -> Prop) `{forall x, Decision (P x)} (l : list A) :
  Forall P l -> filter P l = l.
Proof.
  induction 1 as [|x l Hx _ IH]; [reflexivity|].
  rewrite filter_cons_True by assumption. now rewrite IH.
Qed.

Lemma detach_id c hp :
  (forall q nd, hp !! q = Some nd -> c ∉ n_kids nd) -> detach c hp = hp.
Proof.
  intros H. apply list_eq. intros q. rewrite lookup_detach.
  destruct (hp !! q) as [nd|] eqn:E; [|reflexivity]. simpl. f_equal.
  destruct nd as [pl ks]. unfold set_kids. simpl. f_equal.
  apply filter_id. apply Forall_forall. intros x Hx ->.
  apply (H q _ E). exact Hx.
Qed.

Lemma wf_lookup st q nd x :
  wf st -> heap st !! q = Some nd -> x ∈ n_kids nd -> x < length (heap st).
Proof. intros Hwf E Hx. apply (Hwf q x). unfold kids. now rewrite E. Qed.

Lemma detach_fresh st c :
  wf st -> length (heap st) <= c -> detach c (heap st) = heap st.
Proof.
  intros Hwf Hc. apply detach_id. intros q nd E Hin.
  pose proof (wf_lookup _ _ _ _ Hwf E Hin). lia.
Qed.

Lemma createElement_run t st :
  valid_name t = true ->
  createElement t st =
    (Ok (length (heap st)),
     Dom (heap st ++ [DNode (Elem t [] []) []]) (log st ++ [OpCreateElement (length (heap st)) t])).
Proof. intros H. unfold createElement. now rewrite H. Qed.

Lemma forallb_child_all (f : vnode -> bool) cs :
  forallb (fun c => match c with CText _ => true | CNode v' => f v' end) cs = true <->
  Forall (child_all (fun v => f v = true)) cs.
Proof.
  induction cs as [|c cs IH]; simpl.
  - split; [constructor|reflexivity].
  - rewrite andb_true_iff, Forall_cons, IH.
    destruct c; simpl; intuition.
Qed.

Lemma renderable_eq t p cs k e :
  renderable (VNode t p cs k e) = true <->
  valid_name t = true /\ accepted p = true /\
  Forall (child_all (fun v => renderable v = true)) cs.
Proof.
  simpl. rewrite !andb_true_iff, (forallb_child_all renderable). tauto.
Qed.

Lemma plain_eq t p cs k e :
  plain (VNode t p cs k e) = true <->
  plain_keys p = true /\ Forall (child_all (fun v => plain v = true)) cs.
Proof.
  simpl. rewrite andb_true_iff, (forallb_child_all plain). tauto.
Qed.

Lemma createTextNode_run t st :
  createTextNode t st =
    (Ok (length (heap st)),
     Dom (heap st ++ [DNode (TextNode t) []]) (log st ++ [OpCreateText (length (heap st)) t])).
Proof. reflexivity. Qed.

Lemma appendChild_run p c st :
  appendChild p c st =
    (Ok tt, Dom (alter (set_kids (fun l => l ++ [c])) p (detach c (heap st)))
                (log st ++ [OpAppendChild p c])).
Proof. reflexivity. Qed.

Lemma ordinary_eq t p cs k e :
  ordinary (VNode t p cs k e) = true <->
  valid_name t = true /\ accepted p = true /\ plain_keys p = true /\
  Forall (child_all (fun v => ordinary v = true)) cs.
Proof.
  unfold ordinary. rewrite andb_true_iff, renderable_eq, plain_eq.
  assert (H : Forall (child_all (fun v => renderable v && plain v = true)) cs <->
              Forall (child_all (fun v => renderable v = true)) cs /\
              Forall (child_all (fun v => plain v = true)) cs).
  { rewrite <- Forall_and. apply Forall_iff. intros [s|v]; simpl; [tauto|].
    apply andb_true_iff. }
  rewrite H. tauto.
Qed.

Lemma ordinary_renderable v : ordinary v = true -> renderable v = true.
Proof. unfold ordinary. now intros [H _]%andb_true_iff. Qed.

Lemma ordinary_plain v : ordinary v = true -> plain v = true.
Proof. unfold ordinary. now intros [_ H]%andb_true_iff. Qed.

Lemma renderable_strip v : renderable (strip v) = renderable v.
Proof.
  induction v as [t p cs k e IH] using vnode_nested_ind.
  rewrite strip_eq. simpl. f_equal.
  induction IH as [|c cs Hc _ IHc]; [reflexivity|]. simpl.
  rewrite IHc. destruct c as [s|v]; simpl in *; [reflexivity|now rewrite Hc].
Qed.

Lemma plain_strip v : plain (strip v) = plain v.
Proof.
  induction v as [t p cs k e IH] using vnode_nested_ind.
  rewrite strip_eq. simpl. f_equal.
  induction IH as [|c cs Hc _ IHc]; [reflexivity|]. simpl.
  rewrite IHc. destruct c as [s|v]; simpl in *; [reflexivity|now rewrite Hc].
Qed.

Lemma ordinary_strip v : ordinary (strip v) = ordinary v.
Proof. unfold ordinary. now rewrite renderable_strip, plain_strip. Qed.

(** Properties of descriptors that do not depend on the [el] slots. *)
Lemma children_strip (f : vnode -> bool) :
  (forall v, f (strip v) = f v) ->
  forall cs cs', map strip_child cs = map strip_child cs' ->
    Forall (child_all (fun v => f v = true)) cs' ->
    Forall (child_all (fun v => f v = true)) cs.
Proof.
  intros Hf. induction cs as [|c cs IH]; intros [|c' cs'] E H; try discriminate; [constructor|].
  injection E as E1 E2. apply Forall_cons in H as [H1 H2].
  constructor; [|now apply (IH cs')].
  destruct c as [s|v], c' as [s'|v']; simpl in *; try discriminate; [exact I|].
  injection E1 as E1. now rewrite <- Hf, E1, Hf.
Qed.

Lemma alter_payload_id (e : nat) (hp : list dnode) :
  alter (set_payload (on_elem (fun t a l => Elem t a l))) e hp = hp.
Proof.
  apply list_eq. intros q. destruct (decide (e = q)) as [->|Hne].
  - rewrite list_lookup_alter_eq. destruct (hp !! q) as [[[t a l|s] ks]|]; reflexivity.
  - now rewrite list_lookup_alter_ne.
Qed.

Lemma mountProp_run e props k st :
  accepted props = true -> k ∈ js_keys props ->
  exists f, keeps_tag f /\ mountProp e props k st =
    (Ok tt, Dom (alter (set_payload (on_elem f)) e (heap st)) (log st ++ [mountPropOp e props k])).
Proof.
  intros Ha Hk. pose proof (accepted_key props k Ha Hk) as H.
  unfold mountProp, mountPropOp, addEventListener, setAttribute.
  destruct (startsWith_on k).
  - destruct (is_object (js_get props k)).
    + eexists; (split; [|reflexivity]); intros t a l; eauto.
    + simpl in H. rewrite H. exists (fun t a l => Elem t a l).
      split; [intros t a l; eauto|]. now rewrite alter_payload_id.
  - rewrite H. eexists; (split; [|reflexivity]); intros t a l; eauto.
Qed.

Lemma same_shape_at_refl e hp : same_shape_at e hp hp.
Proof. repeat split; eauto. Qed.

Lemma same_shape_at_trans e h1 h2 h3 :
  same_shape_at e h1 h2 -> same_shape_at e h2 h3 -> same_shape_at e h1 h3.
Proof.
  intros (L1 & O1 & K1 & P1) (L2 & O2 & K2 & P2). repeat split.
  - congruence.
  - intros q Hq. rewrite O2, O1; auto.
  - intros q. rewrite K2, K1; auto.
  - intros t a ls ks E. destruct (P1 _ _ _ _ E) as (a' & ls' & E').
    apply (P2 _ _ _ _ E').
Qed.

Lemma alter_payload_shape e f hp :
  keeps_tag f -> same_shape_at e hp (alter (set_payload (on_elem f)) e hp).
Proof.
  intros Hf.
  repeat split.
  - apply length_alter.
  - intros q Hq. now apply list_lookup_alter_ne.
  - intros q. destruct (decide (e = q)) as [->|Hne].
    + rewrite list_lookup_alter_eq. destruct (hp !! q) as [[]|]; reflexivity.
    + now rewrite list_lookup_alter_ne.
  - intros t a ls ks E. rewrite list_lookup_alter_eq, E. simpl.
    unfold set_payload. simpl.
    destruct (Hf t a ls) as (a' & ls' & ->). eauto.
Qed.

Lemma mountProps_run e props ks st :
  accepted props = true -> (forall k, k ∈ ks -> k ∈ js_keys props) ->
  exists hp', forEach (mountProp e props) ks st =
      (Ok tt, Dom hp' (log st ++ map (mountPropOp e props) ks)) /\
    same_shape_at e (heap st) hp'.
Proof.
  intros Ha. revert st. induction ks as [|k ks IH]; intros st Hks; simpl.
  - exists (heap st). rewrite app_nil_r. destruct st. split; [reflexivity|apply same_shape_at_refl].
  - destruct (mountProp_run e props k st Ha (Hks k ltac:(left))) as (f & Hf & E).
    rewrite (bind_Ok _ _ _ _ _ E).
    destruct (IH (Dom (alter (set_payload (on_elem f)) e (heap st)) (log st ++ [mountPropOp e props k])))
      as (hp' & E' & S').
    { intros k' Hk'. apply Hks. now right. }
    exists hp'. split.
    + rewrite E'. simpl. now rewrite <- app_assoc.
    + eapply same_shape_at_trans; [|exact S']. now apply alter_payload_shape.
Qed.

Lemma createElement_inv t st n s1 :
  createElement t st = (Ok n, s1) ->
  valid_name t = true /\ n = length (heap st) /\
  s1 = Dom (heap st ++ [DNode (Elem t [] []) []]) (log st ++ [OpCreateElement (length (heap st)) t]).
Proof.
  unfold createElement. destruct (valid_name t); [|discriminate].
  intros E. injection E as <- <-. auto.
Qed.

Lemma mountProp_inv e props k st s' :
  mountProp e props k st = (Ok tt, s') ->
  exists f, keeps_tag f /\
    s' = Dom (alter (set_payload (on_elem f)) e (heap st)) (log st ++ [mountPropOp e props k]).
Proof.
  unfold mountProp, mountPropOp, addEventListener, setAttribute.
  destruct (startsWith_on k).
  - destruct (is_object (js_get props k)).
    + intros E. injection E as <-. eexists; (split; [|reflexivity]); intros t a l; eauto.
    + destruct (nullish (js_get props k)); [|discriminate].
      intros E. injection E as <-. exists (fun t a l => Elem t a l).
      split; [intros t a l; eauto|]. now rewrite alter_payload_id.
  - destruct (valid_name k); [|discriminate].
    intros E. injection E as <-. eexists; (split; [|reflexivity]); intros t a l; eauto.
Qed.

Lemma mountProps_inv e props ks st s' :
  forEach (mountProp e props) ks st = (Ok tt, s') ->
  exists hp', s' = Dom hp' (log st ++ map (mountPropOp e props) ks) /\
    same_shape_at e (heap st) hp'.
Proof.
  revert st. induction ks as [|k ks IH]; intros st E; simpl in E.
  - injection E as <-. exists (heap st). rewrite app_nil_r. destruct st.
    split; [reflexivity|apply same_shape_at_refl].
  - unfold bind in E. destruct (mountProp e props k st) as [[[]|er] s1] eqn:E1; [|discriminate].
    apply mountProp_inv in E1 as (f & Hf & ->).
    apply IH in E as (hp' & -> & S'). exists hp'. split.
    + simpl. now rewrite <- app_assoc.
    + eapply same_shape_at_trans; [|exact S']. now apply alter_payload_shape.
Qed.

Lemma children_mounted_refl n s : wf s -> above n s -> children_mounted n s s.
Proof. intros. repeat split; auto. Qed.

Lemma children_mounted_trans n s1 s2 s3 :
  children_mounted n s1 s2 -> children_mounted n s2 s3 -> children_mounted n s1 s3.
Proof.
  intros (W1 & L1 & O1 & P1 & A1) (W2 & L2 & O2 & P2 & A2). repeat split; auto.
  - lia.
  - intros q Hq Hn. rewrite O2, O1; auto. lia.
  - congruence.
Qed.

Lemma kids_alter_kids f p hp lg q :
  kids (Dom (alter (set_kids f) p hp) lg) q =
    if decide (p = q) then (if decide (q < length hp) then f (kids (Dom hp lg) q) else [])
    else kids (Dom hp lg) q.
Proof.
  unfold kids. simpl. destruct (decide (p = q)) as [->|Hne].
  - rewrite list_lookup_alter_eq. destruct (hp !! q) as [nd|] eqn:E; simpl.
    + apply lookup_lt_Some in E. now rewrite decide_True.
    + apply lookup_ge_None in E. rewrite decide_False by lia. reflexivity.
  - now rewrite list_lookup_alter_ne.
Qed.

Lemma kids_snoc hp nd lg q :
  kids (Dom (hp ++ [nd]) lg) q =
    if decide (q = length hp) then n_kids nd else kids (Dom hp lg) q.
Proof.
  unfold kids. simpl. destruct (decide (q = length hp)) as [->|Hne].
  - now rewrite list_lookup_middle.
  - destruct (decide (q < length hp)).
    + now rewrite lookup_app_l.
    + rewrite !(proj2 (lookup_ge_None _ _)); [reflexivity| lia | rewrite length_app; simpl; lia].
Qed.

Lemma kids_log hp lg lg' q : kids (Dom hp lg) q = kids (Dom hp lg') q.
Proof. reflexivity. Qed.

(** Appending a node that nothing holds yet. *)
Lemma mount_text_step n txt s :
  wf s -> n < length (heap s) -> above n s ->
  exists s', (createTextNode txt;; appendChild n (length (heap s))) s = (Ok tt, s') /\
    (exists l, log s' = log s ++ l) /\ children_mounted n s s'.
Proof.
  intros Hwf Hn Hab.
  eexists. split; [|split].
  - unfold bind. rewrite createTextNode_run, appendChild_run. simpl. reflexivity.
  - simpl. rewrite <- app_assoc. eauto.
  - set (m := length (heap s)).
    assert (Hd : detach m (heap s ++ [DNode (TextNode txt) []]) = heap s ++ [DNode (TextNode txt) []]).
    { apply detach_id. intros q nd E Hin.
      destruct (decide (q < m)) as [Hq|Hq].
      - rewrite lookup_app_l in E by exact Hq.
        pose proof (wf_lookup _ _ _ _ Hwf E Hin). lia.
      - apply lookup_lt_Some in E as Hlt. rewrite length_app in Hlt. simpl in Hlt.
        assert (q = m) as -> by (unfold m in *; lia).
        unfold m in E. rewrite list_lookup_middle in E by reflexivity.
        injection E as <-. inversion Hin. }
    rewrite Hd. clear Hd. subst m. unfold children_mounted, wf. repeat split; simpl.
    + intros q x. rewrite length_alter, kids_alter_kids, !length_app. simpl.
      destruct (decide (n = q)) as [<-|Hne].
      * rewrite decide_True by lia. rewrite kids_snoc, decide_False by lia.
        intros [Hx| ->%list_elem_of_singleton]%elem_of_app; [|lia].
        pose proof (Hwf n x Hx). lia.
      * rewrite kids_snoc. destruct (decide (q = length (heap s))); [intros Hx; inversion Hx|].
        intros Hx. pose proof (Hwf q x Hx). lia.
    + rewrite length_alter, length_app. lia.
    + intros q Hq Hne. rewrite list_lookup_alter_ne by auto. now rewrite lookup_app_l.
    + rewrite list_lookup_alter_eq. rewrite lookup_app_l by exact Hn.
      destruct (heap s !! n); reflexivity.
    + intros q x Hq. rewrite kids_alter_kids, length_app. simpl.
      destruct (decide (n = q)) as [<-|Hne].
      * rewrite decide_True by lia. rewrite kids_snoc, decide_False by lia.
        intros [Hx| ->%list_elem_of_singleton]%elem_of_app; [|lia].
        now apply (Hab n).
      * rewrite kids_snoc. destruct (decide (q = length (heap s))); [intros Hx; inversion Hx|].
        intros Hx. now apply (Hab q).
Qed.

Lemma mounted_children n tg s s1 :
  wf s -> n < length (heap s) -> above n s ->
  mounted s n tg s1 -> children_mounted n s s1.
Proof.
  intros Hwf Hn Hab (W & L & O & C & P & A). repeat split; auto.
  - lia.
  - rewrite C. destruct (heap s !! n); reflexivity.
  - intros q x Hq Hx.
    destruct (decide (length (heap s) <= q)) as [Hge|Hlt].
    + pose proof (A q x Hge Hx). lia.
    + destruct (decide (q = n)) as [->|Hne].
      * unfold kids in Hx. rewrite C in Hx.
        destruct (heap s !! n) as [nd|] eqn:E; simpl in Hx; [|inversion Hx].
        apply elem_of_app in Hx as [Hx| ->%list_elem_of_singleton]; [|lia].
        apply (Hab n x); [lia|]. unfold kids. now rewrite E.
      * apply (Hab q x Hq). unfold kids in *. rewrite O in Hx by lia. exact Hx.
Qed.

Lemma mountChildren_spec n cs :
  Forall (child_all mount_spec) cs ->
  Forall (child_all (fun v => renderable v = true)) cs ->
  forall s, exists cs' s' l,
    mountChildren mount n cs s = (Ok cs', s') /\
    log s' = log s ++ l /\
    (wf s -> n < length (heap s) -> above n s -> children_mounted n s s').
Proof.
  induction 1 as [|c cs Hc _ IH]; intros Hr s.
  - exists [], s, []. rewrite app_nil_r.
    split; [reflexivity|split; [reflexivity|]].
    intros. now apply children_mounted_refl.
  - apply Forall_cons in Hr as [Hrc Hr]. specialize (IH Hr).
    destruct c as [txt|v]; simpl.
    + destruct (IH (snd ((createTextNode txt;; appendChild n (length (heap s))) s)))
        as (cs' & s' & l & E & L & F).
      eexists (CText txt :: cs'), s', _.
      split; [|split].
      * unfold bind in *. rewrite createTextNode_run in *.
        rewrite appendChild_run in *. simpl in *. rewrite E. reflexivity.
      * rewrite L. unfold bind. rewrite createTextNode_run, appendChild_run. simpl.
        rewrite <- !app_assoc. reflexivity.
      * intros Hwf Hn Hab.
        destruct (mount_text_step n txt s Hwf Hn Hab) as (s1 & E1 & _ & M1).
        rewrite E1 in F. simpl in F.
        eapply children_mounted_trans; [exact M1|].
        destruct M1 as (W1 & L1 & _ & _ & A1). apply F; auto. lia.
    + destruct (Hc Hrc n s) as (v' & s1 & l1 & E1 & _ & L1 & F1).
      destruct (IH s1) as (cs' & s' & l & E & L & F).
      eexists (CNode v' :: cs'), s', _.
      split; [|split].
      * rewrite (bind_Ok _ _ _ _ _ E1). rewrite (bind_Ok _ _ _ _ _ E). reflexivity.
      * rewrite L, L1. rewrite <- app_assoc. reflexivity.
      * intros Hwf Hn Hab.
        pose proof (mounted_children _ _ _ _ Hwf Hn Hab (F1 Hwf Hn)) as M1.
        eapply children_mounted_trans; [exact M1|].
        destruct M1 as (W1 & L1' & _ & _ & A1). apply F; auto. lia.
Qed.

Lemma mount_ok v : mount_spec v.
Proof.
  induction v as [t p cs k e IH] using vnode_nested_ind.
  intros (Ht & Hp & Hcs)%renderable_eq c st. simpl.
  remember (length (heap st)) as n eqn:Hn.
  set (s1 := Dom (heap st ++ [DNode (Elem t [] []) []]) (log st ++ [OpCreateElement n t])).
  destruct (mountProps_run n p (js_keys p) s1 Hp (fun k H => H)) as (hp2 & E2 & S2).
  destruct (mountChildren_spec n cs IH Hcs
              (Dom hp2 (log s1 ++ map (mountPropOp n p) (js_keys p))))
    as (cs' & s3 & l3 & E3 & L3 & F3).
  eexists (VNode t p cs' k (Some n)), _, (l3 ++ [OpAppendChild c n]).
  split; [|split; [reflexivity|split]].
  - rewrite (bind_Ok _ _ _ _ _ (createElement_run t st Ht)). rewrite <- Hn. fold s1.
    rewrite (bind_Ok _ _ _ _ _ E2).
    rewrite (bind_Ok _ _ _ _ _ E3).
    reflexivity.
  - simpl. rewrite L3. simpl. rewrite <- !app_assoc. reflexivity.
  - intros Hwf Hc. simpl in S2. destruct S2 as (Len2 & O2 & K2 & P2).
    rewrite length_app in Len2. simpl in Len2. rewrite <- Hn in Len2.
    assert (Hk2 : forall q, kids (Dom hp2 (log s1 ++ map (mountPropOp n p) (js_keys p))) q
                          = if decide (q = n) then [] else kids st q).
    { intros q. unfold kids at 1. simpl.
      pose proof (K2 q) as Hq.
      destruct (decide (q = n)) as [Heq|Hne].
      - rewrite list_lookup_middle in Hq by congruence.
        destruct (hp2 !! q) as [nd|]; simpl in Hq; [|discriminate].
        now injection Hq.
      - unfold kids. destruct (decide (q < n)).
        + rewrite lookup_app_l in Hq by lia.
          destruct (hp2 !! q), (heap st !! q); simpl in Hq; try discriminate;
            [now injection Hq | reflexivity].
        + rewrite (proj2 (lookup_ge_None (heap st) q)) by lia.
          rewrite (proj2 (lookup_ge_None hp2 q)); [reflexivity|lia]. }
    assert (W2 : wf (Dom hp2 (log s1 ++ map (mountPropOp n p) (js_keys p)))).
    { intros q x. rewrite Hk2. simpl. rewrite Len2.
      destruct (decide (q = n)); [intros Hx; inversion Hx|].
      intros Hx. pose proof (Hwf q x Hx). lia. }
    assert (A2 : above n (Dom hp2 (log s1 ++ map (mountPropOp n p) (js_keys p)))).
    { intros q x Hq. rewrite Hk2.
      destruct (decide (q = n)); [intros Hx; inversion Hx|].
      intros Hx. unfold kids in Hx.
      rewrite (proj2 (lookup_ge_None (heap st) q)) in Hx by lia.
      inversion Hx. }
    destruct (F3 W2 ltac:(simpl; lia) A2) as (W3 & Len3 & O3 & P3 & A3).
    simpl in Len3, O3, P3.
    assert (Hd : detach n (heap s3) = heap s3).
    { apply detach_id. intros q nd E Hin.
      destruct (decide (n <= q)) as [Hge|Hlt].
      - assert (n < n); [|lia]. apply (A3 q n Hge). unfold kids. now rewrite E.
      - assert (Hq : kids s3 q = kids st q).
        { unfold kids at 1. rewrite O3 by lia.
          specialize (Hk2 q). unfold kids at 1 in Hk2. simpl in Hk2.
          rewrite decide_False in Hk2 by lia. exact Hk2. }
        assert (Hx : n ∈ kids st q) by (rewrite <- Hq; unfold kids; now rewrite E).
        pose proof (Hwf q n Hx). lia. }
    unfold mounted. rewrite <- Hn. simpl. rewrite Hd.
    assert (Hold : forall q, q < n -> heap s3 !! q = heap st !! q).
    { intros q Hq. rewrite O3 by lia. rewrite O2 by lia.
      rewrite lookup_app_l by lia. reflexivity. }
    repeat split.
    + intros q x. simpl. rewrite kids_alter_kids, length_alter.
      destruct (decide (c = q)) as [<-|Hne].
      * rewrite decide_True by lia.
        intros [Hx| ->%list_elem_of_singleton]%elem_of_app; [|lia].
        now apply (W3 c).
      * apply (W3 q).
    + rewrite length_alter. lia.
    + intros q Hq Hne. rewrite list_lookup_alter_ne by auto. now apply Hold.
    + rewrite list_lookup_alter_eq. now rewrite Hold.
    + rewrite list_lookup_alter_ne by lia.
      destruct (P2 t [] [] []) as (a' & ls' & E').
      { now rewrite list_lookup_middle. }
      rewrite E' in P3. simpl in P3.
      destruct (heap s3 !! n) as [[pl ks]|]; simpl in P3; [|discriminate].
      injection P3 as ->. eauto.
    + intros q x Hq. rewrite kids_alter_kids.
      rewrite decide_False by lia. apply (A3 q x Hq).
Qed.

(** C10, as amended. [h] copies [props.key] into the [key] field and
    leaves it in [props]; so, for a descriptor built with a key whose tag
    and properties the backend accepts, [mount] sets an attribute named
    "key" on the new element, and the attribute diff against accepted old
    properties returns and sets it again whenever its value differs from
    the old one. *)
Theorem key_stays_an_attribute (tg : string) (ps : object) (cs : hchildren)
    (c : nat) (st : dom) :
  "key" ∈ js_keys ps ->
  renderable (h tg ps cs) = true ->
  key (h tg ps cs) = js_get ps "key" /\
  props (h tg ps cs) = ps /\
  (exists v' st',
     mount (h tg ps cs) (Some c) st = (Ok v', st') /\
     el v' = Some (length (heap st)) /\
     OpSetAttribute (length (heap st)) "key" (js_get ps "key") ∈ log st') /\
  (forall e oldProps s,
     accepted oldProps = true ->
     js_get oldProps "key" <> js_get ps "key" ->
     exists s',
       patchProps (Some e) oldProps (props (h tg ps cs)) s = (Ok tt, s') /\
       OpSetAttribute e "key" (js_get ps "key") ∈ log s').
Proof.
  intros Hk Hr. split; [reflexivity|]. split; [reflexivity|]. split.
  - destruct (mount_ok (h tg ps cs) Hr c st) as (v' & st' & l & E & Ev & L & _).
    exists v', st'. split; [exact E|]. split; [exact Ev|].
    rewrite L. apply elem_of_app. right. right. apply elem_of_app. left.
    change (OpSetAttribute (length (heap st)) "key" (js_get ps "key"))
      with (mountPropOp (length (heap st)) ps "key").
    apply list_elem_of_fmap. exists "key". split; [reflexivity|exact Hk].
  - intros e oldProps s Ho Hne. simpl.
    apply renderable_eq in Hr as (_ & Hp & _).
    destruct (patchProps_log e oldProps ps s Ho Hp) as (st' & E & L).
    exists st'. split; [exact E|].
    rewrite L. apply elem_of_app. right. apply elem_of_app. left.
    apply in_concat_map. exists "key". split; [exact Hk|].
    apply (newPropOps_changed e oldProps ps "key" Hne).
Qed.

Lemma key_stays_an_attribute_witness :
  key (h "li" [("key", VNum 1)] HNull) = VNum 1 /\
  props (h "li" [("key", VNum 1)] HNull) = [("key", VNum 1)] /\
  (exists v' st',
     mount (h "li" [("key", VNum 1)] HNull) (Some 0) page = (Ok v', st') /\
     el v' = Some 1 /\
     OpSetAttribute 1 "key" (VNum 1) ∈ log st') /\
  (forall e oldProps s,
     accepted oldProps = true ->
     js_get oldProps "key" <> VNum 1 ->
     exists s',
       patchProps (Some e) oldProps (props (h "li" [("key", VNum 1)] HNull)) s = (Ok tt, s') /\
       OpSetAttribute e "key" (VNum 1) ∈ log s').
Proof.
  apply (key_stays_an_attribute "li" [("key", VNum 1)] HNull 0 page);
    [left|reflexivity].
Defined.

(** C10 as first stated fails where the backend refuses the tag: a
    descriptor built with a key and the tag [my tag] makes
    [createElement] throw, and no attribute is ever set. *)
Lemma key_not_applied_on_refused_tag :
  key (h "my tag" [("key", VNum 1)] HNull) = VNum 1 /\
  mount (h "my tag" [("key", VNum 1)] HNull) (Some 0) page
    = (Err InvalidCharacterError, page) /\
  log page = [OpCreateElement 0 "body"].
Proof. vm_compute. repeat split. Qed.

(** ** Replacement on a kind mismatch *)

Lemma filter_ne_notin (x : nat) (l : list nat) :
  x ∉ l -> filter (fun y => y <> x) l = l.
Proof.
  intros H. apply filter_id. apply Forall_forall. intros y Hy ->. contradiction.
Qed.

Lemma filter_ne_middle (e : nat) (l1 l2 : list nat) :
  NoDup (l1 ++ e :: l2) -> filter (fun y => y <> e) (l1 ++ e :: l2) = l1 ++ l2.
Proof.
  intros H. apply NoDup_app in H as (_ & H1 & H2). apply NoDup_cons in H2 as [H2 _].
  rewrite filter_app, filter_cons_False by (intros Hne; now apply Hne).
  rewrite !filter_ne_notin; auto.
  intros Hin. apply (H1 e Hin). left.
Qed.

Lemma next_in_middle (e : nat) (l1 l2 : list nat) :
  e ∉ l1 -> next_in e (l1 ++ e :: l2) = head l2.
Proof.
  induction l1 as [|x l1 IH]; intros H; simpl.
  - now rewrite decide_True.
  - rewrite decide_False.
    + apply IH. intros Hin. apply H. now right.
    + intros ->. apply H. left.
Qed.

Lemma insert_before_middle (c a : nat) (l1 l2 : list nat) :
  a ∉ l1 -> insert_before c a (l1 ++ a :: l2) = l1 ++ c :: a :: l2.
Proof.
  induction l1 as [|x l1 IH]; intros H; simpl.
  - now rewrite decide_True.
  - rewrite decide_False.
    + f_equal. apply IH. intros Hin. apply H. now right.
    + intros ->. apply H. left.
Qed.

Lemma kids_detach c hp lg q :
  kids (Dom (detach c hp) lg) q = filter (fun x => x <> c) (kids (Dom hp lg) q).
Proof.
  unfold kids. simpl. rewrite lookup_detach.
  destruct (hp !! q) as [nd|]; reflexivity.
Qed.

Lemma length_detach c hp : length (detach c hp) = length hp.
Proof. apply length_map. Qed.

Lemma kids_lt st q x : x ∈ kids st q -> q < length (heap st).
Proof.
  unfold kids. destruct (heap st !! q) eqn:E; [|intros H; inversion H].
  intros _. now apply lookup_lt_Some in E.
Qed.

Lemma bind_inv {A B} (m : M A) (f : A -> M B) st b st' :
  bind m f st = (Ok b, st') ->
  exists a st1, m st = (Ok a, st1) /\ f a st1 = (Ok b, st').
Proof.
  unfold bind. destruct (m st) as [[a|e] st1]; [eauto|discriminate].
Qed.

Lemma mountChildren_fresh n cs :
  Forall (child_all binds_fresh) cs ->
  forall s cs' s',
    mountChildren mount n cs s = (Ok cs', s') ->
    map strip_child cs' = map strip_child cs /\
    (forall x, x ∈ flat_map child_els cs' -> length (heap s) <= x) /\
    length (heap s) <= length (heap s').
Proof.
  induction 1 as [|c cs Hc _ IH]; intros s cs' s' E.
  - injection E as <- <-. repeat split; auto. intros x Hx. inversion Hx.
  - destruct c as [txt|v]; simpl in E.
    + apply bind_inv in E as (t & s1 & E1 & E).
      apply bind_inv in E as ([] & s2 & E2 & E).
      apply bind_inv in E as (r & s3 & E3 & E).
      injection E as <- <-.
      rewrite createTextNode_run in E1. injection E1 as <- <-.
      rewrite appendChild_run in E2. injection E2 as <-.
      destruct (IH _ _ _ E3) as (Hs & Hx & Hl). simpl in Hx, Hl.
      rewrite length_alter, length_detach, length_app in Hx, Hl. simpl in Hx, Hl.
      split; [simpl; now rewrite Hs|]. split; [|lia].
      intros x Hin. simpl in Hin. specialize (Hx x Hin). lia.
    + apply bind_inv in E as (v' & s1 & E1 & E).
      apply bind_inv in E as (r & s3 & E3 & E).
      injection E as <- <-.
      destruct (Hc _ _ _ _ E1) as (Hs1 & Hx1 & Hl1).
      destruct (IH _ _ _ E3) as (Hs & Hx & Hl).
      split; [simpl; now rewrite Hs, Hs1|]. split; [|lia].
      intros x Hin. simpl in Hin. apply elem_of_app in Hin as [Hin|Hin].
      * now apply Hx1.
      * specialize (Hx x Hin). lia.
Qed.

Lemma mount_binds_fresh v : binds_fresh v.
Proof.
  induction v as [t p cs k e IH] using vnode_nested_ind.
  intros c st v' st' E. simpl in E.
  apply bind_inv in E as (n & s1 & E1 & E).
  apply bind_inv in E as ([] & s2 & E2 & E).
  apply bind_inv in E as (cs' & s3 & E3 & E).
  apply bind_inv in E as (c0 & s4 & E4 & E).
  apply bind_inv in E as ([] & s5 & E5 & E).
  injection E as <- <-.
  apply createElement_inv in E1 as (_ & -> & ->).
  destruct (mountProps_inv _ _ _ _ _ E2) as (hp2 & -> & (Len2 & _)).
  destruct (mountChildren_fresh _ _ IH _ _ _ E3) as (Hs & Hx & Hl).
  simpl in Hx, Hl, Len2. rewrite Len2, length_app in Hx, Hl. simpl in Hx, Hl.
  destruct c as [c|]; simpl in E4; [|discriminate]. injection E4 as <- <-.
  rewrite appendChild_run in E5. injection E5 as <-.
  split; [|split].
  - rewrite !strip_eq. now rewrite Hs.
  - intros x Hin. simpl in Hin. apply elem_of_cons in Hin as [->|Hin]; [lia|].
    specialize (Hx x Hin). lia.
  - simpl. rewrite length_alter, length_detach. lia.
Qed.

(** [mount] only returns on a tree the backend accepts. *)
Lemma mountProps_accepted e props ks : forall st s',
  forEach (mountProp e props) ks st = (Ok tt, s') ->
  forallb (fun k => if startsWith_on k
                    then is_object (js_get props k) || nullish (js_get props k)
                    else valid_name k) ks = true.
Proof.
  induction ks as [|k ks IH]; intros st s' E; simpl in *; [reflexivity|].
  unfold bind in E. destruct (mountProp e props k st) as [[[]|er] s1] eqn:E1; [|discriminate].
  rewrite (IH _ _ E), andb_true_r.
  unfold mountProp, addEventListener, setAttribute in E1.
  destruct (startsWith_on k).
  - destruct (is_object _); [reflexivity|].
    destruct (nullish _); [reflexivity|discriminate].
  - destruct (valid_name k); [reflexivity|discriminate].
Qed.

Lemma mountChildren_renderable n cs :
  Forall (child_all (fun v => forall c st v' st',
                       mount v c st = (Ok v', st') -> renderable v = true)) cs ->
  forall s cs' s',
    mountChildren mount n cs s = (Ok cs', s') ->
    Forall (child_all (fun v => renderable v = true)) cs.
Proof.
  induction 1 as [|c cs Hc _ IH]; intros s cs' s' E; [constructor|].
  destruct c as [txt|v]; simpl in E.
  - apply bind_inv in E as (t & s1 & E1 & E).
    apply bind_inv in E as ([] & s2 & E2 & E).
    apply bind_inv in E as (r & s3 & E3 & E).
    constructor; [exact I|]. eapply IH; eauto.
  - apply bind_inv in E as (v' & s1 & E1 & E).
    apply bind_inv in E as (r & s3 & E3 & E).
    constructor; [eapply Hc; eauto|]. eapply IH; eauto.
Qed.

Lemma mount_renderable v : forall c st v' st',
  mount v c st = (Ok v', st') -> renderable v = true.
Proof.
  induction v as [t p cs k e IH] using vnode_nested_ind.
  intros c st v' st' E. simpl in E.
  apply bind_inv in E as (n & s1 & E1 & E).
  apply bind_inv in E as ([] & s2 & E2 & E).
  apply bind_inv in E as (cs' & s3 & E3 & E).
  apply createElement_inv in E1 as (Ht & _ & _).
  apply renderable_eq. split; [exact Ht|]. split.
  - apply (mountProps_accepted _ _ _ _ _ E2).
  - apply (mountChildren_renderable _ _ IH _ _ _ E3).
Qed.

Lemma mount_el v c st v' st' :
  mount v c st = (Ok v', st') -> el v' = Some (length (heap st)).
Proof.
  intros E. pose proof (mount_renderable _ _ _ _ _ E) as Hr.
  destruct c as [c|].
  - destruct (mount_ok v Hr c st) as (v'' & s'' & l & E' & He & _).
    rewrite E in E'. injection E' as <- <-. exact He.
  - destruct v as [t p cs k e]. simpl in E.
    apply bind_inv in E as (n & s1 & E1 & E).
    apply bind_inv in E as ([] & s2 & E2 & E).
    apply bind_inv in E as (cs' & s3 & E3 & E).
    apply bind_inv in E as (c0 & s4 & E4 & E). discriminate E4.
Qed.

Lemma mount_mounted v c st v' st' :
  mount v (Some c) st = (Ok v', st') ->
  wf st -> c < length (heap st) -> mounted st c (tag v) st'.
Proof.
  intros E. pose proof (mount_renderable _ _ _ _ _ E) as Hr.
  destruct (mount_ok v Hr c st) as (v'' & s'' & l & E' & _ & _ & F).
  rewrite E in E'. injection E' as <- <-. exact F.
Qed.

Lemma wf_check_sound st : wf_check st = true -> wf st.
Proof.
  unfold wf_check, wf, kids. intros H q x.
  destruct (heap st !! q) as [nd|] eqn:E; [|intros Hx; inversion Hx].
  intros Hx. rewrite forallb_forall in H.
  specialize (H nd). rewrite forallb_forall in H.
  apply Nat.ltb_lt. apply H.
  - apply list_elem_of_In. apply list_elem_of_lookup. eauto.
  - now apply list_elem_of_In.
Qed.

(** ** What the keyed algorithm leaves alone *)

Lemma kids_payload f e hp lg q :
  kids (Dom (alter (set_payload f) e hp) lg) q = kids (Dom hp lg) q.
Proof.
  unfold kids. simpl. destruct (decide (e = q)) as [->|Hne].
  - rewrite list_lookup_alter_eq. destruct (hp !! q); reflexivity.
  - now rewrite list_lookup_alter_ne.
Qed.







Section Frame.

(** [D]: the nodes the reconciliation is entitled to act on; [st0]: the
    document it started from. *)
Variable D : nat -> Prop.
Variable st0 : dom.




























































(** *** Children that are kept *)













End Frame.











(** ** Two more properties of the reconciler *)

(** On the example of the specification, old keyed children
    [A(key=1), B(key=2)] against new [B(key=2), D(key=4)]: the node of [A]
    is removed, the node of [B] is kept and not moved, and [D] is
    materialized and ends after [B]. *)
Theorem keyed_insert_and_remove :
  map child_el (children (fst (mounted_of two_keyed))) = [Some 2; Some 4] /\
  exists new' st,
    mount_then_patch two_keyed bd_keyed = (Ok new', st) /\
    map child_el (children new') = [Some 4; Some 6] /\
    kids st 1 = [4; 6] /\
    log st = [OpRemoveChild 1 2; OpCreateElement 6 "li";
              OpSetAttribute 6 "key" (VNum 4); OpCreateText 7 "D";
              OpAppendChild 6 7; OpAppendChild 1 6].
Proof.
  split; [reflexivity|]. eexists _, _. vm_compute. repeat split; reflexivity.
Qed.

(** X2. [mount] on a descriptor whose tags and properties the backend
    accepts and an existing container, in a document whose child lists hold
    existing nodes only: it returns the descriptor bound to a new element of
    its kind, which is the last child of the container; the other children
    of the container and every other node of the document are as before. *)
Theorem mount_materializes (v : vnode) (c : nat) (st : dom) :
  renderable v = true ->
  wf st ->
  c < length (heap st) ->
  exists v' st',
    mount v (Some c) st = (Ok v', st') /\
    el v' = Some (length (heap st)) /\
    strip v' = strip v /\
    kids st' c = kids st c ++ [length (heap st)] /\
    (forall q, q < length (heap st) -> q <> c -> heap st' !! q = heap st !! q) /\
    (exists a ls ks, heap st' !! length (heap st) = Some (DNode (Elem (tag v) a ls) ks)) /\
    wf st'.
Proof.
  intros Hr Hwf Hc.
  destruct (mount_ok v Hr c st) as (v' & st' & l & E & Ev & _ & F).
  destruct (F Hwf Hc) as (W & _ & O & C & P & _).
  destruct (mount_binds_fresh v (Some c) st v' st' E) as (Hs & _ & _).
  exists v', st'. repeat split; auto.
  unfold kids. rewrite C.
  destruct (heap st !! c) as [nd|] eqn:Ec; [reflexivity|].
  apply lookup_ge_None in Ec. lia.
Qed.

Lemma mount_materializes_witness :
  exists v' st',
    mount plain_tree (Some 0) page = (Ok v', st') /\
    el v' = Some 1 /\
    strip v' = strip plain_tree /\
    kids st' 0 = kids page 0 ++ [1] /\
    (forall q, q < 1 -> q <> 0 -> heap st' !! q = heap page !! q) /\
    (exists a ls ks, heap st' !! 1 = Some (DNode (Elem "div" a ls) ks)) /\
    wf st'.
Proof.
  apply (mount_materializes plain_tree 0 page).
  - reflexivity.
  - apply wf_check_sound. reflexivity.
  - vm_compute. lia.
Defined.

(** ** The document after [mount] and after [patch] *)

Lemma wf_page : wf page.
Proof. apply wf_check_sound. vm_compute. reflexivity. Qed.

Lemma own_obj_set k v a k' :
  own (obj_set k v a) k' = if decide (k' = k) then v else own a k'.
Proof.
  induction a as [|[k0 v0] a IH]; simpl.
  - destruct (String.eqb_spec k k'); destruct (decide (k' = k)); congruence.
  - destruct (String.eqb_spec k0 k) as [->|Hne]; simpl.
    + destruct (String.eqb_spec k k'); destruct (decide (k' = k)); congruence.
    + destruct (String.eqb_spec k0 k') as [->|Hne'].
      * rewrite decide_False by congruence. reflexivity.
      * exact IH.
Qed.

Lemma own_obj_del k a k' :
  own (obj_del k a) k' = if decide (k' = k) then VUndef else own a k'.
Proof.
  unfold obj_del, object. induction a as [|[k0 v0] a IH].
  - now destruct (decide (k' = k)).
  - destruct (decide (k0 = k)) as [->|Hne].
    + rewrite filter_cons_False by (simpl; tauto). rewrite IH. cbn [own].
      destruct (decide (k' = k)) as [->|Hk]; [reflexivity|].
      destruct (String.eqb_spec k k'); congruence.
    + rewrite filter_cons_True by (simpl; exact Hne). cbn [own].
      destruct (String.eqb_spec k0 k') as [->|Hne'].
      * rewrite decide_False by congruence. reflexivity.
      * exact IH.
Qed.

Lemma own_not_key k o : k ∉ js_keys o -> own o k = VUndef.
Proof.
  intros H. apply own_absent. destruct (has_own k o) eqn:E; [|reflexivity].
  apply has_own_keys in E. contradiction.
Qed.

Lemma strict_eq_true a b : strict_eq a b = true -> a = b.
Proof. unfold strict_eq. apply bool_decide_eq_true_1. Qed.

Lemma newLoop_done oldProps newProps keys : forall a k,
  (forall k0, k0 ∈ keys -> js_get newProps k0 = own newProps k0) ->
  startsWith_on k = false ->
  own a k = own newProps k ->
  own (fold_left (newPropAttrs oldProps newProps) keys a) k = own newProps k.
Proof.
  induction keys as [|k0 keys IH]; intros a k Hks Hk Ha; cbn [fold_left]; [exact Ha|].
  apply IH; [intros k1 H1; apply Hks; now right|exact Hk|]. unfold newPropAttrs.
  destruct (strict_eq _ _); [exact Ha|].
  destruct (startsWith_on k0) eqn:E0; [exact Ha|].
  rewrite own_obj_set. destruct (decide (k = k0)) as [->|]; [|exact Ha].
  apply Hks. left.
Qed.

Lemma newLoop_get oldProps newProps keys : forall a k,
  (forall k0, k0 ∈ keys -> js_get newProps k0 = own newProps k0) ->
  (forall k0, k0 ∈ keys -> js_get oldProps k0 = own oldProps k0) ->
  startsWith_on k = false ->
  own a k = own oldProps k ->
  own (fold_left (newPropAttrs oldProps newProps) keys a) k
    = if decide (k ∈ keys) then own newProps k else own oldProps k.
Proof.
  induction keys as [|k0 keys IH]; intros a k Hn Ho Hk Ha; cbn [fold_left].
  - rewrite decide_False by apply not_elem_of_nil. exact Ha.
  - assert (Hn' : forall k1, k1 ∈ keys -> js_get newProps k1 = own newProps k1)
      by (intros k1 H1; apply Hn; now right).
    assert (Ho' : forall k1, k1 ∈ keys -> js_get oldProps k1 = own oldProps k1)
      by (intros k1 H1; apply Ho; now right).
    destruct (decide (k = k0)) as [<-|Hne].
    + rewrite decide_True by left. apply newLoop_done; [exact Hn'|exact Hk|].
      unfold newPropAttrs. destruct (strict_eq _ _) eqn:E.
      * apply strict_eq_true in E. rewrite Ha, <- (Ho k), <- (Hn k) by left. exact E.
      * rewrite Hk. rewrite own_obj_set. rewrite decide_True by reflexivity.
        apply Hn. left.
    + rewrite IH; [|exact Hn'|exact Ho'|exact Hk|].
      * destruct (decide (k ∈ keys)).
        -- rewrite decide_True by now right. reflexivity.
        -- rewrite decide_False; [reflexivity|]. intros H. inversion H; subst; tauto.
      * unfold newPropAttrs. destruct (strict_eq _ _); [exact Ha|].
        destruct (startsWith_on k0); [exact Ha|].
        rewrite own_obj_set. now rewrite decide_False.
Qed.

Lemma oldLoop_get newProps keys : forall a k,
  startsWith_on k = false ->
  own (fold_left (oldPropAttrs newProps) keys a) k
    = if decide (k ∈ keys /\ js_in k newProps = false) then VUndef else own a k.
Proof.
  induction keys as [|k0 keys IH]; intros a k Hk; cbn [fold_left].
  - rewrite decide_False; [reflexivity|]. intros [H _]. inversion H.
  - rewrite IH by exact Hk.
    assert (Hstep : own (oldPropAttrs newProps a k0) k
                    = if decide (k = k0 /\ js_in k newProps = false) then VUndef else own a k).
    { unfold oldPropAttrs. destruct (js_in k0 newProps) eqn:E.
      - rewrite decide_False; [reflexivity|]. intros [-> H]. congruence.
      - destruct (startsWith_on k0) eqn:E0.
        + rewrite decide_False; [reflexivity|]. intros [-> H]. congruence.
        + rewrite own_obj_del. destruct (decide (k = k0)) as [->|Hne].
          * now rewrite decide_True.
          * rewrite decide_False; [reflexivity|]. tauto. }
    rewrite Hstep.
    destruct (decide (k ∈ keys /\ js_in k newProps = false)) as [[H1 H2]|Hn].
    + rewrite decide_True; [reflexivity|]. split; [now right|exact H2].
    + destruct (decide (k = k0 /\ js_in k newProps = false)) as [[-> H2]|Hn'].
      * rewrite decide_True; [reflexivity|]. split; [left|exact H2].
      * rewrite decide_False; [reflexivity|]. intros [H1 H2].
        inversion H1; subst; tauto.
Qed.

(** With names that are no names of [Object.prototype], the two loops
    bring the attributes from the old properties to the new ones. *)
Lemma attrs_after_patch oldProps newProps a :
  plain_keys oldProps = true -> plain_keys newProps = true ->
  attrs_match a oldProps ->
  attrs_match
    (fold_left (oldPropAttrs newProps) (js_keys oldProps)
       (fold_left (newPropAttrs oldProps newProps) (js_keys newProps) a))
    newProps.
Proof.
  intros Hpo Hpn Hm k Hk. rewrite oldLoop_get by exact Hk.
  rewrite newLoop_get; auto.
  2:{ intros k0 H0. now apply js_get_own. }
  2:{ intros k0 H0. apply js_get_plain. eapply plain_keys_key; eauto. }
  destruct (decide (k ∈ js_keys newProps)) as [Hin|Hnin].
  - rewrite decide_False; [reflexivity|]. intros [_ H].
    apply js_in_own in Hin. congruence.
  - rewrite (own_not_key k newProps Hnin).
    destruct (decide _) as [_|Hn]; [reflexivity|].
    apply own_not_key. intros Hin. apply Hn. split; [exact Hin|].
    destruct (js_in k newProps) eqn:E; [|reflexivity].
    apply js_in_keys in E as [E|E]; [contradiction|].
    rewrite (plain_keys_key oldProps k Hpo Hin) in E. discriminate.
Qed.

(** Running the loops on an element. *)
Lemma alter_elem f (e : nat) (hp : list dnode) t a ls ks :
  hp !! e = Some (DNode (Elem t a ls) ks) ->
  alter (set_payload (on_elem f)) e hp = <[e := DNode (f t a ls) ks]> hp.
Proof.
  intros E. apply list_eq. intros q. destruct (decide (q = e)) as [->|Hne].
  - rewrite list_lookup_alter_eq, E. rewrite list_lookup_insert_eq by (now apply lookup_lt_Some in E).
    reflexivity.
  - rewrite list_lookup_alter_ne by auto. now rewrite list_lookup_insert_ne by auto.
Qed.

Lemma addEventListener_elem e ev v st t a ls ks :
  is_object v || nullish v = true ->
  heap st !! e = Some (DNode (Elem t a ls) ks) ->
  exists st' ls',
    addEventListener e ev v st = (Ok tt, st') /\
    heap st' = <[e := DNode (Elem t a ls') ks]> (heap st).
Proof.
  intros H E. unfold addEventListener. destruct (is_object v).
  - eexists _, _. split; [reflexivity|]. simpl.
    rewrite (alter_elem _ e (heap st) t a ls ks E). reflexivity.
  - simpl in H. rewrite H. exists (Dom (heap st) (log st ++ [OpAddListener e ev v])), ls.
    split; [reflexivity|]. simpl. symmetry. now apply list_insert_id.
Qed.

Lemma removeEventListener_elem e ev v st t a ls ks :
  is_object v || nullish v = true ->
  heap st !! e = Some (DNode (Elem t a ls) ks) ->
  exists st' ls',
    removeEventListener e ev v st = (Ok tt, st') /\
    heap st' = <[e := DNode (Elem t a ls') ks]> (heap st).
Proof.
  intros H E. unfold removeEventListener. destruct (is_object v).
  - eexists _, _. split; [reflexivity|]. simpl.
    rewrite (alter_elem _ e (heap st) t a ls ks E). reflexivity.
  - simpl in H. rewrite H. exists (Dom (heap st) (log st ++ [OpRemoveListener e ev v])), ls.
    split; [reflexivity|]. simpl. symmetry. now apply list_insert_id.
Qed.

Lemma setAttribute_elem e k v st t a ls ks :
  valid_name k = true ->
  heap st !! e = Some (DNode (Elem t a ls) ks) ->
  exists st',
    setAttribute e k v st = (Ok tt, st') /\
    heap st' = <[e := DNode (Elem t (obj_set k v a) ls) ks]> (heap st).
Proof.
  intros H E. unfold setAttribute. rewrite H.
  eexists. split; [reflexivity|]. simpl.
  rewrite (alter_elem _ e (heap st) t a ls ks E). reflexivity.
Qed.

Lemma patchNewProp_attrs e oldProps newProps k st t a ls ks :
  accepted oldProps = true -> accepted newProps = true -> k ∈ js_keys newProps ->
  heap st !! e = Some (DNode (Elem t a ls) ks) ->
  exists st' ls',
    patchNewProp (Some e) oldProps newProps k st = (Ok tt, st') /\
    heap st' = <[e := DNode (Elem t (newPropAttrs oldProps newProps a k) ls') ks]> (heap st).
Proof.
  intros Ho Hn Hk E. unfold patchNewProp, newPropAttrs.
  assert (Hid : forall x, x = DNode (Elem t a ls) ks -> heap st = <[e := x]> (heap st)).
  { intros x ->. symmetry. now apply list_insert_id. }
  destruct (strict_eq _ _).
  { exists st, ls. split; [reflexivity|]. now apply Hid. }
  pose proof (accepted_key newProps k Hn Hk) as Hnk.
  destruct (startsWith_on k) eqn:Hon.
  - pose proof (accepted_handler oldProps k Ho Hon) as Hok.
    destruct (truthy _).
    + destruct (removeEventListener_elem e (eventName k) (js_get oldProps k) st t a ls ks Hok E)
        as (s0 & ls0 & E0 & H0).
      assert (E0' : heap s0 !! e = Some (DNode (Elem t a ls0) ks)).
      { rewrite H0. apply list_lookup_insert_eq. now apply lookup_lt_Some in E. }
      destruct (addEventListener_elem e (eventName k) (js_get newProps k) s0 t a ls0 ks Hnk E0')
        as (s1 & ls1 & E1 & H1).
      exists s1, ls1. split.
      * cbn [deref]. unfold bind at 1. unfold bind at 1. cbn [ret]. rewrite E0.
        unfold bind at 1. cbn [ret]. exact E1.
      * rewrite H1, H0. apply list_insert_insert_eq.
    + destruct (addEventListener_elem e (eventName k) (js_get newProps k) st t a ls ks Hnk E)
        as (s1 & ls1 & E1 & H1).
      exists s1, ls1. split; [|exact H1].
      cbn [deref]. unfold bind at 1. cbn [ret]. unfold bind at 1. cbn [ret]. exact E1.
  - destruct (setAttribute_elem e k (js_get newProps k) st t a ls ks Hnk E) as (s1 & E1 & H1).
    exists s1, ls. split; [|exact H1]. cbn [deref]. unfold bind at 1. cbn [ret]. exact E1.
Qed.

Lemma patchOldProp_attrs e oldProps newProps k st t a ls ks :
  accepted oldProps = true -> k ∈ js_keys oldProps ->
  heap st !! e = Some (DNode (Elem t a ls) ks) ->
  exists st' ls',
    patchOldProp (Some e) oldProps newProps k st = (Ok tt, st') /\
    heap st' = <[e := DNode (Elem t (oldPropAttrs newProps a k) ls') ks]> (heap st).
Proof.
  intros Ho Hk E. unfold patchOldProp, oldPropAttrs.
  destruct (js_in k newProps).
  { exists st, ls. split; [reflexivity|]. symmetry. now apply list_insert_id. }
  destruct (startsWith_on k) eqn:Hon.
  - destruct (removeEventListener_elem e (eventName k) (js_get oldProps k) st t a ls ks
                (accepted_handler oldProps k Ho Hon) E) as (s1 & ls1 & E1 & H1).
    exists s1, ls1. split; [|exact H1]. cbn [deref]. unfold bind at 1. cbn [ret]. exact E1.
  - eexists _, ls. split; [reflexivity|]. simpl.
    rewrite (alter_elem _ e (heap st) t a ls ks E). reflexivity.
Qed.

Lemma forEach_attrs (f : string -> M unit) (g : object -> string -> object) e t ks keys :
  (forall k st a ls, k ∈ keys -> heap st !! e = Some (DNode (Elem t a ls) ks) ->
     exists st' ls', f k st = (Ok tt, st') /\
       heap st' = <[e := DNode (Elem t (g a k) ls') ks]> (heap st)) ->
  forall st a ls, heap st !! e = Some (DNode (Elem t a ls) ks) ->
    exists st' ls', forEach f keys st = (Ok tt, st') /\
      heap st' = <[e := DNode (Elem t (fold_left g keys a) ls') ks]> (heap st).
Proof.
  induction keys as [|k keys IH]; intros Hf st a ls E; simpl.
  - exists st, ls. split; [reflexivity|]. symmetry. now apply list_insert_id.
  - destruct (Hf k st a ls ltac:(left) E) as (st1 & ls1 & E1 & H1).
    assert (E1' : heap st1 !! e = Some (DNode (Elem t (g a k) ls1) ks)).
    { rewrite H1. apply list_lookup_insert_eq. now apply lookup_lt_Some in E. }
    destruct (IH (fun k0 s a0 l0 H0 => Hf k0 s a0 l0 (list_elem_of_further _ _ _ H0))
                 st1 _ _ E1') as (st2 & ls2 & E2 & H2).
    exists st2, ls2. split.
    + rewrite (bind_Ok _ _ _ _ _ E1). exact E2.
    + rewrite H2, H1. apply list_insert_insert_eq.
Qed.

Lemma patchProps_run (e : nat) (oldProps newProps : object) (st : dom)
    (t : string) (a : object) (ls : list (string * value)) (ks : list nat) :
  accepted oldProps = true -> accepted newProps = true ->
  plain_keys oldProps = true -> plain_keys newProps = true ->
  heap st !! e = Some (DNode (Elem t a ls) ks) ->
  attrs_match a oldProps ->
  exists st' a' ls',
    patchProps (Some e) oldProps newProps st = (Ok tt, st') /\
    heap st' = <[e := DNode (Elem t a' ls') ks]> (heap st) /\
    attrs_match a' newProps.
Proof.
  intros Hao Han Hpo Hpn E Hm. unfold patchProps.
  destruct (forEach_attrs _ _ e t ks (js_keys newProps)
              (fun k s a0 l0 Hk =>
                 patchNewProp_attrs e oldProps newProps k s t a0 l0 ks Hao Han Hk)
              st a ls E) as (st1 & ls1 & E1 & H1).
  assert (E1' : heap st1 !! e
                = Some (DNode (Elem t (fold_left (newPropAttrs oldProps newProps)
                                         (js_keys newProps) a) ls1) ks)).
  { rewrite H1. apply list_lookup_insert_eq. now apply lookup_lt_Some in E. }
  destruct (forEach_attrs _ _ e t ks (js_keys oldProps)
              (fun k s a0 l0 Hk =>
                 patchOldProp_attrs e oldProps newProps k s t a0 l0 ks Hao Hk)
              st1 _ _ E1') as (st2 & ls2 & E2 & H2).
  eexists st2, _, ls2. split; [|split].
  - rewrite (bind_Ok _ _ _ _ _ E1). exact E2.
  - rewrite H2, H1. apply list_insert_insert_eq.
  - now apply attrs_after_patch.
Qed.

(** X5. When the backend accepts the old and the new properties, none of
    them is named like a property of [Object.prototype], and the plain
    attributes of an element agree with the old properties (every name
    other than an event name has the same value in both, an absent name
    counting as [undefined]), [patchProps] returns and leaves them agreeing
    with the new properties; nothing but the payload of that element
    changes. *)
Theorem patchProps_syncs_attributes (e : nat) (oldProps newProps : object) (st : dom)
    (t : string) (a : object) (ls : list (string * value)) (ks : list nat) :
  accepted oldProps = true -> accepted newProps = true ->
  plain_keys oldProps = true -> plain_keys newProps = true ->
  heap st !! e = Some (DNode (Elem t a ls) ks) ->
  attrs_match a oldProps ->
  exists st' a' ls',
    patchProps (Some e) oldProps newProps st = (Ok tt, st') /\
    heap st' = <[e := DNode (Elem t a' ls') ks]> (heap st) /\
    attrs_match a' newProps.
Proof. apply patchProps_run. Qed.

Lemma patchProps_syncs_attributes_witness :
  exists st' a' ls',
    patchProps (Some 1) attrs_old attrs_new (snd (mounted_of attrs_p)) = (Ok tt, st') /\
    heap st' = <[1 := DNode (Elem "p" a' ls') []]> (heap (snd (mounted_of attrs_p))) /\
    attrs_match a' attrs_new.
Proof.
  apply (patchProps_syncs_attributes 1 attrs_old attrs_new (snd (mounted_of attrs_p))
           "p" attrs_old [] []); try reflexivity.
  intros k _. reflexivity.
Defined.

Lemma mirrors_eq st t p cs k oe :
  mirrors st (VNode t p cs k oe) <->
  exists e a ls ks,
    oe = Some e /\
    heap st !! e = Some (DNode (Elem t a ls) ks) /\
    attrs_match a p /\
    Forall2 (mirrors_child st) ks cs.
Proof.
  simpl.
  assert (H : forall cs ks,
    (fix go (ks : list nat) (cs : list child) {struct cs} : Prop :=
           match cs, ks with
           | [], [] => True
           | CText s :: cs', x :: ks' =>
               heap st !! x = Some (DNode (TextNode s) []) /\ go ks' cs'
           | CNode v' :: cs', x :: ks' =>
               (el v' = Some x /\ mirrors st v') /\ go ks' cs'
           | _, _ => False
           end) ks cs <-> Forall2 (mirrors_child st) ks cs).
  { clear. induction cs as [|c cs IH]; intros [|x ks].
    - split; auto.
    - split; [tauto|intros H; inversion H].
    - destruct c; split; try tauto; intros H; inversion H.
    - destruct c as [s|v].
      + rewrite IH. split.
        * intros [H1 H2]. now constructor.
        * intros H. inversion H; subst. auto.
      + rewrite IH. split.
        * intros [H1 H2]. now constructor.
        * intros H. inversion H; subst. auto. }
  split; intros (e & a & ls & ks & H1 & H2 & H3 & H4); exists e, a, ls, ks;
    repeat split; auto; now apply H.
Qed.

(** Mirroring only depends on the nodes from [m] on, once those hold only
    nodes from [m] on. *)
Lemma mirrors_stable_from m st st' :
  wf st ->
  (forall q x, m <= q -> x ∈ kids st q -> m <= x) ->
  (forall q, m <= q -> q < length (heap st) -> heap st' !! q = heap st !! q) ->
  forall v e, el v = Some e -> m <= e -> mirrors st v -> mirrors st' v.
Proof.
  intros Hwf Hab Hfr.
  induction v as [t p cs k oe IH] using vnode_nested_ind.
  intros e He Hn Hm. simpl in He. subst oe.
  apply mirrors_eq in Hm as (e' & a & ls & ks & [= <-] & Hh & Ha & Hc).
  apply mirrors_eq. exists e, a, ls, ks.
  assert (Hlt : e < length (heap st)) by (now apply lookup_lt_Some in Hh).
  split; [reflexivity|]. split; [rewrite Hfr; auto|]. split; [exact Ha|].
  assert (Hk : forall x, x ∈ ks -> m <= x /\ x < length (heap st)).
  { intros x Hx. assert (Hx' : x ∈ kids st e) by (unfold kids; now rewrite Hh).
    split; [apply (Hab e x); [lia|exact Hx']|apply (Hwf e x Hx')]. }
  clear Hh. revert IH Hk. induction Hc as [|x c ks cs Hxc Hc IHc]; intros IH Hk.
  - constructor.
  - apply Forall_cons in IH as [IH1 IH2].
    destruct (Hk x ltac:(left)) as [Hx1 Hx2].
    constructor.
    + destruct c as [s|v]; simpl in *.
      * rewrite Hfr; auto.
      * destruct Hxc as [Hel Hmv]. split; [exact Hel|]. now apply (IH1 x).
    + apply IHc; [exact IH2|]. intros y Hy. apply Hk. now right.
Qed.

Lemma mirrors_stable n st st' :
  wf st -> above n st ->
  (forall q, n < q -> q < length (heap st) -> heap st' !! q = heap st !! q) ->
  forall v e, el v = Some e -> n < e -> mirrors st v -> mirrors st' v.
Proof.
  intros Hwf Hab Hfr v e He Hn. apply (mirrors_stable_from (S n) st st' Hwf) with (e := e);
    try assumption.
  intros q x Hq Hx. apply (Hab q x); [lia|exact Hx].
Qed.

Lemma mountProp_attrs e props k st st' t a ls ks :
  mountProp e props k st = (Ok tt, st') ->
  heap st !! e = Some (DNode (Elem t a ls) ks) ->
  exists ls',
    heap st' = <[e := DNode (Elem t (mountPropAttrs props a k) ls') ks]> (heap st).
Proof.
  intros R E. unfold mountProp, mountPropAttrs, addEventListener, setAttribute in *.
  destruct (startsWith_on k).
  - destruct (is_object (js_get props k)).
    + injection R as <-. eexists. simpl.
      rewrite (alter_elem _ e (heap st) t a ls ks E). reflexivity.
    + destruct (nullish (js_get props k)); [|discriminate].
      injection R as <-. exists ls. simpl. symmetry. now apply list_insert_id.
  - destruct (valid_name k); [|discriminate].
    injection R as <-. exists ls. simpl.
    rewrite (alter_elem _ e (heap st) t a ls ks E). reflexivity.
Qed.

Lemma forEach_attrs_inv (f : string -> M unit) (g : object -> string -> object) e t ks :
  (forall k st st' a ls, f k st = (Ok tt, st') ->
     heap st !! e = Some (DNode (Elem t a ls) ks) ->
     exists ls', heap st' = <[e := DNode (Elem t (g a k) ls') ks]> (heap st)) ->
  forall keys st st' a ls,
    forEach f keys st = (Ok tt, st') ->
    heap st !! e = Some (DNode (Elem t a ls) ks) ->
    exists ls', heap st' = <[e := DNode (Elem t (fold_left g keys a) ls') ks]> (heap st).
Proof.
  intros Hf. induction keys as [|k keys IH]; intros st st' a ls R E; simpl in R.
  - injection R as <-. exists ls. symmetry. now apply list_insert_id.
  - unfold bind in R. destruct (f k st) as [[[]|er] st1] eqn:R1; [|discriminate].
    destruct (Hf k st st1 a ls R1 E) as (ls1 & H1).
    assert (E1' : heap st1 !! e = Some (DNode (Elem t (g a k) ls1) ks)).
    { rewrite H1. apply list_lookup_insert_eq. now apply lookup_lt_Some in E. }
    destruct (IH st1 st' _ _ R E1') as (ls2 & H2).
    exists ls2. rewrite H2, H1. apply list_insert_insert_eq.
Qed.

Lemma mountLoop_get props keys : forall a k,
  startsWith_on k = false ->
  own (fold_left (mountPropAttrs props) keys a) k
    = if decide (k ∈ keys) then js_get props k else own a k.
Proof.
  induction keys as [|k0 keys IH]; intros a k Hk; cbn [fold_left].
  - rewrite decide_False by apply not_elem_of_nil. reflexivity.
  - rewrite IH by exact Hk. unfold mountPropAttrs.
    destruct (decide (k ∈ keys)) as [Hin|Hnin].
    + rewrite decide_True by now right. reflexivity.
    + destruct (decide (k = k0)) as [<-|Hne].
      * rewrite decide_True by left. rewrite Hk, own_obj_set. now rewrite decide_True.
      * rewrite decide_False by (intros H; inversion H; subst; tauto).
        destruct (startsWith_on k0); [reflexivity|].
        rewrite own_obj_set. now rewrite decide_False.
Qed.

Lemma attrs_after_mount props :
  attrs_match (fold_left (mountPropAttrs props) (js_keys props) []) props.
Proof.
  intros k Hk. rewrite mountLoop_get by exact Hk.
  destruct (decide (k ∈ js_keys props)) as [Hin|Hnin]; [now apply js_get_own|].
  now rewrite (own_not_key k props Hnin).
Qed.

Lemma detach_above n st q :
  above n st -> n <= q -> detach n (heap st) !! q = heap st !! q.
Proof.
  intros Hab Hq. rewrite lookup_detach.
  destruct (heap st !! q) as [[pl ks]|] eqn:E; [|reflexivity]. simpl.
  unfold set_kids. simpl. do 2 f_equal. apply filter_ne_notin.
  intros Hin. assert (n < n); [|lia]. apply (Hab q n Hq). unfold kids. now rewrite E.
Qed.

Lemma Forall2_mirrors_stable n st st' ks cs :
  wf st -> above n st ->
  (forall q, n < q -> q < length (heap st) -> heap st' !! q = heap st !! q) ->
  (forall x, x ∈ ks -> n < x /\ x < length (heap st)) ->
  Forall2 (mirrors_child st) ks cs -> Forall2 (mirrors_child st') ks cs.
Proof.
  intros Hwf Hab Hfr Hk H. induction H as [|x c ks cs Hxc _ IH]; constructor.
  - destruct (Hk x ltac:(left)) as [H1 H2]. destruct c as [s|v]; simpl in *.
    + rewrite Hfr; auto.
    + destruct Hxc as [He Hm]. split; [exact He|].
      now apply (mirrors_stable n st st' Hwf Hab Hfr v x).
  - apply IH. intros y Hy. apply Hk. now right.
Qed.

Lemma kids_in_range n st x :
  wf st -> above n st -> x ∈ kids st n -> n < x /\ x < length (heap st).
Proof. intros Hwf Hab Hx. split; [now apply (Hab n x)|now apply (Hwf n x)]. Qed.

Lemma mountChildren_mirrors n cs :
  Forall (child_all mount_mirrors) cs ->
  forall s cs' s' done,
    wf s -> n < length (heap s) -> above n s ->
    mountChildren mount n cs s = (Ok cs', s') ->
    Forall2 (mirrors_child s) (kids s n) done ->
    Forall2 (mirrors_child s') (kids s' n) (done ++ cs') /\
    children_mounted n s s'.
Proof.
  induction 1 as [|c cs Hc _ IH]; intros s cs' s' done Hwf Hn Hab E Hd.
  - injection E as <- <-. rewrite app_nil_r. split; [exact Hd|now apply children_mounted_refl].
  - destruct c as [txt|v]; simpl in E.
    + destruct (mount_text_step n txt s Hwf Hn Hab) as (s1 & E1 & _ & M1).
      apply bind_inv in E as (t & sa & Ea & E).
      apply bind_inv in E as ([] & sb & Eb & E).
      apply bind_inv in E as (r & s3 & E3 & E).
      injection E as <- <-.
      rewrite createTextNode_run in Ea. injection Ea as <- <-.
      assert (Es : sb = s1).
      { unfold bind in E1. rewrite createTextNode_run in E1. rewrite Eb in E1. congruence. }
      subst sb.
      pose proof M1 as (W1 & L1 & O1 & P1 & A1).
      assert (Hk1 : kids s1 n = kids s n ++ [length (heap s)] /\
                    heap s1 !! length (heap s) = Some (DNode (TextNode txt) [])).
      { rewrite appendChild_run in Eb. injection Eb as <-. simpl. split.
        - rewrite kids_alter_kids, decide_True by reflexivity.
          rewrite length_detach, length_app. simpl. rewrite decide_True by lia.
          change (Dom (detach ?c ?h) ?l) with (Dom (detach c h) l).
          rewrite kids_detach, kids_snoc, decide_False by lia.
          f_equal. apply filter_ne_notin. intros Hin.
          pose proof (Hwf n _ Hin). lia.
        - rewrite list_lookup_alter_ne by lia. rewrite lookup_detach.
          rewrite list_lookup_middle by reflexivity. reflexivity. }
      destruct Hk1 as [Hk1 Hm1].
      assert (Hd1 : Forall2 (mirrors_child s1) (kids s1 n) (done ++ [CText txt])).
      { rewrite Hk1. apply Forall2_app.
        - apply (Forall2_mirrors_stable n s s1); auto.
          + intros q Hq1 Hq2. apply O1; lia.
          + intros x Hx. now apply kids_in_range.
        - constructor; [exact Hm1|constructor]. }
      destruct (IH s1 r s3 (done ++ [CText txt]) W1 ltac:(lia) A1 E3 Hd1) as [Hr M3].
      rewrite <- app_assoc in Hr. split; [exact Hr|].
      eapply children_mounted_trans; eauto.
    + apply bind_inv in E as (v' & s1 & E1 & E).
      apply bind_inv in E as (r & s3 & E3 & E).
      injection E as <- <-.
      pose proof (mount_el v (Some n) s v' s1 E1) as Hel.
      pose proof (mount_mounted v n s v' s1 E1 Hwf Hn) as Hmt.
      pose proof (mounted_children _ _ _ _ Hwf Hn Hab Hmt) as M1.
      pose proof M1 as (W1 & L1 & O1 & P1 & A1).
      destruct Hmt as (_ & _ & _ & Hc1 & _ & _).
      assert (Hk1 : kids s1 n = kids s n ++ [length (heap s)]).
      { unfold kids. rewrite Hc1. destruct (heap s !! n) as [nd|] eqn:En; [reflexivity|].
        apply lookup_ge_None in En. lia. }
      assert (Hd1 : Forall2 (mirrors_child s1) (kids s1 n) (done ++ [CNode v'])).
      { rewrite Hk1. apply Forall2_app.
        - apply (Forall2_mirrors_stable n s s1); auto.
          + intros q Hq1 Hq2. apply O1; lia.
          + intros x Hx. now apply kids_in_range.
        - constructor; [|constructor]. split; [exact Hel|].
          apply (Hc n s v' s1 Hwf Hn E1). }
      destruct (IH s1 r s3 (done ++ [CNode v']) W1 ltac:(lia) A1 E3 Hd1) as [Hr M3].
      rewrite <- app_assoc in Hr. split; [exact Hr|].
      eapply children_mounted_trans; eauto.
Qed.

Lemma mount_mirrors_all v : mount_mirrors v.
Proof.
  induction v as [t p cs k e IH] using vnode_nested_ind.
  intros c st v' st' Hwf Hc E. simpl in E.
  apply bind_inv in E as (n & s1 & E1 & E).
  apply bind_inv in E as ([] & s2 & E2 & E).
  apply bind_inv in E as (cs' & s3 & E3 & E).
  apply bind_inv in E as (c0 & s4 & E4 & E).
  apply bind_inv in E as ([] & s5 & E5 & E).
  injection E as <- <-.
  apply createElement_inv in E1 as (_ & -> & ->).
  injection E4 as <- <-.
  set (n := length (heap st)) in *.
  destruct (forEach_attrs_inv _ _ n t []
              (fun k s s' a0 l0 => mountProp_attrs n p k s s' t a0 l0 [])
              (js_keys p) _ s2 [] [] E2)
    as (ls2 & H2).
  { simpl. now apply list_lookup_middle. }
  simpl in H2.
  assert (Hk2 : forall q, kids s2 q = if decide (q = n) then [] else kids st q).
  { intros q. unfold kids. rewrite H2.
    destruct (decide (q = n)) as [->|Hne].
    - rewrite list_lookup_insert_eq by (rewrite length_app; simpl; unfold n; lia). reflexivity.
    - rewrite list_lookup_insert_ne by auto.
      destruct (decide (q < n)).
      + now rewrite lookup_app_l.
      + rewrite (proj2 (lookup_ge_None (heap st) q)) by (unfold n in *; lia).
        rewrite (proj2 (lookup_ge_None _ q)); [reflexivity|].
        rewrite length_app. simpl. unfold n in *. lia. }
  assert (L2 : length (heap s2) = S n).
  { rewrite H2, length_insert, length_app. simpl. unfold n. lia. }
  assert (W2 : wf s2).
  { intros q x. rewrite Hk2, L2.
    destruct (decide (q = n)); [intros Hx; inversion Hx|].
    intros Hx. pose proof (Hwf q x Hx). unfold n. lia. }
  assert (A2 : above n s2).
  { intros q x Hq. rewrite Hk2.
    destruct (decide (q = n)); [intros Hx; inversion Hx|].
    intros Hx. apply kids_lt in Hx. unfold n in *. lia. }
  destruct (mountChildren_mirrors n cs IH s2 cs' s3 [] W2 ltac:(lia) A2 E3) as [Hr M3].
  { rewrite Hk2, decide_True by reflexivity. constructor. }
  simpl in Hr. destruct M3 as (W3 & L3 & O3 & P3 & A3).
  rewrite appendChild_run in E5. injection E5 as <-.
  assert (Hfr : forall q, n <= q ->
            alter (set_kids (fun l => l ++ [n])) c (detach n (heap s3)) !! q = heap s3 !! q).
  { intros q Hq. rewrite list_lookup_alter_ne by (unfold n in *; lia).
    now apply detach_above. }
  apply mirrors_eq.
  assert (Hn3 : exists ks3, heap s3 !! n
                  = Some (DNode (Elem t (fold_left (mountPropAttrs p) (js_keys p) []) ls2) ks3)).
  { rewrite H2 in P3.
    rewrite list_lookup_insert_eq in P3 by (rewrite length_app; simpl; unfold n; lia).
    simpl in P3. destruct (heap s3 !! n) as [[pl ks3]|]; [|discriminate].
    simpl in P3. injection P3 as ->. eauto. }
  destruct Hn3 as (ks3 & Hn3).
  exists n, (fold_left (mountPropAttrs p) (js_keys p) []), ls2, ks3.
  split; [reflexivity|]. split; [simpl; rewrite Hfr by lia; exact Hn3|].
  split; [apply attrs_after_mount|].
  assert (Hks : kids s3 n = ks3) by (unfold kids; now rewrite Hn3).
  rewrite Hks in Hr.
  apply (Forall2_mirrors_stable n s3); auto.
  - intros q Hq1 Hq2. simpl. apply Hfr. lia.
  - intros x Hx. apply kids_in_range; auto. now rewrite Hks.
Qed.

(** X6. In a document whose child lists hold existing nodes, [mount] of
    a descriptor whose tags and properties the backend accepts, under an
    existing container, returns the descriptor it was given, bound, and
    the live tree under the new node is the tree described: at every level
    the tag, the plain attributes, and the children in order, a text node
    for every string; the new node is the last child of the container. *)
Theorem mount_mirrors_descriptor (v : vnode) (c : nat) (st : dom) :
  renderable v = true ->
  wf st ->
  c < length (heap st) ->
  exists v' st',
    mount v (Some c) st = (Ok v', st') /\
    strip v' = strip v /\
    mirrors st' v' /\
    kids st' c = kids st c ++ [length (heap st)] /\
    el v' = Some (length (heap st)).
Proof.
  intros Hr Hwf Hc.
  destruct (mount_ok v Hr c st) as (v' & st' & l & E & He & _ & F).
  destruct (F Hwf Hc) as (_ & _ & _ & Hk & _ & _).
  exists v', st'. split; [exact E|].
  split; [apply (mount_binds_fresh v (Some c) st v' st' E)|].
  split; [apply (mount_mirrors_all v c st v' st' Hwf Hc E)|].
  split; [|exact He].
  unfold kids. rewrite Hk. destruct (heap st !! c) as [nd|] eqn:En; [reflexivity|].
  apply lookup_ge_None in En. lia.
Qed.

Lemma mount_mirrors_descriptor_witness :
  exists v' st',
    mount plain_tree (Some 0) page = (Ok v', st') /\
    strip v' = strip plain_tree /\
    mirrors st' v' /\
    kids st' 0 = kids page 0 ++ [length (heap page)] /\
    el v' = Some (length (heap page)).
Proof.
  apply (mount_mirrors_descriptor plain_tree 0 page).
  - reflexivity.
  - apply wf_check_sound. vm_compute. reflexivity.
  - vm_compute. lia.
Defined.

(** ** Replacement on a kind mismatch, in full *)

Lemma mountOps_eq t p cs k e c n :
  mountOps (VNode t p cs k e) c n =
    (OpCreateElement n t :: map (mountPropOp n p) (js_keys p)
       ++ fst (mountChildrenOps n cs (S n)) ++ [OpAppendChild c n],
     snd (mountChildrenOps n cs (S n))).
Proof.
  cbn [mountOps].
  assert (H : forall cs m,
    (fix go (cs : list child) (m : nat) {struct cs} : list op * nat :=
       match cs with
       | [] => ([], m)
       | CText s :: cs' =>
           let r' := go cs' (S m) in
           (OpCreateText m s :: OpAppendChild n m :: fst r', snd r')
       | CNode v' :: cs' =>
           let r1 := mountOps v' n m in
           let r2 := go cs' (snd r1) in
           (fst r1 ++ fst r2, snd r2)
       end) cs m = mountChildrenOps n cs m).
  { clear. induction cs as [|[s|v] cs IH]; intros m; cbn; [reflexivity| |];
      now rewrite IH. }
  now rewrite H.
Qed.

Definition mount_logs (v : vnode) : Prop :=
  forall c st v' st',
    mount v (Some c) st = (Ok v', st') ->
    log st' = log st ++ fst (mountOps v c (length (heap st))) /\
    length (heap st') = snd (mountOps v c (length (heap st))).

Lemma mountChildren_log n cs :
  Forall (child_all mount_logs) cs ->
  forall s cs' s',
    mountChildren mount n cs s = (Ok cs', s') ->
    log s' = log s ++ fst (mountChildrenOps n cs (length (heap s))) /\
    length (heap s') = snd (mountChildrenOps n cs (length (heap s))).
Proof.
  induction 1 as [|c cs Hc _ IH]; intros s cs' s' E.
  - injection E as <- <-. cbn. now rewrite app_nil_r.
  - destruct c as [txt|v]; simpl in E.
    + apply bind_inv in E as (t & s1 & E1 & E).
      apply bind_inv in E as ([] & s2 & E2 & E).
      apply bind_inv in E as (r & s3 & E3 & E).
      injection E as <- <-.
      rewrite createTextNode_run in E1. injection E1 as <- <-.
      rewrite appendChild_run in E2. injection E2 as <-.
      destruct (IH _ _ _ E3) as (L & N). cbn [log heap] in L, N.
      rewrite length_alter, length_detach, length_app in L, N. cbn [length] in L, N.
      rewrite Nat.add_1_r in L, N.
      cbn [mountChildrenOps fst snd]. split; [|exact N].
      rewrite L, <- !app_assoc. reflexivity.
    + apply bind_inv in E as (v' & s1 & E1 & E).
      apply bind_inv in E as (r & s3 & E3 & E).
      injection E as <- <-.
      destruct (Hc _ _ _ _ E1) as (L1 & N1).
      destruct (IH _ _ _ E3) as (L & N).
      cbn [mountChildrenOps fst snd]. rewrite <- N1. split; [|exact N].
      rewrite L, L1, <- app_assoc. reflexivity.
Qed.

(** The calls of [mount] are those listed by [mountOps]. *)
Lemma mount_log v : mount_logs v.
Proof.
  induction v as [t p cs k e IH] using vnode_nested_ind.
  intros c st v' st' E. simpl in E.
  apply bind_inv in E as (n & s1 & E1 & E).
  apply bind_inv in E as ([] & s2 & E2 & E).
  apply bind_inv in E as (cs' & s3 & E3 & E).
  apply bind_inv in E as (c0 & s4 & E4 & E).
  apply bind_inv in E as ([] & s5 & E5 & E).
  injection E as <- <-.
  apply createElement_inv in E1 as (_ & -> & ->).
  destruct (mountProps_inv _ _ _ _ _ E2) as (hp2 & -> & (Len2 & _)).
  destruct (mountChildren_log _ _ IH _ _ _ E3) as (L3 & N3).
  cbn [log heap] in L3, N3, Len2. rewrite Len2, length_app in L3, N3.
  cbn [length] in L3, N3. rewrite Nat.add_1_r in L3, N3.
  injection E4 as <- <-.
  rewrite appendChild_run in E5. injection E5 as <-.
  rewrite mountOps_eq. cbn [log heap fst snd]. split.
  - rewrite L3. repeat (rewrite <- app_assoc; cbn [app]). reflexivity.
  - rewrite length_alter, length_detach. exact N3.
Qed.

(** C6, as amended. When the kinds differ, the backend accepts the new
    tree, and the old descriptor is bound to a node [e] that sits in the
    child list [l1 ++ e :: l2] of its parent [p], [patch] returns normally.
    The calls it makes are [removeChild] of [e] on [p], the calls that
    materialize the new tree under [p] (the element, its properties, its
    children, at every level), and [insertBefore] in front of the first
    node of [l2], or [appendChild] when [l2] is empty.  Afterwards the new
    descriptor is bound, at every level, to nodes created by the call; the
    document mirrors it (tags, plain attributes, children in order); its
    element sits where [e] was, after [l1] and before [l2]; [e] is no
    child of [p]; and no other node that existed before has changed. *)
Theorem kind_mismatch_replaces (old new : vnode) (st : dom) (e p : nat)
    (l1 l2 : list nat) :
  tag old <> tag new ->
  renderable new = true ->
  el old = Some e ->
  wf st ->
  parent_of st e = Some p ->
  kids st p = l1 ++ e :: l2 ->
  NoDup (l1 ++ e :: l2) ->
  exists new' st',
    patch old new st = (Ok new', st') /\
    strip new' = strip new /\
    el new' = Some (length (heap st)) /\
    (forall x, x ∈ vnode_els new' -> length (heap st) <= x) /\
    mirrors st' new' /\
    kids st' p = l1 ++ length (heap st) :: l2 /\
    (e ∉ kids st' p) /\
    (forall q, q < length (heap st) -> q <> p -> heap st' !! q = heap st !! q) /\
    n_payload <$> heap st' !! p = n_payload <$> heap st !! p /\
    log st' = log st ++ OpRemoveChild p e :: fst (mountOps new p (length (heap st)))
                ++ [match head l2 with
                    | Some s => OpInsertBefore p (length (heap st)) s
                    | None => OpAppendChild p (length (heap st))
                    end].
Proof.
  intros Htag Hr Hel Hwf Hpar Hkids Hnd.
  destruct old as [ot op oc ok oe]. simpl in Htag, Hel. subst oe.
  assert (He : e ∈ kids st p) by (rewrite Hkids; apply elem_of_app; right; left).
  pose proof (kids_lt _ _ _ He) as Hp.
  assert (He1 : e ∉ l1).
  { apply NoDup_app in Hnd as (_ & H1 & _). intros Hin. apply (H1 e Hin). left. }
  assert (He2 : e ∉ l2).
  { apply NoDup_app in Hnd as (_ & _ & H2). now apply NoDup_cons in H2 as [H2 _]. }
  remember (length (heap st)) as n eqn:Hn.
  assert (Hfresh : forall x, x ∈ l1 ++ e :: l2 -> x < n).
  { intros x Hx. rewrite <- Hkids in Hx. pose proof (Hwf p x Hx). lia. }
  set (s1 := Dom (alter (set_kids (filter (fun x => x <> e))) p (heap st))
                 (log st ++ [OpRemoveChild p e])).
  assert (Hk1 : forall q, kids s1 q = if decide (p = q) then l1 ++ l2 else kids st q).
  { intros q. unfold s1. rewrite kids_alter_kids.
    destruct (decide (p = q)) as [<-|]; [|reflexivity].
    rewrite decide_True by lia.
    replace (kids (Dom (heap st) (log st ++ [OpRemoveChild p e])) p) with (kids st p) by reflexivity.
    rewrite Hkids. now apply filter_ne_middle. }
  assert (W1 : wf s1).
  { intros q x. rewrite Hk1. unfold s1. simpl. rewrite length_alter, <- Hn.
    destruct (decide (p = q)).
    - intros Hx. apply Hfresh. apply elem_of_app in Hx as [Hx|Hx]; apply elem_of_app; auto.
      right. now right.
    - intros Hx. pose proof (Hwf q x Hx). lia. }
  assert (Len1 : length (heap s1) = n) by (unfold s1; simpl; rewrite length_alter; lia).
  destruct (mount_ok new Hr p s1) as (v' & s2 & l & E2 & Ev & _ & F2).
  pose proof (mount_binds_fresh new (Some p) s1 v' s2 E2) as (Hst & Hfr & _).
  pose proof (mount_log new p s1 v' s2 E2) as (L2 & _).
  pose proof (mount_mirrors_all new p s1 v' s2 W1 ltac:(lia) E2) as Hm2.
  rewrite Len1 in Ev, L2, Hfr.
  destruct (F2 W1 ltac:(lia)) as (W2 & Len2 & O2 & C2 & (a & ls & ks & P2) & A2).
  rewrite Len1 in Len2, O2, C2, P2, A2.
  assert (Hk2 : kids s2 p = l1 ++ l2 ++ [n]).
  { unfold kids. rewrite C2. pose proof (Hk1 p) as Hk. rewrite decide_True in Hk by reflexivity.
    unfold kids in Hk. destruct (heap s1 !! p) eqn:E1; simpl in *.
    - rewrite Hk. now rewrite app_assoc.
    - apply lookup_ge_None in E1. lia. }
  assert (Hn1 : n ∉ l1).
  { intros Hin. assert (n < n); [|lia]. apply Hfresh. apply elem_of_app. now left. }
  assert (Hn2 : n ∉ l2).
  { intros Hin. assert (n < n); [|lia]. apply Hfresh. apply elem_of_app. right. now right. }
  assert (Hrun : forall tail_st,
    (match head l2 with
     | Some s => insertBefore p n s
     | None => appendChild p n
     end) s2 = (Ok tt, tail_st) ->
    patch (VNode ot op oc ok (Some e)) new st = (Ok v', tail_st)).
  { intros tail_st Et. simpl.
    destruct (String.eqb_spec ot (tag new)) as [Heq|_]; [contradiction|]. simpl.
    unfold replaceNode. simpl.
    unfold bind at 1. simpl. unfold bind at 1. unfold parentNode at 1. rewrite Hpar.
    unfold bind at 1. unfold nextSibling at 1. rewrite Hpar, Hkids.
    rewrite next_in_middle by assumption.
    unfold bind at 1. simpl.
    unfold bind at 1. unfold removeChild at 1.
    rewrite bool_decide_eq_true_2 by (rewrite Hkids; apply elem_of_app; right; left).
    unfold bind at 1. unfold update_heap at 1. unfold emit at 1. simpl. fold s1.
    rewrite (bind_Ok _ _ _ _ _ E2). rewrite Ev. simpl.
    unfold bind at 1. simpl.
    rewrite (bind_Ok _ _ _ _ _ Et). reflexivity. }
  (* what the last call leaves of the document after [mount] *)
  assert (Hlast : forall f lg,
    let st' := Dom (alter (set_kids f) p (detach n (heap s2))) lg in
    mirrors st' v' /\
    (forall q, q < n -> q <> p -> heap st' !! q = heap st !! q) /\
    n_payload <$> heap st' !! p = n_payload <$> heap st !! p).
  { intros f lg st'. split; [|split].
    - apply (mirrors_stable_from n s2 st' W2) with (e := n); auto.
      + intros q x Hq Hx. pose proof (A2 q x Hq Hx). lia.
      + intros q Hq _. unfold st'. cbn [heap].
        rewrite list_lookup_alter_ne by lia. now apply detach_above.
    - intros q Hq Hqp. unfold st'. cbn [heap].
      rewrite list_lookup_alter_ne by auto. rewrite lookup_detach, O2 by auto.
      unfold s1. cbn [heap]. rewrite list_lookup_alter_ne by auto.
      destruct (heap st !! q) as [[pl kq]|] eqn:Eq; [|reflexivity].
      cbn. unfold set_kids. cbn. do 2 f_equal. apply filter_ne_notin.
      intros Hin. assert (n < n); [|lia]. rewrite Hn at 2.
      apply (Hwf q n). unfold kids. now rewrite Eq.
    - unfold st'. cbn [heap]. rewrite list_lookup_alter_eq, lookup_detach, C2.
      unfold s1. cbn [heap]. rewrite list_lookup_alter_eq.
      destruct (heap st !! p) as [[pl kp]|]; reflexivity. }
  destruct l2 as [|s l2'].
  - exists v', (Dom (alter (set_kids (fun l => l ++ [n])) p (detach n (heap s2)))
                    (log s2 ++ [OpAppendChild p n])).
    split; [apply Hrun; apply appendChild_run|].
    split; [exact Hst|]. split; [exact Ev|]. split; [exact Hfr|].
    destruct (Hlast (fun l => l ++ [n]) (log s2 ++ [OpAppendChild p n])) as (M & O & P).
    split; [exact M|].
    assert (Hk : kids (Dom (alter (set_kids (fun l => l ++ [n])) p (detach n (heap s2)))
                         (log s2 ++ [OpAppendChild p n])) p = l1 ++ [n]).
    { rewrite kids_alter_kids, length_detach.
      rewrite decide_True by reflexivity. rewrite decide_True by lia.
      rewrite kids_detach.
      replace (kids (Dom (heap s2) (log s2 ++ [OpAppendChild p n])) p) with (kids s2 p)
        by reflexivity.
      rewrite Hk2. simpl.
      rewrite filter_app, filter_ne_notin by assumption.
      rewrite filter_cons_False by (intros Hne; now apply Hne).
      rewrite filter_nil, app_nil_r. reflexivity. }
    split; [exact Hk|]. split.
    { rewrite Hk. assert (e < n) by (apply Hfresh; apply elem_of_app; right; left).
      intros [Hin| Heq%list_elem_of_singleton]%elem_of_app; [contradiction|lia]. }
    split; [exact O|]. split; [exact P|].
    cbn [log head]. rewrite L2. unfold s1. cbn [log].
    rewrite <- !app_assoc. reflexivity.
  - assert (Hs : s ∈ kids s2 p).
    { rewrite Hk2. apply elem_of_app. right. left. }
    assert (Hsn : n <> s).
    { intros <-. apply Hn2. left. }
    assert (Hs1 : s ∉ l1).
    { apply NoDup_app in Hnd as (_ & H1 & _). intros Hin. apply (H1 s Hin). right. left. }
    exists v', (Dom (alter (set_kids (insert_before n s)) p (detach n (heap s2)))
                    (log s2 ++ [OpInsertBefore p n s])).
    split.
    { apply Hrun. cbn [head]. unfold insertBefore. rewrite bool_decide_eq_true_2 by exact Hs.
      rewrite decide_False by exact Hsn. reflexivity. }
    split; [exact Hst|]. split; [exact Ev|]. split; [exact Hfr|].
    destruct (Hlast (insert_before n s) (log s2 ++ [OpInsertBefore p n s])) as (M & O & P).
    split; [exact M|].
    assert (Hk : kids (Dom (alter (set_kids (insert_before n s)) p (detach n (heap s2)))
                         (log s2 ++ [OpInsertBefore p n s])) p = l1 ++ n :: s :: l2').
    { rewrite kids_alter_kids, length_detach.
      rewrite decide_True by reflexivity. rewrite decide_True by lia.
      rewrite kids_detach.
      replace (kids (Dom (heap s2) (log s2 ++ [OpInsertBefore p n s])) p) with (kids s2 p)
        by reflexivity.
      rewrite Hk2.
      rewrite filter_app, filter_ne_notin by assumption.
      rewrite filter_app, filter_ne_notin by assumption.
      rewrite filter_cons_False by (intros Hne; now apply Hne).
      rewrite filter_nil, !app_nil_r.
      now rewrite insert_before_middle by assumption. }
    split; [exact Hk|]. split.
    { rewrite Hk. assert (e < n) by (apply Hfresh; apply elem_of_app; right; left).
      intros [Hin|Hin]%elem_of_app; [contradiction|].
      apply elem_of_cons in Hin as [Heq|Hin]; [lia|contradiction]. }
    split; [exact O|]. split; [exact P|].
    cbn [log head]. rewrite L2. unfold s1. cbn [log].
    rewrite <- !app_assoc. reflexivity.
Qed.

(** Old [span] with child "x" against new [div] with an attribute, a
    listener and the child "x", the [span] being the second of three
    children. *)
Lemma kind_mismatch_replaces_witness :
  exists new' st',
    patch (nth_child (fst (mounted_of row)) 1) labelled_div (snd (mounted_of row))
      = (Ok new', st') /\
    strip new' = strip labelled_div /\
    el new' = Some 6 /\
    (forall x, x ∈ vnode_els new' -> 6 <= x) /\
    mirrors st' new' /\
    kids st' 1 = [2] ++ 6 :: [5] /\
    (3 ∉ kids st' 1) /\
    (forall q, q < 6 -> q <> 1 -> heap st' !! q = heap (snd (mounted_of row)) !! q) /\
    n_payload <$> heap st' !! 1 = n_payload <$> heap (snd (mounted_of row)) !! 1 /\
    log st' = log (snd (mounted_of row))
                ++ OpRemoveChild 1 3 :: fst (mountOps labelled_div 1 6)
                ++ [OpInsertBefore 1 6 5].
Proof.
  apply (kind_mismatch_replaces (nth_child (fst (mounted_of row)) 1) labelled_div
           (snd (mounted_of row)) 3 1 [2] [5]).
  - vm_compute. discriminate.
  - vm_compute. reflexivity.
  - reflexivity.
  - apply wf_check_sound. vm_compute. reflexivity.
  - vm_compute. reflexivity.
  - reflexivity.
  - apply (bool_decide_unpack _). vm_compute. exact I.
Defined.

(** C6 as first stated fails where the backend refuses the new tree: with
    the new tag [my tag], the old [span] is removed, [createElement]
    throws, and nothing takes its place. *)
Lemma refused_tag_leaves_a_gap :
  tag (nth_child (fst (mounted_of row)) 1) <> tag (h "my tag" [] HNull) /\
  kids (snd (mounted_of row)) 1 = [2; 3; 5] /\
  fst (patch (nth_child (fst (mounted_of row)) 1) (h "my tag" [] HNull)
         (snd (mounted_of row))) = Err InvalidCharacterError /\
  kids (snd (patch (nth_child (fst (mounted_of row)) 1) (h "my tag" [] HNull)
               (snd (mounted_of row)))) 1 = [2; 5].
Proof.
  split; [vm_compute; discriminate|]. vm_compute. repeat split.
Qed.

Lemma findAnchorFrom_empty cs : forall i, findAnchorFrom cs i ∅ = None.
Proof.
  induction cs as [|c cs IH]; intros i; simpl; [reflexivity|].
  rewrite bool_decide_eq_false_2 by set_solver. apply IH.
Qed.

Lemma bind_ret_r {A} (m : M A) st : bind m ret st = m st.
Proof. unfold bind, ret. destruct (m st) as [[a|e] st']; reflexivity. Qed.

(** With no index matched, step 4 of [patchKeyedChildren] mounts the new
    children one after the other. *)
Lemma keyedInsert_unmatched container : forall rest done st,
  keyedInsert container ∅ (done ++ rest) (seq (length done) (length rest)) st
  = match mountAll rest container st with
    | (Ok cs', st') => (Ok (done ++ cs'), st')
    | (Err e, st') => (Err e, st')
    end.
Proof.
  induction rest as [|c rest IH]; intros done st.
  - simpl. now rewrite app_nil_r.
  - cbn [length seq keyedInsert mountAll].
    rewrite bool_decide_eq_false_2 by set_solver.
    rewrite list_lookup_middle by reflexivity.
    unfold findAnchor. rewrite findAnchorFrom_empty.
    destruct (mountChild c container st) as [[c'|e] st1] eqn:E1.
    + rewrite !(bind_Ok _ _ _ _ _ E1).
      unfold bind at 1. cbn [ret].
      rewrite insert_app_r_alt by lia. rewrite Nat.sub_diag. cbn [insert list_insert].
      specialize (IH (done ++ [c']) st1).
      rewrite length_app in IH. simpl in IH. rewrite Nat.add_1_r in IH.
      rewrite <- app_assoc in IH. simpl in IH. rewrite IH.
      unfold bind. destruct (mountAll rest container st1) as [[r|e] st2]; [|reflexivity].
      unfold ret. now rewrite <- app_assoc.
    + rewrite !(bind_Err _ _ _ _ _ E1). reflexivity.
Qed.

Lemma patchChildren_nil_old news container st :
  patchChildren patch [] news container st = mountAll news container st.
Proof.
  unfold patchChildren. destruct (hasKeyedChildren news).
  - unfold patchKeyedChildren. cbn [keyedMatch length seq rev keyedMove].
    unfold bind at 1. cbn [ret]. unfold bind at 1. cbn [ret ks_new newIndices].
    pose proof (keyedInsert_unmatched container news [] st) as H.
    cbn [app length] in H. rewrite H.
    destruct (mountAll news container st) as [[r|e] st']; reflexivity.
  - unfold patchUnkeyedChildren.
    change (length (@nil child) `min` length news) with 0.
    cbn [unkeyedCommon length drop Nat.sub seq rev forEach].
    unfold bind, ret. rewrite drop_0.
    destruct (mountAll news container st) as [[r|e] st']; reflexivity.
Qed.

Lemma mountAll_nodes c : forall vs st,
  Forall (fun v => renderable v = true) vs ->
  wf st -> c < length (heap st) ->
  exists cs' st' els,
    mountAll (map CNode vs) (Some c) st = (Ok cs', st') /\
    wf st' /\ length (heap st) <= length (heap st') /\
    (forall q, q < length (heap st) -> q <> c -> heap st' !! q = heap st !! q) /\
    kids st' c = kids st c ++ els /\
    (forall x, x ∈ els -> length (heap st) <= x) /\
    map strip_child cs' = map strip_child (map CNode vs) /\
    Forall2 (mirrors_child st') els cs'.
Proof.
  induction vs as [|v vs IH]; intros st Hrs Hwf Hc.
  - exists [], st, []. rewrite app_nil_r. repeat split; auto.
    intros x Hx. inversion Hx.
  - apply Forall_cons in Hrs as [Hr Hrs]. cbn [map mountAll mountChild].
    destruct (mount_ok v Hr c st) as (v' & st1 & l & E1 & He & _ & F).
    pose proof (F Hwf Hc) as (W1 & L1 & O1 & C1 & _ & A1).
    pose proof (mount_mirrors_all v c st v' st1 Hwf Hc E1) as Hm1.
    pose proof (mount_binds_fresh v (Some c) st v' st1 E1) as (Hs1 & _ & _).
    destruct (IH st1 Hrs W1 ltac:(lia)) as (cs' & st' & els & E & W & L & O & K & X & S & M).
    exists (CNode v' :: cs'), st', (length (heap st) :: els).
    split; [|split; [exact W|split; [lia|split; [|split; [|split; [|split]]]]]].
    + rewrite (bind_Ok _ _ _ _ _ (bind_Ok _ _ _ _ _ E1)). cbn [ret].
      rewrite (bind_Ok _ _ _ _ _ E). reflexivity.
    + intros q Hq Hne. rewrite O by (auto; lia). apply O1; auto.
    + rewrite K. unfold kids at 1. rewrite C1.
      destruct (heap st !! c) as [nd|] eqn:En.
      * simpl. unfold kids. rewrite En. now rewrite <- app_assoc.
      * apply lookup_ge_None in En. lia.
    + intros x [->|Hx]%elem_of_cons; [lia|]. specialize (X x Hx). lia.
    + simpl. now rewrite S, Hs1.
    + constructor; [|exact M]. split; [exact He|].
      apply (mirrors_stable_from (length (heap st)) st1 st' W1) with (e := length (heap st));
        auto.
      * intros q x Hq Hx. pose proof (A1 q x Hq Hx). lia.
      * intros q Hq1 Hq2. apply O; lia.
Qed.

(** X7. Reconciling an empty child list against a list of descriptors,
    keyed or not, whose tags and properties the backend accepts, mounts
    them: the call returns the descriptors bound, the container gains their
    nodes at its end in the order of the list, each mirroring its
    descriptor, all of them created by the call, and no other node of the
    document changes. *)
Theorem empty_list_is_populated_in_order (vs : list vnode) (c : nat) (st : dom) :
  Forall (fun v => renderable v = true) vs ->
  wf st ->
  c < length (heap st) ->
  exists news' st' els,
    patchChildren patch [] (map CNode vs) (Some c) st = (Ok news', st') /\
    map strip_child news' = map strip_child (map CNode vs) /\
    kids st' c = kids st c ++ els /\
    Forall2 (mirrors_child st') els news' /\
    (forall x, x ∈ els -> length (heap st) <= x) /\
    (forall q, q < length (heap st) -> q <> c -> heap st' !! q = heap st !! q).
Proof.
  intros Hrs Hwf Hc. rewrite patchChildren_nil_old.
  destruct (mountAll_nodes c vs st Hrs Hwf Hc)
    as (cs' & st' & els & E & W & L & O & K & X & S & M).
  exists cs', st', els. repeat split; auto.
Qed.

Lemma empty_list_is_populated_in_order_witness :
  exists news' st' els,
    patchChildren patch [] (map CNode [attrs_p; text_a]) (Some 0) page = (Ok news', st') /\
    map strip_child news' = map strip_child (map CNode [attrs_p; text_a]) /\
    kids st' 0 = kids page 0 ++ els /\
    Forall2 (mirrors_child st') els news' /\
    (forall x, x ∈ els -> length (heap page) <= x) /\
    (forall q, q < length (heap page) -> q <> 0 -> heap st' !! q = heap page !! q).
Proof.
  apply (empty_list_is_populated_in_order [attrs_p; text_a] 0 page).
  - repeat constructor.
  - apply wf_check_sound. vm_compute. reflexivity.
  - vm_compute. lia.
Defined.

Lemma unkeyedCommon_same_texts container ts rest : forall i st,
  unkeyedCommon patch container (map CText ts) (map CText ts ++ rest) i st
  = (Ok (map CText ts), st).
Proof.
  induction ts as [|t ts IH]; intros i st.
  - destruct rest; reflexivity.
  - cbn [map app unkeyedCommon unkeyedVisit]. rewrite String.eqb_refl.
    unfold bind at 1. cbn [ret]. rewrite (bind_Ok _ _ _ _ _ (IH (S i) st)). reflexivity.
Qed.

Lemma keyedMatch_texts container k2n ts : forall i ks st,
  keyedMatch patch container k2n (map CText ts) i ks st = (Ok ks, st).
Proof.
  induction ts as [|t ts IH]; intros i ks st; [reflexivity|].
  cbn [map keyedMatch keyedVisit]. unfold bind. cbn [ret]. apply IH.
Qed.

Lemma keyedMove_unmatched container olds news idx st last :
  keyedMove container olds (Keyed ∅ ∅ news) idx last st = (Ok tt, st).
Proof.
  induction idx as [|i idx IH]; [reflexivity|].
  cbn [keyedMove oldIndexToNewIndexMap]. rewrite lookup_empty. exact IH.
Qed.

(** A string among the children to mount stops the loop with a TypeError,
    after an element named "undefined" was created for it. *)
Lemma mountAll_string s post container st :
  mountAll (CText s :: post) container st
  = (Err TypeError, snd (createElement "undefined" st)).
Proof. reflexivity. Qed.

(** X8. Reconciling a list of strings against the same strings followed
    by one more string, whatever comes after it, throws a TypeError: a
    string is handed to [mount], which creates an element named
    "undefined" and fails on binding it; that orphan element is the only
    change to the document, and no text node is created. *)
Theorem text_list_growth_throws (ts : list string) (s : string) (post : list child)
    (container : option nat) (st : dom) :
  patchChildren patch (map CText ts) (map CText ts ++ CText s :: post) container st
  = (Err TypeError,
     Dom (heap st ++ [DNode (Elem "undefined" [] []) []])
         (log st ++ [OpCreateElement (length (heap st)) "undefined"])).
Proof.
  unfold patchChildren. destruct (hasKeyedChildren _).
  - unfold patchKeyedChildren.
    rewrite (bind_Ok _ _ _ _ _ (keyedMatch_texts _ _ ts 0 _ st)).
    rewrite (bind_Ok _ _ _ _ _ (keyedMove_unmatched _ _ _ _ st _)).
    cbn [newIndices ks_new].
    pose proof (keyedInsert_unmatched container (map CText ts ++ CText s :: post) [] st) as H.
    cbn [app length] in H. rewrite H. clear H.
    destruct ts as [|t ts]; reflexivity.
  - unfold patchUnkeyedChildren.
    rewrite (bind_Ok _ _ _ _ _ (unkeyedCommon_same_texts container ts _ 0 st)).
    rewrite length_app, !length_map. rewrite Nat.min_l by lia.
    rewrite drop_app_length'; [|now rewrite length_map].
    reflexivity.
Qed.

Lemma removeChild_run c x st :
  x ∈ kids st c ->
  removeChild c x st =
    (Ok tt, Dom (alter (set_kids (filter (fun y => y <> x))) c (heap st))
                (log st ++ [OpRemoveChild c x])).
Proof.
  intros Hx. unfold removeChild. rewrite bool_decide_eq_true_2 by exact Hx. reflexivity.
Qed.

Lemma removeOld_loop c olds ks rest : 
  length ks = length olds ->
  NoDup (ks ++ rest) ->
  Forall2 bound_at ks olds ->
  forall j st, j <= length ks ->
    kids st c = take j ks ++ rest ->
    exists st',
      forEach (removeOld (Some c) olds) (rev (seq 0 j)) st = (Ok tt, st') /\
      kids st' c = rest /\
      log st' = log st ++ map (OpRemoveChild c) (rev (take j ks)) /\
      length (heap st') = length (heap st) /\
      (forall q, q <> c -> heap st' !! q = heap st !! q) /\
      n_payload <$> heap st' !! c = n_payload <$> heap st !! c.
Proof.
  intros Hlen Hnd Hal. induction j as [|j IH]; intros st Hj Hk.
  - exists st. simpl in *. rewrite app_nil_r. repeat split; auto.
  - rewrite seq_S, rev_app_distr. cbn [rev app forEach Nat.add].
    destruct (lookup_lt_is_Some_2 ks j ltac:(lia)) as (x & Hx).
    destruct (lookup_lt_is_Some_2 olds j ltac:(lia)) as (o & Ho).
    assert (Hb : bound_at x o).
    { eapply Forall2_lookup_lr; eauto. }
    assert (Ht : take (S j) ks = take j ks ++ [x]) by (now apply take_S_r).
    assert (Hkx : kids st c !! j = Some x).
    { rewrite Hk, Ht, <- app_assoc. rewrite lookup_app_r by (rewrite length_take; lia).
      rewrite length_take, Nat.min_l by lia. now rewrite Nat.sub_diag. }
    assert (Hin : x ∈ kids st c) by (apply list_elem_of_lookup; eauto).
    assert (Hold : oldElOf (Some c) j o st = (Ok (Some x), st)).
    { destruct o as [s|ov]; simpl in *.
      - unfold bind, childNode. simpl. now rewrite Hkx.
      - now rewrite Hb. }
    assert (Hstep : removeOld (Some c) olds j st = removeChild c x st).
    { unfold removeOld. rewrite Ho. rewrite (bind_Ok _ _ _ _ _ Hold). reflexivity. }
    rewrite (bind_Ok _ _ _ _ _ (eq_trans Hstep (removeChild_run c x st Hin))).
    set (st1 := Dom _ _).
    assert (Hc : c < length (heap st)) by (now apply kids_lt in Hin).
    assert (Hk1 : kids st1 c = take j ks ++ rest).
    { unfold st1. rewrite kids_alter_kids, decide_True by reflexivity.
      rewrite decide_True by exact Hc.
      change (kids (Dom (heap st) _) c) with (kids st c).
      rewrite Hk, Ht, <- app_assoc.
      apply filter_ne_middle.
      assert (E : ks ++ rest = (take j ks ++ [x]) ++ drop (S j) ks ++ rest).
      { rewrite <- Ht. now rewrite app_assoc, take_drop. }
      rewrite E in Hnd. rewrite <- !app_assoc in Hnd.
      clear -Hnd. 
      apply NoDup_app in Hnd as (N1 & N2 & N3).
      apply NoDup_app. split; [exact N1|]. split.
      - intros y Hy Hy'. apply (N2 y Hy).
        cbn [app] in *. inversion Hy'; subst; [left|right].
        apply elem_of_app. now right.
      - cbn [app] in N3. apply NoDup_cons in N3 as [Hn N3]. apply NoDup_cons. split.
        + intros H. apply Hn. apply elem_of_app. now right.
        + apply NoDup_app in N3 as (_ & _ & N3). exact N3. }
    destruct (IH st1 ltac:(lia) Hk1) as (st' & E & K & L & Len & O & P).
    exists st'. split; [exact E|]. split; [exact K|]. split; [|split; [|split]].
    + rewrite L. unfold st1. simpl. rewrite Ht, rev_app_distr. simpl.
      now rewrite <- app_assoc.
    + rewrite Len. unfold st1. simpl. apply length_alter.
    + intros q Hq. rewrite O by exact Hq. unfold st1. simpl.
      now apply list_lookup_alter_ne.
    + rewrite P. unfold st1. simpl. rewrite list_lookup_alter_eq.
      destruct (heap st !! c); reflexivity.
Qed.

(** X9. Reconciling a child list against an empty one removes the live
    nodes of the old children from the last to the first, a string by its
    position and a descriptor by its bound node, and touches nothing
    else: the children of the container that came after them are what is
    left. *)
Theorem empty_new_list_clears (olds : list child) (c : nat) (st : dom)
    (ks rest : list nat) :
  kids st c = ks ++ rest ->
  NoDup (ks ++ rest) ->
  Forall2 bound_at ks olds ->
  exists st',
    patchChildren patch olds [] (Some c) st = (Ok [], st') /\
    kids st' c = rest /\
    log st' = log st ++ map (OpRemoveChild c) (rev ks) /\
    (forall q, q <> c -> heap st' !! q = heap st !! q).
Proof.
  intros Hk Hnd Hal.
  pose proof (Forall2_length _ _ _ Hal) as Hlen.
  destruct (removeOld_loop c olds ks rest Hlen Hnd Hal (length ks) st (le_n _))
    as (st' & E & K & L & _ & O & _).
  { now rewrite firstn_all. }
  exists st'. split; [|rewrite firstn_all in L; auto].
  unfold patchChildren. cbn [hasKeyedChildren existsb].
  unfold patchUnkeyedChildren.
  assert (Hc : forall i s, unkeyedCommon patch (Some c) olds [] i s = (Ok [], s)).
  { intros i s. destruct olds; reflexivity. }
  rewrite (bind_Ok _ _ _ _ _ (Hc 0 st)).
  cbn [length]. rewrite Nat.min_0_r, Nat.sub_0_r. cbn [drop mountAll].
  unfold bind at 1. cbn [ret]. rewrite <- Hlen.
  rewrite (bind_Ok _ _ _ _ _ E). reflexivity.
Qed.

Lemma empty_new_list_clears_witness :
  exists st',
    patchChildren patch (children (fst (mounted_of xyz))) [] (Some 1) (snd (mounted_of xyz))
      = (Ok [], st') /\
    kids st' 1 = [] /\
    log st' = log (snd (mounted_of xyz)) ++ map (OpRemoveChild 1) (rev [2; 4; 6]) /\
    (forall q, q <> 1 -> heap st' !! q = heap (snd (mounted_of xyz)) !! q).
Proof.
  apply (empty_new_list_clears (children (fst (mounted_of xyz))) 1 (snd (mounted_of xyz))
           [2; 4; 6] []).
  - vm_compute. reflexivity.
  - apply (bool_decide_unpack _). vm_compute. exact I.
  - vm_compute. repeat constructor.
Defined.

Lemma setTextContent_text x a b st :
  holds_text st x a ->
  setTextContent x b st =
    (Ok tt, Dom (alter (set_payload (fun _ => TextNode b)) x (heap st))
                (log st ++ [OpSetText x b])).
Proof. unfold holds_text, setTextContent. intros ->. reflexivity. Qed.

Lemma holds_text_frame st st1 ks ss :
  (forall y, y ∈ ks -> heap st1 !! y = heap st !! y) ->
  Forall2 (holds_text st) ks ss -> Forall2 (holds_text st1) ks ss.
Proof.
  intros Hf H. induction H as [|y s ks ss Hy _ IH]; constructor.
  - unfold holds_text in *. rewrite Hf by left. exact Hy.
  - apply IH. intros z Hz. apply Hf. now right.
Qed.

Lemma text_loop c : forall ks olds news pre rest st,
  length olds = length news ->
  kids st c = pre ++ ks ++ rest ->
  NoDup ks ->
  Forall2 (holds_text st) ks olds ->
  exists st',
    unkeyedCommon patch (Some c) (map CText olds) (map CText news) (length pre) st
      = (Ok (map CText news), st') /\
    (forall q, kids st' q = kids st q) /\
    Forall2 (holds_text st') ks news /\
    (forall q, q ∉ ks -> heap st' !! q = heap st !! q) /\
    log st' = log st ++ textOps ks olds news.
Proof.
  induction ks as [|x ks IH]; intros olds news pre rest st Hlen Hk Hnd Hh.
  - inversion Hh; subst. destruct news; [|discriminate].
    exists st. simpl. rewrite app_nil_r. repeat split; auto.
  - inversion Hh as [|x' a ks' olds' Hx Hh' E1 E2]; subst.
    destruct news as [|b news]; [discriminate|]. injection Hlen as Hlen.
    apply NoDup_cons in Hnd as [Hnx Hnd].
    cbn [map unkeyedCommon unkeyedVisit textOps].
    assert (Hnext : forall st1,
              (forall q, kids st1 q = kids st q) ->
              holds_text st1 x b ->
              (forall q, q <> x -> heap st1 !! q = heap st !! q) ->
              exists st',
                unkeyedCommon patch (Some c) (map CText olds') (map CText news)
                  (S (length pre)) st1 = (Ok (map CText news), st') /\
                (forall q, kids st' q = kids st q) /\
                Forall2 (holds_text st') (x :: ks) (b :: news) /\
                (forall q, q ∉ x :: ks -> heap st' !! q = heap st !! q) /\
                log st' = log st1 ++ textOps ks olds' news).
    { intros st1 K1 X1 O1.
      destruct (IH olds' news (pre ++ [x]) rest st1 Hlen) as (st' & E & K & F & O & L).
      - rewrite K1, Hk. now rewrite <- app_assoc.
      - exact Hnd.
      - apply (holds_text_frame st); [|exact Hh'].
        intros y Hy. apply O1. intros ->. contradiction.
      - rewrite length_app in E. simpl in E. rewrite Nat.add_1_r in E.
        exists st'. split; [exact E|]. split; [intros q; now rewrite K, K1|].
        split; [|split; [|exact L]].
        + constructor; [|exact F]. unfold holds_text in *. rewrite O by exact Hnx. exact X1.
        + intros q Hq. rewrite O, O1; auto.
          * intros ->. apply Hq. left.
          * intros Hin. apply Hq. now right. }
    destruct (String.eqb_spec a b) as [->|Hne].
    + destruct (Hnext st) as (st' & E & K & F & O & L); auto.
      exists st'. split; [|auto].
      unfold bind at 1. cbn [ret]. rewrite (bind_Ok _ _ _ _ _ E). reflexivity.
    + assert (Hcn : childNode c (length pre) st = (Ok (Some x), st)).
      { unfold childNode. rewrite Hk. rewrite lookup_app_r by lia.
        now rewrite Nat.sub_diag. }
      set (st1 := Dom (alter (set_payload (fun _ => TextNode b)) x (heap st))
                      (log st ++ [OpSetText x b])).
      destruct (Hnext st1) as (st' & E & K & F & O & L).
      * intros q. unfold st1. apply kids_payload.
      * unfold holds_text, st1. simpl. rewrite list_lookup_alter_eq. unfold holds_text in Hx.
        now rewrite Hx.
      * intros q Hq. unfold st1. simpl. now apply list_lookup_alter_ne.
      * exists st'. split; [|split; [exact K|split; [exact F|split; [exact O|]]]].
        -- unfold bind at 1. unfold bind at 1. cbn [deref ret].
           unfold bind at 1. rewrite Hcn. unfold bind at 1. cbn [deref ret].
           unfold bind at 1. rewrite (setTextContent_text x a b st Hx). cbn [ret].
           fold st1. rewrite (bind_Ok _ _ _ _ _ E). reflexivity.
        -- rewrite L. unfold st1. simpl. now rewrite <- app_assoc.
Qed.

(** X10. Reconciling a list of strings against a list of as many strings,
    when the container starts with the text nodes holding the old strings,
    rewrites in place the text nodes whose string differs, in order, and
    nothing else: afterwards the same text nodes hold the new strings and
    every child list is as before. *)
Theorem texts_are_rewritten_in_place (olds news : list string) (c : nat) (st : dom)
    (ks rest : list nat) :
  length olds = length news ->
  kids st c = ks ++ rest ->
  NoDup ks ->
  Forall2 (holds_text st) ks olds ->
  exists st',
    patchChildren patch (map CText olds) (map CText news) (Some c) st
      = (Ok (map CText news), st') /\
    (forall q, kids st' q = kids st q) /\
    Forall2 (holds_text st') ks news /\
    (forall q, q ∉ ks -> heap st' !! q = heap st !! q) /\
    log st' = log st ++ textOps ks olds news.
Proof.
  intros Hlen Hk Hnd Hh.
  destruct (text_loop c ks olds news [] rest st Hlen Hk Hnd Hh) as (st' & E & K & F & O & L).
  exists st'. split; [|auto].
  unfold patchChildren.
  assert (Hnk : hasKeyedChildren (map CText news) = false).
  { clear. induction news; [reflexivity|exact IHnews]. }
  rewrite Hnk. unfold patchUnkeyedChildren.
  cbn [length] in E. rewrite (bind_Ok _ _ _ _ _ E).
  rewrite !length_map, Hlen, Nat.min_id, Nat.sub_diag.
  rewrite drop_ge by (rewrite length_map; lia).
  cbn [mountAll seq rev forEach]. unfold bind, ret. now rewrite app_nil_r.
Qed.

Lemma texts_are_rewritten_in_place_witness :
  exists st',
    patchChildren patch (map CText ["a"; "b"]) (map CText ["a"; "c"]) (Some 1)
      (snd (mounted_of text_ab)) = (Ok (map CText ["a"; "c"]), st') /\
    (forall q, kids st' q = kids (snd (mounted_of text_ab)) q) /\
    Forall2 (holds_text st') [2; 3] ["a"; "c"] /\
    (forall q, q ∉ [2; 3] -> heap st' !! q = heap (snd (mounted_of text_ab)) !! q) /\
    log st' = log (snd (mounted_of text_ab)) ++ textOps [2; 3] ["a"; "b"] ["a"; "c"].
Proof.
  apply (texts_are_rewritten_in_place ["a"; "b"] ["a"; "c"] 1 (snd (mounted_of text_ab))
           [2; 3] []).
  - reflexivity.
  - vm_compute. reflexivity.
  - apply (bool_decide_unpack _). vm_compute. exact I.
  - vm_compute. repeat constructor.
Defined.

Lemma same_shape_eq t p cs k e new :
  same_shape (VNode t p cs k e) new = true <->
  t = tag new /\ Forall2 same_shape_child cs (children new).
Proof.
  simpl. rewrite andb_true_iff.
  assert (H : forall cs ns,
    (fix go (cs ns : list child) {struct cs} : bool :=
            match cs, ns with
            | [], [] => true
            | CText _ :: cs', CText _ :: ns' => go cs' ns'
            | CNode o :: cs', CNode n :: ns' => same_shape o n && go cs' ns'
            | _, _ => false
            end) cs ns = true <-> Forall2 same_shape_child cs ns).
  { clear. induction cs as [|c cs IH]; intros [|n ns].
    - split; auto.
    - split; [discriminate|intros H; inversion H].
    - destruct c; split; try discriminate; intros H; inversion H.
    - destruct c as [s|o], n as [s'|n]; try (split; [discriminate|]; intros H; inversion H; subst;
        match goal with X : same_shape_child _ _ |- _ => now destruct X end).
      + rewrite IH. split; [intros H; now constructor|intros H; now inversion H].
      + rewrite andb_true_iff, IH. split.
        * intros [H1 H2]. now constructor.
        * intros H. inversion H; subst. auto. }
  rewrite H. rewrite String.eqb_eq. reflexivity.
Qed.

Lemma footprint_eq st t p cs k e :
  footprint st (VNode t p cs k (Some e)) = e :: children_footprint st (kids st e) cs.
Proof.
  simpl. f_equal. generalize (kids st e). induction cs as [|c cs IH]; intros ks.
  - reflexivity.
  - destruct c as [s|v], ks as [|x ks]; simpl; try reflexivity; now rewrite IH.
Qed.

Lemma footprint_kids st st' :
  (forall q, kids st' q = kids st q) ->
  forall v, footprint st' v = footprint st v.
Proof.
  intros Hk. induction v as [t p cs k oe IH] using vnode_nested_ind.
  destruct oe as [e|]; [|reflexivity].
  rewrite !footprint_eq, Hk. f_equal. generalize (kids st e).
  induction IH as [|c cs Hc _ IHcs]; intros ks; [reflexivity|].
  destruct ks as [|x ks]; [reflexivity|]. simpl. rewrite IHcs. f_equal.
  destruct c; [reflexivity|exact Hc].
Qed.

Lemma children_footprint_kids st st' ks cs :
  (forall q, kids st' q = kids st q) ->
  children_footprint st' ks cs = children_footprint st ks cs.
Proof.
  intros Hk. revert ks. induction cs as [|c cs IH]; intros [|x ks]; simpl; auto.
  rewrite IH. f_equal. destruct c; [reflexivity|now apply footprint_kids].
Qed.

(** Mirroring only depends on the nodes of the footprint. *)
Lemma mirrors_frame st st' :
  forall v,
    (forall q, q ∈ footprint st v -> heap st' !! q = heap st !! q) ->
    mirrors st v -> mirrors st' v.
Proof.
  induction v as [t p cs k oe IH] using vnode_nested_ind.
  intros Hf Hm.
  apply mirrors_eq in Hm as (e & a & ls & ks & -> & Hh & Ha & Hc).
  rewrite footprint_eq in Hf.
  assert (Hks : kids st e = ks) by (unfold kids; now rewrite Hh).
  rewrite Hks in Hf.
  apply mirrors_eq. exists e, a, ls, ks.
  split; [reflexivity|]. split; [rewrite Hf; [exact Hh|left]|]. split; [exact Ha|].
  assert (Hf' : forall q, q ∈ children_footprint st ks cs -> heap st' !! q = heap st !! q).
  { intros q Hq. apply Hf. now right. }
  clear Hf Hh Hks. revert IH Hf'.
  induction Hc as [|x c ks cs Hxc Hc IHc]; intros IH Hf; [constructor|].
  apply Forall_cons in IH as [IH1 IH2]. simpl in Hf. constructor.
  - destruct c as [s|v]; simpl in *.
    + rewrite Hf; [exact Hxc|left].
    + destruct Hxc as [He Hm]. split; [exact He|]. apply IH1; [|exact Hm].
      intros q Hq. apply Hf. apply elem_of_app. now left.
  - apply IHc; [exact IH2|]. intros q Hq. apply Hf. apply elem_of_app. now right.
Qed.

Lemma Forall2_mirrors_frame st st' ks cs :
  (forall q, q ∈ children_footprint st ks cs -> heap st' !! q = heap st !! q) ->
  Forall2 (mirrors_child st) ks cs -> Forall2 (mirrors_child st') ks cs.
Proof.
  intros Hf H. induction H as [|x c ks cs Hxc _ IH]; [constructor|].
  simpl in Hf. constructor.
  - destruct c as [s|v]; simpl in *.
    + rewrite Hf; [exact Hxc|left].
    + destruct Hxc as [He Hm]. split; [exact He|].
      apply (mirrors_frame st st'); [|exact Hm].
      intros q Hq. apply Hf. apply elem_of_app. now left.
  - apply IH. intros q Hq. apply Hf. apply elem_of_app. now right.
Qed.

Lemma unkeyedCommon_in_place e : forall olds,
  Forall (child_all patch_in_place) olds ->
  forall news ks pre st,
    Forall (child_all (fun v => ordinary v = true)) olds ->
    Forall (child_all (fun v => ordinary v = true)) news ->
    Forall2 same_shape_child olds news ->
    forallb unkeyed_child news = true ->
    kids st e = pre ++ ks ->
    Forall2 (mirrors_child st) ks olds ->
    NoDup (children_footprint st ks olds) ->
    exists news' st',
      unkeyedCommon patch (Some e) olds news (length pre) st = (Ok news', st') /\
      map strip_child news' = map strip_child news /\
      Forall2 (mirrors_child st') ks news' /\
      (forall q, kids st' q = kids st q) /\
      length (heap st') = length (heap st) /\
      (forall q, q ∉ children_footprint st ks olds -> heap st' !! q = heap st !! q) /\
      children_footprint st' ks news' = children_footprint st ks olds.
Proof.
  induction 1 as [|o olds Ho _ IH]; intros news ks pre st Hoo Hon' Hs Hu Hk Hm Hnd.
  - inversion Hs; subst. inversion Hm; subst.
    exists [], st. repeat split; auto.
  - inversion Hs as [|o' n olds' news' Hon Hs' E1 E2]; subst.
    inversion Hm as [|x o' ks' olds' Hxo Hm' E1 E2]; subst.
    apply Forall_cons in Hoo as [Hoo1 Hoo]. apply Forall_cons in Hon' as [Hon1 Hon'].
    simpl in Hu. apply andb_true_iff in Hu as [Hun Hu'].
    cbn [children_footprint] in Hnd. apply NoDup_app in Hnd as (Nd1 & Nd2 & Nd3).
    (* what the visit of the head must establish *)
    assert (Hhead : exists n' st1,
              unkeyedVisit patch (Some e) (length pre) o n st = (Ok n', st1) /\
              strip_child n' = strip_child n /\
              mirrors_child st1 x n' /\
              (forall q, kids st1 q = kids st q) /\
              length (heap st1) = length (heap st) /\
              (forall q, q ∉ child_footprint st x o -> heap st1 !! q = heap st !! q) /\
              child_footprint st1 x n' = child_footprint st x o).
    { destruct o as [a|ov], n as [b|nv]; simpl in Hon; try contradiction.
      - simpl in Hxo. cbn [unkeyedVisit].
        destruct (String.eqb_spec a b) as [->|Hne].
        + exists (CText b), st. repeat split; auto.
        + assert (Hcn : childNode e (length pre) st = (Ok (Some x), st)).
          { unfold childNode. rewrite Hk. rewrite lookup_app_r by lia.
            now rewrite Nat.sub_diag. }
          eexists (CText b), _. split.
          { unfold bind at 1. cbn [deref ret]. unfold bind at 1. rewrite Hcn.
            unfold bind at 1. cbn [deref ret]. unfold bind at 1.
            rewrite (setTextContent_text x a b st Hxo). cbn [ret]. reflexivity. }
          split; [reflexivity|]. split.
          { simpl. rewrite list_lookup_alter_eq. unfold holds_text in Hxo.
            now rewrite Hxo. }
          split; [intros q; apply kids_payload|]. split; [apply length_alter|].
          split; [|reflexivity].
          intros q Hq. simpl. apply list_lookup_alter_ne. intros ->. apply Hq. left.
      - destruct Hxo as [He Hmv]. cbn [unkeyedVisit].
        destruct (Ho nv st Hoo1 Hon1 Hon Hun Hmv Nd1)
          as (nv' & st1 & E & S & El & M & K & L & F & Fp).
        exists (CNode nv'), st1. split; [now rewrite (bind_Ok _ _ _ _ _ E)|].
        split; [simpl; now rewrite S|]. split; [split; [congruence|exact M]|].
        repeat split; auto. }
    destruct Hhead as (n' & st1 & E1 & S1 & M1 & K1 & L1 & F1 & Fp1).
    assert (Hfp : children_footprint st1 ks' olds = children_footprint st ks' olds)
      by (now apply children_footprint_kids).
    destruct (IH news' ks' (pre ++ [x]) st1 Hoo Hon' Hs' Hu')
      as (news'' & st' & E & S & M & K & L & F & Fp).
    { rewrite K1, Hk. now rewrite <- app_assoc. }
    { apply (Forall2_mirrors_frame st); [|exact Hm'].
      intros q Hq. apply F1. intros Hq'. exact (Nd2 q Hq' Hq). }
    { now rewrite Hfp. }
    rewrite length_app in E. simpl in E. rewrite Nat.add_1_r in E.
    exists (n' :: news''), st'. split; [|split; [|split; [|split; [|split; [|split]]]]].
    + cbn [unkeyedCommon]. rewrite (bind_Ok _ _ _ _ _ E1). rewrite (bind_Ok _ _ _ _ _ E).
      reflexivity.
    + simpl. now rewrite S1, S.
    + constructor; [|exact M].
      assert (Hst : forall q, q ∈ child_footprint st1 x n' -> heap st' !! q = heap st1 !! q).
      { intros q Hq. apply F. rewrite Hfp. rewrite Fp1 in Hq. intros Hq'. exact (Nd2 q Hq Hq'). }
      destruct n' as [b|nv']; simpl in *.
      * rewrite Hst; [exact M1|left].
      * destruct M1 as [He Hmv]. split; [exact He|].
        now apply (mirrors_frame st1 st').
    + intros q. now rewrite K, K1.
    + lia.
    + intros q Hq. cbn [children_footprint] in Hq.
      rewrite F, F1; auto.
      * intros Hq'. apply Hq. apply elem_of_app. now left.
      * rewrite Hfp. intros Hq'. apply Hq. apply elem_of_app. now right.
    + cbn [children_footprint]. rewrite Fp, Hfp. f_equal.
      rewrite <- Fp1. destruct n'; [reflexivity|]. simpl. now apply footprint_kids.
Qed.

Lemma kids_insert_same st e t a ls ks a' ls' lg q :
  heap st !! e = Some (DNode (Elem t a ls) ks) ->
  kids (Dom (<[e := DNode (Elem t a' ls') ks]> (heap st)) lg) q = kids st q.
Proof.
  intros E. unfold kids. simpl. destruct (decide (q = e)) as [->|Hne].
  - rewrite list_lookup_insert_eq by (now apply lookup_lt_Some in E). now rewrite E.
  - now rewrite list_lookup_insert_ne by auto.
Qed.

Lemma unkeyed_children t p cs k e :
  unkeyed (VNode t p cs k e) = true ->
  hasKeyedChildren cs = false /\ forallb unkeyed_child cs = true.
Proof.
  simpl. rewrite andb_true_iff, negb_true_iff. intros [H1 H2]. split; [exact H1|].
  clear -H2. induction cs as [|c cs IHc]; [reflexivity|]. simpl in *.
  apply andb_true_iff in H2 as [Ha Hb]. rewrite IHc by exact Hb.
  destruct c; simpl; [reflexivity|now rewrite Ha].
Qed.

Lemma patch_in_place_all old : patch_in_place old.
Proof.
  induction old as [t p cs k oe IH] using vnode_nested_ind.
  intros new st Hoo Hon Hs Hu Hm Hnd.
  apply mirrors_eq in Hm as (e & a & ls & ks & -> & Hh & Ha & Hc).
  apply same_shape_eq in Hs as [Ht Hs].
  destruct new as [t' p' cs' k' e']. simpl in Ht, Hs. subst t'.
  apply ordinary_eq in Hoo as (_ & Hao & Hpo & Hoo).
  apply ordinary_eq in Hon as (_ & Han & Hpn & Hon).
  apply unkeyed_children in Hu as [Hnk Hu].
  rewrite footprint_eq in Hnd.
  assert (Hks : kids st e = ks) by (unfold kids; now rewrite Hh).
  rewrite Hks in Hnd. apply NoDup_cons in Hnd as [Hne Hnd].
  destruct (patchProps_run e p p' st t a ls ks Hao Han Hpo Hpn Hh Ha)
    as (st1 & a' & ls' & E1 & H1 & Ha').
  assert (K1 : forall q, kids st1 q = kids st q).
  { intros q. destruct st1 as [hp1 lg1]. simpl in H1. subst hp1.
    now apply (kids_insert_same st e t a ls ks). }
  assert (Hfp1 : children_footprint st1 ks cs = children_footprint st ks cs)
    by (now apply children_footprint_kids).
  destruct (unkeyedCommon_in_place e cs IH cs' ks [] st1 Hoo Hon Hs Hu) as
    (news' & st' & E & S & M & K & L & F & Fp).
  { now rewrite K1, Hks. }
  { apply (Forall2_mirrors_frame st); [|exact Hc].
    intros q Hq. rewrite H1. apply list_lookup_insert_ne. intros ->. contradiction. }
  { now rewrite Hfp1. }
  assert (Hlen : length cs = length cs') by (now apply Forall2_length in Hs).
  exists (VNode t p' news' k' (Some e)), st'.
  split; [|split; [|split; [reflexivity|split; [|split; [|split; [|split]]]]]].
  - cbn [patch tag props children key]. rewrite String.eqb_refl. cbn [negb].
    rewrite (bind_Ok _ _ _ _ _ E1).
    unfold patchChildren. rewrite Hnk.
    assert (Ec : patchUnkeyedChildren patch cs cs' (Some e) st1 = (Ok news', st')).
    { unfold patchUnkeyedChildren. cbn [length] in E. rewrite (bind_Ok _ _ _ _ _ E).
      rewrite Hlen, Nat.min_id, Nat.sub_diag. rewrite drop_all.
      cbn [mountAll seq rev forEach]. unfold bind, ret. now rewrite app_nil_r. }
    rewrite (bind_Ok _ _ _ _ _ Ec). reflexivity.
  - rewrite !strip_eq. now rewrite S.
  - apply mirrors_eq. exists e, a', ls', ks. split; [reflexivity|].
    split; [|split; [exact Ha'|exact M]].
    rewrite F by (now rewrite Hfp1). rewrite H1.
    apply list_lookup_insert_eq. now apply lookup_lt_Some in Hh.
  - intros q. now rewrite K, K1.
  - rewrite L, H1. apply length_insert.
  - intros q Hq. rewrite footprint_eq, Hks in Hq.
    rewrite F.
    + rewrite H1. apply list_lookup_insert_ne. intros ->. apply Hq. left.
    + rewrite Hfp1. intros Hq'. apply Hq. now right.
  - rewrite !footprint_eq. rewrite K, K1, Hks. now rewrite Fp, Hfp1.
Qed.

(** X11. For two ordinary trees (the backend accepts their tags and
    properties, and no property is named like a property of
    [Object.prototype]): when the new tree has the structure of the old one
    (the same tags, as many children, strings facing strings) and no keyed
    child, and the document mirrors the old tree without sharing a node,
    [patch] returns the new descriptor bound to the nodes of the old one
    and the document mirrors the new tree: only payloads of nodes of the
    tree changed, every child list is as before, no node was created. *)
Theorem same_structure_is_patched_in_place (old new : vnode) (st : dom) :
  ordinary old = true ->
  ordinary new = true ->
  same_shape old new = true ->
  unkeyed new = true ->
  mirrors st old ->
  NoDup (footprint st old) ->
  exists new' st',
    patch old new st = (Ok new', st') /\
    strip new' = strip new /\
    el new' = el old /\
    mirrors st' new' /\
    (forall q, kids st' q = kids st q) /\
    length (heap st') = length (heap st) /\
    (forall q, q ∉ footprint st old -> heap st' !! q = heap st !! q).
Proof.
  intros Hoo Hon Hs Hu Hm Hnd.
  destruct (patch_in_place_all old new st Hoo Hon Hs Hu Hm Hnd)
    as (new' & st' & E & S & El & M & K & L & F & _).
  exists new', st'. repeat split; auto.
Qed.

Lemma same_structure_is_patched_in_place_witness :
  exists new' st',
    patch (fst (mounted_of plain_tree)) plain_tree_2 (snd (mounted_of plain_tree))
      = (Ok new', st') /\
    strip new' = strip plain_tree_2 /\
    el new' = el (fst (mounted_of plain_tree)) /\
    mirrors st' new' /\
    (forall q, kids st' q = kids (snd (mounted_of plain_tree)) q) /\
    length (heap st') = length (heap (snd (mounted_of plain_tree))) /\
    (forall q, q ∉ footprint (snd (mounted_of plain_tree)) (fst (mounted_of plain_tree)) ->
       heap st' !! q = heap (snd (mounted_of plain_tree)) !! q).
Proof.
  apply (same_structure_is_patched_in_place (fst (mounted_of plain_tree)) plain_tree_2
           (snd (mounted_of plain_tree))).
  - vm_compute. reflexivity.
  - vm_compute. reflexivity.
  - vm_compute. reflexivity.
  - vm_compute. reflexivity.
  - apply (mount_mirrors_all plain_tree 0 page);
      [exact wf_page|vm_compute; lia|vm_compute; reflexivity].
  - apply (bool_decide_unpack _). vm_compute. exact I.
Defined.

Lemma k2n_absent nvs : forall i m k,
  k ∉ map key nvs ->
  keyToNewIndexMap (map CNode nvs) i m !! k = m !! k.
Proof.
  induction nvs as [|nv nvs IH]; intros i m k Hk; [reflexivity|].
  cbn [map keyToNewIndexMap]. rewrite IH.
  - destruct (strict_eq (key nv) VUndef); [reflexivity|].
    apply lookup_insert_ne. intros E. apply Hk. rewrite <- E. left.
  - intros Hin. apply Hk. now right.
Qed.

Lemma k2n_present nvs : forall i m j nv,
  (forall nv, nv ∈ nvs -> key nv <> VUndef) ->
  NoDup (map key nvs) ->
  nvs !! j = Some nv ->
  keyToNewIndexMap (map CNode nvs) i m !! key nv = Some (i + j).
Proof.
  induction nvs as [|nv0 nvs IH]; intros i m j nv Hk Hnd Hj; [discriminate|].
  cbn [map] in Hnd. apply NoDup_cons in Hnd as [Hn0 Hnd].
  cbn [map keyToNewIndexMap]. destruct j as [|j].
  - injection Hj as ->. rewrite k2n_absent by exact Hn0.
    assert (E : strict_eq (key nv) VUndef = false).
    { unfold strict_eq. apply bool_decide_eq_false_2. apply Hk. left. }
    rewrite E. rewrite lookup_insert_eq. f_equal. lia.
  - rewrite (IH (S i) _ j nv); [f_equal; lia| |exact Hnd|exact Hj].
    intros nv' Hin. apply Hk. now right.
Qed.

Lemma k2n_spec nvs k j :
  (forall nv, nv ∈ nvs -> key nv <> VUndef) ->
  NoDup (map key nvs) ->
  keyToNewIndexMap (map CNode nvs) 0 ∅ !! k = Some j <->
  exists nv, nvs !! j = Some nv /\ key nv = k.
Proof.
  intros Hk Hnd. split.
  - intros H. destruct (decide (k ∈ map key nvs)) as [Hin|Hn].
    + apply list_elem_of_fmap in Hin as (nv & -> & Hin).
      apply list_elem_of_lookup in Hin as (j' & Hj').
      rewrite (k2n_present nvs 0 ∅ j' nv Hk Hnd Hj') in H.
      injection H as <-. eauto.
    + rewrite k2n_absent in H by exact Hn. rewrite lookup_empty in H. discriminate.
  - intros (nv & Hj & <-). now rewrite (k2n_present nvs 0 ∅ j nv Hk Hnd Hj).
Qed.

Lemma findAnchorFrom_skip nI : forall d cs i,
  (forall t, i <= t -> t < i + d -> t ∉ nI) ->
  findAnchorFrom cs i nI = findAnchorFrom (drop d cs) (i + d) nI.
Proof.
  induction d as [|d IH]; intros cs i Hs.
  - rewrite drop_0, Nat.add_0_r. reflexivity.
  - destruct cs as [|c cs].
    + rewrite drop_nil. reflexivity.
    + cbn [findAnchorFrom drop]. rewrite bool_decide_eq_false_2 by (apply Hs; lia).
      rewrite IH by (intros t H1 H2; apply Hs; lia). f_equal. lia.
Qed.

Lemma findAnchor_next j j' cur nI v a :
  j < j' ->
  (forall t, j < t -> t < j' -> t ∉ nI) ->
  j' ∈ nI ->
  cur !! j' = Some (CNode v) ->
  el v = Some a ->
  findAnchor j cur nI = Some a.
Proof.
  intros Hlt Hs Hin Hc He. unfold findAnchor.
  rewrite (findAnchorFrom_skip nI (j' - S j)) by (intros t H1 H2; apply Hs; lia).
  rewrite drop_drop. replace (S j + (j' - S j)) with j' by lia.
  destruct (drop j' cur) as [|c r] eqn:E.
  - apply (f_equal length) in E. rewrite length_drop in E. simpl in E.
    apply lookup_lt_Some in Hc. lia.
  - assert (Hc' : c = CNode v).
    { pose proof (lookup_drop cur j' 0) as H. rewrite E, Nat.add_0_r, Hc in H.
      simpl in H. congruence. }
    subst c. cbn [findAnchorFrom]. rewrite bool_decide_eq_true_2 by exact Hin.
    now rewrite He.
Qed.

Lemma findAnchor_none j cur nI :
  (forall t, j < t -> t ∉ nI) ->
  findAnchor j cur nI = None.
Proof.
  intros Hs. unfold findAnchor.
  rewrite (findAnchorFrom_skip nI (length cur)) by (intros t H1 H2; apply Hs; lia).
  rewrite drop_drop, drop_ge by lia. reflexivity.
Qed.

(** Moving a node to the place it is at changes nothing but the log. *)
Lemma insertBefore_adjacent c x a st l1 l2 :
  kids st c = l1 ++ x :: a :: l2 ->
  NoDup (l1 ++ x :: a :: l2) ->
  (forall q, q <> c -> x ∉ kids st q) ->
  insertBefore c x a st = (Ok tt, Dom (heap st) (log st ++ [OpInsertBefore c x a])).
Proof.
  intros Hk Hnd Hp. unfold insertBefore.
  rewrite bool_decide_eq_true_2 by (rewrite Hk; set_solver).
  assert (Hne : x <> a).
  { intros ->. apply NoDup_app in Hnd as (_ & _ & Hnd).
    apply NoDup_cons in Hnd as [Hn _]. apply Hn. left. }
  rewrite decide_False by exact Hne.
  unfold bind, update_heap, emit. simpl. do 2 f_equal.
  apply list_eq. intros q. destruct (decide (q = c)) as [->|Hq].
  - rewrite list_lookup_alter_eq, lookup_detach.
    unfold kids in Hk. destruct (heap st !! c) as [[pl ks]|] eqn:E; [|reflexivity].
    simpl in *. subst ks. unfold set_kids. simpl. do 2 f_equal.
    rewrite filter_ne_middle by exact Hnd.
    apply insert_before_middle.
    intros Hin. apply NoDup_app in Hnd as (_ & Hnd & _).
    apply (Hnd a Hin). right. left.
  - rewrite list_lookup_alter_ne by auto. rewrite lookup_detach.
    destruct (heap st !! q) as [[pl ks]|] eqn:E; [|reflexivity].
    simpl. unfold set_kids. simpl. do 2 f_equal. apply filter_ne_notin.
    intros Hin. apply (Hp q Hq). unfold kids. now rewrite E.
Qed.

(** Moving the last child, which nothing else holds, before another child. *)
Lemma insertBefore_last c y a st l1 l2 :
  kids st c = l1 ++ a :: l2 ++ [y] ->
  NoDup (l1 ++ a :: l2 ++ [y]) ->
  (forall q, q <> c -> y ∉ kids st q) ->
  exists st',
    insertBefore c y a st = (Ok tt, st') /\
    kids st' c = l1 ++ y :: a :: l2 /\
    length (heap st') = length (heap st) /\
    (forall q, q <> c -> heap st' !! q = heap st !! q) /\
    n_payload <$> heap st' !! c = n_payload <$> heap st !! c.
Proof.
  intros Hk Hnd Hp. unfold insertBefore.
  rewrite bool_decide_eq_true_2 by (rewrite Hk; set_solver).
  assert (Hne : y <> a).
  { intros ->. apply NoDup_app in Hnd as (_ & _ & Hnd).
    apply NoDup_cons in Hnd as [Hn _]. apply Hn. apply elem_of_app. right. left. }
  rewrite decide_False by exact Hne.
  eexists. split; [reflexivity|].
  assert (Hc : c < length (heap st)).
  { apply (kids_lt st c a). rewrite Hk. set_solver. }
  assert (Hy1 : y ∉ l1).
  { intros Hin. apply NoDup_app in Hnd as (_ & Hnd & _). apply (Hnd y Hin).
    right. apply elem_of_app. right. left. }
  assert (Hy2 : y ∉ l2).
  { intros Hin. apply NoDup_app in Hnd as (_ & _ & Hnd). apply NoDup_cons in Hnd as [_ Hnd].
    apply NoDup_app in Hnd as (_ & Hnd & _). apply (Hnd y Hin). left. }
  assert (Ha1 : a ∉ l1).
  { intros Hin. apply NoDup_app in Hnd as (_ & Hnd & _). apply (Hnd a Hin). left. }
  simpl. split; [|split; [|split]].
  - rewrite kids_alter_kids, decide_True by reflexivity.
    rewrite length_detach, decide_True by exact Hc.
    rewrite kids_detach. change (kids (Dom (heap st) _) c) with (kids st c). rewrite Hk.
    replace (l1 ++ a :: l2 ++ [y]) with ((l1 ++ a :: l2) ++ [y]) by (now rewrite <- app_assoc).
    rewrite filter_app. rewrite filter_cons_False by (simpl; tauto). rewrite filter_nil, app_nil_r.
    rewrite filter_ne_notin by (intros [H|[H|H]%elem_of_cons]%elem_of_app; [exact (Hy1 H)|exact (Hne H)|exact (Hy2 H)]).
    now apply insert_before_middle.
  - now rewrite length_alter, length_detach.
  - intros q Hq. rewrite list_lookup_alter_ne by auto. rewrite lookup_detach.
    destruct (heap st !! q) as [[pl ks]|] eqn:E; [|reflexivity].
    simpl. unfold set_kids. simpl. do 2 f_equal. apply filter_ne_notin.
    intros Hin. apply (Hp q Hq). unfold kids. now rewrite E.
  - rewrite list_lookup_alter_eq, lookup_detach.
    destruct (heap st !! c) as [[pl ks]|]; reflexivity.
Qed.

Lemma increasing_pos ms a b e1 e2 :
  increasing ms -> ms !! a = Some e1 -> ms !! b = Some e2 ->
  m_old e1 < m_old e2 -> a < b.
Proof.
  intros Hi H1 H2 Hlt. destruct (Nat.lt_trichotomy a b) as [H|[->|H]]; [exact H| |].
  - rewrite H1 in H2. injection H2 as ->. lia.
  - destruct (Hi b a e2 e1 H H2 H1). lia.
Qed.

Lemma increasing_old_inj ms e1 e2 :
  increasing ms -> e1 ∈ ms -> e2 ∈ ms -> m_old e1 = m_old e2 -> e1 = e2.
Proof.
  intros Hi (a & H1)%list_elem_of_lookup (b & H2)%list_elem_of_lookup E.
  destruct (Nat.lt_trichotomy a b) as [H|[->|H]].
  - destruct (Hi a b e1 e2 H H1 H2). lia.
  - congruence.
  - destruct (Hi b a e2 e1 H H2 H1). lia.
Qed.

Lemma increasing_gap ms a e1 e2 t et :
  increasing ms -> ms !! a = Some e1 -> ms !! S a = Some e2 ->
  et ∈ ms -> m_new et = t -> m_new e1 < t -> t < m_new e2 -> False.
Proof.
  intros Hi H1 H2 (b & Hb)%list_elem_of_lookup <- Hlo Hhi.
  destruct (Nat.lt_trichotomy b a) as [H|[->|H]].
  - destruct (Hi b a et e1 H Hb H1). lia.
  - rewrite H1 in Hb. injection Hb as ->. lia.
  - destruct (decide (b = S a)) as [->|Hne].
    + rewrite H2 in Hb. injection Hb as ->. lia.
    + destruct (Hi (S a) b e2 et ltac:(lia) H2 Hb). lia.
Qed.

(** Step 3 on matched pairs that kept their order: the document is left as
    it is. *)
Lemma keyedMove_in_order c olds ks ms hp :
  matched olds ks ms ->
  kids (Dom hp []) c = map m_node ms ->
  NoDup (map m_node ms) ->
  (forall x q, x ∈ map m_node ms -> q <> c -> x ∉ kids (Dom hp []) q) ->
  forall k last lg,
    ((last = (-1)%Z /\ forall e, e ∈ ms -> m_old e < k) \/
     (exists ms0 e, ms = ms0 ++ [e] /\ k <= m_old e /\ last = Z.of_nat (m_new e))) ->
    exists l,
      keyedMove (Some c) olds ks (rev (seq 0 k)) last (Dom hp lg) = (Ok tt, Dom hp (lg ++ l)).
Proof.
  intros Hm Hk Hnd Hp. induction k as [|k IH]; intros last lg Hph.
  - exists []. now rewrite app_nil_r.
  - rewrite seq_S, rev_app_distr. cbn [rev app Nat.add keyedMove].
    destruct (oldIndexToNewIndexMap ks !! k) as [j|] eqn:Eo.
    + apply (mt_o2n _ _ _ Hm) in Eo as (x & Hin).
      destruct (mt_olds _ _ _ Hm _ _ _ Hin) as (ov & Ho & He). rewrite Ho.
      destruct Hph as [[-> Hall]|(ms0 & e & Hms & Hke & ->)].
      * (* the first pair met: it is the last of the list *)
        replace (Z.of_nat j >? -1)%Z with true by (symmetry; apply Z.gtb_lt; lia).
        apply IH. right.
        apply list_elem_of_lookup in Hin as (a & Ha).
        destruct (decide (S a = length ms)) as [Hl|Hl].
        -- exists (take a ms), (Match k j x). split; [|simpl; split; [lia|reflexivity]].
           rewrite <- (take_drop a ms) at 1. f_equal.
           apply list_eq. intros [|n]; simpl.
           ++ rewrite lookup_drop, Nat.add_0_r. exact Ha.
           ++ rewrite lookup_drop. apply lookup_ge_None. lia.
        -- exfalso. apply lookup_lt_Some in Ha as Hlt.
           destruct (lookup_lt_is_Some_2 ms (S a) ltac:(lia)) as (e2 & H2).
           destruct (mt_inc _ _ _ Hm a (S a) _ _ ltac:(lia) Ha H2) as [H _]. simpl in H.
           assert (Hin2 : e2 ∈ ms) by (apply list_elem_of_lookup; eauto).
           specialize (Hall e2 Hin2). lia.
      * (* every other pair sits before its successor *)
        assert (Hin0 : Match k j x ∈ ms0).
        { rewrite Hms in Hin. apply elem_of_app in Hin as [Hin|Hin]; [exact Hin|].
          apply list_elem_of_singleton in Hin. subst e. simpl in Hke. lia. }
        apply list_elem_of_lookup in Hin0 as (a & Ha0).
        assert (Ha : ms !! a = Some (Match k j x)) by (rewrite Hms; now apply lookup_app_l_Some).
        assert (He' : ms !! length ms0 = Some e) by (rewrite Hms; now apply list_lookup_middle).
        apply lookup_lt_Some in Ha0 as Hlt.
        destruct (mt_inc _ _ _ Hm a (length ms0) _ _ Hlt Ha He') as [_ Hj]. simpl in Hj.
        replace (Z.of_nat j >? Z.of_nat (m_new e))%Z with false
          by (symmetry; rewrite Z.gtb_ltb; apply Z.ltb_ge; lia).
        destruct (lookup_lt_is_Some_2 ms (S a)) as ([i2 j2 x2] & H2).
        { rewrite Hms, length_app. simpl. lia. }
        destruct (mt_inc _ _ _ Hm a (S a) _ _ ltac:(lia) Ha H2) as [_ Hj2]. simpl in Hj2.
        assert (Hin2 : Match i2 j2 x2 ∈ ms) by (apply list_elem_of_lookup; eauto).
        destruct (mt_cur _ _ _ Hm _ _ _ Hin2) as (v2 & Hc2 & Hel2).
        rewrite (findAnchor_next j j2 (ks_new ks) (newIndices ks) v2 x2 Hj2); auto.
        2:{ intros t H1 H3 Ht. apply (mt_new _ _ _ Hm) in Ht as (it & xt & Hint).
            apply (increasing_gap ms a _ _ t _ (mt_inc _ _ _ Hm) Ha H2 Hint); auto. }
        2:{ apply (mt_new _ _ _ Hm). eauto. }
        cbn [deref]. unfold bind at 1. unfold bind at 1. unfold bind at 1. cbn [ret].
        rewrite He. cbn [deref ret].
        assert (Hsplit : map m_node ms
                         = map m_node (take a ms) ++ x :: x2 :: map m_node (drop (S (S a)) ms)).
        { rewrite <- (take_drop a ms) at 1. rewrite map_app. f_equal.
          rewrite (drop_S ms (Match k j x) a Ha). cbn [map m_node]. f_equal.
          rewrite (drop_S ms (Match i2 j2 x2) (S a) H2). reflexivity. }
        rewrite (insertBefore_adjacent c x x2 (Dom hp lg) (map m_node (take a ms))
                   (map m_node (drop (S (S a)) ms))).
        -- cbn [heap log].
           destruct (IH (Z.of_nat (m_new e)) (lg ++ [OpInsertBefore c x x2])) as (l & E).
           { right. exists ms0, e. split; [exact Hms|]. split; [lia|reflexivity]. }
           exists (OpInsertBefore c x x2 :: l). rewrite E. now rewrite <- app_assoc.
        -- change (kids (Dom hp lg) c) with (kids (Dom hp []) c). now rewrite Hk.
        -- now rewrite <- Hsplit.
        -- intros q Hq. change (kids (Dom hp lg) q) with (kids (Dom hp []) q).
           apply Hp; [|exact Hq]. apply list_elem_of_fmap. exists (Match k j x).
           split; [reflexivity|]. apply list_elem_of_lookup. eauto.
    + apply IH. destruct Hph as [[-> Hall]|(ms0 & e & Hms & Hke & ->)].
      * left. split; [reflexivity|]. intros e He. specialize (Hall e He).
        destruct (decide (m_old e = k)) as [Hek|]; [|lia].
        exfalso. destruct e as [i j x]. simpl in Hek. subst i.
        assert (Hs : oldIndexToNewIndexMap ks !! k = Some j)
          by (apply (mt_o2n _ _ _ Hm); eauto).
        congruence.
      * right. exists ms0, e. split; [exact Hms|]. split; [lia|reflexivity].
Qed.

(** The footprint only depends on the nodes it holds. *)
Lemma footprint_agree st st' :
  forall v,
    (forall q, q ∈ footprint st v -> kids st' q = kids st q) ->
    footprint st' v = footprint st v.
Proof.
  induction v as [t p cs k oe IH] using vnode_nested_ind.
  intros Hk. destruct oe as [e|]; [|reflexivity].
  rewrite !footprint_eq in *. rewrite (Hk e) by left. f_equal.
  assert (Hk' : forall q, q ∈ children_footprint st (kids st e) cs -> kids st' q = kids st q).
  { intros q Hq. apply Hk. now right. }
  clear Hk. revert Hk'. generalize (kids st e).
  induction IH as [|c cs Hc _ IHcs]; intros ks Hk; [reflexivity|].
  destruct ks as [|x ks]; [reflexivity|]. cbn [children_footprint] in *.
  rewrite IHcs by (intros q Hq; apply Hk, elem_of_app; now right). f_equal.
  destruct c as [s|v]; [reflexivity|]. simpl. apply Hc.
  intros q Hq. apply Hk, elem_of_app. now left.
Qed.

(** The nodes of a mirrored tree exist. *)
Lemma footprint_exists st :
  forall v, mirrors st v -> forall q, q ∈ footprint st v -> q < length (heap st).
Proof.
  induction v as [t p cs k oe IH] using vnode_nested_ind.
  intros Hm q Hq.
  apply mirrors_eq in Hm as (e & a & ls & ks & -> & Hh & Ha & Hc).
  rewrite footprint_eq in Hq.
  assert (Hks : kids st e = ks) by (unfold kids; now rewrite Hh). rewrite Hks in Hq.
  apply elem_of_cons in Hq as [->|Hq]; [now apply lookup_lt_Some in Hh|].
  clear Hh Hks. revert IH Hq. induction Hc as [|x c ks cs Hxc _ IHc]; intros IH Hq.
  - inversion Hq.
  - apply Forall_cons in IH as [IH1 IH2]. cbn [children_footprint] in Hq.
    apply elem_of_app in Hq as [Hq|Hq]; [|now apply IHc].
    destruct c as [s|v]; simpl in *.
    + apply list_elem_of_singleton in Hq as ->. now apply lookup_lt_Some in Hxc.
    + destruct Hxc as [_ Hm]. now apply IH1.
Qed.

(** The nodes of a tree that holds only nodes from [m] on. *)
Lemma footprint_from m st :
  (forall q x, m <= q -> x ∈ kids st q -> m <= x) ->
  forall v e, el v = Some e -> m <= e -> mirrors st v ->
    forall q, q ∈ footprint st v -> m <= q.
Proof.
  intros Hab. induction v as [t p cs k oe IH] using vnode_nested_ind.
  intros e He Hme Hm q Hq. simpl in He. subst oe.
  apply mirrors_eq in Hm as (e' & a & ls & ks & [= <-] & Hh & Ha & Hc).
  rewrite footprint_eq in Hq.
  assert (Hks : kids st e = ks) by (unfold kids; now rewrite Hh). rewrite Hks in Hq.
  apply elem_of_cons in Hq as [->|Hq]; [exact Hme|].
  assert (Hk : forall x, x ∈ ks -> m <= x).
  { intros x Hx. apply (Hab e x Hme). now rewrite Hks. }
  clear Hh Hks. revert IH Hq Hk. induction Hc as [|x c ks cs Hxc _ IHc]; intros IH Hq Hk.
  - inversion Hq.
  - apply Forall_cons in IH as [IH1 IH2]. cbn [children_footprint] in Hq.
    apply elem_of_app in Hq as [Hq|Hq].
    + destruct c as [s|v]; simpl in *.
      * apply list_elem_of_singleton in Hq as ->. apply Hk. left.
      * destruct Hxc as [Hel Hm]. apply (IH1 x Hel); auto. apply Hk. left.
    + apply IHc; auto. intros y Hy. apply Hk. now right.
Qed.

Lemma good_frame c st st' v :
  good c st v ->
  (forall q, q < length (heap st) -> q <> c -> heap st' !! q = heap st !! q) ->
  length (heap st) <= length (heap st') ->
  good c st' v.
Proof.
  intros [Hm Hf] Hfr Hl.
  assert (Hag : forall q, q ∈ footprint st v -> heap st' !! q = heap st !! q).
  { intros q Hq. destruct (Hf q Hq). now apply Hfr. }
  split; [now apply (mirrors_frame st st')|].
  rewrite (footprint_agree st st') by (intros q Hq; unfold kids; now rewrite Hag).
  intros q Hq. destruct (Hf q Hq). split; [assumption|lia].
Qed.

Lemma good_child_frame c st st' els chs :
  (forall q, q < length (heap st) -> q <> c -> heap st' !! q = heap st !! q) ->
  length (heap st) <= length (heap st') ->
  Forall2 (good_child c st) els chs -> Forall2 (good_child c st') els chs.
Proof.
  intros Hfr Hl H. induction H as [|x ch els chs (v & -> & He & Hg) _ IH]; constructor; auto.
  exists v. split; [reflexivity|]. split; [exact He|]. now apply (good_frame c st st').
Qed.

Lemma good_child_mirrors c st els chs :
  Forall2 (good_child c st) els chs -> Forall2 (mirrors_child st) els chs.
Proof.
  intros H. induction H as [|x ch els chs (v & -> & He & Hg & _) _ IH]; constructor; auto.
  now split.
Qed.

Lemma increasing_tail e mr : increasing (e :: mr) -> increasing mr.
Proof.
  intros Hi a b e1 e2 Hab H1 H2. apply (Hi (S a) (S b) e1 e2); [lia|exact H1|exact H2].
Qed.

Lemma increasing_head e mr e' : increasing (e :: mr) -> e' ∈ mr -> m_new e < m_new e'.
Proof.
  intros Hi (b & Hb)%list_elem_of_lookup.
  apply (Hi 0 (S b) e e'); [lia|reflexivity|exact Hb].
Qed.

(** What the node made for a new key looks like once it is in place. *)
Lemma mount_between c st nv els a_rest :
  renderable nv = true ->
  wf st -> c < length (heap st) ->
  kids st c = els ++ a_rest ->
  NoDup (kids st c) ->
  forall anchor,
    anchor = head a_rest ->
    exists nv' st2,
      (forall B (k : child -> M B),
         (let* c' := mountChild (CNode nv) (Some c) in
          (match anchor with
           | Some a =>
               let* c0 := deref (Some c) in
               let* e := deref (match c' with CNode v => el v | CText _ => None end) in
               insertBefore c0 e a
           | None => ret tt
           end);; k c') st = k (CNode nv') st2) /\
      strip nv' = strip nv /\
      el nv' = Some (length (heap st)) /\
      kids st2 c = els ++ length (heap st) :: a_rest /\
      wf st2 /\
      length (heap st) < length (heap st2) /\
      (forall q, q < length (heap st) -> q <> c -> heap st2 !! q = heap st !! q) /\
      n_payload <$> heap st2 !! c = n_payload <$> heap st !! c /\
      (forall q x, length (heap st) <= q -> x ∈ kids st2 q -> length (heap st) < x) /\
      mirrors st2 nv'.
Proof.
  intros Hr Hwf Hc Hk Hnd anchor ->.
  destruct (mount_ok nv Hr c st) as (nv' & st1 & l & E & He & _ & F).
  destruct (F Hwf Hc) as (W1 & L1 & O1 & C1 & P1 & A1).
  pose proof (mount_binds_fresh nv (Some c) st nv' st1 E) as (Hs & _ & _).
  pose proof (mount_mirrors_all nv c st nv' st1 Hwf Hc E) as Hm1.
  set (y := length (heap st)) in *.
  assert (K1 : kids st1 c = kids st c ++ [y]).
  { unfold kids. rewrite C1. destruct (heap st !! c) as [nd|] eqn:En; [reflexivity|].
    apply lookup_ge_None in En. lia. }
  assert (Hy : y ∉ kids st c).
  { intros Hin. apply Hwf in Hin. unfold y in Hin. lia. }
  assert (Hyq : forall q, q <> c -> y ∉ kids st1 q).
  { intros q Hq Hin. destruct (Nat.lt_ge_cases q y) as [Hlt|Hge].
    - unfold kids in Hin. rewrite O1 in Hin by auto.
      apply (Hwf q) in Hin. unfold y in Hin. lia.
    - apply (A1 q y Hge) in Hin. lia. }
  assert (P1' : n_payload <$> heap st1 !! c = n_payload <$> heap st !! c).
  { rewrite C1. destruct (heap st !! c); reflexivity. }
  exists nv'. unfold mountChild.
  destruct a_rest as [|a l2]; cbn [head].
  - exists st1. rewrite app_nil_r in Hk.
    split.
    { intros B k. unfold bind at 1. unfold bind at 1. rewrite E. reflexivity. }
    repeat split; auto.
    rewrite K1, Hk. reflexivity.
  - destruct (insertBefore_last c y a st1 els l2) as (st2 & E2 & K2 & L2 & O2 & P2).
    { rewrite K1, Hk, <- app_assoc. reflexivity. }
    { replace (els ++ a :: l2 ++ [y]) with (kids st c ++ [y])
        by (rewrite Hk, <- app_assoc; reflexivity).
      apply NoDup_app. split; [exact Hnd|]. split; [|apply NoDup_singleton].
      intros x Hx ->%list_elem_of_singleton. contradiction. }
    { exact Hyq. }
    exists st2. split.
    { intros B k. unfold bind at 1. unfold bind at 1. rewrite E. cbn [ret].
      unfold bind at 1. cbn [deref ret]. unfold bind at 1. cbn [ret].
      unfold bind at 1. rewrite He. cbn [deref ret]. fold y. rewrite E2. reflexivity. }
    assert (Hkq : forall q, q <> c -> kids st2 q = kids st1 q).
    { intros q Hq. unfold kids. now rewrite O2. }
    repeat split; auto.
    + intros q x Hx. rewrite L2. destruct (decide (q = c)) as [->|Hq].
      * rewrite K2 in Hx. apply (W1 c). rewrite K1, Hk.
        apply elem_of_app in Hx as [Hx|Hx]; [apply elem_of_app; left; apply elem_of_app; now left|].
        apply elem_of_cons in Hx as [->|Hx]; [apply elem_of_app; right; left|].
        apply elem_of_app; left; apply elem_of_app; now right.
      * rewrite Hkq in Hx by auto. now apply (W1 q).
    + lia.
    + intros q Hq Hqc. rewrite O2 by auto. now apply O1.
    + now rewrite P2.
    + intros q x Hq Hx. assert (q <> c) by (unfold y in Hq; lia).
      rewrite Hkq in Hx by auto. now apply (A1 q x).
    + apply (mirrors_stable_from y st1 st2 W1) with (e := y); auto.
      * intros q x Hq Hx. apply (A1 q x Hq) in Hx. lia.
      * intros q Hq _. apply O2. unfold y in Hq. lia.
Qed.

(** Step 4 of [patchKeyedChildren] when the kept children stand in the
    order of the new list: every new key gets a node, put in front of the
    next kept child. *)
Lemma keyedInsert_in_order c nI : forall rest done mr els st,
  Forall (child_all (fun v => renderable v = true)) rest ->
  wf st -> c < length (heap st) ->
  kids st c = els ++ map m_node mr ->
  NoDup (kids st c) ->
  (forall x q, x ∈ kids st c -> q <> c -> x ∉ kids st q) ->
  Forall2 (good_child c st) els done ->
  increasing mr ->
  (forall e, e ∈ mr -> length done <= m_new e) ->
  (forall j, length done <= j -> j ∈ nI <-> exists e, e ∈ mr /\ m_new e = j) ->
  (forall e, e ∈ mr -> exists v,
     (done ++ rest) !! m_new e = Some (CNode v) /\ el v = Some (m_node e) /\ good c st v) ->
  (forall t ch, rest !! t = Some ch -> length done + t ∉ nI -> exists nv, ch = CNode nv) ->
  exists rest' st',
    keyedInsert (Some c) nI (done ++ rest) (seq (length done) (length rest)) st
      = (Ok (done ++ rest'), st') /\
    map strip_child rest' = map strip_child rest /\
    Forall2 (mirrors_child st') (kids st' c) (done ++ rest') /\
    wf st' /\
    length (heap st) <= length (heap st') /\
    (forall q, q < length (heap st) -> q <> c -> heap st' !! q = heap st !! q) /\
    n_payload <$> heap st' !! c = n_payload <$> heap st !! c /\
    (forall e, e ∈ mr -> exists v,
       (done ++ rest') !! m_new e = Some (CNode v) /\ el v = Some (m_node e)) /\
    (forall t ch, rest' !! t = Some ch -> length done + t ∉ nI ->
       exists v x, ch = CNode v /\ el v = Some x /\ length (heap st) <= x).
Proof.
  induction rest as [|ch rest IH];
    intros done mr els st Hren Hwf Hc Hk Hnd Hd3 Hgood Hinc Hge HnI Hmat Hunm.
  - assert (Hmr : mr = []).
    { destruct mr as [|e mr]; [reflexivity|]. exfalso.
      destruct (Hmat e ltac:(left)) as (v & Hl & _). apply lookup_lt_Some in Hl.
      rewrite app_nil_r in Hl. specialize (Hge e ltac:(left)). lia. }
    subst mr. exists [], st. cbn [length seq keyedInsert ret].
    rewrite app_nil_r in Hk. rewrite Hk, app_nil_r.
    repeat split; auto. { now apply (good_child_mirrors c). }
    { intros e He. inversion He. }
    intros t ch Ht. inversion Ht.
  - apply Forall_cons in Hren as [Hr1 Hren].
    set (j0 := length done) in *.
    assert (Hseq : seq j0 (length (ch :: rest)) = j0 :: seq (S j0) (length rest))
      by reflexivity.
    assert (Hlen : forall x : child, length (done ++ [x]) = S j0).
    { intros x. rewrite length_app. cbn [length]. fold j0. lia. }
    assert (Hcur : (done ++ ch :: rest) !! j0 = Some ch).
    { rewrite lookup_app_r by (unfold j0; lia). unfold j0. now rewrite Nat.sub_diag. }
    destruct (decide (j0 ∈ nI)) as [Hin|Hnin].
    + (* a kept child *)
      destruct (proj1 (HnI j0 (Nat.le_refl _)) Hin) as (e & He & Hej).
      destruct mr as [|e0 mr]; [inversion He|].
      assert (e = e0) as ->.
      { apply elem_of_cons in He as [->|He]; [reflexivity|].
        pose proof (increasing_head _ _ _ Hinc He). specialize (Hge e0 ltac:(left)). lia. }
      destruct (Hmat e0 ltac:(left)) as (v & Hl & Hel & Hg).
      rewrite Hej, Hcur in Hl. injection Hl as ->.
      destruct (IH (done ++ [CNode v]) mr (els ++ [m_node e0]) st) as
        (rest' & st' & E & Hs & Hm & W & L & O & P & R & N); auto.
      * rewrite <- app_assoc. exact Hk.
      * apply Forall2_app; [exact Hgood|]. constructor; [|constructor]. now exists v.
      * now apply increasing_tail in Hinc.
      * intros e' He'. rewrite length_app. cbn [length].
        pose proof (increasing_head _ _ _ Hinc He'). fold j0. lia.
      * intros j Hj. rewrite length_app in Hj. cbn [length] in Hj. fold j0 in Hj.
        rewrite HnI by (fold j0; lia). split.
        -- intros (e' & [->|He']%elem_of_cons & Hj'); [lia|]. now exists e'.
        -- intros (e' & He' & Hj'). exists e'. split; [now right|exact Hj'].
      * intros e' He'. rewrite <- app_assoc. apply Hmat. now right.
      * intros t ch' Ht Hnot. apply (Hunm (S t) ch' Ht).
        rewrite length_app in Hnot. cbn [length] in Hnot. fold j0 in Hnot.
        now replace (j0 + S t) with (j0 + 1 + t) by lia.
      * exists (CNode v :: rest'), st'. rewrite Hseq. cbn [keyedInsert].
        rewrite bool_decide_eq_true_2 by exact Hin.
        rewrite Hlen in E. rewrite <- !app_assoc in *. cbn [app] in *.
        split; [exact E|]. split; [cbn [map]; now rewrite Hs|].
        repeat split; auto.
        -- intros e' [->|He']%elem_of_cons; [|now apply R].
           exists v. split; [|exact Hel]. rewrite Hej.
           rewrite lookup_app_r by (unfold j0; lia). unfold j0. now rewrite Nat.sub_diag.
        -- intros [|t] ch' Ht Hnot.
           ++ rewrite Nat.add_0_r in Hnot. contradiction.
           ++ apply (N t ch' Ht). rewrite Hlen.
              now replace (S j0 + t) with (j0 + S t) by lia.
    + (* a new key *)
      destruct (Hunm 0 ch eq_refl) as (nv & ->).
      { now rewrite Nat.add_0_r. }
      assert (Hgt : forall e, e ∈ mr -> j0 < m_new e).
      { intros e He. specialize (Hge e He).
        destruct (decide (m_new e = j0)) as [Heq|Hne]; [|lia].
        exfalso. apply Hnin. apply HnI; [lia|]. now exists e. }
      assert (Hanchor : findAnchor j0 (done ++ CNode nv :: rest) nI = head (map m_node mr)).
      { destruct mr as [|e mr]; cbn [map head].
        - apply findAnchor_none. intros t Ht Hin.
          apply HnI in Hin as (e & He & _); [inversion He|fold j0; lia].
        - destruct (Hmat e ltac:(left)) as (v & Hl & Hel & _).
          apply (findAnchor_next j0 (m_new e) _ nI v); auto.
          + apply Hgt. left.
          + intros t Ht1 Ht2 Hin. apply HnI in Hin as (e' & He' & Hj'); [|fold j0; lia].
            apply elem_of_cons in He' as [->|He']; [lia|].
            pose proof (increasing_head _ _ _ Hinc He'). lia.
          + apply HnI; [fold j0; specialize (Hgt e ltac:(left)); lia|].
            exists e. split; [left|reflexivity]. }
      destruct (mount_between c st nv els (map m_node mr) Hr1 Hwf Hc Hk Hnd _ Hanchor)
        as (nv' & st2 & E & Hs & Hel & K2 & W2 & L2 & O2 & P2 & A2 & Hm2).
      set (y := length (heap st)) in *.
      assert (Hkq : forall q, q < y -> q <> c -> kids st2 q = kids st q).
      { intros q Hq Hqc. unfold kids. now rewrite O2. }
      assert (Hy : y ∉ kids st c).
      { intros Hin. apply Hwf in Hin. unfold y in Hin. lia. }
      destruct (IH (done ++ [CNode nv']) mr (els ++ [y]) st2) as
        (rest' & st' & E' & Hs' & Hm' & W' & L' & O' & P' & R' & N'); auto.
      * lia.
      * rewrite <- app_assoc. exact K2.
      * rewrite K2. rewrite Hk in Hnd, Hy.
        apply NoDup_app in Hnd as (N1 & N2 & N3).
        apply NoDup_app. split; [exact N1|]. split; [|apply NoDup_cons; split; [|exact N3]].
        -- intros x Hx [->|Hx']%elem_of_cons; [|now apply (N2 x)].
           apply Hy, elem_of_app. now left.
        -- intros Hin. apply Hy, elem_of_app. now right.
      * intros x q Hx Hq Hin.
        assert (Hx' : x = y \/ x ∈ kids st c).
        { rewrite K2 in Hx. rewrite Hk.
          apply elem_of_app in Hx as [Hx|[->|Hx]%elem_of_cons]; [right|now left|right];
            apply elem_of_app; [now left|now right]. }
        destruct (Nat.lt_ge_cases q y) as [Hlt|Hge'].
        -- rewrite Hkq in Hin by auto. destruct Hx' as [->|Hx'].
           ++ apply Hwf in Hin. unfold y in Hin. lia.
           ++ now apply (Hd3 x q).
        -- apply (A2 q x Hge') in Hin. destruct Hx' as [->|Hx']; [lia|].
           apply Hwf in Hx'. unfold y in Hx'. lia.
      * apply Forall2_app.
        -- apply (good_child_frame c st st2); auto. lia.
        -- constructor; [|constructor]. exists nv'. split; [reflexivity|]. split; [exact Hel|].
           split; [exact Hm2|]. intros q Hq. split.
           ++ assert (y <= q); [|unfold y in *; lia].
              apply (footprint_from y st2) with (v := nv') (e := y); auto.
              intros q' x Hq' Hx. apply (A2 q' x Hq') in Hx. lia.
           ++ now apply (footprint_exists st2 nv').
      * intros e He. rewrite length_app. cbn [length]. fold j0. specialize (Hgt e He). lia.
      * intros j Hj. rewrite length_app in Hj. cbn [length] in Hj. fold j0 in Hj.
        apply HnI. fold j0. lia.
      * intros e He. destruct (Hmat e He) as (v & Hl & Hev & Hg).
        exists v. split; [|split; [exact Hev|]].
        -- rewrite <- app_assoc. cbn [app].
           specialize (Hgt e He).
           rewrite lookup_app_r in Hl |- * by (fold j0; lia). fold j0 in Hl |- *.
           destruct (m_new e - j0) as [|d] eqn:Ed; [lia|]. exact Hl.
        -- apply (good_frame c st st2); auto. fold y. lia.
      * intros t ch' Ht Hnot. apply (Hunm (S t) ch' Ht).
        rewrite length_app in Hnot. cbn [length] in Hnot. fold j0 in Hnot.
        now replace (j0 + S t) with (j0 + 1 + t) by lia.
      * exists (CNode nv' :: rest'), st'. rewrite Hseq. cbn [keyedInsert].
        rewrite bool_decide_eq_false_2 by exact Hnin.
        rewrite Hcur. cbn zeta. rewrite E.
        replace (<[j0 := CNode nv']> (done ++ CNode nv :: rest))
          with ((done ++ [CNode nv']) ++ rest).
        2:{ rewrite insert_app_r_alt by (unfold j0; lia). unfold j0.
            rewrite Nat.sub_diag, <- app_assoc. reflexivity. }
        rewrite Hlen in E'. rewrite <- !app_assoc in *. cbn [app] in *.
        split; [exact E'|]. split; [cbn [map strip_child]; now rewrite Hs, Hs'|].
        repeat split; auto.
        -- fold y. lia.
        -- intros q Hq Hqc. rewrite O' by (auto; fold y in Hq; lia). now apply O2.
        -- now rewrite P'.
        -- intros [|t] ch' Ht Hnot.
           ++ injection Ht as <-. exists nv', y. repeat split; auto.
           ++ destruct (N' t ch' Ht) as (v & x & -> & Hv & Hx).
              { rewrite Hlen. now replace (S j0 + t) with (j0 + S t) by lia. }
              exists v, x. repeat split; auto. fold y. lia.
Qed.

Lemma strict_eq_false a b : a <> b -> strict_eq a b = false.
Proof. intros H. unfold strict_eq. now apply bool_decide_eq_false_2. Qed.

Lemma strip_insert_same cur j nv nv' :
  cur !! j = Some (CNode nv) -> strip nv' = strip nv ->
  map strip_child (<[j := CNode nv']> cur) = map strip_child cur.
Proof.
  intros Hl Hs. change (map strip_child) with (fmap (M := list) strip_child).
  rewrite list_fmap_insert. apply list_insert_id.
  rewrite list_lookup_fmap, Hl. simpl. now rewrite Hs.
Qed.

Section KeyedMatch.

Variables (c : nat) (ovs nvs : list vnode) (st0 : dom).

Hypothesis Hko : forall ov, ov ∈ ovs -> key ov <> VUndef.

Hypothesis Hkn : forall nv, nv ∈ nvs -> key nv <> VUndef.

Hypothesis Hndo : NoDup (map key ovs).

Hypothesis Hndn : NoDup (map key nvs).

Hypothesis Hoo : forall ov, ov ∈ ovs -> ordinary ov = true.

Hypothesis Hon : forall nv, nv ∈ nvs -> ordinary nv = true.

Hypothesis Hshape : forall ov nv, ov ∈ ovs -> nv ∈ nvs -> key ov = key nv ->
  same_shape ov nv = true /\ unkeyed nv = true.

Hypothesis Horder : forall i1 i2 j1 j2 o1 o2 n1 n2,
  ovs !! i1 = Some o1 -> ovs !! i2 = Some o2 ->
  nvs !! j1 = Some n1 -> nvs !! j2 = Some n2 ->
  key o1 = key n1 -> key o2 = key n2 -> i1 < i2 -> j1 < j2.

Lemma keyedMatch_in_order : forall post pre kpost V ks ms st,
  ovs = pre ++ post ->
  Forall2 (mirrors_child st0) kpost (map CNode post) ->
  NoDup (V ++ children_footprint st0 kpost (map CNode post)) ->
  c ∉ V ++ children_footprint st0 kpost (map CNode post) ->
  matching c ovs nvs st0 (length pre) V kpost ks ms st ->
  exists ks' ms' st',
    keyedMatch patch (Some c) (keyToNewIndexMap (map CNode nvs) 0 ∅)
               (map CNode post) (length pre) ks st = (Ok ks', st') /\
    matching c ovs nvs st0 (length ovs)
             (V ++ children_footprint st0 kpost (map CNode post)) [] ks' ms' st'.
Proof.
  induction post as [|ov post IH]; intros pre kpost V ks ms st Hsplit Hm Hnd Hc Hinv.
  - apply Forall2_nil_inv_r in Hm as ->. cbn [map children_footprint keyedMatch ret].
    rewrite app_nil_r in *. replace (length ovs) with (length pre) by (now rewrite Hsplit).
    exists ks, ms, st. split; [reflexivity|exact Hinv].
  - apply Forall2_cons_inv_r in Hm as (x & kpost' & [Hel Hmo] & Hm & ->).
    cbn [map children_footprint child_footprint] in *.
    set (F := footprint st0 ov) in *. set (i := length pre) in *.
    assert (Hi : ovs !! i = Some ov).
    { rewrite Hsplit, lookup_app_r by (unfold i; lia). unfold i. now rewrite Nat.sub_diag. }
    assert (Hov : ov ∈ ovs) by (now apply list_elem_of_lookup_2 in Hi).
    assert (HFV : forall q, q ∈ F -> (q ∉ V) /\ q <> c).
    { intros q Hq. split.
      - intros Hin. apply NoDup_app in Hnd as (_ & Hnd & _). apply (Hnd q Hin).
        apply elem_of_app. now left.
      - intros ->. apply Hc. apply elem_of_app. right. apply elem_of_app. now left. }
    assert (HcV : c ∉ V).
    { intros Hin. apply Hc, elem_of_app. now left. }
    assert (HndF : NoDup F).
    { apply NoDup_app in Hnd as (_ & _ & Hnd). now apply NoDup_app in Hnd as (Hnd & _). }
    destruct Hinv as [Ilen Ikc Ind Ik Ipay Ifr Iinc Ilt Io2n InI Ipair Iall Icur Istrip].
    assert (Hag : forall q, q ∈ F -> heap st !! q = heap st0 !! q).
    { intros q Hq. destruct (HFV q Hq). now apply Ifr. }
    assert (Hmir : mirrors st ov) by (now apply (mirrors_frame st0 st)).
    assert (Hfp : footprint st ov = F).
    { apply (footprint_agree st0 st). intros q Hq. unfold kids. now rewrite Hag. }
    assert (Hlen : length (pre ++ [ov]) = S i).
    { rewrite length_app. cbn [length]. fold i. lia. }
    assert (Hsplit' : ovs = (pre ++ [ov]) ++ post) by (now rewrite <- app_assoc).
    assert (Hnd' : NoDup ((V ++ F) ++ children_footprint st0 kpost' (map CNode post)))
      by (now rewrite <- app_assoc).
    assert (Hc' : c ∉ (V ++ F) ++ children_footprint st0 kpost' (map CNode post))
      by (now rewrite <- app_assoc).
    cbn [keyedMatch]. unfold keyedVisit.
    rewrite strict_eq_false by (now apply Hko).
    destruct (keyToNewIndexMap (map CNode nvs) 0 ∅ !! key ov) as [j|] eqn:Ek.
    + (* the key is kept *)
      apply (k2n_spec nvs (key ov) j Hkn Hndn) in Ek as (nv & Hj & Hkey).
      assert (Hnv : nv ∈ nvs) by (now apply list_elem_of_lookup_2 in Hj).
      assert (HjnI : j ∉ newIndices ks).
      { intros (i' & x' & Hin)%InI.
        destruct (Ipair i' j x' Hin) as (ov' & nv' & _ & Hi' & Hj' & Hk' & _).
        rewrite Hj in Hj'. injection Hj' as <-.
        assert (i' = i).
        { apply (NoDup_lookup (map key ovs) i' i (key ov)); auto.
          - rewrite list_lookup_fmap, Hi'. simpl. congruence.
          - now rewrite list_lookup_fmap, Hi. }
        specialize (Ilt _ Hin). simpl in Ilt. lia. }
      assert (Hcur : ks_new ks !! j = Some (CNode nv)).
      { rewrite Icur by exact HjnI. now rewrite list_lookup_fmap, Hj. }
      rewrite Hcur.
      destruct (Hshape ov nv Hov Hnv (eq_sym Hkey)) as [Hsh Hun].
      destruct (patch_in_place_all ov nv st (Hoo ov Hov) (Hon nv Hnv) Hsh Hun Hmir) as
        (nv' & st1 & E & Hs & Hel' & Hm1 & K1 & L1 & O1 & F1).
      { now rewrite Hfp. }
      rewrite Hfp in O1, F1.
      rewrite (bind_Ok _ _ _ _ _ (bind_Ok _ _ _ _ _ E)). cbn [ret].
      destruct (IH (pre ++ [ov]) kpost' (V ++ F)
                  (Keyed (<[i := j]> (oldIndexToNewIndexMap ks)) ({[j]} ∪ newIndices ks)
                         (<[j := CNode nv']> (ks_new ks)))
                  (ms ++ [Match i j x]) st1 Hsplit' Hm Hnd' Hc') as (ks' & ms' & st' & E' & Hinv').
      { rewrite Hlen. constructor; cbn [oldIndexToNewIndexMap newIndices ks_new].
        - congruence.
        - rewrite K1, Ikc, map_app, <- app_assoc. reflexivity.
        - now rewrite K1.
        - intros q Hq. rewrite K1. now apply Ik.
        - rewrite O1; [exact Ipay|]. intros Hin. now destruct (HFV c Hin).
        - intros q Hq Hn. rewrite O1.
          + apply Ifr; auto. intros Hin. apply Hn, elem_of_app. now left.
          + intros Hin. apply Hn, elem_of_app. now right.
        - intros a b e1 e2 Hab H1 H2.
          destruct (decide (b < length ms)) as [Hb|Hb].
          + rewrite lookup_app_l in H1, H2 by lia. now apply (Iinc a b).
          + assert (Hb' : b = length ms).
            { apply lookup_lt_Some in H2. rewrite length_app in H2. simpl in H2. lia. }
            subst b. rewrite lookup_app_l in H1 by lia.
            rewrite lookup_app_r, Nat.sub_diag in H2 by lia. injection H2 as <-.
            apply list_elem_of_lookup_2 in H1. pose proof (Ilt _ H1) as Hlt.
            destruct e1 as [i1 j1 x1]. simpl in *. split; [exact Hlt|].
            destruct (Ipair i1 j1 x1 H1) as (o1 & n1 & _ & Ho1 & Hn1 & Hk1 & _).
            apply (Horder i1 i j1 j o1 ov n1 nv); auto.
        - intros e [He|He%list_elem_of_singleton]%elem_of_app; [|subst e; simpl; lia].
          specialize (Ilt e He). lia.
        - intros i' j'. destruct (decide (i' = i)) as [->|Hne].
          + rewrite lookup_insert_eq. split.
            * intros [= <-]. exists x. apply elem_of_app. right. left.
            * intros (x' & [Hin|Hin%list_elem_of_singleton]%elem_of_app).
              -- specialize (Ilt _ Hin). simpl in Ilt. lia.
              -- congruence.
          + rewrite lookup_insert_ne by auto. rewrite Io2n. split.
            * intros (x' & Hin). exists x'. apply elem_of_app. now left.
            * intros (x' & [Hin|Hin%list_elem_of_singleton]%elem_of_app); [now exists x'|].
              congruence.
        - intros j'. rewrite elem_of_union, elem_of_singleton, InI. split.
          + intros [->|(i' & x' & Hin)].
            * exists i, x. apply elem_of_app. right. left.
            * exists i', x'. apply elem_of_app. now left.
          + intros (i' & x' & [Hin|Hin%list_elem_of_singleton]%elem_of_app).
            * right. now exists i', x'.
            * left. congruence.
        - intros i' j' x' [Hin|Hin%list_elem_of_singleton]%elem_of_app.
          + destruct (Ipair i' j' x' Hin) as (o1 & n1 & v1 & Ho1 & Hn1 & Hk1 & He1 & Hc1 & Hev1 & Hm1' & Hf1).
            assert (Hjj : j' <> j).
            { intros ->. apply HjnI, InI. now exists i', x'. }
            exists o1, n1, v1. repeat split; auto.
            * now rewrite list_lookup_insert_ne by auto.
            * apply (mirrors_frame st st1); [|exact Hm1'].
              intros q Hq. apply O1. intros HqF. destruct (HFV q HqF) as [Hn _].
              apply Hn. now apply Hf1.
            * intros q Hq. rewrite (footprint_kids st st1) in Hq by exact K1.
              apply elem_of_app. left. now apply Hf1.
          + injection Hin as E1 E2 E3. subst i' j' x'.
            exists ov, nv, nv'. repeat split; auto.
            * rewrite list_lookup_insert_eq; [reflexivity|]. now apply lookup_lt_Some in Hcur.
            * congruence.
            * intros q Hq. rewrite F1 in Hq. apply elem_of_app. now right.
        - intros i' j' o1 n1 Hlt Ho1 Hn1 Hk1. destruct (decide (i' = i)) as [->|Hne].
          + rewrite Hi in Ho1. injection Ho1 as <-.
            assert (j' = j).
            { apply (NoDup_lookup (map key nvs) j' j (key ov)); auto.
              - rewrite list_lookup_fmap, Hn1. simpl. congruence.
              - rewrite list_lookup_fmap, Hj. simpl. congruence. }
            subst j'. exists x. apply elem_of_app. right. left.
          + destruct (Iall i' j' o1 n1) as (x' & Hin); auto; [lia|].
            exists x'. apply elem_of_app. now left.
        - intros j' Hj'. rewrite list_lookup_insert_ne.
          + apply Icur. intros Hin. apply Hj', elem_of_union. now right.
          + intros <-. apply Hj', elem_of_union. left. now apply elem_of_singleton.
        - rewrite (strip_insert_same _ j nv nv'); auto. }
      exists ks', ms', st'. rewrite Hlen in E'. split; [exact E'|].
      now rewrite <- app_assoc in Hinv'.
    + (* the key is gone *)
      assert (Hx : x ∈ kids st c).
      { rewrite Ikc. apply elem_of_app. right. left. }
      cbn [deref]. rewrite Hel. cbn [deref].
      set (st1 := Dom (alter (set_kids (filter (fun y => y <> x))) c (heap st))
                      (log st ++ [OpRemoveChild c x])).
      assert (Ev : (let* c0 := ret c in let* e := ret x in removeChild c0 e;; ret ks) st
                   = (Ok ks, st1)).
      { unfold bind, ret. now rewrite (removeChild_run c x st Hx). }
      rewrite (bind_Ok _ _ _ _ _ Ev).
      assert (Hcl : c < length (heap st)) by (now apply (kids_lt st c x)).
      assert (K1c : kids st1 c = map m_node ms ++ kpost').
      { unfold st1. rewrite kids_alter_kids, decide_True by reflexivity.
        rewrite decide_True by exact Hcl.
        change (kids (Dom (heap st) _) c) with (kids st c).
        rewrite Ikc. apply filter_ne_middle. now rewrite <- Ikc. }
      assert (O1 : forall q, q <> c -> heap st1 !! q = heap st !! q).
      { intros q Hq. unfold st1. simpl. now rewrite list_lookup_alter_ne by auto. }
      destruct (IH (pre ++ [ov]) kpost' (V ++ F) ks ms st1 Hsplit' Hm Hnd' Hc')
        as (ks' & ms' & st' & E' & Hinv').
      { rewrite Hlen. constructor; auto.
        - unfold st1. simpl. rewrite length_alter. exact Ilen.
        - rewrite K1c. rewrite Ikc in Ind. apply NoDup_app in Ind as (N1 & N2 & N3).
          apply NoDup_cons in N3 as [_ N3]. apply NoDup_app. repeat split; auto.
          intros y Hy Hin. apply (N2 y Hy). now right.
        - intros q Hq. unfold kids. rewrite O1 by auto. now apply Ik.
        - unfold st1. simpl. rewrite list_lookup_alter_eq, <- Ipay.
          destruct (heap st !! c); reflexivity.
        - intros q Hq Hn. rewrite O1 by auto. apply Ifr; auto.
          intros Hin. apply Hn, elem_of_app. now left.
        - intros e He. specialize (Ilt e He). lia.
        - intros i' j' x' Hin.
          destruct (Ipair i' j' x' Hin) as (o1 & n1 & v1 & Ho1 & Hn1 & Hk1 & He1 & Hc1 & Hev1 & Hm1' & Hf1).
          assert (Hcf : c ∉ footprint st v1) by (intros Hq; apply HcV; now apply Hf1).
          exists o1, n1, v1. repeat split; auto.
          + apply (mirrors_frame st st1); [|exact Hm1'].
            intros q Hq. apply O1. intros ->. contradiction.
          + intros q Hq. apply elem_of_app. left. apply Hf1.
            rewrite <- (footprint_agree st st1); [exact Hq|].
            intros q' Hq'. unfold kids. rewrite O1; [reflexivity|]. intros ->. contradiction.
        - intros i' j' o1 n1 Hlt Ho1 Hn1 Hk1. destruct (decide (i' = i)) as [->|Hne].
          + exfalso. rewrite Hi in Ho1. injection Ho1 as <-.
            assert (Hsome : keyToNewIndexMap (map CNode nvs) 0 ∅ !! key ov = Some j').
            { apply (k2n_spec nvs (key ov) j' Hkn Hndn). exists n1. split; congruence. }
            congruence.
          + apply (Iall i' j' o1 n1); auto. lia. }
      exists ks', ms', st'. rewrite Hlen in E'. split; [exact E'|].
      now rewrite <- app_assoc in Hinv'.
Qed.

End KeyedMatch.

Lemma child_in_footprint st x ch : mirrors_child st x ch -> x ∈ child_footprint st x ch.
Proof.
  destruct ch as [s|[t p cs k oe]]; simpl.
  - intros _. left.
  - intros [-> _]. left.
Qed.

Lemma kids_in_footprint st ks cs :
  Forall2 (mirrors_child st) ks cs ->
  forall y, y ∈ ks -> y ∈ children_footprint st ks cs.
Proof.
  induction 1 as [|x ch ks cs Hx _ IH]; intros y Hy; [inversion Hy|].
  cbn [children_footprint]. apply elem_of_app.
  apply elem_of_cons in Hy as [->|Hy]; [left; now apply child_in_footprint|right; auto].
Qed.

Lemma kids_nodup st ks cs :
  Forall2 (mirrors_child st) ks cs ->
  NoDup (children_footprint st ks cs) -> NoDup ks.
Proof.
  induction 1 as [|x ch ks cs Hx Hr IH]; intros Hnd; [constructor|].
  cbn [children_footprint] in Hnd. apply NoDup_app in Hnd as (_ & H2 & H3).
  constructor; [|auto].
  intros Hin. apply (H2 x); [now apply child_in_footprint|].
  now apply (kids_in_footprint st ks cs).
Qed.

Lemma children_footprint_exists st ks cs :
  Forall2 (mirrors_child st) ks cs ->
  forall q, q ∈ children_footprint st ks cs -> q < length (heap st).
Proof.
  induction 1 as [|x ch ks cs Hx _ IH]; intros q Hq; [inversion Hq|].
  cbn [children_footprint] in Hq. apply elem_of_app in Hq as [Hq|Hq]; [|auto].
  destruct ch as [s|v]; simpl in *.
  - apply list_elem_of_singleton in Hq as ->. now apply lookup_lt_Some in Hx.
  - destruct Hx as [_ Hm]. now apply (footprint_exists st v).
Qed.

(** [patchKeyedChildren] when the kept keys stand in the same order in
    both lists. *)
Lemma patchKeyedChildren_in_order (ovs nvs : list vnode) (c : nat) (st : dom) :
  (forall ov, ov ∈ ovs -> key ov <> VUndef) ->
  (forall nv, nv ∈ nvs -> key nv <> VUndef) ->
  NoDup (map key ovs) ->
  NoDup (map key nvs) ->
  (forall ov, ov ∈ ovs -> ordinary ov = true) ->
  (forall nv, nv ∈ nvs -> ordinary nv = true) ->
  (forall ov nv, ov ∈ ovs -> nv ∈ nvs -> key ov = key nv ->
     same_shape ov nv = true /\ unkeyed nv = true) ->
  (forall i1 i2 j1 j2 o1 o2 n1 n2,
     ovs !! i1 = Some o1 -> ovs !! i2 = Some o2 ->
     nvs !! j1 = Some n1 -> nvs !! j2 = Some n2 ->
     key o1 = key n1 -> key o2 = key n2 -> i1 < i2 -> j1 < j2) ->
  wf st ->
  c < length (heap st) ->
  Forall2 (mirrors_child st) (kids st c) (map CNode ovs) ->
  NoDup (children_footprint st (kids st c) (map CNode ovs)) ->
  c ∉ children_footprint st (kids st c) (map CNode ovs) ->
  (forall x q, x ∈ kids st c -> q <> c -> x ∉ kids st q) ->
  exists news' st',
    patchKeyedChildren patch (map CNode ovs) (map CNode nvs) (Some c) st = (Ok news', st') /\
    map strip_child news' = map strip_child (map CNode nvs) /\
    Forall2 (mirrors_child st') (kids st' c) news' /\
    (forall i j ov nv, ovs !! i = Some ov -> nvs !! j = Some nv -> key ov = key nv ->
       exists nv', news' !! j = Some (CNode nv') /\ el nv' = el ov) /\
    (forall j nv, nvs !! j = Some nv -> (forall ov, ov ∈ ovs -> key ov <> key nv) ->
       exists nv' x, news' !! j = Some (CNode nv') /\ el nv' = Some x /\
                     length (heap st) <= x) /\
    wf st' /\
    length (heap st) <= length (heap st') /\
    n_payload <$> heap st' !! c = n_payload <$> heap st !! c /\
    (forall q, q < length (heap st) -> q <> c ->
       q ∉ children_footprint st (kids st c) (map CNode ovs) ->
       heap st' !! q = heap st !! q).
Proof.
  intros Hko Hkn Hndo Hndn Hoo Hon Hshape Horder Hwf Hc Hm Hnd HcV Hd3.
  set (V := children_footprint st (kids st c) (map CNode ovs)) in *.
  destruct (keyedMatch_in_order c ovs nvs st Hko Hkn Hndo Hndn Hoo Hon Hshape Horder
              ovs [] (kids st c) [] (Keyed ∅ ∅ (map CNode nvs)) [] st eq_refl Hm Hnd HcV)
    as (ks & ms & st2 & E2 & Hinv).
  { constructor; cbn [oldIndexToNewIndexMap newIndices ks_new length map app]; auto.
    - now apply (kids_nodup st _ (map CNode ovs)).
    - intros a b e1 e2 _ H1. inversion H1.
    - intros e He. inversion He.
    - intros i' j. rewrite lookup_empty. split; [discriminate|].
      intros (x & Hx). inversion Hx.
    - intros j. split; [intros Hj; now apply not_elem_of_empty in Hj|].
      intros (i' & x & Hx). inversion Hx.
    - intros i' j x Hx. inversion Hx.
    - intros i' j ov nv Hlt. lia. }
  cbn [app] in Hinv. fold V in Hinv.
  destruct Hinv as [Ilen Ikc Ind Ik Ipay Ifr Iinc Ilt Io2n InI Ipair Iall Icur Istrip].
  rewrite app_nil_r in Ikc.
  assert (Hms : forall e, e ∈ ms -> m_node e ∈ kids st c).
  { intros [i' j x] He. destruct (Ipair i' j x He) as (ov & _ & _ & Ho & _ & _ & Hel & _).
    assert (Hl : map CNode ovs !! i' = Some (CNode ov)) by (now rewrite list_lookup_fmap, Ho).
    destruct (Forall2_lookup_r _ _ _ _ _ Hm Hl) as (x' & Hx' & [Hel' _]).
    simpl. apply list_elem_of_lookup_2 in Hx'. congruence. }
  assert (Hsub : forall x, x ∈ kids st2 c -> x ∈ kids st c).
  { intros x. rewrite Ikc. intros (e & -> & He)%list_elem_of_fmap. now apply Hms. }
  assert (Hd32 : forall x q, x ∈ kids st2 c -> q <> c -> x ∉ kids st2 q).
  { intros x q Hx Hq. rewrite Ik by auto. apply Hd3; auto. }
  assert (Hwf2 : wf st2).
  { intros q x Hx. rewrite Ilen. destruct (decide (q = c)) as [->|Hq].
    - apply (Hwf c). now apply Hsub.
    - rewrite Ik in Hx by auto. now apply (Hwf q). }
  assert (Hlen : length (ks_new ks) = length nvs).
  { apply (f_equal length) in Istrip. now rewrite !length_map in Istrip. }
  (* step 3 *)
  destruct (keyedMove_in_order c (map CNode ovs) ks ms (heap st2)) with
    (k := length (map CNode ovs)) (last := (-1)%Z) (lg := log st2) as (l & E3).
  { constructor; auto.
    - intros i' j x He. destruct (Ipair i' j x He) as (_ & _ & v' & _ & _ & _ & _ & Hv & Hev & _).
      now exists v'.
    - intros i' j x He. destruct (Ipair i' j x He) as (ov & _ & _ & Ho & _ & _ & Hel & _).
      exists ov. split; [|exact Hel]. now rewrite list_lookup_fmap, Ho. }
  { exact Ikc. }
  { now rewrite <- Ikc. }
  { intros x q Hx. rewrite <- Ikc in Hx. now apply Hd32. }
  { left. split; [reflexivity|]. rewrite length_map. exact Ilt. }
  set (st3 := Dom (heap st2) (log st2 ++ l)) in *.
  assert (Hst2 : st2 = Dom (heap st2) (log st2)) by (now destruct st2).
  rewrite <- Hst2 in E3.
  (* step 4 *)
  assert (Hren : Forall (child_all (fun v => renderable v = true)) (ks_new ks)).
  { apply (children_strip renderable renderable_strip _ _ Istrip).
    apply Forall_forall. intros ch (nv & -> & Hnv)%list_elem_of_fmap.
    simpl. apply ordinary_renderable. now apply Hon. }
  destruct (keyedInsert_in_order c (newIndices ks) (ks_new ks) [] ms [] st3)
    as (news' & st' & E4 & Hs4 & Hm4 & W4 & L4 & O4 & P4 & R4 & N4); auto.
  { simpl. lia. }
  { intros e _. simpl. lia. }
  { intros j _. rewrite InI. split.
    - intros (i' & x & He). now exists (Match i' j x).
    - intros ([i' j' x] & He & Hj). simpl in Hj. subst j'. now exists i', x. }
  { intros [i' j x] He.
    destruct (Ipair i' j x He) as (_ & _ & v' & _ & _ & _ & _ & Hv & Hev & Hmv & Hfv).
    exists v'. cbn [app m_new m_node]. split; [exact Hv|]. split; [exact Hev|].
    assert (Hg : good c st2 v').
    { split; [exact Hmv|]. intros q Hq. split.
      - intros ->. apply HcV. now apply Hfv.
      - now apply (footprint_exists st2 v'). }
    apply (good_frame c st2 st3); auto. }
  { intros t ch Hl Hn. simpl in Hn. rewrite Icur in Hl by exact Hn.
    rewrite list_lookup_fmap in Hl. destruct (nvs !! t) as [nv|]; [|discriminate].
    exists nv. now injection Hl. }
  cbn [app length] in *.
  exists news', st'. split.
  { unfold patchKeyedChildren. rewrite (bind_Ok _ _ _ _ _ E2).
    rewrite (bind_Ok _ _ _ _ _ E3). rewrite length_map, <- Hlen. exact E4. }
  split; [now rewrite Hs4|]. split; [exact Hm4|]. split.
  { intros i j ov nv Ho Hn Hk.
    destruct (Iall i j ov nv) as (x & He); auto.
    { now apply lookup_lt_Some in Ho. }
    destruct (R4 _ He) as (v & Hv & Hev). cbn [m_new m_node] in *.
    destruct (Ipair i j x He) as (ov' & _ & _ & Ho' & _ & _ & Hel & _).
    exists v. split; [exact Hv|]. congruence. }
  split.
  { intros j nv Hn Hno.
    assert (Hlt : j < length news').
    { apply (f_equal length) in Hs4. rewrite !length_map in Hs4.
      apply lookup_lt_Some in Hn. lia. }
    destruct (lookup_lt_is_Some_2 news' j Hlt) as (ch & Hch).
    destruct (N4 j ch Hch) as (v & x & -> & Hv & Hx).
    { simpl. intros (i' & x & He)%InI.
      destruct (Ipair i' j x He) as (ov & nv0 & _ & Ho & Hn0 & Hk & _).
      rewrite Hn in Hn0. injection Hn0 as <-.
      apply (Hno ov); [now apply list_elem_of_lookup_2 in Ho|exact Hk]. }
    exists v, x. repeat split; auto. simpl in Hx. lia. }
  split; [exact W4|]. split; [simpl in L4; lia|]. split; [now rewrite P4|].
  intros q Hq Hqc HqV. rewrite O4 by (simpl; auto; lia). simpl. now apply Ifr.
Qed.

Lemma hasKeyed_all nvs :
  nvs <> [] -> (forall nv, nv ∈ nvs -> key nv <> VUndef) ->
  hasKeyedChildren (map CNode nvs) = true.
Proof.
  destruct nvs as [|nv nvs]; [congruence|]. intros _ Hk.
  unfold hasKeyedChildren. cbn [map existsb is_keyed].
  rewrite strict_eq_false by (apply Hk; left). reflexivity.
Qed.

(** X1. Keyed children whose kept keys stand in the same order in the
    old and in the new list.  The two trees are ordinary (the backend
    accepts their tags and properties, and no property is named like a
    property of [Object.prototype]), every child of both lists is a
    descriptor with a key, no key occurs twice in a list, a kept key faces a
    descriptor of the same structure without keyed children of its own,
    the document mirrors the old tree without sharing a node, and the
    children of its element have no other parent.  Then [patch] returns
    the new descriptor bound and the document mirrors the new tree: the
    children of the element are, in the order of the new list, the nodes
    of the kept keys, which are the ones they had, and a node created by
    the call for every new key; the nodes of the keys that are gone have
    left the element, and no node outside the old tree changed. *)
Theorem kept_keys_keep_their_nodes (old new : vnode) (ovs nvs : list vnode)
    (e : nat) (st : dom) :
  ordinary old = true ->
  ordinary new = true ->
  tag old = tag new ->
  children old = map CNode ovs ->
  children new = map CNode nvs ->
  nvs <> [] ->
  (forall ov, ov ∈ ovs -> key ov <> VUndef) ->
  (forall nv, nv ∈ nvs -> key nv <> VUndef) ->
  NoDup (map key ovs) ->
  NoDup (map key nvs) ->
  (forall ov nv, ov ∈ ovs -> nv ∈ nvs -> key ov = key nv ->
     same_shape ov nv = true /\ unkeyed nv = true) ->
  (forall i1 i2 j1 j2 o1 o2 n1 n2,
     ovs !! i1 = Some o1 -> ovs !! i2 = Some o2 ->
     nvs !! j1 = Some n1 -> nvs !! j2 = Some n2 ->
     key o1 = key n1 -> key o2 = key n2 -> i1 < i2 -> j1 < j2) ->
  wf st ->
  el old = Some e ->
  mirrors st old ->
  NoDup (footprint st old) ->
  (forall x q, x ∈ kids st e -> q <> e -> x ∉ kids st q) ->
  exists new' st',
    patch old new st = (Ok new', st') /\
    strip new' = strip new /\
    el new' = Some e /\
    mirrors st' new' /\
    (forall i j ov nv, ovs !! i = Some ov -> nvs !! j = Some nv -> key ov = key nv ->
       exists nv', children new' !! j = Some (CNode nv') /\ el nv' = el ov) /\
    (forall j nv, nvs !! j = Some nv -> (forall ov, ov ∈ ovs -> key ov <> key nv) ->
       exists nv' x, children new' !! j = Some (CNode nv') /\ el nv' = Some x /\
                     length (heap st) <= x) /\
    (forall q, q < length (heap st) -> q ∉ footprint st old ->
       heap st' !! q = heap st !! q).
Proof.
  intros Hoo Hon Ht Hco Hcn Hne Hko Hkn Hndo Hndn Hshape Horder Hwf He Hm Hnd Hd3.
  destruct old as [t p cs k oe], new as [t' p' cs' k' e'].
  cbn [tag children el] in Ht, Hco, Hcn, He. subst t' cs cs' oe.
  apply ordinary_eq in Hoo as (_ & Hao & Hpo & Hoo).
  apply ordinary_eq in Hon as (_ & Han & Hpn & Hon).
  assert (Hoo' : forall ov, ov ∈ ovs -> ordinary ov = true).
  { intros ov Hov. rewrite Forall_forall in Hoo.
    apply (Hoo (CNode ov)). apply list_elem_of_fmap. eauto. }
  assert (Hon' : forall nv, nv ∈ nvs -> ordinary nv = true).
  { intros nv Hnv. rewrite Forall_forall in Hon.
    apply (Hon (CNode nv)). apply list_elem_of_fmap. eauto. }
  apply mirrors_eq in Hm as (e0 & a & ls & ks & [= <-] & Hh & Ha & Hc).
  rewrite footprint_eq in Hnd |- *.
  assert (Hks : kids st e = ks) by (unfold kids; now rewrite Hh).
  rewrite Hks in *. apply NoDup_cons in Hnd as [HeV Hnd].
  assert (Hel : e < length (heap st)) by (now apply lookup_lt_Some in Hh).
  destruct (patchProps_run e p p' st t a ls ks Hao Han Hpo Hpn Hh Ha)
    as (st1 & a' & ls' & E1 & H1 & Ha').
  assert (K1 : forall q, kids st1 q = kids st q).
  { intros q. destruct st1 as [hp1 lg1]. simpl in H1. subst hp1.
    now apply (kids_insert_same st e t a ls ks). }
  assert (L1 : length (heap st1) = length (heap st)) by (rewrite H1; apply length_insert).
  assert (Hfp1 : children_footprint st1 ks (map CNode ovs)
                 = children_footprint st ks (map CNode ovs))
    by (now apply children_footprint_kids).
  assert (Hh1 : heap st1 !! e = Some (DNode (Elem t a' ls') ks)).
  { rewrite H1. now apply list_lookup_insert_eq. }
  destruct (patchKeyedChildren_in_order ovs nvs e st1) as
    (news' & st' & E & Hs & Hm' & R & N & W & L & P & O); auto.
  - intros q x Hx. rewrite L1. rewrite K1 in Hx. now apply (Hwf q).
  - lia.
  - rewrite K1, Hks. apply (Forall2_mirrors_frame st); [|exact Hc].
    intros q Hq. rewrite H1. apply list_lookup_insert_ne. intros ->. contradiction.
  - now rewrite K1, Hks, Hfp1.
  - now rewrite K1, Hks, Hfp1.
  - intros x q Hx Hq. rewrite K1 in Hx |- *. rewrite Hks in Hx. now apply Hd3.
  - exists (VNode t p' news' k' (Some e)), st'.
    split; [|split; [|split; [reflexivity|split; [|split; [exact R|split; [|]]]]]].
    + cbn [patch tag props children key]. rewrite String.eqb_refl. cbn [negb].
      rewrite (bind_Ok _ _ _ _ _ E1).
      unfold patchChildren. rewrite hasKeyed_all by auto.
      rewrite (bind_Ok _ _ _ _ _ E). reflexivity.
    + rewrite !strip_eq. now rewrite Hs.
    + apply mirrors_eq. rewrite Hh1 in P.
      destruct (heap st' !! e) as [[pl ks']|] eqn:Eh; [|discriminate].
      simpl in P. injection P as ->.
      exists e, a', ls', ks'. split; [reflexivity|]. split; [exact Eh|]. split; [exact Ha'|].
      replace ks' with (kids st' e) by (unfold kids; now rewrite Eh). exact Hm'.
    + intros j nv Hn Hno. destruct (N j nv Hn Hno) as (nv' & x & H1' & H2' & H3').
      exists nv', x. repeat split; auto. lia.
    + intros q Hq HqV. rewrite O.
      * rewrite H1. apply list_lookup_insert_ne. intros ->. apply HqV. left.
      * lia.
      * intros ->. apply HqV. left.
      * rewrite K1, Hks, Hfp1. intros Hin. apply HqV. now right.
Qed.

Lemma kept_keys_keep_their_nodes_witness :
  exists new' st',
    patch (fst (mounted_of abc)) axc (snd (mounted_of abc)) = (Ok new', st') /\
    strip new' = strip axc /\
    el new' = Some 1 /\
    mirrors st' new' /\
    (forall i j ov nv,
       descriptors (children (fst (mounted_of abc))) !! i = Some ov ->
       descriptors (children axc) !! j = Some nv -> key ov = key nv ->
       exists nv', children new' !! j = Some (CNode nv') /\ el nv' = el ov) /\
    (forall j nv, descriptors (children axc) !! j = Some nv ->
       (forall ov, ov ∈ descriptors (children (fst (mounted_of abc))) -> key ov <> key nv) ->
       exists nv' x, children new' !! j = Some (CNode nv') /\ el nv' = Some x /\
                     length (heap (snd (mounted_of abc))) <= x) /\
    (forall q, q < length (heap (snd (mounted_of abc))) ->
       q ∉ footprint (snd (mounted_of abc)) (fst (mounted_of abc)) ->
       heap st' !! q = heap (snd (mounted_of abc)) !! q).
Proof.
  apply (kept_keys_keep_their_nodes (fst (mounted_of abc)) axc
           (descriptors (children (fst (mounted_of abc)))) (descriptors (children axc))
           1 (snd (mounted_of abc))).
  - vm_compute. reflexivity.
  - vm_compute. reflexivity.
  - vm_compute. reflexivity.
  - vm_compute. reflexivity.
  - vm_compute. reflexivity.
  - vm_compute. discriminate.
  - intros ov Ho. apply list_elem_of_In in Ho. vm_compute in Ho.
    destruct Ho as [<-|[<-|[<-|[]]]]; vm_compute; discriminate.
  - intros nv Hn. apply list_elem_of_In in Hn. vm_compute in Hn.
    destruct Hn as [<-|[<-|[<-|[]]]]; vm_compute; discriminate.
  - apply (bool_decide_unpack _). vm_compute. exact I.
  - apply (bool_decide_unpack _). vm_compute. exact I.
  - intros ov nv Ho Hn Hk. apply list_elem_of_In in Ho, Hn. vm_compute in Ho, Hn.
    destruct Ho as [<-|[<-|[<-|[]]]], Hn as [<-|[<-|[<-|[]]]];
      vm_compute in Hk; try discriminate; split; vm_compute; reflexivity.
  - intros i1 i2 j1 j2 o1 o2 n1 n2 H1 H2 H3 H4 K1 K2 Hlt.
    destruct i1 as [ | [ | [ | i1 ] ] ]; vm_compute in H1; try discriminate H1;
      injection H1 as <-;
      (destruct i2 as [ | [ | [ | i2 ] ] ]; try lia; vm_compute in H2; try discriminate H2;
       injection H2 as <-);
      (destruct j1 as [ | [ | [ | j1 ] ] ]; vm_compute in H3; try discriminate H3;
       injection H3 as <-; vm_compute in K1; try discriminate K1);
      (destruct j2 as [ | [ | [ | j2 ] ] ]; vm_compute in H4; try discriminate H4;
       injection H4 as <-; vm_compute in K2; try discriminate K2); lia.
  - apply wf_check_sound. vm_compute. reflexivity.
  - vm_compute. reflexivity.
  - apply (mount_mirrors_all abc 0 page);
      [exact wf_page|vm_compute; lia|vm_compute; reflexivity].
  - apply (bool_decide_unpack _). vm_compute. exact I.
  - intros x q Hx Hq Hin. apply list_elem_of_In in Hx, Hin.
    destruct q as [ | [ | [ | [ | [ | [ | [ | [ | [ | q ] ] ] ] ] ] ] ] ];
      vm_compute in Hx, Hin; lia.
Defined.

Lemma fits_eq t p cs k e new :
  fits (VNode t p cs k e) new = true <->
  t = tag new /\ fits_children cs (children new).
Proof.
  simpl. rewrite andb_true_iff.
  assert (H : forall cs ns,
    (fix go (cs ns : list child) {struct cs} : bool :=
            match cs, ns with
            | [], _ => forallb is_node ns
            | _ :: _, [] => true
            | CText _ :: cs', CText _ :: ns' => go cs' ns'
            | CNode o :: cs', CNode n :: ns' => fits o n && go cs' ns'
            | _, _ => false
            end) cs ns = true <-> fits_children cs ns).
  { clear. induction cs as [|c cs IH]; intros ns.
    - split; [now constructor|]. now inversion 1.
    - destruct ns as [|n ns].
      + split; [constructor|]. intros _. now destruct c.
      + destruct c as [a|o], n as [b|n]; try (split; [discriminate|now inversion 1]).
        * rewrite IH. split; [now constructor|]. now inversion 1.
        * rewrite andb_true_iff, IH. split; [intros []; now constructor|].
          now inversion 1. }
  rewrite H. split; intros [H1 H2]; split; auto.
  - now apply String.eqb_eq.
  - now apply String.eqb_eq.
Qed.

Lemma nodes_are_descriptors ns :
  forallb is_node ns = true -> exists vs, ns = map CNode vs.
Proof.
  induction ns as [|[s|v] ns IH]; simpl.
  - intros _. now exists [].
  - discriminate.
  - intros H. destruct (IH H) as (vs & ->). now exists (v :: vs).
Qed.

Lemma mountAll_renderable c : forall vs st cs' st',
  mountAll (map CNode vs) c st = (Ok cs', st') ->
  Forall (fun v => renderable v = true) vs.
Proof.
  induction vs as [|v vs IH]; intros st cs' st' E; [constructor|].
  cbn [map mountAll mountChild] in E.
  apply bind_inv in E as (c' & s1 & E1 & E).
  apply bind_inv in E1 as (v' & s1' & E1 & _).
  apply bind_inv in E as (r & s2 & E2 & _).
  constructor; [eapply mount_renderable; eauto|eapply IH; eauto].
Qed.

(** The nodes made by [mountAll] hold only nodes made by it. *)
Lemma mountAll_above c : forall vs st cs' st',
  wf st -> c < length (heap st) ->
  mountAll (map CNode vs) (Some c) st = (Ok cs', st') ->
  forall q x, length (heap st) <= q -> x ∈ kids st' q -> length (heap st) <= x.
Proof.
  induction vs as [|v vs IH]; intros st cs' st' Hwf Hc E q x Hq Hx.
  - cbn [map mountAll ret] in E. injection E as <- <-.
    apply kids_lt in Hx. lia.
  - pose proof (mountAll_renderable _ _ _ _ _ E) as [Hr Hrs]%Forall_cons.
    cbn [map mountAll mountChild] in E.
    destruct (mount_ok v Hr c st) as (v' & st1 & l & E1 & He & _ & F).
    pose proof (F Hwf Hc) as (W1 & L1 & O1 & C1 & _ & A1).
    rewrite (bind_Ok _ _ _ _ _ (bind_Ok _ _ _ _ _ E1)) in E. cbn [ret] in E.
    apply bind_inv in E as (r & st2 & E2 & E). injection E as <- <-.
    destruct (mountAll_nodes c vs st1 Hrs W1 ltac:(lia)) as
      (cs2 & st2' & els & E2' & W2 & L2 & O2 & _).
    rewrite E2 in E2'. injection E2' as <- <-.
    destruct (Nat.lt_ge_cases q (length (heap st1))) as [Hlt|Hge].
    + assert (q <> c) by lia. unfold kids in Hx. rewrite O2 in Hx by auto.
      apply (A1 q x Hq) in Hx. lia.
    + pose proof (IH st1 r st2 W1 ltac:(lia) E2 q x Hge Hx). lia.
Qed.

Lemma filter_ne_between (x : nat) l1 l2 :
  x ∉ l1 -> x ∉ l2 -> filter (fun y => y <> x) (l1 ++ x :: l2) = l1 ++ l2.
Proof.
  intros H1 H2. rewrite filter_app, filter_cons_False by (simpl; tauto).
  now rewrite !filter_ne_notin.
Qed.

(** The third loop of [patchUnkeyedChildren], from the last old child
    down to old index [m]; [rest] are the nodes mounted by the second
    loop. *)
Lemma removeOld_range c olds ks rest m :
  length ks = length olds ->
  NoDup ks ->
  (forall x, x ∈ ks -> x ∉ rest) ->
  Forall2 bound_at ks olds ->
  forall j st, m + j <= length ks ->
    kids st c = take (m + j) ks ++ rest ->
    exists st',
      forEach (removeOld (Some c) olds) (rev (seq m j)) st = (Ok tt, st') /\
      kids st' c = take m ks ++ rest /\
      length (heap st') = length (heap st) /\
      (forall q, q <> c -> heap st' !! q = heap st !! q) /\
      n_payload <$> heap st' !! c = n_payload <$> heap st !! c.
Proof.
  intros Hlen Hnd Hrest Hal. induction j as [|j IH]; intros st Hj Hk.
  - exists st. rewrite Nat.add_0_r in Hk. repeat split; auto.
  - rewrite seq_S, rev_app_distr. cbn [rev app forEach].
    destruct (lookup_lt_is_Some_2 ks (m + j) ltac:(lia)) as (x & Hx).
    destruct (lookup_lt_is_Some_2 olds (m + j) ltac:(lia)) as (o & Ho).
    assert (Hb : bound_at x o).
    { eapply Forall2_lookup_lr; eauto. }
    assert (Ht : take (m + S j) ks = take (m + j) ks ++ [x]).
    { replace (m + S j) with (S (m + j)) by lia. now apply take_S_r. }
    assert (Hkx : kids st c !! (m + j) = Some x).
    { rewrite Hk, Ht, <- app_assoc. rewrite lookup_app_r by (rewrite length_take; lia).
      rewrite length_take, Nat.min_l by lia. now rewrite Nat.sub_diag. }
    assert (Hin : x ∈ kids st c) by (apply list_elem_of_lookup; eauto).
    assert (Hold : oldElOf (Some c) (m + j) o st = (Ok (Some x), st)).
    { destruct o as [s|ov]; simpl in *.
      - unfold bind, childNode. simpl. now rewrite Hkx.
      - now rewrite Hb. }
    assert (Hstep : removeOld (Some c) olds (m + j) st = removeChild c x st).
    { unfold removeOld. rewrite Ho. rewrite (bind_Ok _ _ _ _ _ Hold). reflexivity. }
    rewrite (bind_Ok _ _ _ _ _ (eq_trans Hstep (removeChild_run c x st Hin))).
    set (st1 := Dom _ _).
    assert (Hc : c < length (heap st)) by (now apply kids_lt in Hin).
    assert (Hk1 : kids st1 c = take (m + j) ks ++ rest).
    { unfold st1. rewrite kids_alter_kids, decide_True by reflexivity.
      rewrite decide_True by exact Hc.
      change (kids (Dom (heap st) _) c) with (kids st c).
      rewrite Hk, Ht, <- app_assoc. apply filter_ne_between.
      - rewrite <- (take_drop (m + S j) ks), Ht in Hnd.
        apply NoDup_app in Hnd as (Hnd & _). apply NoDup_app in Hnd as (_ & Hnd & _).
        intros Hin'. apply (Hnd x Hin'). left.
      - apply Hrest. now apply list_elem_of_lookup_2 in Hx. }
    destruct (IH st1 ltac:(lia) Hk1) as (st' & E & K & Len & O & P).
    exists st'. split; [exact E|]. split; [exact K|]. split; [|split].
    + rewrite Len. unfold st1. simpl. apply length_alter.
    + intros q Hq. rewrite O by exact Hq. unfold st1. simpl.
      now apply list_lookup_alter_ne.
    + rewrite P. unfold st1. simpl. rewrite list_lookup_alter_eq.
      destruct (heap st !! c); reflexivity.
Qed.

Lemma mirrors_child_frame st st' x ch :
  (forall q, q ∈ child_footprint st x ch -> heap st' !! q = heap st !! q) ->
  mirrors_child st x ch -> mirrors_child st' x ch.
Proof.
  destruct ch as [s|v]; simpl; intros Hf.
  - intros H. rewrite Hf; [exact H|left].
  - intros [He Hm]. split; [exact He|]. now apply (mirrors_frame st st').
Qed.

Lemma child_footprint_agree st st' x ch :
  (forall q, q ∈ child_footprint st x ch -> kids st' q = kids st q) ->
  child_footprint st' x ch = child_footprint st x ch.
Proof.
  destruct ch as [s|v]; simpl; [reflexivity|]. apply footprint_agree.
Qed.

Lemma children_footprint_agree st st' : forall cs ks,
  (forall q, q ∈ children_footprint st ks cs -> kids st' q = kids st q) ->
  children_footprint st' ks cs = children_footprint st ks cs.
Proof.
  induction cs as [|c cs IH]; intros [|x ks] H; try reflexivity.
  cbn [children_footprint] in *. rewrite IH.
  - f_equal. apply child_footprint_agree. intros q Hq. apply H, elem_of_app. now left.
  - intros q Hq. apply H, elem_of_app. now right.
Qed.

Lemma child_footprint_exists st x ch :
  mirrors_child st x ch -> forall q, q ∈ child_footprint st x ch -> q < length (heap st).
Proof.
  destruct ch as [s|v]; simpl.
  - intros H q ->%list_elem_of_singleton. now apply lookup_lt_Some in H.
  - intros [_ Hm]. now apply footprint_exists.
Qed.

Lemma children_footprint_app st : forall cs1 ks1 cs2 ks2,
  length ks1 = length cs1 ->
  children_footprint st (ks1 ++ ks2) (cs1 ++ cs2)
  = children_footprint st ks1 cs1 ++ children_footprint st ks2 cs2.
Proof.
  induction cs1 as [|c cs1 IH]; intros [|x ks1] cs2 ks2 Hl; try discriminate.
  - reflexivity.
  - cbn [app children_footprint]. rewrite IH by (simpl in Hl; lia).
    now rewrite app_assoc.
Qed.

Lemma children_footprint_from m st :
  (forall q x, m <= q -> x ∈ kids st q -> m <= x) ->
  forall ks cs, Forall2 (mirrors_child st) ks cs -> (forall x, x ∈ ks -> m <= x) ->
    forall q, q ∈ children_footprint st ks cs -> m <= q.
Proof.
  intros Hab ks cs H. induction H as [|x ch ks cs Hx _ IH]; intros Hk q Hq.
  - inversion Hq.
  - cbn [children_footprint] in Hq. apply elem_of_app in Hq as [Hq|Hq].
    + destruct ch as [s|v]; simpl in *.
      * apply list_elem_of_singleton in Hq as ->. apply Hk. left.
      * destruct Hx as [He Hm]. apply (footprint_from m st Hab v x He); auto.
        apply Hk. left.
    + apply IH; auto. intros y Hy. apply Hk. now right.
Qed.

Lemma fits_children_added cs ns :
  fits_children cs ns -> forallb is_node (drop (length cs) ns) = true.
Proof.
  induction 1 as [ns H|c cs|a b cs ns _ IH|o n cs ns _ _ IH]; simpl; auto.
Qed.

Lemma drop_min {A} (l : list A) a : drop (a `min` length l) l = drop a l.
Proof.
  destruct (Nat.le_ge_cases a (length l)) as [H|H].
  - now rewrite Nat.min_l.
  - rewrite Nat.min_r by exact H. now rewrite !drop_ge.
Qed.

Lemma mountAll_payload c : forall vs st cs' st',
  wf st -> c < length (heap st) ->
  mountAll (map CNode vs) (Some c) st = (Ok cs', st') ->
  n_payload <$> heap st' !! c = n_payload <$> heap st !! c.
Proof.
  induction vs as [|v vs IH]; intros st cs' st' Hwf Hc E.
  - cbn [map mountAll ret] in E. now injection E as <- <-.
  - pose proof (mountAll_renderable _ _ _ _ _ E) as [Hr Hrs]%Forall_cons.
    cbn [map mountAll mountChild] in E.
    destruct (mount_ok v Hr c st) as (v' & st1 & l & E1 & He & _ & F).
    pose proof (F Hwf Hc) as (W1 & L1 & O1 & C1 & _ & A1).
    rewrite (bind_Ok _ _ _ _ _ (bind_Ok _ _ _ _ _ E1)) in E. cbn [ret] in E.
    apply bind_inv in E as (r & st2 & E2 & E). injection E as <- <-.
    rewrite (IH st1 r st2 W1 ltac:(lia) E2), C1.
    destruct (heap st !! c); reflexivity.
Qed.

Lemma unkeyedCommon_fits e : forall olds,
  Forall (child_all patch_fits) olds ->
  forall news ks pre st,
    Forall (child_all (fun v => ordinary v = true)) olds ->
    Forall (child_all (fun v => ordinary v = true)) news ->
    fits_children olds news ->
    forallb unkeyed_child news = true ->
    wf st ->
    kids st e = pre ++ ks ->
    Forall2 (mirrors_child st) ks olds ->
    NoDup (children_footprint st ks olds) ->
    e ∉ children_footprint st ks olds ->
    exists news' st',
      unkeyedCommon patch (Some e) olds news (length pre) st = (Ok news', st') /\
      map strip_child news' = map strip_child (take (length olds) news) /\
      length news' = length olds `min` length news /\
      Forall2 (mirrors_child st') (take (length news') ks) news' /\
      wf st' /\
      length (heap st) <= length (heap st') /\
      (forall q, q < length (heap st) -> q ∉ children_footprint st ks olds ->
         heap st' !! q = heap st !! q) /\
      (forall q, q ∈ children_footprint st' (take (length news') ks) news' ->
         q ∈ children_footprint st ks olds \/ length (heap st) <= q).
Proof.
  induction 1 as [|o olds Ho _ IH]; intros news ks pre st Hoo Hon' Hs Hu Hwf Hk Hm Hnd He.
  - exists [], st. cbn [unkeyedCommon length take map Nat.min ret].
    repeat split; auto; intros q Hq; inversion Hq.
  - destruct news as [|n news].
    { exists [], st. cbn [unkeyedCommon length take map ret].
      rewrite Nat.min_0_r. repeat split; auto; intros q Hq; inversion Hq. }
    apply Forall_cons in Hoo as [Hoo1 Hoo]. apply Forall_cons in Hon' as [Hon1 Hon'].
    inversion Hm as [|x o' ks' olds' Hxo Hm' E1 E2]; subst.
    simpl in Hu. apply andb_true_iff in Hu as [Hun Hu'].
    cbn [children_footprint] in Hnd, He.
    apply NoDup_app in Hnd as (Nd1 & Nd2 & Nd3).
    assert (Hel : e < length (heap st)).
    { apply (kids_lt st e x). rewrite Hk. apply elem_of_app. right. left. }
    assert (Hs' : fits_children olds news) by (inversion Hs; subst; assumption).
    assert (Hhead : exists n' st1,
              unkeyedVisit patch (Some e) (length pre) o n st = (Ok n', st1) /\
              strip_child n' = strip_child n /\
              mirrors_child st1 x n' /\
              wf st1 /\
              length (heap st) <= length (heap st1) /\
              (forall q, q < length (heap st) -> q ∉ child_footprint st x o ->
                 heap st1 !! q = heap st !! q) /\
              (forall q, q ∈ child_footprint st1 x n' ->
                 q ∈ child_footprint st x o \/ length (heap st) <= q)).
    { inversion Hs as [| |a b cs ns _ E1 E2|ov nv cs ns Hon _ E1 E2]; subst.
      - simpl in Hxo. cbn [unkeyedVisit].
        destruct (String.eqb_spec a b) as [->|Hne].
        + exists (CText b), st. repeat split; auto.
        + assert (Hcn : childNode e (length pre) st = (Ok (Some x), st)).
          { unfold childNode. rewrite Hk. rewrite lookup_app_r by lia.
            now rewrite Nat.sub_diag. }
          eexists (CText b), _. split.
          { unfold bind at 1. cbn [deref ret]. unfold bind at 1. rewrite Hcn.
            unfold bind at 1. cbn [deref ret]. unfold bind at 1.
            rewrite (setTextContent_text x a b st Hxo). cbn [ret]. reflexivity. }
          split; [reflexivity|]. split.
          { simpl. rewrite list_lookup_alter_eq. unfold holds_text in Hxo.
            now rewrite Hxo. }
          split.
          { intros q y Hy. simpl. rewrite length_alter. rewrite kids_payload in Hy.
            now apply (Hwf q). }
          split; [simpl; now rewrite length_alter|]. split; [|auto].
          intros q _ Hq. simpl. apply list_lookup_alter_ne. intros ->. apply Hq. left.
      - destruct Hxo as [Hev Hmv]. cbn [unkeyedVisit]. simpl in Nd1.
        destruct (Ho nv st Hoo1 Hon1 Hon Hun Hwf Hmv Nd1) as
          (nv' & st1 & E & S & El & M & W & L & F & C).
        exists (CNode nv'), st1. split; [now rewrite (bind_Ok _ _ _ _ _ E)|].
        split; [simpl; now rewrite S|]. split; [split; [congruence|exact M]|].
        repeat split; auto. }
    destruct Hhead as (n' & st1 & E1 & S1 & M1 & W1 & L1 & F1 & C1).
    assert (Hrest : forall q, q ∈ children_footprint st ks' olds ->
                      heap st1 !! q = heap st !! q).
    { intros q Hq. apply F1.
      - now apply (children_footprint_exists st ks' olds).
      - intros Hq'. exact (Nd2 q Hq' Hq). }
    assert (Hfp : children_footprint st1 ks' olds = children_footprint st ks' olds).
    { apply children_footprint_agree. intros q Hq. unfold kids. now rewrite Hrest. }
    destruct (IH news ks' (pre ++ [x]) st1 Hoo Hon' Hs' Hu' W1) as
      (news'' & st' & E & S & Ln & M & W & L & F & C).
    { unfold kids. rewrite F1; [|exact Hel|].
      - fold (kids st e). rewrite Hk. now rewrite <- app_assoc.
      - intros Hq. apply He, elem_of_app. now left. }
    { now apply (Forall2_mirrors_frame st). }
    { now rewrite Hfp. }
    { rewrite Hfp. intros Hq. apply He, elem_of_app. now right. }
    rewrite length_app in E. simpl in E. rewrite Nat.add_1_r in E.
    assert (Hkeep : forall q, q ∈ child_footprint st1 x n' -> heap st' !! q = heap st1 !! q).
    { intros q Hq. apply F.
      - now apply (child_footprint_exists st1 x n').
      - rewrite Hfp. intros Hq'. destruct (C1 q Hq) as [Ho'|Hge].
        + exact (Nd2 q Ho' Hq').
        + apply (children_footprint_exists st ks' olds Hm') in Hq'. lia. }
    exists (n' :: news''), st'. cbn [length take].
    split; [|split; [|split; [|split; [|split; [|split; [|split]]]]]].
    + cbn [unkeyedCommon]. rewrite (bind_Ok _ _ _ _ _ E1). rewrite (bind_Ok _ _ _ _ _ E).
      reflexivity.
    + cbn [map]. now rewrite S1, S.
    + rewrite Ln. reflexivity.
    + constructor; [|exact M]. now apply (mirrors_child_frame st1 st').
    + exact W.
    + lia.
    + intros q Hq Hn. rewrite F, F1; auto.
      * intros Hq'. apply Hn. apply elem_of_app. now left.
      * lia.
      * rewrite Hfp. intros Hq'. apply Hn. apply elem_of_app. now right.
    + intros q Hq. cbn [children_footprint] in Hq |- *.
      apply elem_of_app in Hq as [Hq|Hq].
      * rewrite (child_footprint_agree st1 st') in Hq.
        -- destruct (C1 q Hq) as [Ho'|Hge]; [left; apply elem_of_app; now left|now right].
        -- intros q' Hq'. unfold kids. now rewrite Hkeep.
      * destruct (C q Hq) as [Ho'|Hge].
        -- left. apply elem_of_app. right. now rewrite <- Hfp.
        -- right. lia.
Qed.

Lemma patch_fits_all old : patch_fits old.
Proof.
  induction old as [t p cs k oe IH] using vnode_nested_ind.
  intros new st Hoo Hon Hs Hu Hwf Hm Hnd.
  apply mirrors_eq in Hm as (e & a & ls & ks & -> & Hh & Ha & Hc).
  apply fits_eq in Hs as [Ht Hs].
  destruct new as [t' p' cs' k' e']. simpl in Ht, Hs. subst t'.
  apply ordinary_eq in Hoo as (_ & Hao & Hpo & Hoo).
  apply ordinary_eq in Hon as (_ & Han & Hpn & Hon).
  apply unkeyed_children in Hu as [Hnk Hu].
  rewrite footprint_eq in Hnd.
  assert (Hks : kids st e = ks) by (unfold kids; now rewrite Hh).
  rewrite Hks in Hnd. apply NoDup_cons in Hnd as [Hne Hnd].
  assert (Hel : e < length (heap st)) by (now apply lookup_lt_Some in Hh).
  assert (Hlk : length ks = length cs) by (now apply Forall2_length in Hc).
  destruct (patchProps_run e p p' st t a ls ks Hao Han Hpo Hpn Hh Ha)
    as (st1 & a' & ls' & E1 & H1 & Ha').
  assert (K1 : forall q, kids st1 q = kids st q).
  { intros q. destruct st1 as [hp1 lg1]. simpl in H1. subst hp1.
    now apply (kids_insert_same st e t a ls ks). }
  assert (L1 : length (heap st1) = length (heap st)) by (rewrite H1; apply length_insert).
  assert (Hfp1 : children_footprint st1 ks cs = children_footprint st ks cs)
    by (now apply children_footprint_kids).
  assert (Hh1 : heap st1 !! e = Some (DNode (Elem t a' ls') ks)).
  { rewrite H1. now apply list_lookup_insert_eq. }
  assert (W1 : wf st1).
  { intros q x Hx. rewrite L1. rewrite K1 in Hx. now apply (Hwf q). }
  assert (Hc1 : Forall2 (mirrors_child st1) ks cs).
  { apply (Forall2_mirrors_frame st); [|exact Hc].
    intros q Hq. rewrite H1. apply list_lookup_insert_ne. intros ->. contradiction. }
  (* first loop *)
  destruct (unkeyedCommon_fits e cs IH cs' ks [] st1 Hoo Hon Hs Hu W1) as
    (common & st2 & E2 & S2 & Ln2 & M2 & W2 & L2 & F2 & C2); auto.
  { now rewrite K1, Hks. }
  { now rewrite Hfp1. }
  { now rewrite Hfp1. }
  rewrite Hfp1 in F2, C2. cbn [length] in E2.
  set (m := length cs `min` length cs') in *.
  assert (He2 : heap st2 !! e = heap st1 !! e) by (apply F2; [lia|exact Hne]).
  assert (K2 : kids st2 e = ks) by (unfold kids; now rewrite He2, Hh1).
  assert (Hcom : forall q, q ∈ children_footprint st2 (take (length common) ks) common ->
                   q <> e /\ q < length (heap st2)).
  { intros q Hq. split.
    - intros ->. destruct (C2 e Hq) as [Hin|Hge]; [contradiction|lia].
    - exact (children_footprint_exists st2 _ common M2 q Hq). }
  (* second loop *)
  destruct (nodes_are_descriptors (drop (length cs) cs') (fits_children_added cs cs' Hs))
    as (vs & Hvs).
  assert (Hrs : Forall (fun v => renderable v = true) vs).
  { apply Forall_forall. intros v Hv. apply ordinary_renderable.
    rewrite Forall_forall in Hon. apply (Hon (CNode v)).
    apply (subseteq_drop (length cs) cs'). rewrite Hvs. apply list_elem_of_fmap. eauto. }
  destruct (mountAll_nodes e vs st2 Hrs W2 ltac:(lia)) as
    (added & st3 & els & E3 & W3 & L3 & O3 & K3 & X3 & S3 & M3).
  pose proof (mountAll_above e vs st2 added st3 W2 ltac:(lia) E3) as A3.
  (* third loop *)
  destruct (removeOld_range e cs ks els m Hlk) with (j := length cs - m) (st := st3)
    as (st4 & E4 & K4 & L4 & O4 & P4).
  { now apply (kids_nodup st ks cs). }
  { intros x Hx Hin. apply X3 in Hin. rewrite <- Hks in Hx. apply Hwf in Hx. lia. }
  { clear -Hc. induction Hc as [|x c ks cs Hx _ IHc]; constructor; auto.
    destruct c; simpl in *; [exact I|now destruct Hx]. }
  { unfold m. lia. }
  { rewrite K3, K2. replace (m + (length cs - m)) with (length ks) by (unfold m; lia).
    now rewrite firstn_all. }
  assert (Hm4 : Forall2 (mirrors_child st4) (take m ks ++ els) (common ++ added)).
  { rewrite <- Ln2. apply Forall2_app.
    - apply (Forall2_mirrors_frame st2); [|exact M2].
      intros q Hq. destruct (Hcom q Hq) as [Hqe Hql].
      rewrite O4 by exact Hqe. now apply O3.
    - apply (Forall2_mirrors_frame st3); [|exact M3].
      intros q Hq. apply O4. intros ->.
      assert (length (heap st2) <= e); [|lia].
      apply (children_footprint_from (length (heap st2)) st3 A3 els added M3 X3 e Hq). }
  assert (Hadd : forall q, q ∈ children_footprint st3 els added -> length (heap st2) <= q).
  { intros q Hq. apply (children_footprint_from (length (heap st2)) st3 A3 els added M3 X3 q Hq). }
  assert (Hh4 : exists ks4, heap st4 !! e = Some (DNode (Elem t a' ls') ks4) /\ kids st4 e = ks4).
  { assert (P : n_payload <$> heap st4 !! e = Some (Elem t a' ls')).
    { rewrite P4. unfold kids in K3.
      assert (He3 : n_payload <$> heap st3 !! e = n_payload <$> heap st2 !! e).
      { apply (mountAll_payload e vs st2 added st3 W2); [lia|exact E3]. }
      now rewrite He3, He2, Hh1. }
    destruct (heap st4 !! e) as [[pl ks4]|] eqn:Eh; [|discriminate].
    simpl in P. injection P as ->. exists ks4. split; [reflexivity|].
    unfold kids. now rewrite Eh. }
  destruct Hh4 as (ks4 & Hh4 & Hk4).
  exists (VNode t p' (common ++ added) k' (Some e)), st4.
  split; [|split; [|split; [reflexivity|split; [|split; [|split; [|split]]]]]].
  - cbn [patch tag props children key]. rewrite String.eqb_refl. cbn [negb].
    rewrite (bind_Ok _ _ _ _ _ E1).
    unfold patchChildren. rewrite Hnk.
    assert (Ec : patchUnkeyedChildren patch cs cs' (Some e) st1 = (Ok (common ++ added), st4)).
    { unfold patchUnkeyedChildren. rewrite (bind_Ok _ _ _ _ _ E2).
      fold m. unfold m at 1. rewrite drop_min, Hvs.
      rewrite (bind_Ok _ _ _ _ _ E3). rewrite (bind_Ok _ _ _ _ _ E4). reflexivity. }
    rewrite (bind_Ok _ _ _ _ _ Ec). reflexivity.
  - rewrite !strip_eq. rewrite map_app, S2, S3, <- Hvs, <- map_app, take_drop. reflexivity.
  - apply mirrors_eq. exists e, a', ls', ks4. split; [reflexivity|].
    split; [exact Hh4|]. split; [exact Ha'|]. rewrite <- Hk4, K4. exact Hm4.
  - intros q x Hx. rewrite L4. destruct (decide (q = e)) as [->|Hq].
    + apply (W3 e). rewrite K4 in Hx. rewrite K3, K2.
      apply elem_of_app in Hx as [Hx|Hx]; apply elem_of_app; [left|now right].
      now apply (subseteq_take m ks).
    + unfold kids in Hx. rewrite O4 in Hx by exact Hq. now apply (W3 q).
  - lia.
  - intros q Hq Hn. rewrite footprint_eq, Hks in Hn.
    assert (Hqe : q <> e) by (intros ->; apply Hn; left).
    rewrite O4 by exact Hqe. rewrite O3 by (auto; lia).
    rewrite F2 by (try lia; intros Hq'; apply Hn; now right).
    rewrite H1. now apply list_lookup_insert_ne.
  - intros q Hq. rewrite !footprint_eq in *. rewrite Hks. rewrite K4 in Hq.
    apply elem_of_cons in Hq as [->|Hq]; [left; left|].
    rewrite children_footprint_app in Hq by (rewrite <- Ln2; now apply Forall2_length in M2).
    apply elem_of_app in Hq as [Hq|Hq].
    + rewrite (children_footprint_agree st2 st4) in Hq.
      * rewrite <- Ln2 in Hq. destruct (C2 q Hq) as [Hin|Hge]; [left; now right|right; lia].
      * rewrite <- Ln2. intros q' Hq'. destruct (Hcom q' Hq') as [Hqe Hql].
        unfold kids. rewrite O4 by exact Hqe. now rewrite O3.
    + rewrite (children_footprint_agree st3 st4) in Hq.
      * right. apply Hadd in Hq. lia.
      * intros q' Hq'. unfold kids. rewrite O4; [reflexivity|].
        intros ->. apply Hadd in Hq'. lia.
Qed.

(** X20. Ordinary trees (the backend accepts their tags and properties,
    and no property is named like a property of [Object.prototype])
    without keys, whose child lists may differ in length.  When
    the new tree keeps the kinds of the old one (the same tag, a string
    facing a string and a descriptor facing a descriptor, at every level),
    goes on with descriptors where a list is longer, and the document
    mirrors the old tree without sharing a node, [patch] returns the new
    descriptor bound to the node of the old one and the document mirrors
    the new tree: the children in excess were removed, the children added
    were mounted at the end of their list, and no node outside the old
    tree changed. *)
Theorem unkeyed_lists_grow_and_shrink (old new : vnode) (st : dom) :
  ordinary old = true ->
  ordinary new = true ->
  fits old new = true ->
  unkeyed new = true ->
  wf st ->
  mirrors st old ->
  NoDup (footprint st old) ->
  exists new' st',
    patch old new st = (Ok new', st') /\
    strip new' = strip new /\
    el new' = el old /\
    mirrors st' new' /\
    wf st' /\
    length (heap st) <= length (heap st') /\
    (forall q, q < length (heap st) -> q ∉ footprint st old ->
       heap st' !! q = heap st !! q).
Proof.
  intros Hoo Hon Hs Hu Hwf Hm Hnd.
  destruct (patch_fits_all old new st Hoo Hon Hs Hu Hwf Hm Hnd) as
    (new' & st' & E & S & El & M & W & L & F & _).
  exists new', st'. repeat split; auto.
Qed.

Lemma unkeyed_lists_grow_and_shrink_witness :
  exists new' st',
    patch (fst (mounted_of plain_tree)) plain_tree_3 (snd (mounted_of plain_tree))
      = (Ok new', st') /\
    strip new' = strip plain_tree_3 /\
    el new' = el (fst (mounted_of plain_tree)) /\
    mirrors st' new' /\
    wf st' /\
    length (heap (snd (mounted_of plain_tree))) <= length (heap st') /\
    (forall q, q < length (heap (snd (mounted_of plain_tree))) ->
       q ∉ footprint (snd (mounted_of plain_tree)) (fst (mounted_of plain_tree)) ->
       heap st' !! q = heap (snd (mounted_of plain_tree)) !! q).
Proof.
  apply (unkeyed_lists_grow_and_shrink (fst (mounted_of plain_tree)) plain_tree_3
           (snd (mounted_of plain_tree))).
  - vm_compute. reflexivity.
  - vm_compute. reflexivity.
  - vm_compute. reflexivity.
  - vm_compute. reflexivity.
  - apply wf_check_sound. vm_compute. reflexivity.
  - apply (mount_mirrors_all plain_tree 0 page);
      [exact wf_page|vm_compute; lia|vm_compute; reflexivity].
  - apply (bool_decide_unpack _). vm_compute. exact I.
Defined.

End VDomFacts.

(** * Properties of the reactive layer *)

Module ReactivityFacts.

Import Reactivity.
Import ReactivitySpec.
Import Scenario.

(** ** The current-task slot *)

Lemma forEachDep_active run :
  (forall e st, activeEffect (snd (run e st)) = activeEffect st) ->
  forall gas target key i st,
    activeEffect (snd (forEachDep run gas target key i st)) = activeEffect st.
Proof.
  intros Hrun. induction gas as [|gas IH]; intros target key i st; simpl.
  - destruct (depsOf st target key) as [deps|]; [|reflexivity].
    destruct (deps !! i); reflexivity.
  - destruct (depsOf st target key) as [deps|]; [|reflexivity].
    destruct (deps !! i) as [e|]; [|reflexivity].
    specialize (Hrun e st).
    destruct (run e st) as [[] st'] eqn:E; simpl in *; try exact Hrun.
    rewrite IH. exact Hrun.
Qed.

Lemma track_active target key st :
  activeEffect (track target key st) = activeEffect st.
Proof. unfold track. destruct (activeEffect st) eqn:E; simpl; auto. Qed.

Lemma trigger_active run :
  (forall e st, activeEffect (snd (run e st)) = activeEffect st) ->
  forall gas target key st,
    activeEffect (snd (trigger run gas target key st)) = activeEffect st.
Proof.
  intros Hrun gas target key st. unfold trigger.
  destruct (targetMap st !! target) as [depsMap|]; [|reflexivity].
  destruct (depsMap !! key); [|reflexivity].
  now apply forEachDep_active.
Qed.

Lemma proxy_set_active run :
  (forall e st, activeEffect (snd (run e st)) = activeEffect st) ->
  forall gas target key v st,
    activeEffect (snd (proxy_set run gas target key v st)) = activeEffect st.
Proof.
  intros Hrun gas target key v st. unfold proxy_set.
  now rewrite trigger_active.
Qed.

Lemma exec_active run :
  (forall e st, activeEffect (snd (run e st)) = activeEffect st) ->
  forall gas p st, activeEffect (snd (exec run gas p st)) = activeEffect st.
Proof.
  intros Hrun gas p. induction p as [| |t k f IH|t k v p IH|t k f IH|t k v p IH];
    intros st; simpl; try reflexivity.
  - rewrite IH. now rewrite track_active.
  - pose proof (proxy_set_active run Hrun gas t k v st) as Hs.
    destruct (proxy_set run gas t k v st) as [[] st1]; simpl in *; try exact Hs.
    now rewrite IH.
  - apply IH.
  - now rewrite IH.
Qed.

Lemma effectFn_active fuel id st :
  activeEffect (snd (effectFn fuel id st)) = activeEffect st.
Proof.
  destruct fuel as [|fuel]; simpl; [reflexivity|].
  destruct (effects st !! id) as [fn|]; [|reflexivity].
  destruct (exec _ _ _ _) as [o st2]. reflexivity.
Qed.

(** C4. Whatever the body does and however it ends (by returning, by
    throwing, or by using up the budget of nested calls), running a task
    through [effect] or through its wrapper leaves [activeEffect] as it
    found it; the wrapper holds the slot while the body runs and puts the
    previous value back after it; a body that throws makes the call throw
    with the slot restored; and any run of a body, with the nested runs its
    writes cause, leaves the slot of its caller unchanged. *)
Theorem effect_restores_active :
  (forall fuel fn st, activeEffect (snd (effect fuel fn st)) = activeEffect st) /\
  (forall fuel id st, activeEffect (snd (effectFn fuel id st)) = activeEffect st) /\
  (forall fuel id fn st,
     effects st !! id = Some fn ->
     effectFn (S fuel) id st =
       (fst (exec (effectFn fuel) fuel fn (with_active (Some id) (record (EvRun id) st))),
        with_active (activeEffect st)
          (snd (exec (effectFn fuel) fuel fn (with_active (Some id) (record (EvRun id) st)))))) /\
  (forall fuel st,
     fst (effect (S fuel) Throw st) = Threw /\
     activeEffect (snd (effect (S fuel) Throw st)) = activeEffect st) /\
  (forall fuel p st,
     activeEffect (snd (exec (effectFn fuel) fuel p st)) = activeEffect st).
Proof.
  split; [|split; [|split; [|split]]].
  - intros fuel fn st. unfold effect. now rewrite effectFn_active.
  - apply effectFn_active.
  - intros fuel id fn st E. simpl. rewrite E.
    destruct (exec _ _ _ _) as [o st2]. reflexivity.
  - intros fuel st. unfold effect. split; [|now rewrite effectFn_active].
    simpl. rewrite list_lookup_middle by reflexivity. reflexivity.
  - intros fuel p st. apply exec_active. intros e s. apply effectFn_active.
Qed.

(** ** Dependency sets and tasks that only read *)

Lemma depsOf_track target key t k st :
  depsOf (track t k st) target key =
    match activeEffect st with
    | None => depsOf st target key
    | Some a =>
        if decide (target = t /\ key = k)
        then Some (set_add a (default [] (depsOf st target key)))
        else depsOf st target key
    end.
Proof.
  unfold track, depsOf. destruct (activeEffect st) as [a|]; [|reflexivity]. simpl.
  destruct (decide (target = t /\ key = k)) as [[-> ->]|Hne].
  - rewrite lookup_insert_eq, lookup_insert_eq.
    destruct (targetMap st !! t) as [dm|]; simpl; [|reflexivity].
    destruct (dm !! k); reflexivity.
  - destruct (decide (t = target)) as [->|Ht].
    + rewrite lookup_insert_eq. rewrite lookup_insert_ne by (intros ->; tauto).
      destruct (targetMap st !! target) as [dm|]; simpl; [reflexivity|].
      apply lookup_empty.
    + now rewrite lookup_insert_ne.
Qed.

Lemma set_add_in a d : a ∈ d -> set_add a d = d.
Proof. intros H. unfold set_add. now rewrite bool_decide_eq_true_2. Qed.

(** Reading a field on which the current task is already registered
    leaves that field's dependency set as it is. *)
Lemma depsOf_track_kept target key t k st d :
  depsOf st target key = Some d ->
  (forall a, activeEffect st = Some a -> a ∈ d) ->
  depsOf (track t k st) target key = Some d.
Proof.
  intros Hd Ha. rewrite depsOf_track.
  destruct (activeEffect st) as [a|]; [|exact Hd].
  destruct (decide _); [|exact Hd].
  rewrite Hd. simpl. rewrite set_add_in; auto.
Qed.

Lemma count_runs_app id tr1 tr2 :
  count_runs id (tr1 ++ tr2) = count_runs id tr1 + count_runs id tr2.
Proof. unfold count_runs. now rewrite filter_app, length_app. Qed.

(** What running a body that only reads does. *)
Lemma exec_reader run gas fn :
  reader fn ->
  forall st, exists st' tr,
    exec run gas fn st = (Returned, st') /\
    activeEffect st' = activeEffect st /\
    objects st' = objects st /\
    effects st' = effects st /\
    trace st' = trace st ++ tr /\
    (forall id, count_runs id tr = 0) /\
    (forall target key d,
       depsOf st target key = Some d ->
       (forall a, activeEffect st = Some a -> a ∈ d) ->
       depsOf st' target key = Some d).
Proof.
  induction 1 as [|t k f _ IH|t k f _ IH]; intros st.
  - exists st, []. rewrite app_nil_r. repeat split; auto.
  - simpl.
    destruct (IH (reflect_get t k (track t k (record (EvGet (activeEffect st) t k) st)))
                 (track t k (record (EvGet (activeEffect st) t k) st)))
      as (st' & tr & E & A & O & F & T & C & Dp).
    exists st', (EvGet (activeEffect st) t k :: tr). split; [exact E|].
    rewrite track_active in A. simpl in A.
    split; [exact A|]. split.
    { rewrite O. unfold track. simpl. destruct (activeEffect st); reflexivity. }
    split.
    { rewrite F. unfold track. simpl. destruct (activeEffect st); reflexivity. }
    split.
    { rewrite T. unfold track. simpl. destruct (activeEffect st); simpl;
        now rewrite <- app_assoc. }
    split.
    { intros id. change (EvGet (activeEffect st) t k :: tr)
        with ([EvGet (activeEffect st) t k] ++ tr).
      rewrite count_runs_app, C. reflexivity. }
    intros target key d Hd Ha. apply Dp.
    + apply depsOf_track_kept; [exact Hd|]. simpl. exact Ha.
    + rewrite track_active. simpl. exact Ha.
  - simpl. apply IH.
Qed.

Lemma depsOf_write_prefix target key v st t k :
  depsOf (reflect_set target key v (record (EvSet target key v) st)) t k = depsOf st t k.
Proof. reflexivity. Qed.

Lemma trigger_forEach run gas target key st :
  trigger run gas target key st = forEachDep run gas target key 0 st.
Proof.
  unfold trigger. destruct gas; simpl; unfold depsOf;
    destruct (targetMap st !! target) as [dm|]; try reflexivity;
    destruct (dm !! key); reflexivity.
Qed.

Lemma reflect_get_set target key v st :
  reflect_get target key (reflect_set target key v st) = v.
Proof.
  unfold reflect_get, reflect_set. simpl.
  now rewrite lookup_insert_eq, lookup_insert_eq.
Qed.

(** One run of the wrapper of a task that only reads. *)
Lemma effectFn_reader fuel id fn st :
  effects st !! id = Some fn -> reader fn ->
  exists st' tr,
    effectFn (S fuel) id st = (Returned, st') /\
    activeEffect st' = activeEffect st /\
    objects st' = objects st /\
    effects st' = effects st /\
    trace st' = trace st ++ EvRun id :: tr /\
    (forall i, count_runs i tr = 0) /\
    (forall target key d,
       depsOf st target key = Some d -> id ∈ d -> depsOf st' target key = Some d).
Proof.
  intros E Hr. simpl. rewrite E.
  destruct (exec_reader (effectFn fuel) fuel fn Hr
              (with_active (Some id) (record (EvRun id) st)))
    as (st2 & tr & E2 & A2 & O2 & F2 & T2 & C2 & D2).
  rewrite E2. exists (with_active (activeEffect st) st2), tr.
  split; [reflexivity|]. split; [reflexivity|]. split; [exact O2|].
  split; [exact F2|]. split.
  { simpl. rewrite T2. simpl. now rewrite <- app_assoc. }
  split; [exact C2|].
  intros target key d Hd Hin.
  change (depsOf (with_active (activeEffect st) st2) target key) with (depsOf st2 target key).
  apply D2; [exact Hd|]. simpl. intros a [= <-]. exact Hin.
Qed.

(** ** Writes re-run the dependents of the field *)

Lemma forEachDep_trace run :
  (forall e st, exists tr, trace (snd (run e st)) = trace st ++ tr) ->
  forall gas target key i st,
    exists tr, trace (snd (forEachDep run gas target key i st)) = trace st ++ tr.
Proof.
  intros Hrun. induction gas as [|gas IH]; intros target key i st; simpl.
  - exists []. rewrite app_nil_r.
    destruct (depsOf st target key) as [deps|]; [|reflexivity].
    destruct (deps !! i); reflexivity.
  - destruct (depsOf st target key) as [deps|]; [|exists []; now rewrite app_nil_r].
    destruct (deps !! i) as [e|]; [|exists []; now rewrite app_nil_r].
    destruct (Hrun e st) as (tr1 & H1).
    destruct (run e st) as [[] st'] eqn:E; simpl in *; eauto.
    destruct (IH target key (S i) st') as (tr2 & H2).
    exists (tr1 ++ tr2). rewrite H2, H1. now rewrite app_assoc.
Qed.

Lemma exec_trace run :
  (forall e st, exists tr, trace (snd (run e st)) = trace st ++ tr) ->
  forall gas p st, exists tr, trace (snd (exec run gas p st)) = trace st ++ tr.
Proof.
  intros Hrun gas p. induction p as [| |t k f IH|t k v p IH|t k f IH|t k v p IH];
    intros st; simpl.
  - exists []. now rewrite app_nil_r.
  - exists []. now rewrite app_nil_r.
  - destruct (IH (reflect_get t k (track t k (record (EvGet (activeEffect st) t k) st)))
                 (track t k (record (EvGet (activeEffect st) t k) st))) as (tr & H).
    exists (EvGet (activeEffect st) t k :: tr). rewrite H.
    unfold track. simpl. destruct (activeEffect st); simpl; now rewrite <- app_assoc.
  - unfold proxy_set. rewrite trigger_forEach.
    destruct (forEachDep_trace run Hrun gas t k 0
                (reflect_set t k v (record (EvSet t k v) st))) as (tr1 & H1).
    simpl in H1.
    destruct (forEachDep run gas t k 0 _) as [[] st1] eqn:E; simpl in *;
      try (exists (EvSet t k v :: tr1); rewrite H1; now rewrite <- app_assoc).
    destruct (IH st1) as (tr2 & H2).
    exists (EvSet t k v :: tr1 ++ tr2). rewrite H2, H1. rewrite <- !app_assoc. reflexivity.
  - apply IH.
  - destruct (IH (reflect_set t k v st)) as (tr & H). exists tr. exact H.
Qed.

Lemma effectFn_trace fuel :
  forall id st, exists tr, trace (snd (effectFn fuel id st)) = trace st ++ tr.
Proof.
  induction fuel as [|fuel IH]; intros id st; simpl.
  - exists []. now rewrite app_nil_r.
  - destruct (effects st !! id) as [fn|]; [|exists []; now rewrite app_nil_r].
    destruct (exec_trace (effectFn fuel) IH fuel fn
                (with_active (Some id) (record (EvRun id) st))) as (tr & H).
    destruct (exec _ _ _ _) as [o st2]. simpl in *.
    exists (EvRun id :: tr). rewrite H. now rewrite <- app_assoc.
Qed.

(** The wrapper of an existing task starts by running it. *)
Lemma effectFn_trace_run fuel id fn st :
  effects st !! id = Some fn ->
  exists tr, trace (snd (effectFn (S fuel) id st)) = trace st ++ EvRun id :: tr.
Proof.
  intros E. simpl. rewrite E.
  destruct (exec_trace (effectFn fuel) (effectFn_trace fuel) fuel fn
              (with_active (Some id) (record (EvRun id) st))) as (tr & H).
  destruct (exec _ _ _ _) as [o st2]. simpl in *.
  exists tr. rewrite H. now rewrite <- app_assoc.
Qed.

(** C3, as amended. When the dependency set of field [f] of subject [s]
    holds the single task [T], a write [s.f = v] through the proxy, for
    any [v] (equal to the current value or not), first performs the
    underlying write and then runs [T], from a state in which the field
    holds [v], all inside the call.  When the body of [T] only reads, the
    call returns, with the field holding [v], after one run of [T] and no
    more, and the current-task slot is as before. *)
Theorem write_reruns_dependent_once (st : rt) (s : nat) (f : string) (v : value)
    (T : nat) (fn : prog) (fuel : nat) :
  depsOf st s f = Some [T] ->
  effects st !! T = Some fn ->
  (exists st1,
     reflect_get s f st1 = v /\
     trace st1 = trace st ++ [EvSet s f v] /\
     activeEffect st1 = activeEffect st /\
     write (S fuel) s f v st =
       match effectFn (S fuel) T st1 with
       | (Returned, st2) => forEachDep (effectFn (S fuel)) fuel s f 1 st2
       | (o, st2) => (o, st2)
       end /\
     exists tr,
       trace (snd (write (S fuel) s f v st)) = trace st1 ++ EvRun T :: tr) /\
  (reader fn ->
   exists st' tr,
     write (S fuel) s f v st = (Returned, st') /\
     reflect_get s f st' = v /\
     trace st' = trace st ++ EvSet s f v :: EvRun T :: tr /\
     count_runs T tr = 0 /\
     count_runs T (trace st') = S (count_runs T (trace st)) /\
     activeEffect st' = activeEffect st).
Proof.
  intros Hd He. unfold write, proxy_set.
  set (st1 := reflect_set s f v (record (EvSet s f v) st)).
  assert (Hd1 : depsOf st1 s f = Some [T]) by exact Hd.
  split.
  { exists st1. split; [apply reflect_get_set|]. split; [reflexivity|].
    split; [reflexivity|]. split.
    { rewrite trigger_forEach. cbn [forEachDep]. rewrite Hd1. reflexivity. }
    rewrite trigger_forEach. cbn [forEachDep]. rewrite Hd1. cbn [lookup list_lookup].
    destruct (effectFn_trace_run fuel T fn st1 He) as (tr1 & H1).
    destruct (effectFn (S fuel) T st1) as [[] st2] eqn:E2; simpl in H1;
      try (exists tr1; simpl; now rewrite H1).
    destruct (forEachDep_trace (effectFn (S fuel)) (effectFn_trace (S fuel)) fuel s f 1 st2)
      as (tr2 & H2).
    exists (tr1 ++ tr2). rewrite H2, H1.
    change (trace st1) with (trace st ++ [EvSet s f v]).
    rewrite <- !app_assoc. reflexivity. }
  intros Hr.
  destruct (effectFn_reader fuel T fn st1 He Hr)
    as (st2 & tr & E2 & A2 & O2 & F2 & T2 & C2 & D2).
  exists st2, tr.
  assert (Hd2 : depsOf st2 s f = Some [T]) by (apply D2; [exact Hd1|left]).
  split.
  { rewrite trigger_forEach. cbn [forEachDep]. rewrite Hd1. cbn [lookup list_lookup].
    rewrite E2. destruct fuel; simpl; rewrite Hd2; reflexivity. }
  split.
  { unfold reflect_get. rewrite O2. apply reflect_get_set. }
  assert (Ht : trace st2 = trace st ++ EvSet s f v :: EvRun T :: tr).
  { rewrite T2. unfold st1. simpl. now rewrite <- app_assoc. }
  split; [exact Ht|]. split; [apply C2|]. split; [|exact A2].
  rewrite Ht.
  change (EvSet s f v :: EvRun T :: tr) with ([EvSet s f v; EvRun T] ++ tr).
  rewrite !count_runs_app, C2. unfold count_runs at 2. simpl.
  rewrite filter_cons_False by (simpl; discriminate).
  rewrite filter_cons_True by (simpl; now rewrite bool_decide_eq_true_2).
  simpl. lia.
Qed.

(** A task registered on [f], and [f] written with the value it holds. *)
Lemma write_reruns_dependent_once_witness :
  reflect_get 0 "f" one_reader = VNum 5 /\
  exists st' tr,
    write 1 0 "f" (VNum 5) one_reader = (Returned, st') /\
    reflect_get 0 "f" st' = VNum 5 /\
    trace st' = trace one_reader ++ EvSet 0 "f" (VNum 5) :: EvRun 0 :: tr /\
    count_runs 0 tr = 0 /\
    count_runs 0 (trace st') = S (count_runs 0 (trace one_reader)) /\
    activeEffect st' = activeEffect one_reader.
Proof.
  split; [reflexivity|].
  apply (write_reruns_dependent_once one_reader 0 "f" (VNum 5) 0 read_f 0).
  - vm_compute. reflexivity.
  - reflexivity.
  - apply reader_Get. intros _. apply reader_Ret.
Defined.

(** C3 as first stated fails for a task that writes the field back: the
    task [T], alone on [f], reads [f] and sets it to 0 unless it holds 0;
    the write [f = 1] runs [T], whose own write runs [T] again, so [T] has
    run twice when the call returns, and the field holds 0. *)
Lemma task_writing_back_runs_twice :
  depsOf one_writer 0 "f" = Some [0] /\
  effects one_writer !! 0 = Some write_back /\
  fst (write 3 0 "f" (VNum 1) one_writer) = Returned /\
  count_runs 0 (trace (snd (write 3 0 "f" (VNum 1) one_writer)))
    = 2 + count_runs 0 (trace one_writer) /\
  reflect_get 0 "f" (snd (write 3 0 "f" (VNum 1) one_writer)) = VNum 0.
Proof. vm_compute. repeat split. Qed.

(** ** Writes to a field a task is not registered on *)

Lemma forEachDep_readers fuel target key d T st0 :
  T ∉ d ->
  (forall e, e ∈ d -> exists fn, effects st0 !! e = Some fn /\ reader fn) ->
  forall gas i st,
    depsOf st target key = Some d ->
    effects st = effects st0 ->
    count_runs T (trace (snd (forEachDep (effectFn fuel) gas target key i st)))
      = count_runs T (trace st) /\
    (1 <= fuel -> length d <= gas + i ->
     fst (forEachDep (effectFn fuel) gas target key i st) = Returned).
Proof.
  intros HT Hd. induction gas as [|gas IH]; intros i st Hdeps Heff.
  - simpl. rewrite Hdeps. destruct (d !! i) as [e|] eqn:Ei; simpl.
    + split; [reflexivity|]. intros _ Hlen. apply lookup_lt_Some in Ei. lia.
    + auto.
  - simpl. rewrite Hdeps. destruct (d !! i) as [e|] eqn:Ei; simpl; [|auto].
    assert (Hin : e ∈ d) by (apply list_elem_of_lookup; eauto).
    destruct fuel as [|fuel].
    { simpl. split; [reflexivity|]. lia. }
    destruct (Hd e Hin) as (fn & Hfn & Hr). rewrite <- Heff in Hfn.
    destruct (effectFn_reader fuel e fn st Hfn Hr)
      as (st2 & tr & E2 & A2 & O2 & F2 & T2 & C2 & D2).
    rewrite E2.
    destruct (IH (S i) st2 (D2 _ _ _ Hdeps Hin) ltac:(congruence)) as [Hc Hret].
    split.
    + rewrite Hc, T2.
      change (EvRun e :: tr) with ([EvRun e] ++ tr).
      rewrite !count_runs_app, C2. unfold count_runs at 2.
      rewrite filter_cons_False.
      * simpl. lia.
      * simpl. rewrite bool_decide_eq_false_2; [discriminate|].
        intros ->. contradiction.
    + intros Hf Hlen. apply Hret; [exact Hf|lia].
Qed.

(** C8, as amended. When task [T] is not in the dependency set of field
    [g] of the subject (no execution of [T] has read [g] through the proxy
    while [T] was the current task; a task that once did stays registered)
    and the tasks that are in it only read, a write of any value to [g]
    does not run [T]; given a budget of at least one nested call and one
    loop step per registered task, the write returns. *)
Theorem write_skips_unregistered (st : rt) (s : nat) (g : string) (v : value)
    (T : nat) (fuel : nat) :
  (forall d, depsOf st s g = Some d ->
     (T ∉ d) /\ forall e, e ∈ d -> exists fn, effects st !! e = Some fn /\ reader fn) ->
  count_runs T (trace (snd (write fuel s g v st))) = count_runs T (trace st) /\
  (1 <= fuel ->
   (forall d, depsOf st s g = Some d -> length d <= fuel) ->
   fst (write fuel s g v st) = Returned).
Proof.
  intros H. unfold write, proxy_set. rewrite trigger_forEach.
  set (st1 := reflect_set s g v (record (EvSet s g v) st)).
  assert (Htr : count_runs T (trace st1) = count_runs T (trace st)).
  { unfold st1. simpl. rewrite count_runs_app. unfold count_runs at 2.
    rewrite filter_cons_False by (simpl; discriminate). simpl. lia. }
  destruct (depsOf st s g) as [d|] eqn:Hd.
  - destruct (H d eq_refl) as [HT Hr].
    destruct (forEachDep_readers fuel s g d T st1 HT Hr fuel 0 st1 Hd eq_refl) as [Hc Hret].
    split; [now rewrite Hc|].
    intros Hf Hlen. apply Hret; [exact Hf|]. specialize (Hlen d eq_refl). lia.
  - assert (Hnone : forEachDep (effectFn fuel) fuel s g 0 st1 = (Returned, st1)).
    { assert (Hd1 : depsOf st1 s g = None) by exact Hd.
      destruct fuel; simpl; rewrite Hd1; reflexivity. }
    rewrite Hnone. simpl. split; [exact Htr|reflexivity].
Qed.

(** A task registered on [f] alone, another on [g] alone, and [g] written. *)
Lemma write_skips_unregistered_witness :
  count_runs 0 (trace (snd (write 2 0 "g" (VNum 1) two_readers)))
    = count_runs 0 (trace two_readers) /\
  (1 <= 2 ->
   (forall d, depsOf two_readers 0 "g" = Some d -> length d <= 2) ->
   fst (write 2 0 "g" (VNum 1) two_readers) = Returned).
Proof.
  apply (write_skips_unregistered two_readers 0 "g" (VNum 1) 0 2).
  intros d Hd. vm_compute in Hd. injection Hd as <-. split.
  - intros Hin. apply list_elem_of_singleton in Hin. discriminate Hin.
  - intros e He. apply list_elem_of_singleton in He as ->.
    exists read_g. split; [reflexivity|].
    apply reader_Get. intros _. apply reader_Ret.
Defined.

(** Two ways a task whose most recent execution read only [f] is run
    again by a write to [g]: it read [g] in an earlier execution and is
    still registered on it; or another task, registered on [g], writes [f]. *)
Lemma write_to_other_field_reruns :
  (effects stale_2 !! 0 = Some once_g_then_f /\
   last_run_reads 0 (trace stale_2) = [(0, "f")] /\
   fst (write 3 0 "g" (VNum 2) stale_2) = Returned /\
   count_runs 0 (trace (snd (write 3 0 "g" (VNum 2) stale_2)))
     = S (count_runs 0 (trace stale_2))) /\
  (effects chain_2 !! 0 = Some read_f /\
   last_run_reads 0 (trace chain_2) = [(0, "f")] /\
   depsOf chain_2 0 "g" = Some [1] /\
   fst (write 3 0 "g" (VNum 2) chain_2) = Returned /\
   count_runs 0 (trace (snd (write 3 0 "g" (VNum 2) chain_2)))
     = S (count_runs 0 (trace chain_2))).
Proof.
  split; (split; [reflexivity|]); vm_compute; repeat split; reflexivity.
Qed.

(** ** Registration and writes without dependents *)

Lemma set_add_elem e d : e ∈ set_add e d.
Proof.
  unfold set_add. destruct (bool_decide_reflect (e ∈ d)); [assumption|].
  apply elem_of_app. right. left.
Qed.

Lemma set_add_NoDup e d : NoDup d -> NoDup (set_add e d).
Proof.
  intros H. unfold set_add. destruct (bool_decide_reflect (e ∈ d)); [assumption|].
  apply NoDup_app. split; [assumption|]. split.
  - intros x Hx ->%list_elem_of_singleton. contradiction.
  - apply NoDup_singleton.
Qed.

(** X3. A read of field [key] of [target] while task [e] is current
    leaves [e] in the dependency set of the field, and a second read in the
    same execution changes nothing: the task is registered once. *)
Theorem track_registers_once (st : rt) (target : nat) (key : string) (e : nat) :
  activeEffect st = Some e ->
  (exists d, depsOf (track target key st) target key = Some d /\ e ∈ d /\
             (NoDup (default [] (depsOf st target key)) -> NoDup d)) /\
  track target key (track target key st) = track target key st.
Proof.
  intros Ha. split.
  - rewrite depsOf_track, Ha. rewrite decide_True by auto.
    eexists. split; [reflexivity|]. split; [apply set_add_elem|]. apply set_add_NoDup.
  - unfold track at 1. rewrite track_active, Ha.
    assert (Hd : default [] (default ∅ (targetMap (track target key st) !! target) !! key)
                 = set_add e (default [] (default ∅ (targetMap st !! target) !! key))).
    { unfold track. rewrite Ha. cbn [targetMap with_targetMap].
      rewrite lookup_insert_eq. cbv [from_option id]. now rewrite lookup_insert_eq. }
    rewrite Hd. rewrite set_add_in by apply set_add_elem.
    unfold track. rewrite Ha. cbn [targetMap with_targetMap].
    rewrite lookup_insert_eq. cbv [from_option id].
    unfold with_targetMap. cbn [activeEffect targetMap objects effects trace]. f_equal.
    rewrite insert_insert_eq. f_equal. apply insert_insert_eq.
Qed.

Lemma track_registers_once_witness :
  (exists d, depsOf (track 0 "f" (with_active (Some 0) one_reader)) 0 "f" = Some d /\
             0 ∈ d /\
             (NoDup (default [] (depsOf (with_active (Some 0) one_reader) 0 "f")) -> NoDup d)) /\
  track 0 "f" (track 0 "f" (with_active (Some 0) one_reader))
    = track 0 "f" (with_active (Some 0) one_reader).
Proof.
  apply (track_registers_once (with_active (Some 0) one_reader) 0 "f" 0). reflexivity.
Defined.

(** X4. A write to a field on which no task is registered performs the
    underlying write and returns without running anything. *)
Theorem write_without_dependents (st : rt) (target : nat) (key : string)
    (v : value) (fuel : nat) :
  depsOf st target key = None ->
  write fuel target key v st
    = (Returned, reflect_set target key v (record (EvSet target key v) st)).
Proof.
  intros Hd. unfold write, proxy_set. rewrite trigger_forEach.
  assert (Hd1 : depsOf (reflect_set target key v (record (EvSet target key v) st)) target key
                = None) by exact Hd.
  destruct fuel; simpl; rewrite Hd1; reflexivity.
Qed.

Lemma write_without_dependents_witness :
  write 1 0 "g" (VNum 1) one_reader
    = (Returned, reflect_set 0 "g" (VNum 1) (record (EvSet 0 "g" (VNum 1)) one_reader)).
Proof.
  apply (write_without_dependents one_reader 0 "g" (VNum 1) 1). reflexivity.
Defined.
(** ** What every run preserves *)

Section Preserved.

Variable R : rt -> rt -> Prop.
Hypothesis R_refl : forall st, R st st.
Hypothesis R_trans : forall a b c, R a b -> R b c -> R a c.
Hypothesis R_get : forall t k st, R st (snd (proxy_get t k st)).
Hypothesis R_set : forall t k v st, R st (reflect_set t k v (record (EvSet t k v) st)).
Hypothesis R_raw : forall t k v st, R st (reflect_set t k v st).
Hypothesis R_enter : forall id st, R st (with_active (Some id) (record (EvRun id) st)).
Hypothesis R_leave : forall a st, R st (with_active a st).

Lemma forEachDep_pres run :
  (forall e st, R st (snd (run e st))) ->
  forall gas target key i st, R st (snd (forEachDep run gas target key i st)).
Proof.
  intros Hrun. induction gas as [|gas IH]; intros target key i st; simpl.
  - destruct (depsOf st target key) as [deps|]; [|apply R_refl].
    destruct (deps !! i); apply R_refl.
  - destruct (depsOf st target key) as [deps|]; [|apply R_refl].
    destruct (deps !! i) as [e|]; [|apply R_refl].
    specialize (Hrun e st).
    destruct (run e st) as [[] st'] eqn:E; simpl in *; try exact Hrun.
    eapply R_trans; [exact Hrun|apply IH].
Qed.

Lemma proxy_set_pres run :
  (forall e st, R st (snd (run e st))) ->
  forall gas target key v st, R st (snd (proxy_set run gas target key v st)).
Proof.
  intros Hrun gas target key v st. unfold proxy_set. rewrite trigger_forEach.
  eapply R_trans; [apply R_set|]. now apply forEachDep_pres.
Qed.

Lemma exec_pres run :
  (forall e st, R st (snd (run e st))) ->
  forall gas p st, R st (snd (exec run gas p st)).
Proof.
  intros Hrun gas p. induction p as [| |t k f IH|t k v p IH|t k f IH|t k v p IH];
    intros st; simpl; try apply R_refl.
  - eapply R_trans; [apply (R_get t k st)|]. apply IH.
  - pose proof (proxy_set_pres run Hrun gas t k v st) as Hs.
    destruct (proxy_set run gas t k v st) as [[] st1]; simpl in *; try exact Hs.
    eapply R_trans; [exact Hs|apply IH].
  - apply IH.
  - eapply R_trans; [apply R_raw|apply IH].
Qed.

Lemma effectFn_pres fuel : forall id st, R st (snd (effectFn fuel id st)).
Proof.
  induction fuel as [|fuel IH]; intros id st; simpl; [apply R_refl|].
  destruct (effects st !! id) as [fn|]; [|apply R_refl].
  pose proof (exec_pres (effectFn fuel) IH fuel fn
                (with_active (Some id) (record (EvRun id) st))) as H.
  destruct (exec _ _ _ _) as [o st2]. simpl in *.
  eapply R_trans; [apply R_enter|]. eapply R_trans; [exact H|apply R_leave].
Qed.

Lemma write_pres fuel target key v st : R st (snd (write fuel target key v st)).
Proof. unfold write. apply proxy_set_pres. apply effectFn_pres. Qed.

End Preserved.

Lemma deps_kept_same st st' : targetMap st' = targetMap st -> deps_kept st st'.
Proof.
  intros H target key d Hd. exists []. rewrite app_nil_r.
  unfold depsOf in *. now rewrite H.
Qed.

Lemma deps_kept_trans a b c : deps_kept a b -> deps_kept b c -> deps_kept a c.
Proof.
  intros H1 H2 target key d Hd.
  destruct (H1 _ _ _ Hd) as (d1 & E1). destruct (H2 _ _ _ E1) as (d2 & E2).
  exists (d1 ++ d2). now rewrite app_assoc.
Qed.

Lemma deps_kept_track t k st : deps_kept st (track t k st).
Proof.
  intros target key d Hd. rewrite depsOf_track.
  destruct (activeEffect st) as [a|]; [|exists []; now rewrite app_nil_r].
  destruct (decide _); [|exists []; now rewrite app_nil_r].
  rewrite Hd. simpl. unfold set_add. destruct (bool_decide (a ∈ d)).
  - exists []. now rewrite app_nil_r.
  - now exists [a].
Qed.

Lemma deps_kept_run fuel id st : deps_kept st (snd (effectFn fuel id st)).
Proof.
  revert id st. apply effectFn_pres.
  - intros st. now apply deps_kept_same.
  - apply deps_kept_trans.
  - intros t k st. unfold proxy_get. simpl.
    eapply deps_kept_trans; [|apply deps_kept_track]. now apply deps_kept_same.
  - intros. now apply deps_kept_same.
  - intros. now apply deps_kept_same.
  - intros. now apply deps_kept_same.
  - intros. now apply deps_kept_same.
Qed.

(** X12. No run ever removes a registration: through [effect], through a
    wrapper, or through a write, every dependency set keeps the tasks it
    held, in their order, and can only gain tasks at its end. *)
Theorem registrations_never_removed :
  (forall fuel fn st, deps_kept st (snd (effect fuel fn st))) /\
  (forall fuel id st, deps_kept st (snd (effectFn fuel id st))) /\
  (forall fuel target key v st, deps_kept st (snd (write fuel target key v st))).
Proof.
  split; [|split].
  - intros fuel fn st. unfold effect.
    eapply deps_kept_trans; [|apply deps_kept_run]. now apply deps_kept_same.
  - apply deps_kept_run.
  - intros fuel target key v st. apply (write_pres deps_kept).
    + intros s. now apply deps_kept_same.
    + apply deps_kept_trans.
    + intros t k s. unfold proxy_get. simpl.
      eapply deps_kept_trans; [|apply deps_kept_track]. now apply deps_kept_same.
    + intros. now apply deps_kept_same.
    + intros. now apply deps_kept_same.
    + intros. now apply deps_kept_same.
    + intros. now apply deps_kept_same.
Qed.

Lemma reads_registered_same st st' e :
  targetMap st' = targetMap st -> trace st' = trace st ++ [e] ->
  (forall a t k, e <> EvGet (Some a) t k) ->
  reads_registered st -> reads_registered st'.
Proof.
  intros Hm Ht He H a target key Hin. rewrite Ht in Hin.
  apply elem_of_app in Hin as [Hin|Hin].
  - destruct (H _ _ _ Hin) as (d & Hd & Ha). exists d. split; [|exact Ha].
    unfold depsOf in *. now rewrite Hm.
  - apply list_elem_of_singleton in Hin. symmetry in Hin. now apply He in Hin.
Qed.

Lemma reads_registered_get t k st :
  reads_registered st -> reads_registered (snd (proxy_get t k st)).
Proof.
  intros H a target key Hin. unfold proxy_get in *. simpl in *.
  set (st1 := record (EvGet (activeEffect st) t k) st) in *.
  assert (Ht : trace (track t k st1) = trace st ++ [EvGet (activeEffect st) t k]).
  { unfold track. destruct (activeEffect st1); reflexivity. }
  rewrite Ht in Hin. apply elem_of_app in Hin as [Hin|Hin].
  - destruct (H _ _ _ Hin) as (d & Hd & Ha).
    destruct (deps_kept_track t k st1 target key d Hd) as (d' & Hd').
    exists (d ++ d'). split; [exact Hd'|]. apply elem_of_app. now left.
  - apply list_elem_of_singleton in Hin. injection Hin as Ha -> ->.
    rewrite depsOf_track. change (activeEffect st1) with (activeEffect st).
    rewrite <- Ha. rewrite decide_True by auto.
    eexists. split; [reflexivity|]. apply set_add_elem.
Qed.

Lemma reads_registered_run fuel id st :
  reads_registered st -> reads_registered (snd (effectFn fuel id st)).
Proof.
  revert id st.
  apply (effectFn_pres (fun st st' => reads_registered st -> reads_registered st')); auto.
  - intros t k st. apply reads_registered_get.
  - intros t k v st. apply (reads_registered_same st _ (EvSet t k v)); auto.
  - intros id st. apply (reads_registered_same st _ (EvRun id)); auto.
Qed.

Lemma reads_registered_call fuel c st :
  reads_registered st -> reads_registered (run_call fuel c st).
Proof.
  intros H. destruct c as [fn|t k v]; simpl.
  - unfold effect. apply reads_registered_run.
    intros a target key Hin. apply (H a target key Hin).
  - apply (write_pres (fun st st' => reads_registered st -> reads_registered st')); auto.
    + intros t' k' s. apply reads_registered_get.
    + intros t' k' v' s. apply (reads_registered_same s _ (EvSet t' k' v')); auto.
    + intros id s. apply (reads_registered_same s _ (EvRun id)); auto.
Qed.

(** X13. In every state reached from the initial one by calls to [effect]
    and by writes, however they end, a task that has read a field through
    the proxy while it was the current task is in the dependency set of
    that field. *)
Theorem every_read_is_registered (fuel : nat) (cs : list call) :
  reads_registered (run_calls fuel cs init).
Proof.
  unfold run_calls.
  assert (H0 : reads_registered init) by (intros a t k Hin; inversion Hin).
  revert H0. generalize init. induction cs as [|c cs IH]; intros st H; simpl; [exact H|].
  apply IH. now apply reads_registered_call.
Qed.

(** A task that writes the field it has just read. *)
Lemma self_write_exhausts t k (w : value -> value) (r : value -> prog) id :
  forall fuel st,
    effects st !! id = Some (Get t k (fun v => Put t k (w v) (r v))) ->
    (forall d, depsOf st t k = Some d -> d = [] \/ d = [id]) ->
    fst (effectFn fuel id st) = Exhausted /\
    count_runs id (trace (snd (effectFn fuel id st))) = fuel + count_runs id (trace st).
Proof.
  induction fuel as [|fuel IH]; intros st He Hd; [split; reflexivity|].
  simpl. rewrite He. cbn [exec].
  unfold proxy_get. cbn [fst snd].
  set (st1 := track t k (record (EvGet (activeEffect (with_active (Some id) (record (EvRun id) st))) t k)
                           (with_active (Some id) (record (EvRun id) st)))).
  assert (Hd1 : depsOf st1 t k = Some [id]).
  { unfold st1. rewrite depsOf_track. cbn [activeEffect with_active record].
    rewrite decide_True by auto.
    change (depsOf (record _ (with_active _ (record _ st))) t k) with (depsOf st t k).
    destruct (depsOf st t k) as [d|] eqn:E; [|reflexivity].
    destruct (Hd d eq_refl) as [->| ->]; [reflexivity|].
    simpl. rewrite set_add_in by left. reflexivity. }
  assert (He1 : effects st1 = effects st).
  { unfold st1, track. cbn. reflexivity. }
  unfold proxy_set. rewrite trigger_forEach.
  set (st2 := reflect_set t k _ _).
  assert (Hd2 : depsOf st2 t k = Some [id]) by exact Hd1.
  assert (Hc2 : count_runs id (trace st2) = S (count_runs id (trace st))).
  { assert (Ht : exists o1 o2, trace st2 = trace st ++ [EvRun id; EvGet o1 t k; EvSet t k o2]).
    { eexists _, _. unfold st2, st1, track. cbn. rewrite <- !app_assoc. reflexivity. }
    destruct Ht as (o1 & o2 & ->). rewrite count_runs_app. unfold count_runs at 2.
    rewrite filter_cons_True by (simpl; now rewrite bool_decide_eq_true_2).
    rewrite filter_cons_False by (simpl; discriminate).
    rewrite filter_cons_False by (simpl; discriminate). simpl. lia. }
  destruct fuel as [|fuel'].
  { cbn [forEachDep]. rewrite Hd2. cbn [lookup list_lookup fst snd]. split; [reflexivity|].
    change (trace (with_active (activeEffect st) st2)) with (trace st2). rewrite Hc2. lia. }
  cbn [forEachDep]. rewrite Hd2. cbn [lookup list_lookup].
  destruct (IH st2) as [Hx Hc].
  { change (effects st2) with (effects st1). rewrite He1. exact He. }
  { intros d E. rewrite Hd2 in E. injection E as <-. now right. }
  destruct (effectFn (S fuel') id st2) as [o st3]. cbn [fst snd] in Hx, Hc. subst o.
  cbn [fst snd]. split; [reflexivity|].
  change (trace (with_active (activeEffect st) st3)) with (trace st3). rewrite Hc, Hc2. lia.
Qed.

(** X14. A task that writes, through the proxy, the field it has just read
    re-enters itself through [trigger] before it returns, at every level:
    on a field without dependents, [effect] uses up every budget [n] of
    nested calls, with [n] runs of the task started and none returned (so
    that an engine with a bounded call stack ends the call with its stack
    error), and [activeEffect] is restored when the call is left. *)
Theorem self_write_nests_without_bound (t : nat) (k : string) (w : value -> value)
    (r : value -> prog) (n : nat) (st : rt) :
  depsOf st t k = None ->
  fst (effect n (Get t k (fun v => Put t k (w v) (r v))) st) = Exhausted /\
  count_runs (length (effects st))
    (trace (snd (effect n (Get t k (fun v => Put t k (w v) (r v))) st)))
    = n + count_runs (length (effects st)) (trace st) /\
  activeEffect (snd (effect n (Get t k (fun v => Put t k (w v) (r v))) st))
    = activeEffect st.
Proof.
  intros Hd. unfold effect.
  destruct (self_write_exhausts t k w r (length (effects st)) n
              (with_effects (effects st ++ [Get t k (fun v => Put t k (w v) (r v))]) st))
    as [Hx Hc].
  - cbn. now rewrite list_lookup_middle.
  - intros d E. change (depsOf (with_effects _ st) t k) with (depsOf st t k) in E. congruence.
  - split; [exact Hx|]. split; [exact Hc|]. now rewrite effectFn_active.
Qed.

Lemma self_write_nests_without_bound_witness :
  fst (effect 5 count_up init) = Exhausted /\
  count_runs 0 (trace (snd (effect 5 count_up init))) = 5 /\
  activeEffect (snd (effect 5 count_up init)) = None.
Proof.
  apply (self_write_nests_without_bound 0 "count"
           (fun v => match v with VNum z => VNum (z + 1) | _ => VNum 1 end)
           (fun _ => Ret) 5 init).
  reflexivity.
Defined.

Lemma forEachDep_readers_objects fuel target key d st0 :
  (forall e, e ∈ d -> exists fn, effects st0 !! e = Some fn /\ reader fn) ->
  forall gas i st,
    depsOf st target key = Some d ->
    effects st = effects st0 ->
    objects (snd (forEachDep (effectFn fuel) gas target key i st)) = objects st.
Proof.
  intros Hd. induction gas as [|gas IH]; intros i st Hdeps Heff.
  - simpl. rewrite Hdeps. destruct (d !! i); reflexivity.
  - simpl. rewrite Hdeps. destruct (d !! i) as [e|] eqn:Ei; simpl; [|reflexivity].
    assert (Hin : e ∈ d) by (apply list_elem_of_lookup; eauto).
    destruct fuel as [|fuel]; [reflexivity|].
    destruct (Hd e Hin) as (fn & Hfn & Hr). rewrite <- Heff in Hfn.
    destruct (effectFn_reader fuel e fn st Hfn Hr)
      as (st2 & tr & E2 & A2 & O2 & F2 & T2 & C2 & D2).
    rewrite E2. rewrite IH; [exact O2|now apply D2|congruence].
Qed.

Lemma reflect_get_set_ne t k target key v st :
  (t, k) <> (target, key) ->
  reflect_get t k (reflect_set target key v st) = reflect_get t k st.
Proof.
  intros Hne. unfold reflect_get, reflect_set. simpl.
  destruct (decide (t = target)) as [->|Ht].
  - rewrite lookup_insert_eq. rewrite lookup_insert_ne by congruence.
    destruct (objects st !! target); simpl; [reflexivity|]. now rewrite lookup_empty.
  - now rewrite lookup_insert_ne.
Qed.

Lemma reflect_get_objects t k st st' :
  objects st' = objects st -> reflect_get t k st' = reflect_get t k st.
Proof. intros H. unfold reflect_get. now rewrite H. Qed.

Lemma proxy_get_value t k st : fst (proxy_get t k st) = reflect_get t k st.
Proof.
  unfold proxy_get. cbn [fst]. apply reflect_get_objects.
  unfold track. cbn. destruct (activeEffect st); reflexivity.
Qed.

(** X15. When the tasks registered on a field only read, a read of the
    field after a write returns the value written, and a read of any other
    field returns what it returned before the write. *)
Theorem write_then_read (st : rt) (s : nat) (f : string) (v : value) (fuel : nat) :
  (forall d e, depsOf st s f = Some d -> e ∈ d ->
     exists fn, effects st !! e = Some fn /\ reader fn) ->
  fst (proxy_get s f (snd (write fuel s f v st))) = v /\
  (forall t k, (t, k) <> (s, f) ->
     fst (proxy_get t k (snd (write fuel s f v st))) = fst (proxy_get t k st)).
Proof.
  intros H. unfold write, proxy_set. rewrite trigger_forEach.
  set (st1 := reflect_set s f v (record (EvSet s f v) st)).
  assert (Ho : objects (snd (forEachDep (effectFn fuel) fuel s f 0 st1)) = objects st1).
  { destruct (depsOf st s f) as [d|] eqn:Hd.
    - apply (forEachDep_readers_objects fuel s f d st1); auto.
      intros e He. exact (H d e eq_refl He).
    - assert (Hd1 : depsOf st1 s f = None) by exact Hd.
      destruct fuel; simpl; rewrite Hd1; reflexivity. }
  split.
  - rewrite proxy_get_value, (reflect_get_objects _ _ _ _ Ho). apply reflect_get_set.
  - intros t k Hne. rewrite !proxy_get_value, (reflect_get_objects _ _ _ _ Ho).
    unfold st1. rewrite reflect_get_set_ne by exact Hne. reflexivity.
Qed.

Lemma write_then_read_witness :
  fst (proxy_get 0 "f" (snd (write 1 0 "f" (VNum 7) one_reader))) = VNum 7 /\
  (forall t k, (t, k) <> (0, "f") ->
     fst (proxy_get t k (snd (write 1 0 "f" (VNum 7) one_reader)))
     = fst (proxy_get t k one_reader)).
Proof.
  apply (write_then_read one_reader 0 "f" (VNum 7) 1).
  intros d e Hd He. vm_compute in Hd. injection Hd as <-.
  apply list_elem_of_singleton in He as ->.
  exists read_f. split; [reflexivity|].
  apply reader_Get. intros _. apply reader_Ret.
Defined.

Lemma runs_app tr1 tr2 : runs (tr1 ++ tr2) = runs tr1 ++ runs tr2.
Proof. apply omap_app. Qed.

Lemma runs_none tr : (forall id, count_runs id tr = 0) -> runs tr = [].
Proof.
  induction tr as [|e tr IH]; intros H; [reflexivity|].
  destruct e as [id| |]; cbn.
  - specialize (H id). unfold count_runs in H.
    rewrite filter_cons_True in H by (simpl; now rewrite bool_decide_eq_true_2).
    discriminate H.
  - apply IH. intros id. specialize (H id). unfold count_runs in *.
    now rewrite filter_cons_False in H by (simpl; discriminate).
  - apply IH. intros id. specialize (H id). unfold count_runs in *.
    now rewrite filter_cons_False in H by (simpl; discriminate).
Qed.

Lemma forEachDep_in_order fuel target key d st0 :
  (forall e, e ∈ d -> exists fn, effects st0 !! e = Some fn /\ reader fn) ->
  forall gas i st,
    depsOf st target key = Some d ->
    effects st = effects st0 ->
    length d <= gas + i ->
    exists st',
      forEachDep (effectFn (S fuel)) gas target key i st = (Returned, st') /\
      runs (trace st') = runs (trace st) ++ drop i d /\
      objects st' = objects st /\
      activeEffect st' = activeEffect st /\
      depsOf st' target key = Some d.
Proof.
  intros Hd. induction gas as [|gas IH]; intros i st Hdeps Heff Hlen.
  - exists st. simpl. rewrite Hdeps.
    rewrite lookup_ge_None_2 by (simpl in Hlen; lia).
    rewrite drop_ge by (simpl in Hlen; lia). rewrite app_nil_r. auto.
  - cbn [forEachDep]. rewrite Hdeps. destruct (d !! i) as [e|] eqn:Ei.
    + assert (Hin : e ∈ d) by (apply list_elem_of_lookup; eauto).
      destruct (Hd e Hin) as (fn & Hfn & Hr). rewrite <- Heff in Hfn.
      destruct (effectFn_reader fuel e fn st Hfn Hr)
        as (st2 & tr & E2 & A2 & O2 & F2 & T2 & C2 & D2).
      rewrite E2.
      destruct (IH (S i) st2) as (st' & E & R & O & A & D).
      { now apply (D2 target key d). }
      { congruence. }
      { lia. }
      exists st'. split; [exact E|]. split; [|split; [congruence|split; [congruence|exact D]]].
      rewrite R, T2, runs_app.
      change (runs (EvRun e :: tr)) with (e :: runs tr).
      rewrite (runs_none tr C2), <- app_assoc. cbn [app].
      now rewrite (drop_S d e i Ei).
    + exists st. rewrite drop_ge by (now apply lookup_ge_None). rewrite app_nil_r. auto.
Qed.

(** X21. When the tasks registered on a field only read, a write to the
    field through the proxy stores the value, runs every registered task
    once, in the order in which they were registered, and returns; the
    dependency set of the field and the current-task slot are as
    before. *)
Theorem write_runs_dependents_in_order (st : rt) (s : nat) (f : string) (v : value)
    (d : list nat) (fuel : nat) :
  depsOf st s f = Some d ->
  (forall e, e ∈ d -> exists fn, effects st !! e = Some fn /\ reader fn) ->
  1 <= fuel ->
  length d <= fuel ->
  exists st',
    write fuel s f v st = (Returned, st') /\
    runs (trace st') = runs (trace st) ++ d /\
    reflect_get s f st' = v /\
    depsOf st' s f = Some d /\
    activeEffect st' = activeEffect st.
Proof.
  intros Hd Hr Hf Hlen. destruct fuel as [|fuel]; [lia|].
  unfold write, proxy_set. rewrite trigger_forEach.
  set (st1 := reflect_set s f v (record (EvSet s f v) st)).
  destruct (forEachDep_in_order fuel s f d st1 Hr (S fuel) 0 st1) as (st' & E & R & O & A & D).
  { exact Hd. }
  { reflexivity. }
  { lia. }
  exists st'. split; [exact E|]. split; [|split; [|split; [exact D|exact A]]].
  - rewrite R. unfold st1. simpl. rewrite runs_app. cbn. now rewrite app_nil_r.
  - rewrite (reflect_get_objects _ _ _ _ O). apply reflect_get_set.
Qed.

Lemma write_runs_dependents_in_order_witness :
  exists st',
    write 2 0 "f" (VNum 7) two_on_f = (Returned, st') /\
    runs (trace st') = runs (trace two_on_f) ++ [0; 1] /\
    reflect_get 0 "f" st' = VNum 7 /\
    depsOf st' 0 "f" = Some [0; 1] /\
    activeEffect st' = activeEffect two_on_f.
Proof.
  apply (write_runs_dependents_in_order two_on_f 0 "f" (VNum 7) [0; 1] 2).
  - vm_compute. reflexivity.
  - intros e He. exists read_f. split.
    + apply list_elem_of_In in He. vm_compute in He.
      destruct He as [<-|[<-|[]]]; vm_compute; reflexivity.
    + apply reader_Get. intros _. apply reader_Ret.
  - lia.
  - simpl. lia.
Defined.

End ReactivityFacts.

(** * Properties of the component layer *)

Module ComponentFacts.

Import Component.
Import Reactivity.
Import ReactivitySpec ComponentSpec Scenario.
Import ReactivityFacts VDomFacts.

Lemma fresh_target_fresh st :
  objects st !! fresh_target st = None /\ targetMap st !! fresh_target st = None.
Proof.
  assert (H : fresh_target st ∉ base.dom (objects st) ∪ base.dom (targetMap st)).
  { intros Hin. apply elem_of_elements in Hin. apply max_list_elem_of_le in Hin.
    unfold fresh_target in Hin. lia. }
  split; apply not_elem_of_dom; set_solver.
Qed.

Lemma set_add_idem a d : set_add a (set_add a d) = set_add a d.
Proof. apply set_add_in. apply set_add_elem. Qed.

Lemma run_view_proxy s id fields : forall r st,
  objects st !! s = Some fields ->
  activeEffect st = Some id ->
  exists st',
    run_view (Proxy s) r st = (view_value fields r, st') /\
    objects st' = objects st /\
    activeEffect st' = Some id /\
    effects st' = effects st /\
    count_runs id (trace st') = count_runs id (trace st) /\
    (forall t k, depsOf st' t k =
       if decide (t = s /\ k ∈ view_reads fields r)
       then Some (set_add id (default [] (depsOf st t k)))
       else depsOf st t k).
Proof.
  induction r as [v|key k IH]; intros st Ho Ha.
  - exists st. simpl. repeat split; auto.
    intros t k. rewrite decide_False; [reflexivity|]. intros [_ H]. inversion H.
  - cbn [run_view view_value view_reads]. unfold proxy_get.
    set (st1 := track s key (record (EvGet (activeEffect st) s key) st)).
    assert (Ho1 : objects st1 = objects st).
    { unfold st1, track. cbn. destruct (activeEffect st); reflexivity. }
    assert (Hv : reflect_get s key st1 = field fields key).
    { unfold reflect_get. rewrite Ho1, Ho. reflexivity. }
    rewrite Hv.
    destruct (IH (field fields key) st1) as (st' & E & O & A & F & C & D).
    { now rewrite Ho1. }
    { unfold st1. now rewrite track_active. }
    exists st'. split; [exact E|]. split; [congruence|]. split; [exact A|].
    split; [|split].
    + rewrite F. unfold st1, track. cbn. destruct (activeEffect st); reflexivity.
    + rewrite C.
      assert (Ht : trace st1 = trace st ++ [EvGet (activeEffect st) s key]).
      { unfold st1, track. cbn [activeEffect record]. rewrite Ha. reflexivity. }
      rewrite Ht, count_runs_app. unfold count_runs at 2.
      rewrite filter_cons_False by (simpl; discriminate). simpl. lia.
    + intros t k0. rewrite D. unfold st1. rewrite !depsOf_track.
      cbn [activeEffect record]. rewrite Ha.
      change (depsOf (record (EvGet (Some id) s key) st) t k0) with (depsOf st t k0).
      destruct (decide (t = s /\ k0 = key)) as [[-> ->]|H1];
        destruct (decide (_ /\ _ ∈ view_reads fields (k (field fields key)))) as [[H2a H2]|H2];
        destruct (decide (_ /\ _ ∈ key :: view_reads fields (k (field fields key))))
          as [[H3a H3]|H3];
        simpl; rewrite ?set_add_idem; try reflexivity; exfalso.
      * apply H3. split; [reflexivity|left].
      * apply H3. split; [reflexivity|left].
      * apply H3. split; [exact H2a|now right].
      * apply elem_of_cons in H3 as [->|H3]; tauto.
Qed.

(** What [createApp] does for a component whose [setup] returns an object. *)
Lemma createApp_run comp c w fields :
  instance_setup comp = SetupObject fields ->
  renderable (view_value fields (instance_render comp)) = true ->
  wf (w_dom w) -> c < length (heap (w_dom w)) -> w_vnode w !! c = None ->
  exists v' d' rt',
    mount (view_value fields (instance_render comp)) (Some c) (w_dom w) = (Ok v', d') /\
    createApp comp c w =
      (Ok (Instance (instance_render comp) (SetupObject fields) (Proxy (fresh_target (w_rt w)))),
       World rt' d'
         (w_apps w ++ [App (Instance (instance_render comp) (SetupObject fields)
                              (Proxy (fresh_target (w_rt w)))) c (Some v')])
         (<[c := v']> (w_vnode w))) /\
    activeEffect rt' = activeEffect (w_rt w) /\
    objects rt' = <[fresh_target (w_rt w) := fields]> (objects (w_rt w)) /\
    count_runs (length (w_apps w)) (trace rt')
      = S (count_runs (length (w_apps w)) (trace (w_rt w))) /\
    (forall t k, depsOf rt' t k =
       if decide (t = fresh_target (w_rt w) /\
                  k ∈ view_reads fields (instance_render comp))
       then Some [length (w_apps w)]
       else depsOf (w_rt w) t k).
Proof.
  intros Hs Hr Hwf Hc Hv.
  set (s := fresh_target (w_rt w)). set (id := length (w_apps w)).
  set (r := instance_render comp).
  set (inst := Instance r (SetupObject fields) (Proxy s)).
  destruct (mount_ok (view_value fields r) Hr c (w_dom w)) as (v' & d' & l & Em & _).
  set (rt1 := with_objects (<[s := fields]> (objects (w_rt w))) (w_rt w)).
  destruct (run_view_proxy s id fields r (with_active (Some id) (record (EvRun id) rt1)))
    as (rt2 & Er & O2 & A2 & F2 & C2 & D2).
  { cbn. apply lookup_insert_eq. }
  { reflexivity. }
  exists v', d', (with_active (activeEffect (w_rt w)) rt2).
  split; [exact Em|]. split; [|split; [reflexivity|split; [|split]]].
  - unfold createApp. rewrite Hs. fold s r inst rt1 id.
    unfold Component.effectFn, update. cbn [w_apps w_rt with_rt].
    rewrite list_lookup_middle by reflexivity.
    cbn [a_instance currentVnode a_container]. unfold renderComponent.
    cbn [i_state i_render inst]. fold inst. rewrite Er.
    cbn [with_rt w_vnode w_dom]. rewrite Hv. cbn [render]. rewrite Em.
    unfold set_current. cbn.
    unfold id. rewrite alter_app_r_alt by lia. rewrite Nat.sub_diag. reflexivity.
  - cbn. rewrite O2. reflexivity.
  - change (trace (with_active (activeEffect (w_rt w)) rt2)) with (trace rt2).
    rewrite C2.
    change (trace (with_active (Some id) (record (EvRun id) rt1)))
      with (trace (w_rt w) ++ [EvRun id]).
    rewrite count_runs_app. unfold count_runs at 2.
    rewrite filter_cons_True by (simpl; now rewrite bool_decide_eq_true_2). simpl. lia.
  - intros t k.
    change (depsOf (with_active (activeEffect (w_rt w)) rt2) t k) with (depsOf rt2 t k).
    rewrite D2.
    change (depsOf (with_active (Some id) (record (EvRun id) rt1)) t k)
      with (depsOf (w_rt w) t k).
    destruct (decide _) as [[-> Hin]|Hn]; [|reflexivity].
    assert (Hf : depsOf (w_rt w) s k = None).
    { unfold depsOf, s. now rewrite (proj2 (fresh_target_fresh (w_rt w))). }
    rewrite Hf. reflexivity.
Qed.

(** One run of the wrapper of an app that has rendered before. *)
Lemma effectFn_rerender id w inst c cur s fields :
  w_apps w !! id = Some (App inst c (Some cur)) ->
  i_state inst = Proxy s ->
  objects (w_rt w) !! s = Some fields ->
  exists rt',
    Component.effectFn id w =
      match patch cur (view_value fields (i_render inst)) (w_dom w) with
      | (Ok nv, d) =>
          (Ok tt, World rt' d (<[id := App inst c (Some nv)]> (w_apps w)) (w_vnode w))
      | (Err e, d) => (Err e, World rt' d (w_apps w) (w_vnode w))
      end /\
    activeEffect rt' = activeEffect (w_rt w) /\
    objects rt' = objects (w_rt w) /\
    count_runs id (trace rt') = S (count_runs id (trace (w_rt w))) /\
    (forall t k, depsOf rt' t k =
       if decide (t = s /\ k ∈ view_reads fields (i_render inst))
       then Some (set_add id (default [] (depsOf (w_rt w) t k)))
       else depsOf (w_rt w) t k).
Proof.
  intros Ha Hs Ho.
  destruct (run_view_proxy s id fields (i_render inst)
              (with_active (Some id) (record (EvRun id) (w_rt w))))
    as (rt2 & Er & O2 & A2 & F2 & C2 & D2); [exact Ho|reflexivity|].
  exists (with_active (activeEffect (w_rt w)) rt2).
  split; [|split; [reflexivity|split; [exact O2|split]]].
  - unfold Component.effectFn, update. cbn [w_apps w_rt with_rt]. rewrite Ha.
    cbn [a_instance currentVnode a_container]. unfold renderComponent. rewrite Hs, Er.
    cbn [with_rt w_dom].
    destruct (patch cur (view_value fields (i_render inst)) (w_dom w)) as [[nv|e] d];
      [|reflexivity].
    unfold set_current, with_rt, with_apps, with_dom. cbn [w_rt w_dom w_apps w_vnode].
    do 2 f_equal.
    apply list_eq. intros i. destruct (decide (i = id)) as [->|Hne].
    + rewrite list_lookup_alter_eq, Ha. rewrite list_lookup_insert_eq; [reflexivity|].
      now apply lookup_lt_Some in Ha.
    + rewrite list_lookup_alter_ne by auto. now rewrite list_lookup_insert_ne by auto.
  - change (trace (with_active (activeEffect (w_rt w)) rt2)) with (trace rt2).
    rewrite C2.
    change (trace (with_active (Some id) (record (EvRun id) (w_rt w))))
      with (trace (w_rt w) ++ [EvRun id]).
    rewrite count_runs_app. unfold count_runs at 2.
    rewrite filter_cons_True by (simpl; now rewrite bool_decide_eq_true_2). simpl. lia.
  - intros t k. apply D2.
Qed.

Lemma trigger_forEachDep gas target key w :
  Component.trigger gas target key w = Component.forEachDep gas target key 0 w.
Proof.
  unfold Component.trigger. destruct gas; simpl; unfold depsOf;
    destruct (targetMap (w_rt w) !! target) as [dm|]; try reflexivity;
    destruct (dm !! key); reflexivity.
Qed.

(** X17. For an app that has rendered [cur], whose state is a proxy and
    whose wrapper alone is registered on field [f]: a write [state.f = v]
    stores [v], then runs the wrapper once, which patches [cur] against
    the descriptor that the render function returns on the new state.  If
    [patch] returns, the write returns and [currentVnode] is the new
    descriptor; if [patch] throws, the write throws and [currentVnode]
    stays [cur]; either way the document is as [patch] left it, the other
    apps are untouched and [activeEffect] is as before. *)
Theorem state_write_rerenders_once (w : world) (id : nat) (inst : instance) (c : nat)
    (cur : vnode) (s : nat) (f : string) (v : value) (gas : nat) :
  w_apps w !! id = Some (App inst c (Some cur)) ->
  i_state inst = Proxy s ->
  depsOf (w_rt w) s f = Some [id] ->
  exists w',
    set_state (S gas) inst f v w
      = (match fst (patch cur (view_value (written w s f v) (i_render inst)) (w_dom w)) with
         | Ok _ => Finished
         | Err e => Failed e
         end, w') /\
    w_dom w' = snd (patch cur (view_value (written w s f v) (i_render inst)) (w_dom w)) /\
    w_apps w' !! id
      = Some (App inst c
                (Some (match fst (patch cur (view_value (written w s f v) (i_render inst))
                                    (w_dom w)) with
                       | Ok nv => nv
                       | Err _ => cur
                       end))) /\
    (forall j, j <> id -> w_apps w' !! j = w_apps w !! j) /\
    reflect_get s f (w_rt w') = v /\
    count_runs id (trace (w_rt w')) = S (count_runs id (trace (w_rt w))) /\
    activeEffect (w_rt w') = activeEffect (w_rt w).
Proof.
  intros Ha Hs Hd. unfold set_state. rewrite Hs. rewrite trigger_forEachDep.
  set (rt0 := reflect_set s f v (record (EvSet s f v) (w_rt w))).
  set (w0 := with_rt rt0 w).
  assert (Ho : objects (w_rt w0) !! s = Some (written w s f v)).
  { cbn. apply lookup_insert_eq. }
  destruct (effectFn_rerender id w0 inst c cur s _ Ha Hs Ho) as (rt' & E & A & O & C & D).
  cbn [Component.forEachDep].
  change (depsOf (w_rt w0) s f) with (depsOf (w_rt w) s f). rewrite Hd.
  cbn [lookup list_lookup]. rewrite E. clear E.
  change (w_dom w0) with (w_dom w).
  assert (Hd' : depsOf rt' s f = Some [id]).
  { rewrite D. change (depsOf (w_rt w0) s f) with (depsOf (w_rt w) s f). rewrite Hd.
    destruct (decide _); [|reflexivity]. simpl. rewrite set_add_in by left. reflexivity. }
  assert (Hg : reflect_get s f rt' = v).
  { unfold reflect_get. rewrite O, Ho. unfold written. simpl. now rewrite lookup_insert_eq. }
  assert (Hc : count_runs id (trace rt') = S (count_runs id (trace (w_rt w)))).
  { rewrite C. change (trace (w_rt w0)) with (trace (w_rt w) ++ [EvSet s f v]).
    rewrite count_runs_app. unfold count_runs at 2.
    rewrite filter_cons_False by (simpl; discriminate). simpl. lia. }
  destruct (patch cur (view_value (written w s f v) (i_render inst)) (w_dom w))
    as [[nv|e] d]; cbn [fst snd].
  - eexists. split.
    + destruct gas; cbn [Component.forEachDep w_rt]; rewrite Hd'; reflexivity.
    + cbn [w_dom w_apps w_rt]. split; [reflexivity|]. split.
      * apply list_lookup_insert_eq. now apply lookup_lt_Some in Ha.
      * split; [intros j Hj; now apply list_lookup_insert_ne|].
        split; [exact Hg|]. split; [exact Hc|exact A].
  - eexists. split; [reflexivity|]. cbn [w_dom w_apps w_rt].
    split; [reflexivity|]. split; [exact Ha|]. split; [reflexivity|].
    split; [exact Hg|]. split; [exact Hc|exact A].
Qed.

Lemma state_write_rerenders_once_witness :
  exists w',
    set_state 1 counter_instance "count" (VNum 1) counter_world
      = (match fst (patch counter_tree
                      (view_value (written counter_world 1 "count" (VNum 1))
                         (i_render counter_instance))
                      (w_dom counter_world)) with
         | Ok _ => Finished
         | Err e => Failed e
         end, w') /\
    w_dom w' = snd (patch counter_tree
                      (view_value (written counter_world 1 "count" (VNum 1))
                         (i_render counter_instance))
                      (w_dom counter_world)) /\
    w_apps w' !! 0
      = Some (App counter_instance 0
                (Some (match fst (patch counter_tree
                                    (view_value (written counter_world 1 "count" (VNum 1))
                                       (i_render counter_instance))
                                    (w_dom counter_world)) with
                       | Ok nv => nv
                       | Err _ => counter_tree
                       end))) /\
    (forall j, j <> 0 -> w_apps w' !! j = w_apps counter_world !! j) /\
    reflect_get 1 "count" (w_rt w') = VNum 1 /\
    count_runs 0 (trace (w_rt w')) = S (count_runs 0 (trace (w_rt counter_world))) /\
    activeEffect (w_rt w') = activeEffect (w_rt counter_world).
Proof.
  apply (state_write_rerenders_once counter_world 0 counter_instance 0 counter_tree
           1 "count" (VNum 1) 0).
  - vm_compute. reflexivity.
  - reflexivity.
  - vm_compute. reflexivity.
Defined.

(** X16. For a component whose [setup] yields an object (or that has no
    [setup], or is a function) and whose render function returns, on
    those fields, a tree the backend accepts, on a container without
    [_vnode] in a document whose child lists hold existing nodes:
    [createApp] returns
    the instance, whose state is a proxy on a new object holding the
    fields; the descriptor that the render function returns on those
    fields is mounted under the container, recorded as [currentVnode] and
    as [container._vnode], and mirrored by the document; the new wrapper
    is registered on exactly the fields the render function read; and
    [activeEffect] is as before. *)
Theorem createApp_mounts_the_view (comp : component) (c : nat) (w : world)
    (fields : gmap string value) :
  instance_setup comp = SetupObject fields ->
  renderable (view_value fields (instance_render comp)) = true ->
  wf (w_dom w) ->
  c < length (heap (w_dom w)) ->
  w_vnode w !! c = None ->
  exists inst v' w',
    createApp comp c w = (Ok inst, w') /\
    i_render inst = instance_render comp /\
    i_state inst = Proxy (fresh_target (w_rt w)) /\
    mount (view_value fields (instance_render comp)) (Some c) (w_dom w) = (Ok v', w_dom w') /\
    mirrors (w_dom w') v' /\
    w_apps w' = w_apps w ++ [App inst c (Some v')] /\
    w_vnode w' !! c = Some v' /\
    (forall k, depsOf (w_rt w') (fresh_target (w_rt w)) k =
       if decide (k ∈ view_reads fields (instance_render comp))
       then Some [length (w_apps w)] else None) /\
    (forall k, reflect_get (fresh_target (w_rt w)) k (w_rt w') = field fields k) /\
    activeEffect (w_rt w') = activeEffect (w_rt w).
Proof.
  intros Hs Hr Hwf Hc Hv.
  destruct (createApp_run comp c w fields Hs Hr Hwf Hc Hv)
    as (v' & d' & rt' & Em & E & A & O & _ & D).
  eexists _, v', _. split; [exact E|]. cbn [i_render i_state w_dom w_apps w_vnode w_rt].
  split; [reflexivity|]. split; [reflexivity|]. split; [exact Em|].
  split; [apply (mount_mirrors_all _ c (w_dom w) v' d' Hwf Hc Em)|].
  split; [reflexivity|]. split; [apply lookup_insert_eq|].
  split; [|split; [|exact A]].
  - intros k. rewrite D. destruct (decide (k ∈ _)) as [Hin|Hn].
    + now rewrite decide_True.
    + rewrite decide_False by tauto. unfold depsOf.
      now rewrite (proj2 (fresh_target_fresh (w_rt w))).
  - intros k. unfold reflect_get. rewrite O, lookup_insert_eq. reflexivity.
Qed.

Lemma createApp_mounts_the_view_witness :
  exists inst v' w',
    createApp counter 0 start = (Ok inst, w') /\
    i_render inst = instance_render counter /\
    i_state inst = Proxy (fresh_target (w_rt start)) /\
    mount (view_value {["count" := VNum 0]} (instance_render counter)) (Some 0) (w_dom start)
      = (Ok v', w_dom w') /\
    mirrors (w_dom w') v' /\
    w_apps w' = w_apps start ++ [App inst 0 (Some v')] /\
    w_vnode w' !! 0 = Some v' /\
    (forall k, depsOf (w_rt w') (fresh_target (w_rt start)) k =
       if decide (k ∈ view_reads {["count" := VNum 0]} (instance_render counter))
       then Some [length (w_apps start)] else None) /\
    (forall k, reflect_get (fresh_target (w_rt start)) k (w_rt w')
               = field {["count" := VNum 0]} k) /\
    activeEffect (w_rt w') = activeEffect (w_rt start).
Proof.
  apply (createApp_mounts_the_view counter 0 start {["count" := VNum 0]}).
  - reflexivity.
  - vm_compute. reflexivity.
  - apply VDomFacts.wf_check_sound. vm_compute. reflexivity.
  - vm_compute. lia.
  - reflexivity.
Defined.

(** X18. When the render function returns, on the fields that [setup]
    yields, a tree the backend accepts, [createApp] returns, and after it
    a write to a field of the state that the render function did not read
    stores the value and returns without rendering: the document and the
    apps are as [createApp] left them. *)
Theorem unread_field_write_renders_nothing (comp : component) (c : nat) (w : world)
    (fields : gmap string value) (g : string) (v : value) (gas : nat) :
  instance_setup comp = SetupObject fields ->
  renderable (view_value fields (instance_render comp)) = true ->
  wf (w_dom w) ->
  c < length (heap (w_dom w)) ->
  w_vnode w !! c = None ->
  g ∉ view_reads fields (instance_render comp) ->
  exists inst w1 w2,
    createApp comp c w = (Ok inst, w1) /\
    set_state gas inst g v w1 = (Finished, w2) /\
    w_dom w2 = w_dom w1 /\
    w_apps w2 = w_apps w1 /\
    reflect_get (fresh_target (w_rt w)) g (w_rt w2) = v.
Proof.
  intros Hs Hr Hwf Hc Hv Hg.
  destruct (createApp_run comp c w fields Hs Hr Hwf Hc Hv)
    as (v' & d' & rt' & Em & E & A & O & _ & D).
  eexists _, _, _. split; [exact E|].
  unfold set_state. cbn [i_state]. rewrite trigger_forEachDep.
  assert (Hd : depsOf rt' (fresh_target (w_rt w)) g = None).
  { rewrite D. rewrite decide_False by tauto. unfold depsOf.
    now rewrite (proj2 (fresh_target_fresh (w_rt w))). }
  split.
  - destruct gas; cbn [Component.forEachDep w_rt with_rt];
      change (depsOf (reflect_set _ _ _ (record _ rt')) (fresh_target (w_rt w)) g)
        with (depsOf rt' (fresh_target (w_rt w)) g); rewrite Hd; reflexivity.
  - cbn [w_dom w_apps w_rt with_rt]. split; [reflexivity|]. split; [reflexivity|].
    apply reflect_get_set.
Qed.

Lemma unread_field_write_renders_nothing_witness :
  exists inst w1 w2,
    createApp counter 0 start = (Ok inst, w1) /\
    set_state 3 inst "step" (VNum 2) w1 = (Finished, w2) /\
    w_dom w2 = w_dom w1 /\
    w_apps w2 = w_apps w1 /\
    reflect_get (fresh_target (w_rt start)) "step" (w_rt w2) = VNum 2.
Proof.
  apply (unread_field_write_renders_nothing counter 0 start {["count" := VNum 0]}
           "step" (VNum 2) 3).
  - reflexivity.
  - vm_compute. reflexivity.
  - apply VDomFacts.wf_check_sound. vm_compute. reflexivity.
  - vm_compute. lia.
  - reflexivity.
  - apply (bool_decide_unpack _). vm_compute. exact I.
Defined.

Lemma run_view_plain s fields : forall r st,
  objects st !! s = Some fields ->
  run_view (Plain s) r st = (view_value fields r, st).
Proof.
  induction r as [v|key k IH]; intros st Ho; [reflexivity|].
  cbn [run_view view_value].
  assert (Hv : reflect_get s key st = field fields key).
  { unfold reflect_get. now rewrite Ho. }
  rewrite Hv. now apply IH.
Qed.

(** X19. For a component whose [setup] yields a value that is not an
    object and whose render function returns, on an empty state, a tree
    the backend accepts, [createApp] renders the view once on an empty
    state, which is a plain object: nothing is registered, and no later
    write to the state changes the document. *)
Theorem non_object_setup_is_inert (comp : component) (c : nat) (w : world) :
  instance_setup comp = SetupOther ->
  renderable (view_value ∅ (instance_render comp)) = true ->
  wf (w_dom w) ->
  c < length (heap (w_dom w)) ->
  w_vnode w !! c = None ->
  exists inst v' w1,
    createApp comp c w = (Ok inst, w1) /\
    mount (view_value ∅ (instance_render comp)) (Some c) (w_dom w) = (Ok v', w_dom w1) /\
    targetMap (w_rt w1) = targetMap (w_rt w) /\
    (forall gas k v,
       exists w2,
         set_state gas inst k v w1 = (Finished, w2) /\
         w_dom w2 = w_dom w1 /\
         w_apps w2 = w_apps w1 /\
         targetMap (w_rt w2) = targetMap (w_rt w)).
Proof.
  intros Hs Hr Hwf Hc Hv.
  destruct (mount_ok (view_value ∅ (instance_render comp)) Hr c (w_dom w))
    as (v' & d' & l & Em & _).
  eexists _, v', _. split.
  - unfold createApp. rewrite Hs.
    unfold Component.effectFn, update. cbn [w_apps w_rt with_rt].
    rewrite list_lookup_middle by reflexivity.
    cbn [a_instance currentVnode a_container]. unfold renderComponent.
    cbn [i_state i_render].
    rewrite (run_view_plain _ ∅) by (cbn; apply lookup_insert_eq).
    cbn [with_rt w_vnode w_dom]. rewrite Hv. cbn [render]. rewrite Em. reflexivity.
  - cbn [w_dom w_rt with_rt set_current with_apps with_vnode with_dom].
    split; [exact Em|]. split; [reflexivity|].
    intros gas k v. eexists. split; [reflexivity|]. cbn. auto.
Qed.

Lemma non_object_setup_is_inert_witness :
  exists inst v' w1,
    createApp counter_without_state 0 start = (Ok inst, w1) /\
    mount (view_value ∅ (instance_render counter_without_state)) (Some 0) (w_dom start)
      = (Ok v', w_dom w1) /\
    targetMap (w_rt w1) = targetMap (w_rt start) /\
    (forall gas k v,
       exists w2,
         set_state gas inst k v w1 = (Finished, w2) /\
         w_dom w2 = w_dom w1 /\
         w_apps w2 = w_apps w1 /\
         targetMap (w_rt w2) = targetMap (w_rt start)).
Proof.
  apply (non_object_setup_is_inert counter_without_state 0 start).
  - reflexivity.
  - vm_compute. reflexivity.
  - apply VDomFacts.wf_check_sound. vm_compute. reflexivity.
  - vm_compute. lia.
  - reflexivity.
Defined.

(** X22. [createApp] on a container that already carries a [_vnode]: the
    first render of the new app does not mount, it patches the recorded
    tree against the descriptor of its view.  If [patch] returns, the
    instance is returned and the new descriptor becomes [currentVnode] and
    [container._vnode]; if [patch] throws, [createApp] throws and
    [_vnode] is left as it was.  Either way the wrapper is registered on
    the fields the view read and [activeEffect] is restored. *)
Theorem createApp_on_rendered_container (comp : component) (c : nat) (w : world)
    (fields : gmap string value) (old : vnode) :
  instance_setup comp = SetupObject fields ->
  w_vnode w !! c = Some old ->
  exists rt',
    createApp comp c w =
      (let inst := Instance (instance_render comp) (SetupObject fields)
                            (Proxy (fresh_target (w_rt w))) in
       match patch old (view_value fields (instance_render comp)) (w_dom w) with
       | (Ok v', d') =>
           (Ok inst, World rt' d' (w_apps w ++ [App inst c (Some v')])
                           (<[c := v']> (w_vnode w)))
       | (Err e, d') =>
           (Err e, World rt' d' (w_apps w ++ [App inst c None]) (w_vnode w))
       end) /\
    activeEffect rt' = activeEffect (w_rt w) /\
    (forall k, depsOf rt' (fresh_target (w_rt w)) k =
       if decide (k ∈ view_reads fields (instance_render comp))
       then Some [length (w_apps w)] else None).
Proof.
  intros Hs Hv.
  set (s := fresh_target (w_rt w)). set (id := length (w_apps w)).
  set (r := instance_render comp).
  set (inst := Instance r (SetupObject fields) (Proxy s)).
  set (rt1 := with_objects (<[s := fields]> (objects (w_rt w))) (w_rt w)).
  destruct (run_view_proxy s id fields r (with_active (Some id) (record (EvRun id) rt1)))
    as (rt2 & Er & O2 & A2 & F2 & C2 & D2).
  { cbn. apply lookup_insert_eq. }
  { reflexivity. }
  exists (with_active (activeEffect (w_rt w)) rt2).
  split; [|split; [reflexivity|]].
  - unfold createApp. rewrite Hs. fold s r inst rt1 id.
    unfold Component.effectFn, update. cbn [w_apps w_rt with_rt].
    rewrite list_lookup_middle by reflexivity.
    cbn [a_instance currentVnode a_container]. unfold renderComponent.
    cbn [i_state i_render inst]. fold inst. rewrite Er.
    cbn [with_rt w_vnode w_dom]. rewrite Hv. cbn [render].
    destruct (patch old (view_value fields r) (w_dom w)) as [[v'|e] d']; [|reflexivity].
    unfold set_current. cbn.
    unfold id. rewrite alter_app_r_alt by lia. rewrite Nat.sub_diag. reflexivity.
  - intros k.
    change (depsOf (with_active (activeEffect (w_rt w)) rt2) s k) with (depsOf rt2 s k).
    rewrite D2.
    change (depsOf (with_active (Some id) (record (EvRun id) rt1)) s k)
      with (depsOf (w_rt w) s k).
    assert (Hf : depsOf (w_rt w) s k = None).
    { unfold depsOf, s. now rewrite (proj2 (fresh_target_fresh (w_rt w))). }
    rewrite Hf. destruct (decide (k ∈ _)) as [Hin|Hn].
    + now rewrite decide_True.
    + rewrite decide_False by tauto. reflexivity.
Qed.

Lemma createApp_on_rendered_container_witness :
  exists rt',
    createApp counter 0 counter_world =
      (let inst := Instance (instance_render counter) (SetupObject {["count" := VNum 0]})
                            (Proxy (fresh_target (w_rt counter_world))) in
       match patch counter_tree
               (view_value {["count" := VNum 0]} (instance_render counter))
               (w_dom counter_world) with
       | (Ok v', d') =>
           (Ok inst, World rt' d' (w_apps counter_world ++ [App inst 0 (Some v')])
                           (<[0 := v']> (w_vnode counter_world)))
       | (Err e, d') =>
           (Err e, World rt' d' (w_apps counter_world ++ [App inst 0 None])
                         (w_vnode counter_world))
       end) /\
    activeEffect rt' = activeEffect (w_rt counter_world) /\
    (forall k, depsOf rt' (fresh_target (w_rt counter_world)) k =
       if decide (k ∈ view_reads {["count" := VNum 0]} (instance_render counter))
       then Some [length (w_apps counter_world)] else None).
Proof.
  apply (createApp_on_rendered_container counter 0 counter_world {["count" := VNum 0]}
           counter_tree).
  - reflexivity.
  - vm_compute. reflexivity.
Defined.

End ComponentFacts.
